(** * Clone Hero chart tools: chart document model, .chart parser and writer,
    pitch-to-lane mapping and tick conversion.

    A shallow embedding of [chart_parser.py], [src/map_to_frets.py] and
    [src/chart_writer.py], followed by the properties of the specification
    that concern them.

    Conventions of the embedding.
    - A Python [int] is a [Z]; list indices produced by [range] are [nat].
    - A Python [float] is a binary64 value, written as a [spec_float] of the
      IEEE-754 specification that ships with the prover (53 bits of
      precision, exponent bound 1024).  Every arithmetic step on floats is
      the correctly rounded one.
    - A Python exception is a [Raise] in the [result] monad.
    - A [str] is a [string]; a character stands for the code point of the
      same number (code points below 256). *)

From Stdlib Require Import ZArith Lia Bool List Ascii String.
From Corelib Require Import SpecFloat.
From stdpp Require Import base option list gmap strings sorting.

Open Scope Z_scope.

(** ** Exceptions *)

Inductive exn : Set :=
| ValueError
| IndexError
| OverflowError
| ZeroDivisionError.

Inductive result (A : Type) : Type :=
| Ok (a : A)
| Raise (e : exn).

Arguments Ok {A} a.
Arguments Raise {A} e.

Definition result_bind {A B : Type} (f : A -> result B) (c : result A) : result B :=
  match c with
  | Ok a => f a
  | Raise e => Raise e
  end.

#[global] Instance result_mret : MRet result := fun A a => Ok a.
#[global] Instance result_mbind : MBind result := fun A B f c => result_bind f c.

(** [for x in l: s = body x s], stopping at the first exception. *)
Fixpoint for_each {A S : Type} (l : list A) (body : A -> S -> result S) (s : S) : result S :=
  match l with
  | [] => Ok s
  | x :: l' => s' ← body x s; for_each l' body s'
  end.

(** [l[i]] and [l[i] = v] for a non-negative index. *)
Definition getitem {A : Type} (l : list A) (i : nat) : result A :=
  match l !! i with
  | Some x => Ok x
  | None => Raise IndexError
  end.

Definition setitem {A : Type} (l : list A) (i : nat) (v : A) : result (list A) :=
  if decide (i < length l)%nat then Ok (<[i:=v]> l) else Raise IndexError.

(** ** Python floats *)

Module PyFloat.

Definition prec : Z := 53.
Definition emax : Z := 1024.

(** [float(z)] for an int [z]: the nearest binary64 value, ties to even;
    OverflowError when [z] is too large. *)
Definition of_int (z : Z) : result spec_float :=
  match binary_normalize prec emax z 0 false with
  | S754_infinity _ => Raise OverflowError
  | f => Ok f
  end.

(** [x * y] on floats. *)
Definition mul (x y : spec_float) : spec_float := SFmul prec emax x y.

(** An int as an exact (not yet rounded) float operand. *)
Definition exact (z : Z) : spec_float :=
  match z with
  | Z0 => S754_zero false
  | Zpos m => S754_finite false m 0
  | Zneg m => S754_finite true m 0
  end.

(** [a / b] on ints (true division): the correctly rounded quotient;
    ZeroDivisionError when [b] is 0, OverflowError when the quotient is too
    large for a float. *)
Definition int_true_div (a b : Z) : result spec_float :=
  if decide (b = 0) then Raise ZeroDivisionError
  else
    match SFdiv prec emax (exact a) (exact b) with
    | S754_infinity _ => Raise OverflowError
    | f => Ok f
    end.

(** [x / y] on floats; ZeroDivisionError when [y] is a zero. *)
Definition div (x y : spec_float) : result spec_float :=
  match y with
  | S754_zero _ => Raise ZeroDivisionError
  | _ => Ok (SFdiv prec emax x y)
  end.

(** [x > 0] for a float [x]. *)
Definition gt0 (x : spec_float) : bool :=
  match x with
  | S754_finite false _ _ | S754_infinity false => true
  | _ => false
  end.

(** [int(x)]: truncation toward zero; ValueError on NaN, OverflowError on
    an infinity. *)
Definition to_int (x : spec_float) : result Z :=
  match x with
  | S754_zero _ => Ok 0
  | S754_finite s m e =>
      let v := if 0 <=? e then Z.pos m * 2 ^ e else Z.pos m / 2 ^ (- e) in
      Ok (if s then - v else v)
  | S754_infinity _ => Raise OverflowError
  | S754_nan => Raise ValueError
  end.

(** [round(x)] with one argument: the nearest int, ties to the even one. *)
Definition round_half_even (m : Z) (k : Z) : Z :=
  let q := m / 2 ^ k in
  let r := m mod 2 ^ k in
  match Z.compare (2 * r) (2 ^ k) with
  | Lt => q
  | Gt => q + 1
  | Eq => if Z.even q then q else q + 1
  end.

Definition round (x : spec_float) : result Z :=
  match x with
  | S754_zero _ => Ok 0
  | S754_finite s m e =>
      let v := if 0 <=? e then Z.pos m * 2 ^ e else round_half_even (Z.pos m) (- e) in
      Ok (if s then - v else v)
  | S754_infinity _ => Raise OverflowError
  | S754_nan => Raise ValueError
  end.

(** Decimal literals: [dec n k] is the float written [n / 10^k] in decimal,
    e.g. [dec 1205 1] for [120.5]. *)
Definition dec (n : Z) (k : nat) : spec_float :=
  match int_true_div n (10 ^ Z.of_nat k) with
  | Ok f => f
  | Raise _ => S754_nan
  end.

End PyFloat.

Example float_120 : PyFloat.dec 1200 1 = S754_finite false 8444249301319680 (-46).
Proof. vm_compute. reflexivity. Qed.

(** ** Python strings *)

Abbreviation str := (list ascii).

Module PyStr.

(** A string literal. *)
Definition txt (s : string) : str := list_ascii_of_string s.

Definition nl : ascii := "010"%char.
Definition cr : ascii := "013"%char.
Definition dq : ascii := "034"%char.

(** [c.isspace()] for a code point below 256. *)
Definition isspace (c : ascii) : bool :=
  let n := nat_of_ascii c in
  ((9 <=? n) && (n <=? 13) || (28 <=? n) && (n <=? 32) || (n =? 133) || (n =? 160))%nat.

Fixpoint lstrip_by (p : ascii -> bool) (s : str) : str :=
  match s with
  | [] => []
  | c :: s' => if p c then lstrip_by p s' else s
  end.

Definition rstrip_by (p : ascii -> bool) (s : str) : str := rev (lstrip_by p (rev s)).

Definition strip_by (p : ascii -> bool) (s : str) : str := rstrip_by p (lstrip_by p s).

(** [s.strip()] *)
Definition strip (s : str) : str := strip_by isspace s.

(** [s.strip(chars)] *)
Definition strip_chars (chars : str) (s : str) : str :=
  strip_by (fun c => bool_decide (c ∈ chars)) s.

(** [s.split(sep)] for a one-character separator: never empty. *)
Fixpoint split_on (sep : ascii) (s : str) : list str :=
  match s with
  | [] => [[]]
  | c :: s' =>
      if decide (c = sep) then [] :: split_on sep s'
      else match split_on sep s' with
           | [] => [[c]]
           | w :: ws => (c :: w) :: ws
           end
  end.

(** [sep.join(l)] *)
Fixpoint join (sep : str) (l : list str) : str :=
  match l with
  | [] => []
  | [x] => x
  | x :: l' => x ++ sep ++ join sep l'
  end.

(** [c in s] *)
Definition contains (c : ascii) (s : str) : bool := bool_decide (c ∈ s).

(** [s.split(sep, 1)] for a one-character separator. *)
Fixpoint split_once (sep : ascii) (s : str) : list str :=
  match s with
  | [] => [[]]
  | c :: s' =>
      if decide (c = sep) then [[]; s']
      else match split_once sep s' with
           | w :: ws => (c :: w) :: ws
           | [] => [[c]]
           end
  end.

(** [s.split()]: the maximal runs of non-whitespace characters. *)
Fixpoint split_ws_go (cur : str) (s : str) : list str :=
  match s with
  | [] => match cur with [] => [] | _ => [cur] end
  | c :: s' =>
      if isspace c
      then match cur with [] => split_ws_go [] s' | _ => cur :: split_ws_go [] s' end
      else split_ws_go (cur ++ [c]) s'
  end.

Definition split_ws (s : str) : list str := split_ws_go [] s.

(** [s.startswith(p)] and [s.endswith(p)] *)
Fixpoint startswith (s p : str) : bool :=
  match p, s with
  | [], _ => true
  | _ :: _, [] => false
  | a :: p', b :: s' => bool_decide (a = b) && startswith s' p'
  end.

Definition endswith (s p : str) : bool := startswith (rev s) (rev p).

(** [s[1:-1]] *)
Definition slice_1_m1 (s : str) : str := removelast (tail s).

(** [s[n:]] *)
Definition slice_from (n : nat) (s : str) : str := drop n s.

(** [s.replace(old, "")]: every non-overlapping occurrence of [old], left
    to right, is removed ([old] not empty). *)
Fixpoint remove_all_go (fuel : nat) (old : str) (s : str) : str :=
  match fuel with
  | O => s
  | S fuel' =>
      if startswith s old then remove_all_go fuel' old (drop (length old) s)
      else match s with
           | [] => []
           | c :: s' => c :: remove_all_go fuel' old s'
           end
  end.

Definition remove_all (old : str) (s : str) : str := remove_all_go (S (length s)) old s.

(** Decimal digits. *)
Definition digit_char (d : N) : ascii := ascii_of_N (48 + d).

Definition char_digit (c : ascii) : option N :=
  let n := N_of_ascii c in
  if ((48 <=? n) && (n <=? 57))%N then Some (n - 48)%N else None.

Fixpoint digits_go (fuel : nat) (n : N) (acc : str) : str :=
  match fuel with
  | O => acc
  | S fuel' =>
      let acc' := digit_char (n mod 10) :: acc in
      if (n / 10 =? 0)%N then acc' else digits_go fuel' (n / 10)%N acc'
  end.

Definition str_of_N (n : N) : str := digits_go (S (N.to_nat (N.log2 n))) n [].

(** [str(z)] for an int. *)
Definition str_of_int (z : Z) : str :=
  match z with
  | Z0 => txt "0"
  | Zpos p => str_of_N (Npos p)
  | Zneg p => "-"%char :: str_of_N (Npos p)
  end.

(** The digits of an int literal: decimal digits, single underscores
    allowed between two digits. *)
Fixpoint parse_digits (acc : N) (after_digit : bool) (s : str) : option N :=
  match s with
  | [] => if after_digit then Some acc else None
  | c :: s' =>
      match char_digit c with
      | Some d => parse_digits (acc * 10 + d)%N true s'
      | None =>
          if bool_decide (c = "_"%char) && after_digit
          then parse_digits acc false s'
          else None
      end
  end.

(** [int(s)] for a string: surrounding whitespace, an optional sign, then
    decimal digits; ValueError otherwise. *)
Definition py_int (s : str) : result Z :=
  let body := strip s in
  let '(negative, ds) :=
    match body with
    | c :: ds =>
        if decide (c = "-"%char) then (true, ds)
        else if decide (c = "+"%char) then (false, ds)
        else (false, body)
    | [] => (false, [])
    end in
  match parse_digits 0 false ds with
  | Some n => Ok (if negative then - Z.of_N n else Z.of_N n)
  | None => Raise ValueError
  end.

End PyStr.

(** ** Python dicts and sorting *)

(** A dict keeps its keys in insertion order; assigning to a key that is
    present replaces the value where it stands. *)
Fixpoint dict_set {K V : Type} `{EqDecision K} (k : K) (v : V) (d : list (K * V))
    : list (K * V) :=
  match d with
  | [] => [(k, v)]
  | (k', v') :: d' =>
      if decide (k = k') then (k, v) :: d' else (k', v') :: dict_set k v d'
  end.

Fixpoint dict_get {K V : Type} `{EqDecision K} (k : K) (d : list (K * V)) : option V :=
  match d with
  | [] => None
  | (k', v') :: d' => if decide (k = k') then Some v' else dict_get k d'
  end.

(** [sorted(l, key=...)] and [l.sort(key=...)]: the stable sort, written as
    an insertion sort; [le x y] compares the keys of [x] and [y]. *)
Fixpoint sort_insert {A : Type} (le : A -> A -> bool) (x : A) (l : list A) : list A :=
  match l with
  | [] => [x]
  | y :: l' => if le x y then x :: l else y :: sort_insert le x l'
  end.

Definition py_sorted {A : Type} (le : A -> A -> bool) (l : list A) : list A :=
  foldr (sort_insert le) [] l.

(** ** src/parse_midi.py: the note events the mapping consumes *)

Record NoteEvent : Set := mkNoteEvent {
  start_tick : Z;
  end_tick : Z;
  pitch : Z;
  velocity : Z
}.

(** ** src/map_to_frets.py *)

Module MapToFrets.

Inductive QAIssue : Set :=
| TOO_LOW
| TOO_HIGH
| DIFFERENT_FRET.

#[global] Instance QAIssue_eq_dec : EqDecision QAIssue.
Proof. solve_decision. Defined.

Record MappedNote : Set := mkMappedNote {
  note : NoteEvent;
  lane : Z;
  issues : list QAIssue
}.

(** [int(silence_beats * ticks_per_beat)] *)
Definition silence_threshold (silence_beats : spec_float) (ticks_per_beat : Z) : result Z :=
  tpb ← PyFloat.of_int ticks_per_beat;
  PyFloat.to_int (PyFloat.mul silence_beats tpb).

Definition segment_step (notes : list NoteEvent) (silence_ticks : Z) (i : nat)
    (st : list (list nat) * list nat) : result (list (list nat) * list nat) :=
  let '(phrases, current_phrase) := st in
  prev ← getitem notes (i - 1);
  curr ← getitem notes i;
  let prev_end := end_tick prev in
  let curr_start := start_tick curr in
  let gap := curr_start - prev_end in
  if decide (silence_ticks <= gap)
  then Ok (phrases ++ [current_phrase], [i])
  else Ok (phrases, current_phrase ++ [i]).

Definition segment_into_phrases (notes : list NoteEvent) (ticks_per_beat : Z)
    (silence_beats : spec_float) : result (list (list nat)) :=
  match notes with
  | [] => Ok []
  | _ =>
      silence_ticks ← silence_threshold silence_beats ticks_per_beat;
      '(phrases, current_phrase) ←
        for_each (seq 1 (length notes - 1)) (segment_step notes silence_ticks) ([], [0%nat]);
      match current_phrase with
      | [] => Ok phrases
      | _ => Ok (phrases ++ [current_phrase])
      end
  end.

Definition clamp_lane (lane : Z) : Z := Z.max 0 (Z.min 4 lane).

Definition scale_pitch_to_lane (pitch min_pitch max_pitch : Z) : result Z :=
  if decide (max_pitch = min_pitch) then Ok 2
  else
    ratio ← PyFloat.int_true_div (pitch - min_pitch) (max_pitch - min_pitch);
    lane ← PyFloat.round (PyFloat.mul ratio (PyFloat.exact 4));
    Ok (clamp_lane lane).

Definition clamp_jump_step (max_jump : Z) (i : nat) (res : list Z) : result (list Z) :=
  ri ← getitem res i;
  rp ← getitem res (i - 1);
  let diff := ri - rp in
  if decide (max_jump < Z.abs diff) then
    let moved := if decide (0 < diff) then rp + max_jump else rp - max_jump in
    setitem res i (clamp_lane moved)
  else Ok res.

Definition smooth_lanes (lanes : list Z) (max_jump : Z) (passes : Z) : result (list Z) :=
  if decide (length lanes <= 1)%nat then Ok lanes
  else
    for_each (seq 0 (Z.to_nat passes))
      (fun _ res => for_each (seq 1 (length res - 1)) (clamp_jump_step max_jump) res)
      lanes.

Definition preserve_step (pitches : list Z) (i : nat) (res : list Z) : result (list Z) :=
  pi ← getitem pitches i;
  pp ← getitem pitches (i - 1);
  let pitch_diff := pi - pp in
  ri ← getitem res i;
  rp ← getitem res (i - 1);
  let lane_diff := ri - rp in
  if decide (0 < pitch_diff ∧ lane_diff <= 0) then
    if decide (ri < 4) then setitem res i (Z.min 4 (rp + 1)) else Ok res
  else if decide (pitch_diff < 0 ∧ 0 <= lane_diff) then
    if decide (0 < ri) then setitem res i (Z.max 0 (rp - 1)) else Ok res
  else Ok res.

Definition preserve_direction (lanes : list Z) (pitches : list Z) : result (list Z) :=
  if decide (length lanes <= 1)%nat then Ok lanes
  else for_each (seq 1 (length lanes - 1)) (preserve_step pitches) lanes.

(** [min(l)] and [max(l)] of a list of ints: ValueError on the empty list. *)
Definition py_min (l : list Z) : result Z :=
  match l with
  | [] => Raise ValueError
  | x :: l' => Ok (foldl Z.min x l')
  end.

Definition py_max (l : list Z) : result Z :=
  match l with
  | [] => Raise ValueError
  | x :: l' => Ok (foldl Z.max x l')
  end.

Definition pitches_at (notes : list NoteEvent) (indices : list nat) : result (list Z) :=
  for_each indices (fun i acc => n ← getitem notes i; Ok (acc ++ [pitch n])) [].

Definition scale_phrase (notes : list NoteEvent) (phrase_indices : list nat)
    (lanes : list Z) : result (list Z) :=
  phrase_pitches ← pitches_at notes phrase_indices;
  min_pitch ← py_min phrase_pitches;
  max_pitch ← py_max phrase_pitches;
  for_each phrase_indices
    (fun idx lanes =>
       n ← getitem notes idx;
       l ← scale_pitch_to_lane (pitch n) min_pitch max_pitch;
       setitem lanes idx l)
    lanes.

Definition map_pitches_to_lanes (notes : list NoteEvent) (ticks_per_beat : Z)
    (phrase_silence_beats : spec_float) (max_lane_jump : Z) (smoothing_passes : Z)
    : result (list Z) :=
  match notes with
  | [] => Ok []
  | _ =>
      phrases ← segment_into_phrases notes ticks_per_beat phrase_silence_beats;
      lanes ← for_each phrases (scale_phrase notes) (replicate (length notes) 0);
      let all_pitches := map pitch notes in
      lanes ← smooth_lanes lanes max_lane_jump smoothing_passes;
      lanes ← preserve_direction lanes all_pitches;
      Ok (map clamp_lane lanes)
  end.

(** One iteration of the loop of [detect_qa_issues] over
    [enumerate(zip(notes, lanes))]. *)
Definition qa_append (issues : list (list QAIssue)) (i : nat) (q : QAIssue)
    : result (list (list QAIssue)) :=
  cell ← getitem issues i;
  setitem issues i (cell ++ [q]).

Definition qa_step (notes : list NoteEvent) (lanes : list Z)
    (x : nat * (NoteEvent * Z))
    (st : list (list QAIssue) * gmap Z (gset Z))
    : result (list (list QAIssue) * gmap Z (gset Z)) :=
  let '(i, (note, lane)) := x in
  let '(issues, pitch_to_lanes) := st in
  '(issues, pitch_to_lanes) ←
    match pitch_to_lanes !! pitch note with
    | Some seen =>
        issues ← (if decide (lane ∉ seen) then qa_append issues i DIFFERENT_FRET
                  else Ok issues);
        Ok (issues, <[pitch note := seen ∪ {[lane]}]> pitch_to_lanes)
    | None => Ok (issues, <[pitch note := {[lane]}]> pitch_to_lanes)
    end;
  if decide (0 < i)%nat then
    prev ← getitem notes (i - 1);
    let prev_pitch := pitch prev in
    prev_lane ← getitem lanes (i - 1);
    let pitch_diff := pitch note - prev_pitch in
    let lane_diff := lane - prev_lane in
    issues ← (if decide (2 < pitch_diff ∧ lane_diff < -1)
              then qa_append issues i TOO_LOW else Ok issues);
    issues ← (if decide (pitch_diff < -2 ∧ 1 < lane_diff)
              then qa_append issues i TOO_HIGH else Ok issues);
    Ok (issues, pitch_to_lanes)
  else Ok (issues, pitch_to_lanes).

Definition enumerate {A : Type} (l : list A) : list (nat * A) := imap (fun i x => (i, x)) l.

Definition detect_qa_issues (notes : list NoteEvent) (lanes : list Z)
    : result (list (list QAIssue)) :=
  let issues := replicate (length notes) [] in
  '(issues, _) ← for_each (enumerate (zip notes lanes)) (qa_step notes lanes) (issues, ∅);
  Ok issues.

Definition create_mapped_notes (notes : list NoteEvent) (lanes : list Z) (include_qa : bool)
    : result (list MappedNote) :=
  if decide (length notes ≠ length lanes) then Raise ValueError
  else if include_qa then
    issues ← detect_qa_issues notes lanes;
    Ok (map (fun x => mkMappedNote x.1.1 x.1.2 x.2) (zip (zip notes lanes) issues))
  else
    Ok (map (fun x => mkMappedNote x.1 x.2 []) (zip notes lanes)).

(** [issue.value] *)
Definition issue_value (q : QAIssue) : str :=
  match q with
  | TOO_LOW => PyStr.txt "Bad_Too_Low"
  | TOO_HIGH => PyStr.txt "Bad_Too_High"
  | DIFFERENT_FRET => PyStr.txt "Bad_Different_Fret"
  end.

(** [summary[issue.value] = summary.get(issue.value, 0) + 1] over every issue
    of every note; the summary is a dict. *)
Definition summarize_qa_issues (mapped_notes : list MappedNote) : list (str * Z) :=
  foldl (fun summary mn =>
           foldl (fun summary issue =>
                    let count := match dict_get (issue_value issue) summary with
                                 | Some c => c
                                 | None => 0
                                 end in
                    dict_set (issue_value issue) (count + 1) summary)
             summary (issues mn))
    [] mapped_notes.

End MapToFrets.

(** ** src/chart_writer.py *)

Module ChartWriter.

Definition CHART_RESOLUTION : Z := 192.

(** [int(midi_ticks * chart_resolution / midi_ppq)]: the product is an exact
    int, the division is true division, [int] truncates. *)
Definition midi_ticks_to_chart_ticks (midi_ticks midi_ppq chart_resolution : Z) : result Z :=
  q ← PyFloat.int_true_div (midi_ticks * chart_resolution) midi_ppq;
  PyFloat.to_int q.

(** [math.log2] belongs to the C library, not to the program: its value on
    a positive int is a parameter here.  In [format_sync_track] it is
    called only when the denominator is positive, so it does not raise; what
    [int] makes of its value is [PyFloat.to_int]. *)
Section WithLog2.
Variable math_log2 : Z -> spec_float.

Definition format_sync_track (bpm : spec_float) (time_sig_numerator time_sig_denominator : Z)
    : result str :=
  bpm_value ← PyFloat.to_int (PyFloat.mul bpm (PyFloat.exact 1000));
  ts_denom_exp ←
    (if decide (0 < time_sig_denominator)
     then PyFloat.to_int (math_log2 time_sig_denominator) else Ok 2);
  let lines := [
    PyStr.txt "[SyncTrack]";
    PyStr.txt "{";
    PyStr.txt "  0 = TS " ++ PyStr.str_of_int time_sig_numerator ++ PyStr.txt " "
      ++ PyStr.str_of_int ts_denom_exp;
    PyStr.txt "  0 = B " ++ PyStr.str_of_int bpm_value;
    PyStr.txt "}"
  ] in
  Ok (PyStr.join [PyStr.nl] lines).

End WithLog2.

End ChartWriter.

(** ** chart_parser.py *)

Module ChartParser.
Import PyStr.

Inductive Difficulty : Set :=
| EASY
| MEDIUM
| HARD
| EXPERT.

Inductive Instrument : Set :=
| GUITAR
| BASS
| RHYTHM
| COOP
| KEYS
| DRUMS
| GHL_GUITAR
| GHL_BASS.

#[global] Instance Difficulty_eq_dec : EqDecision Difficulty.
Proof. solve_decision. Defined.

#[global] Instance Instrument_eq_dec : EqDecision Instrument.
Proof. solve_decision. Defined.

#[global] Instance Difficulty_countable : Countable Difficulty.
Proof.
  refine (inj_countable'
            (fun d => match d with EASY => 0 | MEDIUM => 1 | HARD => 2 | EXPERT => 3 end)%nat
            (fun n => match n with
                      | 0 => EASY | 1 => MEDIUM | 2 => HARD | _ => EXPERT
                      end)%nat _).
  by intros [].
Defined.

(** NoteFlag values. *)
Definition FORCED : Z := 5.
Definition TAP : Z := 6.
Definition OPEN : Z := 7.

Record Note : Set := mkNote {
  tick : Z;
  fret : Z;
  sustain : Z;
  is_forced : bool;
  is_tap : bool;
  is_open : bool;
  note_velocity : Z
}.

(** [Note(tick, fret, sustain)] and [Note(tick, fret, sustain, is_open=True)] *)
Definition new_note (tick fret sustain : Z) (is_open : bool) : Note :=
  mkNote tick fret sustain false false is_open 100.

Definition set_forced (n : Note) : Note :=
  mkNote (tick n) (fret n) (sustain n) true (is_tap n) (is_open n) (note_velocity n).

Definition set_tap (n : Note) : Note :=
  mkNote (tick n) (fret n) (sustain n) (is_forced n) true (is_open n) (note_velocity n).

(** [Note.is_chord_with] *)
Definition is_chord_with (n other : Note) : bool := bool_decide (tick n = tick other).

(** [Note.is_hopo]: [previous_note] is [None] or a note; [//] is the floor
    division. *)
Definition is_hopo (n : Note) (previous_note : option Note) (resolution : Z) : bool :=
  match previous_note with
  | None => false
  | Some p =>
      let hopo_threshold := resolution / 12 in
      let tick_diff := tick n - tick p in
      if decide (tick_diff <= hopo_threshold /\ fret n <> fret p) then true else false
  end.

(** [Note.get_final_hopo_state] *)
Definition get_final_hopo_state (n : Note) (previous_note : option Note) (resolution : Z)
    : bool :=
  let natural_hopo := is_hopo n previous_note resolution in
  if is_forced n then negb natural_hopo else natural_hopo.

Record StarPowerPhrase : Set := mkStarPowerPhrase {
  sp_tick : Z;
  sp_length : Z
}.

Record BPMChange : Set := mkBPMChange {
  bpm_tick : Z;
  bpm : spec_float
}.

(** [int(self.bpm * 1000)] *)
Definition milli_bpm (b : BPMChange) : result Z :=
  PyFloat.to_int (PyFloat.mul (bpm b) (PyFloat.exact 1000)).

Record TimeSignature : Set := mkTimeSignature {
  ts_tick : Z;
  numerator : Z;
  denominator : Z
}.

Record ChartSection : Set := mkChartSection {
  section_tick : Z;
  section_name : str
}.

Record Event : Set := mkEvent {
  event_tick : Z;
  event_text : str
}.

Record Track : Set := mkTrack {
  notes : list Note;
  star_power : list StarPowerPhrase;
  track_events : list Event
}.

Definition empty_track : Track := mkTrack [] [] [].

(** The sort key [(n.tick, n.fret)], compared as Python compares tuples. *)
Definition note_key (n : Note) : Z * Z := (tick n, fret n).

Definition key_le (a b : Z * Z) : bool :=
  (a.1 <? b.1) || ((a.1 =? b.1) && (a.2 <=? b.2)).

Definition note_le (x y : Note) : bool := key_le (note_key x) (note_key y).

(** [Track.add_note]: append, then sort the whole list by (tick, fret). *)
Definition add_note (t : Track) (n : Note) : Track :=
  mkTrack (py_sorted note_le (notes t ++ [n])) (star_power t) (track_events t).

Definition get_notes_at_tick (t : Track) (at_tick : Z) : list Note :=
  filter (fun n => tick n = at_tick) (notes t).

Definition get_note_count (t : Track) : Z := Z.of_nat (length (notes t)).

Record Chart : Type := mkChart {
  name : str;
  artist : str;
  album : str;
  genre : str;
  year : str;
  charter : str;
  offset : spec_float;
  resolution : Z;
  difficulty : Z;
  preview_start : spec_float;
  preview_end : spec_float;
  bpm_changes : list BPMChange;
  time_signatures : list TimeSignature;
  sections : list ChartSection;
  events : list Event;
  guitar : gmap Difficulty Track;
  bass : gmap Difficulty Track;
  rhythm : gmap Difficulty Track;
  keys : gmap Difficulty Track;
  drums : gmap Difficulty Track;
  ghl_guitar : gmap Difficulty Track;
  ghl_bass : gmap Difficulty Track
}.

(** [Chart()] *)
Definition new_chart : Chart :=
  mkChart (txt "Untitled") (txt "Unknown Artist") [] (txt "rock") [] []
    (S754_zero false) 192 (-1) (S754_zero false) (S754_zero false)
    [] [] [] [] ∅ ∅ ∅ ∅ ∅ ∅ ∅.

(** The [track_map] of [get_track] and [set_track]: COOP has no entry. *)
Definition track_map (c : Chart) (i : Instrument) : option (gmap Difficulty Track) :=
  match i with
  | GUITAR => Some (guitar c)
  | BASS => Some (bass c)
  | RHYTHM => Some (rhythm c)
  | KEYS => Some (keys c)
  | DRUMS => Some (drums c)
  | GHL_GUITAR => Some (ghl_guitar c)
  | GHL_BASS => Some (ghl_bass c)
  | COOP => None
  end.

Definition get_track (c : Chart) (i : Instrument) (d : Difficulty) : option Track :=
  match track_map c i with
  | Some tracks => tracks !! d
  | None => None
  end.

Definition with_tracks (c : Chart) (i : Instrument) (f : gmap Difficulty Track -> gmap Difficulty Track)
    : Chart :=
  let upd j m := if decide (i = j) then f m else m in
  mkChart (name c) (artist c) (album c) (genre c) (year c) (charter c) (offset c)
    (resolution c) (difficulty c) (preview_start c) (preview_end c)
    (bpm_changes c) (time_signatures c) (sections c) (events c)
    (upd GUITAR (guitar c)) (upd BASS (bass c)) (upd RHYTHM (rhythm c))
    (upd KEYS (keys c)) (upd DRUMS (drums c)) (upd GHL_GUITAR (ghl_guitar c))
    (upd GHL_BASS (ghl_bass c)).

Definition set_track (c : Chart) (i : Instrument) (d : Difficulty) (t : Track) : Chart :=
  with_tracks c i (fun tracks => <[d := t]> tracks).

Definition get_initial_bpm (c : Chart) : spec_float :=
  match bpm_changes c with
  | b :: _ => bpm b
  | [] => PyFloat.dec 1200 1
  end.

(** Field updates of the parser. *)
Definition with_song (c : Chart) (name artist album genre year charter : str)
    (offset : spec_float) (resolution difficulty : Z) (preview_start preview_end : spec_float)
    : Chart :=
  mkChart name artist album genre year charter offset resolution difficulty
    preview_start preview_end
    (bpm_changes c) (time_signatures c) (sections c) (events c)
    (guitar c) (bass c) (rhythm c) (keys c) (drums c) (ghl_guitar c) (ghl_bass c).

Definition with_sync (c : Chart) (bpms : list BPMChange) (tss : list TimeSignature) : Chart :=
  mkChart (name c) (artist c) (album c) (genre c) (year c) (charter c) (offset c)
    (resolution c) (difficulty c) (preview_start c) (preview_end c)
    bpms tss (sections c) (events c)
    (guitar c) (bass c) (rhythm c) (keys c) (drums c) (ghl_guitar c) (ghl_bass c).

Definition with_events (c : Chart) (secs : list ChartSection) (evs : list Event) : Chart :=
  mkChart (name c) (artist c) (album c) (genre c) (year c) (charter c) (offset c)
    (resolution c) (difficulty c) (preview_start c) (preview_end c)
    (bpm_changes c) (time_signatures c) secs evs
    (guitar c) (bass c) (rhythm c) (keys c) (drums c) (ghl_guitar c) (ghl_bass c).

(** *** The section splitter *)

Definition is_header (line : str) : bool :=
  startswith line (txt "[") && endswith line (txt "]").

(** [if current_section: sections[current_section] = '\n'.join(current_content)] *)
Definition save_section (sections : list (str * str)) (current_section : option str)
    (current_content : list str) : list (str * str) :=
  match current_section with
  | Some (c :: cs) => dict_set (c :: cs) (join [nl] current_content) sections
  | _ => sections
  end.

Definition split_step (line : str)
    (st : list (str * str) * option str * list str)
    : list (str * str) * option str * list str :=
  let '(sections, current_section, current_content) := st in
  let line := strip line in
  if is_header line then
    (save_section sections current_section current_content,
     Some (slice_1_m1 line), [])
  else if bool_decide (line <> [] /\ line <> txt "{" /\ line <> txt "}") then
    (sections, current_section, current_content ++ [line])
  else st.

Definition _split_sections (content : str) : list (str * str) :=
  let '(sections, current_section, current_content) :=
    foldl (fun st line => split_step line st) ([], None, []) (split_on nl content) in
  save_section sections current_section current_content.

(** *** Section parsers

    [float_of_str] is Python's [float] on a string and [float_repr] the text
    an f-string gives a float; both belong to the language, not to the
    program. *)

Section WithFloatText.
Variable float_of_str : str -> result spec_float.
Variable float_repr : spec_float -> str.

(** A loop over the lines of a section, with [continue] on the lines that
    hold no [=]. *)
Definition for_each_assignment {S : Type} (content : str)
    (body : str -> str -> S -> result S) (s : S) : result S :=
  for_each (split_on nl content)
    (fun line s =>
       let line := strip line in
       if negb (contains "="%char line) then Ok s
       else
         let parts := split_once "="%char line in
         left ← getitem parts 0;
         right ← getitem parts 1;
         body left right s)
    s.

Definition song_step (key value : str) (c : Chart) : result Chart :=
  let key := strip key in
  let value := strip_chars [dq] (strip value) in
  let upd name artist album genre year charter offset resolution difficulty ps pe :=
    with_song c name artist album genre year charter offset resolution difficulty ps pe in
  if decide (key = txt "Name") then
    Ok (upd value (artist c) (album c) (genre c) (year c) (charter c) (offset c)
          (resolution c) (difficulty c) (preview_start c) (preview_end c))
  else if decide (key = txt "Artist") then
    Ok (upd (name c) value (album c) (genre c) (year c) (charter c) (offset c)
          (resolution c) (difficulty c) (preview_start c) (preview_end c))
  else if decide (key = txt "Album") then
    Ok (upd (name c) (artist c) value (genre c) (year c) (charter c) (offset c)
          (resolution c) (difficulty c) (preview_start c) (preview_end c))
  else if decide (key = txt "Genre") then
    Ok (upd (name c) (artist c) (album c) value (year c) (charter c) (offset c)
          (resolution c) (difficulty c) (preview_start c) (preview_end c))
  else if decide (key = txt "Year") then
    Ok (upd (name c) (artist c) (album c) (genre c) value (charter c) (offset c)
          (resolution c) (difficulty c) (preview_start c) (preview_end c))
  else if decide (key = txt "Charter") then
    Ok (upd (name c) (artist c) (album c) (genre c) (year c) value (offset c)
          (resolution c) (difficulty c) (preview_start c) (preview_end c))
  else if decide (key = txt "Offset") then
    x ← float_of_str value;
    Ok (upd (name c) (artist c) (album c) (genre c) (year c) (charter c) x
          (resolution c) (difficulty c) (preview_start c) (preview_end c))
  else if decide (key = txt "Resolution") then
    x ← py_int value;
    Ok (upd (name c) (artist c) (album c) (genre c) (year c) (charter c) (offset c)
          x (difficulty c) (preview_start c) (preview_end c))
  else if decide (key = txt "Difficulty") then
    x ← py_int value;
    Ok (upd (name c) (artist c) (album c) (genre c) (year c) (charter c) (offset c)
          (resolution c) x (preview_start c) (preview_end c))
  else if decide (key = txt "PreviewStart") then
    x ← float_of_str value;
    Ok (upd (name c) (artist c) (album c) (genre c) (year c) (charter c) (offset c)
          (resolution c) (difficulty c) x (preview_end c))
  else if decide (key = txt "PreviewEnd") then
    x ← float_of_str value;
    Ok (upd (name c) (artist c) (album c) (genre c) (year c) (charter c) (offset c)
          (resolution c) (difficulty c) (preview_start c) x)
  else Ok c.

Definition _parse_song_section (c : Chart) (content : str) : result Chart :=
  for_each_assignment content song_step c.

Definition sync_step (left right : str) (c : Chart) : result Chart :=
  tick ← py_int (strip left);
  let event_data := split_ws (strip right) in
  event_type ← getitem event_data 0;
  if decide (event_type = txt "B") then
    arg ← getitem event_data 1;
    milli ← py_int arg;
    m ← PyFloat.of_int milli;
    b ← PyFloat.div m (PyFloat.exact 1000);
    Ok (with_sync c (bpm_changes c ++ [mkBPMChange tick b]) (time_signatures c))
  else if decide (event_type = txt "TS") then
    arg ← getitem event_data 1;
    num ← py_int arg;
    den ← (if decide (2 < length event_data)%nat
           then arg2 ← getitem event_data 2; py_int arg2
           else Ok 2);
    Ok (with_sync c (bpm_changes c) (time_signatures c ++ [mkTimeSignature tick num den]))
  else Ok c.

Definition _parse_sync_track (c : Chart) (content : str) : result Chart :=
  for_each_assignment content sync_step c.

Definition events_step (left right : str) (c : Chart) : result Chart :=
  tick ← py_int (strip left);
  let event_data := strip right in
  if startswith event_data (txt "E " ++ [dq] ++ txt "section") then
    quoted ← getitem (split_on dq event_data) 1;
    let section_name := remove_all (txt "section ") quoted in
    Ok (with_events c (sections c ++ [mkChartSection tick section_name]) (events c))
  else
    let event_text := strip_chars [dq] (strip_chars (txt "E ") event_data) in
    Ok (with_events c (sections c) (events c ++ [mkEvent tick event_text])).

Definition _parse_events (c : Chart) (content : str) : result Chart :=
  for_each_assignment content events_step c.

(** The two tables of [_parse_track_section], in their order. *)
Definition difficulty_map : list (str * Difficulty) :=
  [(txt "Easy", EASY); (txt "Medium", MEDIUM); (txt "Hard", HARD); (txt "Expert", EXPERT)].

Definition instrument_map : list (str * Instrument) :=
  [(txt "Single", GUITAR); (txt "DoubleBass", BASS); (txt "DoubleRhythm", RHYTHM);
   (txt "DoubleGuitar", COOP); (txt "Keyboard", KEYS); (txt "Drums", DRUMS);
   (txt "GHLGuitar", GHL_GUITAR); (txt "GHLBass", GHL_BASS)].

(** The loop over [difficulty_map.items()] with its [break]. *)
Fixpoint find_track (section_name : str) (table : list (str * Difficulty))
    : option Difficulty * option Instrument :=
  match table with
  | [] => (None, None)
  | (diff_name, diff_enum) :: table' =>
      if startswith section_name diff_name
      then (Some diff_enum, dict_get (slice_from (length diff_name) section_name) instrument_map)
      else find_track section_name table'
  end.

(** [note_buffer]: tick -> (fret -> Note), both in insertion order. *)
Definition buffer_put (buf : list (Z * list (Z * Note))) (n : Note)
    : list (Z * list (Z * Note)) :=
  let inner := match dict_get (tick n) buf with
               | Some inner => inner
               | None => []
               end in
  dict_set (tick n) (dict_set (fret n) n inner) buf.

Definition buffer_mark (f : Note -> Note) (buf : list (Z * list (Z * Note))) (at_tick : Z)
    : list (Z * list (Z * Note)) :=
  match dict_get at_tick buf with
  | Some inner => dict_set at_tick (map (fun kv => (kv.1, f kv.2)) inner) buf
  | None => buf
  end.

Definition track_step (left right : str)
    (st : Track * list (Z * list (Z * Note)))
    : result (Track * list (Z * list (Z * Note))) :=
  let '(track, note_buffer) := st in
  tick ← py_int (strip left);
  let event_data := split_ws (strip right) in
  event_type ← getitem event_data 0;
  if decide (event_type = txt "N") then
    a1 ← getitem event_data 1;
    fret ← py_int a1;
    a2 ← getitem event_data 2;
    sustain ← py_int a2;
    if decide (fret = FORCED) then Ok (track, buffer_mark set_forced note_buffer tick)
    else if decide (fret = TAP) then Ok (track, buffer_mark set_tap note_buffer tick)
    else if decide (fret = OPEN)
    then Ok (track, buffer_put note_buffer (new_note tick fret sustain true))
    else Ok (track, buffer_put note_buffer (new_note tick fret sustain false))
  else if decide (event_type = txt "S") then
    a1 ← getitem event_data 1;
    sp_type ← py_int a1;
    a2 ← getitem event_data 2;
    length ← py_int a2;
    if decide (sp_type = 2)
    then Ok (mkTrack (notes track) (star_power track ++ [mkStarPowerPhrase tick length])
               (track_events track), note_buffer)
    else Ok st
  else if decide (event_type = txt "E") then
    let event_text := strip_chars [dq] (join (txt " ") (drop 1 event_data)) in
    Ok (mkTrack (notes track) (star_power track) (track_events track ++ [mkEvent tick event_text]),
        note_buffer)
  else Ok st.

(** The notes of the buffer in the order the flush visits them. *)
Definition buffer_notes (buf : list (Z * list (Z * Note))) : list Note :=
  concat (map (fun tv => map snd tv.2) buf).

(** The track a section's text parses to, before it is stored. *)
Definition parse_track_lines (content : str) : result Track :=
  '(track, note_buffer) ← for_each_assignment content track_step (empty_track, []);
  Ok (foldl add_note track (buffer_notes note_buffer)).

Definition _parse_track_section (c : Chart) (section_name : str) (content : str)
    : result Chart :=
  match find_track section_name difficulty_map with
  | (Some difficulty, Some instrument) =>
      track ← parse_track_lines content;
      Ok (set_track c instrument difficulty track)
  | _ => Ok c
  end.

(** Reading a text file translates every line ending to a newline. *)
Fixpoint universal_newlines (s : str) : str :=
  match s with
  | [] => []
  | c :: s' =>
      if decide (c = cr) then
        match s' with
        | c' :: s'' => if decide (c' = nl) then nl :: universal_newlines s''
                       else nl :: universal_newlines s'
        | [] => [nl]
        end
      else c :: universal_newlines s'
  end.

(** [parse_file], given the text stored in the file. *)
Definition parse_file (file_text : str) : result Chart :=
  let content := universal_newlines file_text in
  let sections := _split_sections content in
  for_each sections
    (fun kv chart =>
       let '(section_name, section_content) := kv in
       if decide (section_name = txt "Song") then _parse_song_section chart section_content
       else if decide (section_name = txt "SyncTrack") then _parse_sync_track chart section_content
       else if decide (section_name = txt "Events") then _parse_events chart section_content
       else _parse_track_section chart section_name section_content)
    new_chart.

(** *** The writer *)

Definition quoted (s : str) : str := [dq] ++ s ++ [dq].

Definition song_lines (c : Chart) : list str :=
  [txt "[Song]"; txt "{";
   txt "  Name = " ++ quoted (name c);
   txt "  Artist = " ++ quoted (artist c)]
  ++ (if decide (album c <> []) then [txt "  Album = " ++ quoted (album c)] else [])
  ++ (if decide (genre c <> []) then [txt "  Genre = " ++ quoted (genre c)] else [])
  ++ (if decide (year c <> []) then [txt "  Year = " ++ quoted (year c)] else [])
  ++ (if decide (charter c <> []) then [txt "  Charter = " ++ quoted (charter c)] else [])
  ++ [txt "  Offset = " ++ float_repr (offset c);
      txt "  Resolution = " ++ str_of_int (resolution c)]
  ++ (if decide (0 <= difficulty c)
      then [txt "  Difficulty = " ++ str_of_int (difficulty c)] else [])
  ++ (if PyFloat.gt0 (preview_start c)
      then [txt "  PreviewStart = " ++ float_repr (preview_start c)] else [])
  ++ (if PyFloat.gt0 (preview_end c)
      then [txt "  PreviewEnd = " ++ float_repr (preview_end c)] else [])
  ++ [txt "}"; []].

Definition sync_lines (c : Chart) : result (list str) :=
  let ts_lines :=
    map (fun ts => txt "  " ++ str_of_int (ts_tick ts) ++ txt " = TS " ++ str_of_int (numerator ts))
      (py_sorted (fun x y => ts_tick x <=? ts_tick y) (time_signatures c)) in
  bpm_lines ←
    for_each (py_sorted (fun x y => bpm_tick x <=? bpm_tick y) (bpm_changes c))
      (fun b acc =>
         m ← milli_bpm b;
         Ok (acc ++ [txt "  " ++ str_of_int (bpm_tick b) ++ txt " = B " ++ str_of_int m]))
      [];
  Ok ([txt "[SyncTrack]"; txt "{"] ++ ts_lines ++ bpm_lines ++ [txt "}"; []]).

Definition event_line (e : Event) : str :=
  txt "  " ++ str_of_int (event_tick e) ++ txt " = E " ++ quoted (event_text e).

Definition events_lines (c : Chart) : list str :=
  [txt "[Events]"; txt "{"]
  ++ map (fun sec => txt "  " ++ str_of_int (section_tick sec) ++ txt " = E "
                       ++ quoted (txt "section " ++ section_name sec))
       (py_sorted (fun x y => section_tick x <=? section_tick y) (sections c))
  ++ map event_line (py_sorted (fun x y => event_tick x <=? event_tick y) (events c))
  ++ [txt "}"; []].

Definition note_lines (n : Note) : list str :=
  [txt "  " ++ str_of_int (tick n) ++ txt " = N " ++ str_of_int (fret n) ++ txt " "
     ++ str_of_int (sustain n)]
  ++ (if is_forced n
      then [txt "  " ++ str_of_int (tick n) ++ txt " = N " ++ str_of_int FORCED ++ txt " 0"]
      else [])
  ++ (if is_tap n
      then [txt "  " ++ str_of_int (tick n) ++ txt " = N " ++ str_of_int TAP ++ txt " 0"]
      else []).

Definition track_lines (section_name : str) (t : Track) : list str :=
  [txt "[" ++ section_name ++ txt "]"; txt "{"]
  ++ concat (map note_lines (py_sorted note_le (notes t)))
  ++ map (fun sp => txt "  " ++ str_of_int (sp_tick sp) ++ txt " = S 2 " ++ str_of_int (sp_length sp))
       (py_sorted (fun x y => sp_tick x <=? sp_tick y) (star_power t))
  ++ map event_line (py_sorted (fun x y => event_tick x <=? event_tick y) (track_events t))
  ++ [txt "}"; []].

(** The two lists of [_write_tracks], in their order. *)
Definition written_instruments : list (Instrument * str) :=
  [(GUITAR, txt "Single"); (BASS, txt "DoubleBass"); (RHYTHM, txt "DoubleRhythm");
   (KEYS, txt "Keyboard"); (DRUMS, txt "Drums"); (GHL_GUITAR, txt "GHLGuitar");
   (GHL_BASS, txt "GHLBass")].

Definition written_difficulties : list (Difficulty * str) :=
  [(EASY, txt "Easy"); (MEDIUM, txt "Medium"); (HARD, txt "Hard"); (EXPERT, txt "Expert")].

Definition _write_tracks (c : Chart) : list str :=
  concat (map (fun ik : Instrument * str =>
    concat (map (fun dk : Difficulty * str =>
      match get_track c ik.1 dk.1 with
      | Some track => track_lines (dk.2 ++ ik.2) track
      | None => []
      end) written_difficulties)) written_instruments).

(** [write_file]: the text written to the file. *)
Definition write_file (c : Chart) : result str :=
  sync ← sync_lines c;
  Ok (join [nl] (song_lines c ++ sync ++ events_lines c ++ _write_tracks c)).

End WithFloatText.

End ChartParser.

(** * Facts about the float operations *)

Section FloatFacts.

Abbreviation fexp := (SpecFloat.fexp PyFloat.prec PyFloat.emax).

Lemma digits2_pos_size (p : positive) : digits2_pos p = Pos.size p.
Proof. induction p; simpl; congruence. Qed.

Lemma Zdigits2_log2 (p : positive) : Zdigits2 (Z.pos p) = Z.log2 (Z.pos p) + 1.
Proof.
  destruct p; simpl; rewrite ?digits2_pos_size; lia.
Qed.

Lemma Zdigits2_bounds (m : Z) :
  0 < m -> 2 ^ (Zdigits2 m - 1) <= m < 2 ^ Zdigits2 m.
Proof.
  intros Hm. destruct m as [|p|p]; try lia.
  rewrite Zdigits2_log2.
  replace (Z.log2 (Z.pos p) + 1 - 1) with (Z.log2 (Z.pos p)) by lia.
  pose proof (Z.log2_spec (Z.pos p) Hm) as H.
  replace (Z.succ (Z.log2 (Z.pos p))) with (Z.log2 (Z.pos p) + 1) in H by lia.
  exact H.
Qed.

Lemma Zdigits2_nonneg (m : Z) : 0 <= Zdigits2 m.
Proof. destruct m; simpl; lia. Qed.

Lemma Zdigits2_unique (m d : Z) :
  2 ^ (d - 1) <= m < 2 ^ d -> 0 < m -> Zdigits2 m = d.
Proof.
  intros [Hlo Hhi] Hm.
  pose proof (Zdigits2_bounds m Hm) as [Hlo' Hhi'].
  pose proof (Zdigits2_nonneg m) as Hn.
  assert (Hd : 0 < d).
  { destruct (Z_lt_le_dec 0 d) as [|Hle]; [done|].
    exfalso. assert (2 ^ d <= 2 ^ 0) by (apply Z.pow_le_mono_r; lia).
    simpl in *; lia. }
  destruct (Z_lt_le_dec (Zdigits2 m) d) as [Hlt|Hge].
  - assert (2 ^ Zdigits2 m <= 2 ^ (d - 1)) by (apply Z.pow_le_mono_r; lia). lia.
  - destruct (Z_lt_le_dec d (Zdigits2 m)) as [Hlt|Hge']; [|lia].
    assert (2 ^ d <= 2 ^ (Zdigits2 m - 1)) by (apply Z.pow_le_mono_r; lia). lia.
Qed.

Lemma Zdigits2_le_bound (m d : Z) : 0 <= d -> 0 <= m < 2 ^ d -> Zdigits2 m <= d.
Proof.
  intros Hd [Hlo Hhi].
  destruct (Z.eq_dec m 0) as [->|Hne]; [simpl; lia|].
  pose proof (Zdigits2_bounds m ltac:(lia)) as [Hlo' Hhi'].
  destruct (Z_lt_le_dec d (Zdigits2 m)) as [Hlt|]; [|lia].
  assert (2 ^ d <= 2 ^ (Zdigits2 m - 1)) by (apply Z.pow_le_mono_r; lia). lia.
Qed.

(** One right shift halves the mantissa and remembers the bit it drops. *)
Lemma shr_1_spec (mrs : shr_record) :
  0 <= shr_m mrs ->
  shr_m (shr_1 mrs) = shr_m mrs / 2 /\ shr_r (shr_1 mrs) = Z.odd (shr_m mrs).
Proof.
  destruct mrs as [m r s]; simpl. intros Hm.
  destruct m as [|p|p]; [done| |lia].
  destruct p as [p|p|]; simpl shr_m; simpl shr_r.
  - split; [|done]. rewrite Pos2Z.inj_xI.
    apply (Z.div_unique_pos _ _ _ 1); lia.
  - split; [|done]. rewrite Pos2Z.inj_xO.
    apply (Z.div_unique_pos _ _ _ 0); lia.
  - done.
Qed.

Lemma pow2_xI (p : positive) : 2 ^ Z.pos p~1 = 2 * (2 ^ Z.pos p * 2 ^ Z.pos p).
Proof.
  replace (Z.pos p~1) with (Z.pos p + Z.pos p + 1) by lia.
  rewrite !Z.pow_add_r by lia. change (2 ^ 1) with 2. ring.
Qed.

Lemma pow2_xO (p : positive) : 2 ^ Z.pos p~0 = 2 ^ Z.pos p * 2 ^ Z.pos p.
Proof.
  replace (Z.pos p~0) with (Z.pos p + Z.pos p) by lia.
  by rewrite Z.pow_add_r by lia.
Qed.

Lemma iter_shr_1_spec (p : positive) (mrs : shr_record) :
  0 <= shr_m mrs ->
  shr_m (SpecFloat.iter_pos shr_1 p mrs) = shr_m mrs / 2 ^ Z.pos p /\
  shr_r (SpecFloat.iter_pos shr_1 p mrs) = Z.testbit (shr_m mrs) (Z.pos p - 1).
Proof.
  revert mrs. induction p as [p IH|p IH|]; intros mrs Hm; simpl SpecFloat.iter_pos.
  - destruct (shr_1_spec mrs Hm) as [H1 _].
    assert (H1' : 0 <= shr_m (shr_1 mrs)) by (rewrite H1; apply Z.div_pos; lia).
    destruct (IH _ H1') as [H2 _].
    assert (H2' : 0 <= shr_m (SpecFloat.iter_pos shr_1 p (shr_1 mrs))).
    { rewrite H2. apply Z.div_pos; lia. }
    destruct (IH _ H2') as [H3 H3r].
    rewrite H3, H3r, H2, H1. split.
    + rewrite !Z.div_div by lia. by rewrite pow2_xI.
    + rewrite Z.div_div by lia.
      replace (2 * 2 ^ Z.pos p) with (2 ^ (Z.pos p + 1)) by (rewrite Z.pow_add_r by lia; lia).
      rewrite Z.div_pow2_bits by lia. f_equal. lia.
  - destruct (IH _ Hm) as [H2 _].
    assert (H2' : 0 <= shr_m (SpecFloat.iter_pos shr_1 p mrs)).
    { rewrite H2. apply Z.div_pos; lia. }
    destruct (IH _ H2') as [H3 H3r].
    rewrite H3, H3r, H2. split.
    + rewrite !Z.div_div by lia. by rewrite pow2_xO.
    + rewrite Z.div_pow2_bits by lia. f_equal. lia.
  - destruct (shr_1_spec mrs Hm) as [H1 H1r]. rewrite H1, H1r. split.
    + done.
    + change (Z.pos 1 - 1) with 0. symmetry. apply Z.bit0_odd.
Qed.

(** The bit that decides whether rounding may go up after [n] dropped
    bits: the last dropped bit, or the incoming location when nothing is
    dropped. *)
Definition round_bit (mx n : Z) (lx : location) : bool :=
  if 0 <? n then Z.testbit mx (n - 1)
  else match lx with
       | loc_Inexact Eq | loc_Inexact Gt => true
       | _ => false
       end.

Lemma shr_record_of_loc_m (m : Z) (l : location) : shr_m (shr_record_of_loc m l) = m.
Proof. by destruct l as [|[]]. Qed.

Lemma shr_record_of_loc_r (m : Z) (l : location) :
  shr_r (shr_record_of_loc m l) = round_bit m 0 l.
Proof. by destruct l as [|[]]. Qed.

Lemma shr_fexp_spec (mx ex : Z) (lx : location) :
  0 <= mx ->
  exists mrs,
    shr_fexp PyFloat.prec PyFloat.emax mx ex lx
      = (mrs, Z.max ex (fexp (Zdigits2 mx + ex))) /\
    shr_m mrs = mx / 2 ^ (Z.max ex (fexp (Zdigits2 mx + ex)) - ex) /\
    shr_r mrs = round_bit mx (Z.max ex (fexp (Zdigits2 mx + ex)) - ex) lx.
Proof.
  intros Hm. unfold shr_fexp, shr.
  destruct (fexp (Zdigits2 mx + ex) - ex) as [|p|p] eqn:Hn.
  - replace (Z.max ex (fexp (Zdigits2 mx + ex))) with ex by lia.
    eexists; split; [done|]. rewrite Z.sub_diag, Z.div_1_r.
    by rewrite shr_record_of_loc_m, shr_record_of_loc_r.
  - replace (Z.max ex (fexp (Zdigits2 mx + ex))) with (ex + Z.pos p) by lia.
    eexists; split; [done|].
    replace (ex + Z.pos p - ex) with (Z.pos p) by lia.
    destruct (iter_shr_1_spec p (shr_record_of_loc mx lx)) as [H1 H2].
    { by rewrite shr_record_of_loc_m. }
    rewrite shr_record_of_loc_m in H1, H2. by rewrite H1, H2.
  - replace (Z.max ex (fexp (Zdigits2 mx + ex))) with ex by lia.
    eexists; split; [done|]. rewrite Z.sub_diag, Z.div_1_r.
    by rewrite shr_record_of_loc_m, shr_record_of_loc_r.
Qed.

Lemma round_nearest_even_cases (mrs : shr_record) :
  round_nearest_even (shr_m mrs) (loc_of_shr_record mrs) = shr_m mrs \/
  (round_nearest_even (shr_m mrs) (loc_of_shr_record mrs) = shr_m mrs + 1 /\
   shr_r mrs = true).
Proof.
  destruct mrs as [m [] []]; simpl; auto.
  destruct (Z.even m); auto.
Qed.

(** [binary_round_aux] unfolded: one shift to the target exponent [e1], a
    rounding step that adds at most one unit, and a renormalising shift. *)
Lemma binary_round_aux_spec (s : bool) (mx ex : Z) (lx : location) :
  0 <= mx ->
  exists m1,
    (m1 = mx / 2 ^ (Z.max ex (fexp (Zdigits2 mx + ex)) - ex) \/
     (m1 = mx / 2 ^ (Z.max ex (fexp (Zdigits2 mx + ex)) - ex) + 1 /\
      round_bit mx (Z.max ex (fexp (Zdigits2 mx + ex)) - ex) lx = true)) /\
    binary_round_aux PyFloat.prec PyFloat.emax s mx ex lx =
      let e1 := Z.max ex (fexp (Zdigits2 mx + ex)) in
      let e2 := Z.max e1 (fexp (Zdigits2 m1 + e1)) in
      match m1 / 2 ^ (e2 - e1) with
      | Z0 => S754_zero s
      | Zpos m => if e2 <=? PyFloat.emax - PyFloat.prec
                  then S754_finite s m e2 else S754_infinity s
      | Zneg _ => S754_nan
      end.
Proof.
  intros Hm. unfold binary_round_aux.
  destruct (shr_fexp_spec mx ex lx Hm) as (mrs & -> & Hmrs & Hr).
  set (e1 := Z.max ex (fexp (Zdigits2 mx + ex))) in *.
  set (m1 := round_nearest_even (shr_m mrs) (loc_of_shr_record mrs)).
  assert (Hm1 : m1 = shr_m mrs \/ (m1 = shr_m mrs + 1 /\ shr_r mrs = true))
    by apply round_nearest_even_cases.
  assert (Hm' : 0 <= shr_m mrs).
  { rewrite Hmrs. apply Z.div_pos; [done|]. apply Z.pow_pos_nonneg; lia. }
  assert (Hm1' : 0 <= m1) by lia.
  destruct (shr_fexp_spec m1 e1 loc_Exact Hm1') as (mrs2 & -> & Hmrs2 & _).
  exists m1. split.
  - rewrite <- Hmrs, <- Hr. tauto.
  - simpl. by rewrite Hmrs2.
Qed.

Lemma fexp_le (d K : Z) : d <= K + 53 -> -1074 <= K -> fexp d <= K.
Proof. unfold SpecFloat.fexp, emin, PyFloat.prec, PyFloat.emax. lia. Qed.

Lemma pow2_split (a b : Z) : 0 <= a -> 0 <= b -> 2 ^ (a + b) = 2 ^ a * 2 ^ b.
Proof. intros. by rewrite Z.pow_add_r. Qed.

Lemma pow2_pos (a : Z) : 0 <= a -> 0 < 2 ^ a.
Proof. intros. apply Z.pow_pos_nonneg; lia. Qed.

Lemma div_pow2_lt (m a b : Z) :
  0 <= m -> 0 <= a -> 0 <= b -> m < 2 ^ (a + b) -> m / 2 ^ b < 2 ^ a.
Proof.
  intros Hm Ha Hb Hlt. apply Z.div_lt_upper_bound; [by apply pow2_pos|].
  by rewrite Z.mul_comm, <- pow2_split.
Qed.

Lemma div_pow2_le (m a b : Z) :
  0 <= m -> 0 <= a -> 0 <= b -> m <= 2 ^ (a + b) -> m / 2 ^ b <= 2 ^ a.
Proof.
  intros Hm Ha Hb Hle.
  rewrite pow2_split in Hle by done.
  pose proof (pow2_pos b Hb).
  apply Z.div_le_upper_bound; [done|]. lia.
Qed.

(** A rounding whose input lies below [2^K] neither overflows nor grows
    past [2^K]. *)
Lemma binary_round_aux_bounded (s : bool) (mx ex : Z) (lx : location) (K : Z) :
  0 <= mx -> -1074 <= K <= 971 -> ex <= K -> mx < 2 ^ (K - ex) ->
  binary_round_aux PyFloat.prec PyFloat.emax s mx ex lx = S754_zero s \/
  exists m e,
    binary_round_aux PyFloat.prec PyFloat.emax s mx ex lx = S754_finite s m e /\
    e <= K /\ Z.pos m <= 2 ^ (K - e).
Proof.
  intros Hm HK Hex Hlt.
  destruct (binary_round_aux_spec s mx ex lx Hm) as (m1 & Hm1 & ->).
  assert (Hd : Zdigits2 mx <= K - ex) by (apply Zdigits2_le_bound; lia).
  set (e1 := Z.max ex (fexp (Zdigits2 mx + ex))) in *.
  assert (He1 : ex <= e1 <= K).
  { pose proof (fexp_le (Zdigits2 mx + ex) K). lia. }
  assert (Hm' : 0 <= mx / 2 ^ (e1 - ex) < 2 ^ (K - e1)).
  { split; [apply Z.div_pos; [done|apply pow2_pos; lia]|].
    apply div_pow2_lt; try lia. replace (K - e1 + (e1 - ex)) with (K - ex) by lia. done. }
  assert (Hm1b : 0 <= m1 <= 2 ^ (K - e1)) by lia.
  assert (Hd1 : Zdigits2 m1 <= K - e1 + 1).
  { apply Zdigits2_le_bound; [lia|]. rewrite pow2_split by lia. change (2 ^ 1) with 2. lia. }
  cbv zeta.
  set (e2 := Z.max e1 (fexp (Zdigits2 m1 + e1))).
  assert (He2 : e1 <= e2 <= K).
  { pose proof (fexp_le (Zdigits2 m1 + e1) K). lia. }
  assert (Hm2 : 0 <= m1 / 2 ^ (e2 - e1) <= 2 ^ (K - e2)).
  { split; [apply Z.div_pos; [lia|apply pow2_pos; lia]|].
    apply div_pow2_le; try lia. replace (K - e2 + (e2 - e1)) with (K - e1) by lia. lia. }
  destruct (m1 / 2 ^ (e2 - e1)) as [|m|m] eqn:Hq; [by left| |lia].
  right. exists m, e2.
  replace (e2 <=? PyFloat.emax - PyFloat.prec) with true; [split; [done|lia]|].
  symmetry. apply Z.leb_le. unfold PyFloat.emax, PyFloat.prec. lia.
Qed.

(** The quotient step of a division of two ints. *)
Lemma SFdiv_core_int (a b : positive) :
  SFdiv_core_binary PyFloat.prec PyFloat.emax (Z.pos a) 0 (Z.pos b) 0 =
    (Z.pos a * 2 ^ (- Z.min (fexp (Zdigits2 (Z.pos a) - Zdigits2 (Z.pos b))) 0) / Z.pos b,
     Z.min (fexp (Zdigits2 (Z.pos a) - Zdigits2 (Z.pos b))) 0,
     new_location (Z.pos b)
       (Z.pos a * 2 ^ (- Z.min (fexp (Zdigits2 (Z.pos a) - Zdigits2 (Z.pos b))) 0)
          mod Z.pos b)).
Proof.
  unfold SFdiv_core_binary.
  rewrite !Z.add_0_r. change (0 - 0) with 0.
  set (e' := Z.min (fexp (Zdigits2 (Z.pos a) - Zdigits2 (Z.pos b))) 0).
  assert (He' : e' <= 0) by lia.
  replace (0 - e') with (- e') by lia.
  assert (Hm : match - e' with
               | 0 => Z.pos a
               | Z.pos _ => Z.shiftl (Z.pos a) (- e')
               | Z.neg _ => 0
               end = Z.pos a * 2 ^ (- e')).
  { destruct (- e') as [|k|k] eqn:Hk; [simpl; lia| |lia].
    by rewrite Z.shiftl_mul_pow2 by lia. }
  rewrite Hm. unfold Z.div, Z.modulo.
  by destruct (Z.div_eucl (Z.pos a * 2 ^ (- e')) (Z.pos b)).
Qed.

Lemma new_location_round_bit (b r : Z) :
  0 < b -> 0 <= r < b -> round_bit 0 0 (new_location b r) = true -> b <= 2 * r.
Proof.
  intros Hb Hr. unfold round_bit, new_location, new_location_even, new_location_odd.
  change (0 <? 0) with false. cbv iota.
  destruct (Z.even b) eqn:Hev.
  - destruct (Z.eqb_spec r 0); [done|].
    destruct (Z.compare_spec (2 * r) b); (done || lia).
  - destruct (Z.eqb_spec r 0); [done|].
    destruct (Z.compare_spec (2 * r + 1) b); (done || lia).
Qed.

(** Dividing an int by a larger one gives a float of magnitude at most 1. *)
Lemma int_true_div_unit (a b : Z) :
  0 <= a <= b -> 0 < b ->
  exists f, PyFloat.int_true_div a b = Ok f /\
    (f = S754_zero false \/
     exists m e, f = S754_finite false m e /\ e <= 1 /\ Z.pos m <= 2 ^ (1 - e)).
Proof.
  intros Hab Hb. unfold PyFloat.int_true_div.
  destruct (decide (b = 0)) as [|_]; [lia|].
  destruct b as [|mb|mb]; try lia.
  destruct a as [|ma|ma]; try lia.
  - simpl. eauto.
  - cbn [PyFloat.exact SFdiv xorb].
    rewrite SFdiv_core_int.
    set (e' := Z.min (fexp (Zdigits2 (Z.pos ma) - Zdigits2 (Z.pos mb))) 0).
    assert (He' : e' <= 0) by lia.
    assert (Hq : 0 <= Z.pos ma * 2 ^ (- e') / Z.pos mb < 2 ^ (1 - e')).
    { pose proof (pow2_pos (- e') ltac:(lia)) as Hp. split.
      - apply Z.div_pos; lia.
      - apply Z.div_lt_upper_bound; [lia|].
        replace (1 - e') with (1 + - e') by lia.
        rewrite pow2_split by lia. change (2 ^ 1) with 2. nia. }
    destruct (binary_round_aux_bounded false _ e'
                (new_location (Z.pos mb) (Z.pos ma * 2 ^ (- e') mod Z.pos mb)) 1
                (proj1 Hq) ltac:(lia) ltac:(lia) (proj2 Hq))
      as [->|(m & e & -> & Hb1 & Hb2)]; eauto 10.
Qed.

Lemma Zdigits2_pos_range (m : Z) (d : Z) :
  0 < m < 2 ^ d -> 0 <= d -> 1 <= Zdigits2 m <= d.
Proof.
  intros [Hm Hlt] Hd. split; [|apply Zdigits2_le_bound; lia].
  destruct m; simpl; lia.
Qed.

(** [int(a / b)] is the truncated quotient as long as the numerator is
    below [2^53]: the rounded quotient never reaches the next integer. *)
Lemma SFdiv_int_trunc (s : bool) (ma mb : positive) :
  Z.pos ma < 2 ^ 53 -> Z.pos mb < 2 ^ 53 ->
  exists m e,
    SFdiv PyFloat.prec PyFloat.emax (S754_finite s ma 0) (S754_finite false mb 0)
      = S754_finite (xorb s false) m e /\
    e <= 0 /\ Z.pos m / 2 ^ (- e) = Z.pos ma / Z.pos mb.
Proof.
  intros Ha Hb. cbn [SFdiv]. rewrite SFdiv_core_int.
  set (a := Z.pos ma) in *. set (b := Z.pos mb) in *.
  assert (Ha0 : 0 < a) by (unfold a; lia).
  assert (Hb0 : 0 < b) by (unfold b; lia).
  pose proof (Zdigits2_bounds a Ha0) as [Hal Hau].
  pose proof (Zdigits2_bounds b Hb0) as [Hbl Hbu].
  pose proof (Zdigits2_pos_range a 53 ltac:(lia) ltac:(lia)) as Hd1.
  pose proof (Zdigits2_pos_range b 53 ltac:(lia) ltac:(lia)) as Hd2.
  set (d1 := Zdigits2 a) in *. set (d2 := Zdigits2 b) in *.
  assert (He' : Z.min (fexp (d1 - d2)) 0 = d1 - d2 - 53).
  { unfold SpecFloat.fexp, emin, PyFloat.prec, PyFloat.emax. lia. }
  rewrite He'. clear He'.
  set (sh := 53 + d2 - d1).
  replace (- (d1 - d2 - 53)) with sh by (unfold sh; lia).
  assert (Hsh : 1 <= sh) by (unfold sh; lia).
  pose proof (pow2_pos sh ltac:(lia)) as Hpsh.
  set (q := a * 2 ^ sh / b).
  set (r := a * 2 ^ sh mod b).
  assert (Hqr : a * 2 ^ sh = b * q + r /\ 0 <= r < b).
  { split; [apply Z.div_mod; lia|apply Z.mod_pos_bound; lia]. }
  assert (Hq : 2 ^ 52 <= q < 2 ^ 54).
  { assert (E1 : 2 ^ (d1 - 1) * 2 ^ sh = 2 ^ 52 * 2 ^ d2).
    { rewrite <- !pow2_split by lia. f_equal. unfold sh. lia. }
    assert (E2 : 2 ^ d1 * 2 ^ sh = 2 ^ 54 * 2 ^ (d2 - 1)).
    { rewrite <- !pow2_split by lia. f_equal. unfold sh. lia. }
    split.
    - apply Z.div_le_lower_bound; [lia|]. nia.
    - apply Z.div_lt_upper_bound; [lia|]. nia. }
  destruct (binary_round_aux_spec (xorb s false) q (d1 - d2 - 53) (new_location b r)
              ltac:(lia)) as (m1 & Hm1 & ->).
  cbv zeta.
  assert (Hdq : Zdigits2 q = 53 \/ Zdigits2 q = 54).
  { destruct (Z_lt_le_dec q (2 ^ 53)).
    - left. apply Zdigits2_unique; lia.
    - right. apply Zdigits2_unique; lia. }
  set (n1 := Zdigits2 q - 53).
  assert (He1 : Z.max (d1 - d2 - 53) (fexp (Zdigits2 q + (d1 - d2 - 53))) = n1 - sh).
  { unfold SpecFloat.fexp, emin, PyFloat.prec, PyFloat.emax, n1, sh. lia. }
  rewrite He1 in *. clear He1.
  replace (n1 - sh - (d1 - d2 - 53)) with n1 in Hm1 by (unfold n1, sh; lia).
  set (t := sh - n1).
  assert (Ht : 0 <= t) by (unfold t, n1; lia).
  pose proof (pow2_pos t Ht) as Hpt.
  set (M := a * 2 ^ t / b).
  assert (HM : q / 2 ^ n1 = M).
  { unfold M, q. rewrite Z.div_div by (try apply pow2_pos; unfold n1; lia).
    replace sh with (t + n1) by (unfold t; lia).
    rewrite pow2_split by (unfold n1; lia).
    rewrite Z.mul_assoc. apply Z.div_mul_cancel_r; [lia|].
    pose proof (pow2_pos n1 ltac:(unfold n1; lia)). lia. }
  rewrite HM in Hm1.
  assert (HMb : 2 ^ 52 <= M < 2 ^ 53).
  { rewrite <- HM. destruct Hdq as [E|E]; unfold n1; rewrite E.
    - change (53 - 53) with 0. rewrite Z.pow_0_r, Z.div_1_r.
      pose proof (Zdigits2_bounds q ltac:(lia)) as Hb'. rewrite E in Hb'. lia.
    - change (54 - 53) with 1. change (2 ^ 1) with 2.
      pose proof (Zdigits2_bounds q ltac:(lia)) as Hb'. rewrite E in Hb'.
      change (54 - 1) with 53 in Hb'. split.
      + apply Z.div_le_lower_bound; lia.
      + apply Z.div_lt_upper_bound; lia. }
  assert (HMr : a * 2 ^ t = b * M + a * 2 ^ t mod b /\ 0 <= a * 2 ^ t mod b < b).
  { split; [apply Z.div_mod; lia|apply Z.mod_pos_bound; lia]. }
  (* rounding up needs at least half a unit of the last place *)
  assert (RU : m1 = M + 1 -> (2 * M + 1) * b <= 2 * (a * 2 ^ t)).
  { intros E. destruct Hm1 as [Hm1|[_ Hbit]]; [lia|].
    unfold round_bit in Hbit.
    destruct Hdq as [E'|E']; unfold n1 in Hbit; rewrite E' in Hbit.
    - change (0 <? 53 - 53) with false in Hbit. cbv iota in Hbit.
      assert (t = sh) as Hts by (unfold t, n1; lia).
      pose proof (new_location_round_bit b r Hb0 (proj2 Hqr) Hbit) as Hhalf.
      rewrite Hts in *. fold r in HMr. unfold M in *. fold q in HMr. fold q. lia.
    - change (0 <? 54 - 53) with true in Hbit. cbv iota in Hbit.
      change (54 - 53 - 1) with 0 in Hbit. rewrite Z.bit0_odd in Hbit.
      assert (Hq2 : q = 2 * M + 1).
      { rewrite <- HM. unfold n1. rewrite E'. change (2 ^ (54 - 53)) with 2.
        rewrite (Zdiv2_odd_eqn q) at 1. by rewrite Hbit, <- Z.div2_div. }
      assert (Hsh' : 2 ^ sh = 2 * 2 ^ t).
      { replace sh with (1 + t) by (unfold t, n1; lia). by rewrite pow2_split by lia. }
      destruct Hqr as [Hqr Hr]. rewrite Hq2, Hsh' in Hqr. lia. }
  assert (Hm1b : 2 ^ 52 <= m1 <= 2 ^ 53) by lia.
  set (n2 := Zdigits2 m1 - 53).
  assert (Hdm : Zdigits2 m1 = 53 /\ m1 < 2 ^ 53 \/ Zdigits2 m1 = 54 /\ m1 = 2 ^ 53).
  { destruct (Z_lt_le_dec m1 (2 ^ 53)).
    - left. split; [apply Zdigits2_unique; lia|done].
    - right. split; [apply Zdigits2_unique; lia|lia]. }
  assert (He2 : Z.max (n1 - sh) (fexp (Zdigits2 m1 + (n1 - sh))) = n2 - t).
  { unfold SpecFloat.fexp, emin, PyFloat.prec, PyFloat.emax, n2, t, n1, sh. lia. }
  rewrite He2. clear He2.
  replace (n2 - t - (n1 - sh)) with n2 by (unfold n2, t; lia).
  (* the quotient of [m1] is the truncated quotient *)
  assert (Hdiv : m1 / 2 ^ t = a / b).
  { assert (Hab : a = b * (a / b) + a mod b) by (apply Z.div_mod; lia).
    assert (Hrem : 0 <= a mod b < b) by (apply Z.mod_pos_bound; lia).
    assert (HQ : 0 <= a / b) by (apply Z.div_pos; lia).
    destruct HMr as [HMr HMrem].
    set (T := 2 ^ t) in *. set (Q := a / b) in *. set (R := a mod b) in *.
    assert (HRT : 0 <= R * T < b * T).
    { split; [apply Z.mul_nonneg_nonneg; lia|apply Z.mul_lt_mono_pos_r; lia]. }
    assert (HaT : a * T = b * (Q * T) + R * T).
    { transitivity ((b * Q + R) * T); [congruence|ring]. }
    assert (Hlow : Q * T <= M).
    { unfold M. apply Z.div_le_lower_bound; [lia|]. lia. }
    assert (Hup : M < (Q + 1) * T).
    { unfold M. apply Z.div_lt_upper_bound; [lia|].
      replace (b * ((Q + 1) * T)) with (b * (Q * T) + b * T) by ring. lia. }
    symmetry. apply Z.div_unique_pos with (r := m1 - Q * T); [|lia].
    split; [lia|].
    destruct (Z.eq_dec m1 (M + 1)) as [E|NE]; [|lia].
    specialize (RU E).
    destruct (Z.eq_dec (M + 1) ((Q + 1) * T)) as [E2|]; [|lia].
    exfalso.
    assert (E3 : (2 * M + 1) * b = 2 * (b * T) + 2 * (b * (Q * T)) - b).
    { replace M with ((Q + 1) * T - 1) by lia. ring. }
    assert (H1 : 2 * (T * (b - R)) <= b).
    { replace (2 * (T * (b - R))) with (2 * (b * T) - 2 * (R * T)) by ring. lia. }
    assert (Hb2 : 2 * T <= b).
    { assert (T * 1 <= T * (b - R)) by (apply Z.mul_le_mono_nonneg_l; lia). lia. }
    assert (H2 : 2 * T * 2 ^ 52 <= b * M) by (apply Z.mul_le_mono_nonneg; lia).
    assert (H4 : a * T < 2 ^ 53 * T) by (apply Z.mul_lt_mono_pos_r; lia).
    lia. }
  assert (Hn2t : n2 <= t).
  { destruct Hdm as [[E _]|[E E2]]; unfold n2; rewrite E; [lia|].
    destruct (Z.eq_dec t 0) as [Ht0|]; [|lia]. exfalso.
    assert (HM1 : m1 = M + 1) by lia. specialize (RU HM1).
    rewrite Ht0 in *. change (2 ^ 0) with 1 in *. rewrite Z.mul_1_r in *.
    assert (b * M <= a) by lia. nia. }
  assert (Hm2 : 0 < m1 / 2 ^ n2).
  { apply Z.div_str_pos. destruct Hdm as [[E _]|[E E2]]; unfold n2; rewrite E.
    - change (2 ^ (53 - 53)) with 1. lia.
    - change (2 ^ (54 - 53)) with 2. lia. }
  destruct (m1 / 2 ^ n2) as [|m|m] eqn:Hm2e; try lia.
  replace (n2 - t <=? PyFloat.emax - PyFloat.prec) with true.
  2:{ symmetry. apply Z.leb_le. unfold PyFloat.emax, PyFloat.prec. lia. }
  exists m, (n2 - t). split; [done|]. split; [lia|].
  rewrite <- Hm2e, <- Hdiv.
  assert (0 <= n2) by (destruct Hdm as [[E _]|[E _]]; unfold n2; rewrite E; lia).
  rewrite Z.div_div by (try apply pow2_pos; lia).
  rewrite <- pow2_split by lia. f_equal. f_equal. lia.
Qed.

Lemma int_true_div_to_int (a b : Z) :
  Z.abs a < 2 ^ 53 -> 0 < b < 2 ^ 53 ->
  exists f, PyFloat.int_true_div a b = Ok f /\ PyFloat.to_int f = Ok (Z.quot a b).
Proof.
  intros Ha Hb. unfold PyFloat.int_true_div.
  destruct (decide (b = 0)) as [|_]; [lia|].
  destruct b as [|mb|mb]; try lia.
  destruct a as [|ma|ma].
  - simpl. eauto.
  - cbn [PyFloat.exact].
    destruct (SFdiv_int_trunc false ma mb ltac:(lia) ltac:(lia)) as (m & e & -> & He & Hq).
    eexists; split; [done|]. cbn [xorb PyFloat.to_int]. f_equal.
    rewrite Z.quot_div_nonneg by lia. rewrite <- Hq.
    destruct (Z.leb_spec 0 e); [|done].
    replace e with 0 by lia. change (- 0) with 0. rewrite Z.pow_0_r, Z.div_1_r. lia.
  - cbn [PyFloat.exact].
    destruct (SFdiv_int_trunc true ma mb ltac:(lia) ltac:(lia)) as (m & e & -> & He & Hq).
    eexists; split; [done|]. cbn [xorb PyFloat.to_int]. f_equal.
    change (Z.neg ma) with (- Z.pos ma). rewrite Z.quot_opp_l by lia.
    rewrite Z.quot_div_nonneg by lia. rewrite <- Hq. f_equal.
    destruct (Z.leb_spec 0 e); [|done].
    replace e with 0 by lia. change (- 0) with 0. rewrite Z.pow_0_r, Z.div_1_r. lia.
Qed.

(** [round(ratio * 4)] never fails when [ratio] is the quotient of an int
    by a larger one. *)
Lemma round_ratio_ok (a b : Z) :
  0 <= a <= b -> 0 < b ->
  exists f l, PyFloat.int_true_div a b = Ok f /\
    PyFloat.round (PyFloat.mul f (PyFloat.exact 4)) = Ok l.
Proof.
  intros Hab Hb.
  destruct (int_true_div_unit a b Hab Hb) as (f & Hf & [->|(m & e & -> & He & Hm)]).
  - exists (S754_zero false). eexists. split; [done|]. reflexivity.
  - exists (S754_finite false m e).
    cbn [PyFloat.mul PyFloat.exact SFmul xorb].
    assert (Hlt : Z.pos (m * 4) < 2 ^ (4 - (e + 0))).
    { rewrite Pos2Z.inj_mul. replace (4 - (e + 0)) with (1 - e + 3) by lia.
      rewrite pow2_split by lia. change (2 ^ 3) with 8. lia. }
    destruct (binary_round_aux_bounded false (Z.pos (m * 4)) (e + 0) loc_Exact 4
                ltac:(lia) ltac:(lia) ltac:(lia) Hlt) as [->|(m' & e' & -> & _)].
    + eexists. split; [done|]. reflexivity.
    + eexists. split; [done|]. reflexivity.
Qed.

(** ** The quotient of two ints as a float, and its truncation *)

(** The quotient [A / B] rounded to the nearest int, ties to the even one. *)
Definition rne (A B : Z) : Z :=
  let m := A / B in
  let r := A mod B in
  if 2 * r <? B then m
  else if B <? 2 * r then m + 1
  else if Z.even m then m else m + 1.

(** A shift record that stands for the fraction [A / B]: its mantissa is the
    floor, its round bit says whether the remainder reaches one half, its
    sticky bit whether the remainder is neither zero nor one half. *)
Definition frac_of (mrs : shr_record) (A B : Z) : Prop :=
  shr_m mrs = A / B /\
  shr_r mrs = (B <=? 2 * (A mod B)) /\
  shr_s mrs = negb ((A mod B =? 0) || (2 * (A mod B) =? B)).

Lemma new_location_spec (b r : Z) :
  0 < b -> 0 <= r < b ->
  new_location b r = if r =? 0 then loc_Exact else loc_Inexact (2 * r ?= b).
Proof.
  intros Hb Hr. unfold new_location, new_location_even, new_location_odd.
  destruct (Z.even b) eqn:Hev; [done|].
  destruct (Z.eqb_spec r 0); [done|]. f_equal.
  assert (Hodd : Z.odd b = true) by (by rewrite <- Z.negb_even, Hev).
  apply Z.odd_spec in Hodd as [k Hk].
  destruct (Z.compare_spec (2 * r + 1) b), (Z.compare_spec (2 * r) b); (done || lia).
Qed.

Lemma frac_of_loc (A B : Z) :
  0 <= A -> 0 < B ->
  frac_of (shr_record_of_loc (A / B) (new_location B (A mod B))) A B.
Proof.
  intros HA HB. pose proof (Z.mod_pos_bound A B HB) as Hr.
  rewrite new_location_spec by done. unfold frac_of.
  destruct (Z.eqb_spec (A mod B) 0) as [E|NE].
  - cbn. rewrite E. split; [done|]. split; [|done].
    symmetry. apply Z.leb_gt. lia.
  - destruct (Z.compare_spec (2 * (A mod B)) B) as [E2|L|G]; cbn.
    + split; [done|]. split.
      * symmetry. apply Z.leb_le. lia.
      * rewrite (proj2 (Z.eqb_eq _ _) E2). done.
    + split; [done|]. split.
      * symmetry. apply Z.leb_gt. lia.
      * rewrite (proj2 (Z.eqb_neq _ _)) by lia. done.
    + split; [done|]. split.
      * symmetry. apply Z.leb_le. lia.
      * rewrite (proj2 (Z.eqb_neq _ _)) by lia. done.
Qed.

Lemma shr_1_sticky (mrs : shr_record) :
  shr_s (shr_1 mrs) = shr_r mrs || shr_s mrs.
Proof. destruct mrs as [[|[p|p|]|[p|p|]] r s]; reflexivity. Qed.

Lemma frac_of_shr_1 (mrs : shr_record) (A B : Z) :
  0 <= A -> 0 < B -> frac_of mrs A B -> frac_of (shr_1 mrs) A (2 * B).
Proof.
  intros HA HB (Hm & Hr & Hs).
  pose proof (Z.mod_pos_bound A B HB) as Hrem.
  assert (Hm0 : 0 <= shr_m mrs) by (rewrite Hm; apply Z.div_pos; lia).
  destruct (shr_1_spec mrs Hm0) as [Hm1 Hr1].
  pose proof (shr_1_sticky mrs) as Hs1.
  assert (Hdiv : A / (2 * B) = A / B / 2).
  { rewrite (Z.mul_comm 2 B). by rewrite Z.div_div by lia. }
  assert (Hmod : A mod (2 * B) = A mod B + B * ((A / B) mod 2)).
  { rewrite (Z.mul_comm 2 B). apply Z.rem_mul_r; lia. }
  pose proof (Z.mod_pos_bound (A / B) 2 ltac:(lia)) as Hbit.
  assert (Hodd : Z.odd (A / B) = ((A / B) mod 2 =? 1)).
  { rewrite Zmod_odd. by destruct (Z.odd (A / B)). }
  unfold frac_of. rewrite Hm1, Hr1, Hs1, Hm, Hr, Hs, Hdiv, Hmod, Hodd.
  split; [done|].
  destruct (Z.eqb_spec ((A / B) mod 2) 1) as [E|NE].
  - rewrite E. split.
    + symmetry. apply Z.leb_le. lia.
    + destruct (Z.leb_spec B (2 * (A mod B))); cbn [orb].
      * symmetry. apply negb_true_iff, orb_false_iff.
        split; apply Z.eqb_neq; lia.
      * destruct (Z.eqb_spec (A mod B) 0) as [E0|N0]; cbn [orb negb].
        -- symmetry. apply negb_false_iff, orb_true_iff. right. apply Z.eqb_eq. lia.
        -- rewrite (proj2 (Z.eqb_neq (2 * (A mod B)) B)) by lia. cbn.
           symmetry. apply negb_true_iff, orb_false_iff.
           split; apply Z.eqb_neq; lia.
  - assert (E : (A / B) mod 2 = 0) by lia. rewrite E. split.
    + symmetry. apply Z.leb_gt. lia.
    + destruct (Z.leb_spec B (2 * (A mod B))); cbn [orb].
      * symmetry. apply negb_true_iff, orb_false_iff.
        split; apply Z.eqb_neq; lia.
      * destruct (Z.eqb_spec (A mod B) 0) as [E0|N0]; cbn [orb negb].
        -- symmetry. apply negb_false_iff, orb_true_iff. left. apply Z.eqb_eq. lia.
        -- rewrite (proj2 (Z.eqb_neq (2 * (A mod B)) B)) by lia. cbn.
           symmetry. apply negb_true_iff, orb_false_iff.
           split; apply Z.eqb_neq; lia.
Qed.

Lemma frac_of_iter (p : positive) (mrs : shr_record) (A B : Z) :
  0 <= A -> 0 < B -> frac_of mrs A B ->
  frac_of (SpecFloat.iter_pos shr_1 p mrs) A (B * 2 ^ Z.pos p).
Proof.
  intros HA. revert mrs B.
  induction p as [p IH|p IH|]; intros mrs B HB Hf; cbn [SpecFloat.iter_pos].
  - rewrite pow2_xI.
    replace (B * (2 * (2 ^ Z.pos p * 2 ^ Z.pos p)))
      with (2 * B * 2 ^ Z.pos p * 2 ^ Z.pos p) by ring.
    pose proof (pow2_pos (Z.pos p) ltac:(lia)).
    apply IH; [nia|]. apply IH; [lia|]. by apply frac_of_shr_1.
  - rewrite pow2_xO.
    replace (B * (2 ^ Z.pos p * 2 ^ Z.pos p)) with (B * 2 ^ Z.pos p * 2 ^ Z.pos p) by ring.
    pose proof (pow2_pos (Z.pos p) ltac:(lia)).
    apply IH; [nia|]. by apply IH.
  - change (2 ^ 1) with 2. rewrite Z.mul_comm. by apply frac_of_shr_1.
Qed.

Lemma round_nearest_even_frac (mrs : shr_record) (A B : Z) :
  0 < B -> frac_of mrs A B ->
  round_nearest_even (shr_m mrs) (loc_of_shr_record mrs) = rne A B.
Proof.
  intros HB (Hm & Hr & Hs). pose proof (Z.mod_pos_bound A B HB) as Hrem.
  destruct mrs as [m r s]. cbn [shr_m shr_r shr_s] in *. subst m. unfold rne.
  destruct (Z.ltb_spec (2 * (A mod B)) B) as [L|G].
  - rewrite (proj2 (Z.leb_gt _ _)) in Hr by lia. subst r.
    by destruct s.
  - rewrite (proj2 (Z.leb_le _ _)) in Hr by lia. subst r.
    destruct (Z.ltb_spec B (2 * (A mod B))) as [L2|G2].
    + rewrite (proj2 (Z.eqb_neq (A mod B) 0)), (proj2 (Z.eqb_neq (2 * (A mod B)) B)) in Hs
        by lia.
      subst s. reflexivity.
    + rewrite (proj2 (Z.eqb_eq (2 * (A mod B)) B)) in Hs by lia.
      rewrite orb_true_r in Hs. subst s. reflexivity.
Qed.


Lemma rne_bounds (A B : Z) : A / B <= rne A B <= A / B + 1.
Proof.
  unfold rne. destruct (2 * (A mod B) <? B); [lia|].
  destruct (B <? 2 * (A mod B)); [lia|]. destruct (Z.even (A / B)); lia.
Qed.

Lemma rne_nonneg (A B : Z) : 0 <= A -> 0 < B -> 0 <= rne A B.
Proof.
  intros HA HB. pose proof (rne_bounds A B). pose proof (Z.div_pos A B HA HB). lia.
Qed.

Lemma shr_fexp_frac (A B ex : Z) :
  0 <= A -> 0 < B ->
  exists mrs,
    shr_fexp PyFloat.prec PyFloat.emax (A / B) ex (new_location B (A mod B))
      = (mrs, Z.max ex (fexp (Zdigits2 (A / B) + ex))) /\
    frac_of mrs A (B * 2 ^ (Z.max ex (fexp (Zdigits2 (A / B) + ex)) - ex)).
Proof.
  intros HA HB. unfold shr_fexp, shr.
  pose proof (frac_of_loc A B HA HB) as Hloc.
  destruct (fexp (Zdigits2 (A / B) + ex) - ex) as [|p|p] eqn:Hn.
  - replace (Z.max ex (fexp (Zdigits2 (A / B) + ex))) with ex by lia.
    eexists; split; [done|]. by rewrite Z.sub_diag, Z.pow_0_r, Z.mul_1_r.
  - replace (Z.max ex (fexp (Zdigits2 (A / B) + ex))) with (ex + Z.pos p) by lia.
    eexists; split; [done|].
    replace (ex + Z.pos p - ex) with (Z.pos p) by lia.
    by apply frac_of_iter.
  - replace (Z.max ex (fexp (Zdigits2 (A / B) + ex))) with ex by lia.
    eexists; split; [done|]. by rewrite Z.sub_diag, Z.pow_0_r, Z.mul_1_r.
Qed.

(** [binary_round_aux] on a quotient with its remainder: one rounding to
    the nearest even at the exponent [e1], then a renormalising shift. *)
Lemma binary_round_aux_frac (s : bool) (A B ex : Z) :
  0 <= A -> 0 < B ->
  binary_round_aux PyFloat.prec PyFloat.emax s (A / B) ex (new_location B (A mod B)) =
    let e1 := Z.max ex (fexp (Zdigits2 (A / B) + ex)) in
    let m1 := rne A (B * 2 ^ (e1 - ex)) in
    let e2 := Z.max e1 (fexp (Zdigits2 m1 + e1)) in
    match m1 / 2 ^ (e2 - e1) with
    | Z0 => S754_zero s
    | Zpos m => if e2 <=? PyFloat.emax - PyFloat.prec
                then S754_finite s m e2 else S754_infinity s
    | Zneg _ => S754_nan
    end.
Proof.
  intros HA HB. unfold binary_round_aux.
  destruct (shr_fexp_frac A B ex HA HB) as (mrs & -> & Hfrac).
  set (e1 := Z.max ex (fexp (Zdigits2 (A / B) + ex))) in *.
  assert (HB1 : 0 < B * 2 ^ (e1 - ex)).
  { apply Z.mul_pos_pos; [done|]. apply pow2_pos. lia. }
  rewrite (round_nearest_even_frac mrs A _ HB1 Hfrac).
  set (m1 := rne A (B * 2 ^ (e1 - ex))).
  assert (Hm1 : 0 <= m1) by (by apply rne_nonneg).
  destruct (shr_fexp_spec m1 e1 loc_Exact Hm1) as (mrs2 & -> & Hmrs2 & _).
  cbv zeta. by rewrite Hmrs2.
Qed.


(** The fraction [a / b] at the scale [2^e]: [a / (b * 2^e)] with both
    sides kept integral. *)
Definition num_at (e a : Z) : Z := a * 2 ^ Z.max 0 (- e).
Definition den_at (e b : Z) : Z := b * 2 ^ Z.max 0 e.

Lemma scaled_lt (a b u v : Z) :
  0 <= u -> 0 <= v ->
  a * 2 ^ u < b * 2 ^ v <-> num_at (v - u) a < den_at (v - u) b.
Proof.
  intros Hu Hv. unfold num_at, den_at.
  destruct (Z_le_gt_dec u v).
  - replace (Z.max 0 (- (v - u))) with 0 by lia.
    replace (Z.max 0 (v - u)) with (v - u) by lia.
    rewrite Z.pow_0_r, Z.mul_1_r.
    replace (2 ^ v) with (2 ^ (v - u) * 2 ^ u)
      by (rewrite <- pow2_split by lia; f_equal; lia).
    rewrite Z.mul_assoc. symmetry. apply Z.mul_lt_mono_pos_r. by apply pow2_pos.
  - replace (Z.max 0 (- (v - u))) with (u - v) by lia.
    replace (Z.max 0 (v - u)) with 0 by lia.
    rewrite Z.pow_0_r, Z.mul_1_r.
    replace (2 ^ u) with (2 ^ (u - v) * 2 ^ v)
      by (rewrite <- pow2_split by lia; f_equal; lia).
    rewrite Z.mul_assoc. symmetry. apply Z.mul_lt_mono_pos_r. by apply pow2_pos.
Qed.

Lemma scaled_le (a b u v : Z) :
  0 <= u -> 0 <= v ->
  b * 2 ^ v <= a * 2 ^ u <-> den_at (v - u) b <= num_at (v - u) a.
Proof.
  intros Hu Hv. pose proof (scaled_lt a b u v Hu Hv). lia.
Qed.

Lemma rne_scale (A B c : Z) : 0 < B -> 0 < c -> rne (A * c) (B * c) = rne A B.
Proof.
  intros HB Hc. unfold rne.
  rewrite Z.div_mul_cancel_r by lia. rewrite Z.mul_mod_distr_r by lia.
  pose proof (Z.mod_pos_bound A B HB).
  assert (H1 : (2 * (A mod B * c) <? B * c) = (2 * (A mod B) <? B)).
  { destruct (Z.ltb_spec (2 * (A mod B * c)) (B * c)),
      (Z.ltb_spec (2 * (A mod B)) B); (done || nia). }
  assert (H2 : (B * c <? 2 * (A mod B * c)) = (B <? 2 * (A mod B))).
  { destruct (Z.ltb_spec (B * c) (2 * (A mod B * c))),
      (Z.ltb_spec B (2 * (A mod B))); (done || nia). }
  by rewrite H1, H2.
Qed.

Lemma rne_at (a b e e' : Z) :
  0 < b -> e' <= 0 -> e' <= e ->
  rne (a * 2 ^ (- e')) (b * 2 ^ (e - e')) = rne (num_at e a) (den_at e b).
Proof.
  intros Hb He' He. unfold num_at, den_at.
  destruct (Z_le_gt_dec e 0).
  - replace (Z.max 0 (- e)) with (- e) by lia. replace (Z.max 0 e) with 0 by lia.
    rewrite Z.pow_0_r, Z.mul_1_r.
    replace (2 ^ (- e')) with (2 ^ (- e) * 2 ^ (e - e'))
      by (rewrite <- pow2_split by lia; f_equal; lia).
    rewrite Z.mul_assoc. apply rne_scale; [done|]. apply pow2_pos. lia.
  - replace (Z.max 0 (- e)) with 0 by lia. replace (Z.max 0 e) with e by lia.
    rewrite Z.pow_0_r, Z.mul_1_r.
    replace (2 ^ (e - e')) with (2 ^ e * 2 ^ (- e'))
      by (rewrite <- pow2_split by lia; f_equal; lia).
    rewrite Z.mul_assoc. apply rne_scale.
    + apply Z.mul_pos_pos; [done|]. apply pow2_pos. lia.
    + apply pow2_pos. lia.
Qed.

(** The division of two positive ints, as a float: the quotient rounded to
    the nearest even at the exponent [e1] of its binade. *)
Lemma SFdiv_pos_spec (s : bool) (a b : positive) :
  exists e1 m1,
    -1074 <= e1 /\
    num_at (e1 + 53) (Z.pos a) < den_at (e1 + 53) (Z.pos b) /\
    (e1 = -1074 \/
     (den_at (e1 + 52) (Z.pos b) <= num_at (e1 + 52) (Z.pos a) /\ 2 ^ 52 <= m1)) /\
    m1 = rne (num_at e1 (Z.pos a)) (den_at e1 (Z.pos b)) /\
    0 <= m1 <= 2 ^ 53 /\
    SFdiv PyFloat.prec PyFloat.emax (S754_finite s a 0) (S754_finite false b 0) =
      match (if m1 =? 2 ^ 53 then 2 ^ 52 else m1) with
      | Z0 => S754_zero (xorb s false)
      | Zpos m =>
          if (if m1 =? 2 ^ 53 then e1 + 1 else e1) <=? 971
          then S754_finite (xorb s false) m (if m1 =? 2 ^ 53 then e1 + 1 else e1)
          else S754_infinity (xorb s false)
      | Zneg _ => S754_nan
      end.
Proof.
  cbn [SFdiv]. rewrite SFdiv_core_int.
  set (A := Z.pos a). set (B := Z.pos b).
  assert (HA : 0 < A) by (unfold A; lia). assert (HB : 0 < B) by (unfold B; lia).
  pose proof (Zdigits2_bounds A HA) as [HAl HAu].
  pose proof (Zdigits2_bounds B HB) as [HBl HBu].
  assert (Hd1 : 1 <= Zdigits2 A) by (unfold A; simpl; lia).
  assert (Hd2 : 1 <= Zdigits2 B) by (unfold B; simpl; lia).
  set (d1 := Zdigits2 A) in *. set (d2 := Zdigits2 B) in *.
  set (e' := Z.min (fexp (d1 - d2)) 0).
  assert (He' : -1074 <= e' <= 0 /\ (-1074 < e' -> e' <= d1 - d2 - 53)).
  { unfold e', SpecFloat.fexp, emin, PyFloat.prec, PyFloat.emax. lia. }
  destruct He' as [He' He'n].
  set (A0 := A * 2 ^ (- e')).
  pose proof (pow2_pos (- e') ltac:(lia)) as Hpe'.
  assert (HA0 : 0 < A0) by (unfold A0; lia).
  rewrite (binary_round_aux_frac (xorb s false) A0 B e') by lia. cbv zeta.
  set (q := A0 / B).
  assert (Hq : 0 <= q /\ B * q <= A0 < B * (q + 1)).
  { unfold q. split; [apply Z.div_pos; lia|].
    pose proof (Z.div_mod A0 B ltac:(lia)). pose proof (Z.mod_pos_bound A0 B HB). lia. }
  destruct Hq as [Hq0 Hq].
  set (dq := Zdigits2 q).
  assert (Hdq : 0 <= dq /\ q < 2 ^ dq /\ (0 < q -> 2 ^ (dq - 1) <= q)).
  { unfold dq. split; [apply Zdigits2_nonneg|].
    destruct (Z.eq_dec q 0) as [->|Hne]; [simpl; lia|].
    pose proof (Zdigits2_bounds q ltac:(lia)). lia. }
  destruct Hdq as (Hdq0 & Hdqu & Hdql).
  set (e1 := Z.max e' (fexp (dq + e'))).
  assert (He1 : e' <= e1 /\ -1074 <= e1 /\ dq + e' - 53 <= e1 /\
                (e1 = e' \/ (e1 = dq + e' - 53 /\ 0 < q))).
  { unfold e1, SpecFloat.fexp, emin, PyFloat.prec, PyFloat.emax.
    destruct (Z.eq_dec q 0) as [Hq00|Hne].
    - assert (dq = 0) by (unfold dq; by rewrite Hq00). lia.
    - lia. }
  destruct He1 as (He1a & He1b & He1c & He1d).
  (* the quotient lies below [2^(e1 + 53)] *)
  assert (Hup : A0 < B * 2 ^ (e1 + 53 - e')).
  { assert (2 ^ dq <= 2 ^ (e1 + 53 - e')) by (apply Z.pow_le_mono_r; lia). nia. }
  (* and above [2^(e1 + 52)] unless [e1] is the least exponent *)
  assert (Hbig : -1074 < e' -> B * 2 ^ 52 <= A0).
  { intros Hn. specialize (He'n Hn).
    assert (H1 : 2 ^ (d2 + 52) <= 2 ^ (d1 - 1 - e')) by (apply Z.pow_le_mono_r; lia).
    rewrite (pow2_split d2 52) in H1 by lia.
    replace (d1 - 1 - e') with (d1 - 1 + - e') in H1 by lia.
    rewrite pow2_split in H1 by lia.
    unfold A0. pose proof (pow2_pos 52 ltac:(lia)). nia. }
  assert (Hlow : e1 = -1074 \/ B * 2 ^ (e1 + 52 - e') <= A0).
  { destruct He1d as [E|[E Hqp]].
    - destruct (Z.eq_dec e' (-1074)); [left; lia|right].
      rewrite E. replace (e' + 52 - e') with 52 by lia. apply Hbig. lia.
    - right. rewrite E. replace (dq + e' - 53 + 52 - e') with (dq - 1) by lia.
      specialize (Hdql Hqp). nia. }
  set (m1 := rne A0 (B * 2 ^ (e1 - e'))).
  pose proof (pow2_pos (e1 - e') ltac:(lia)) as Hp1.
  assert (HB1 : 0 < B * 2 ^ (e1 - e')) by lia.
  assert (Hm1 : 0 <= m1 <= 2 ^ 53).
  { split; [apply rne_nonneg; lia|].
    pose proof (rne_bounds A0 (B * 2 ^ (e1 - e'))) as Hb. fold m1 in Hb.
    assert (A0 / (B * 2 ^ (e1 - e')) < 2 ^ 53); [|lia].
    apply Z.div_lt_upper_bound; [done|].
    replace (B * 2 ^ (e1 - e') * 2 ^ 53) with (B * 2 ^ (e1 + 53 - e')); [done|].
    replace (e1 + 53 - e') with (e1 - e' + 53) by lia.
    rewrite pow2_split by lia. ring. }
  exists e1, m1. split; [done|]. split; [|split; [|split; [|split; [done|]]]].
  - apply (scaled_lt A B (- e') (e1 + 53 - e')) in Hup; [|lia|lia].
    by replace (e1 + 53 - e' - - e') with (e1 + 53) in Hup by lia.
  - destruct Hlow as [E|Hlow]; [by left|right]. split.
    + apply (scaled_le A B (- e') (e1 + 52 - e')) in Hlow; [|lia|lia].
      by replace (e1 + 52 - e' - - e') with (e1 + 52) in Hlow by lia.
    + pose proof (rne_bounds A0 (B * 2 ^ (e1 - e'))) as Hb. fold m1 in Hb.
      assert (2 ^ 52 <= A0 / (B * 2 ^ (e1 - e'))); [|lia].
      apply Z.div_le_lower_bound; [done|].
      replace (B * 2 ^ (e1 - e') * 2 ^ 52) with (B * 2 ^ (e1 + 52 - e')); [done|].
      replace (e1 + 52 - e') with (e1 - e' + 52) by lia.
      rewrite pow2_split by lia. ring.
  - unfold m1, A0. apply rne_at; lia.
  - destruct (Z.eqb_spec m1 (2 ^ 53)) as [E|NE].
    + rewrite E. change (Zdigits2 (2 ^ 53)) with 54.
      replace (Z.max e1 (fexp (54 + e1))) with (e1 + 1)
        by (unfold SpecFloat.fexp, emin, PyFloat.prec, PyFloat.emax; lia).
      replace (e1 + 1 - e1) with 1 by lia. reflexivity.
    + assert (Hd : Zdigits2 m1 <= 53) by (apply Zdigits2_le_bound; lia).
      replace (Z.max e1 (fexp (Zdigits2 m1 + e1))) with e1
        by (unfold SpecFloat.fexp, emin, PyFloat.prec, PyFloat.emax; lia).
      rewrite Z.sub_diag, Z.pow_0_r, Z.div_1_r. reflexivity.
Qed.


(** [m * 2^e] cut to an int, and the int part of [2^k]. *)
Definition floor_scaled (m e : Z) : Z := if 0 <=? e then m * 2 ^ e else m / 2 ^ (- e).
Definition pow2_floor (k : Z) : Z := if 0 <=? k then 2 ^ k else 0.

Lemma floor_scaled_pow (j e : Z) : 0 <= j -> floor_scaled (2 ^ j) e = pow2_floor (e + j).
Proof.
  intros Hj. unfold floor_scaled, pow2_floor.
  destruct (Z.leb_spec 0 e) as [He|He].
  - rewrite (proj2 (Z.leb_le 0 (e + j))) by lia.
    rewrite <- pow2_split by lia. f_equal. lia.
  - destruct (Z.leb_spec 0 (e + j)) as [Hk|Hk].
    + replace j with (e + j + - e) at 1 by lia. rewrite pow2_split by lia.
      apply Z.div_mul. pose proof (pow2_pos (- e) ltac:(lia)). lia.
    + apply Z.div_small. split; [pose proof (pow2_pos j Hj); lia|].
      apply Z.pow_lt_mono_r; lia.
Qed.

Lemma floor_scaled_mono (m m' e : Z) :
  0 <= m <= m' -> 0 <= floor_scaled m e <= floor_scaled m' e.
Proof.
  intros Hm. unfold floor_scaled. destruct (Z.leb_spec 0 e) as [He|He].
  - pose proof (pow2_pos e He). nia.
  - pose proof (pow2_pos (- e) ltac:(lia)) as Hp. split.
    + apply Z.div_pos; lia.
    + apply Z.div_le_mono; lia.
Qed.

Lemma pow2_floor_mono (k k' : Z) : k <= k' -> pow2_floor k <= pow2_floor k'.
Proof.
  intros Hk. unfold pow2_floor.
  destruct (Z.leb_spec 0 k), (Z.leb_spec 0 k'); try lia.
  apply Z.pow_le_mono_r; lia.
Qed.

Lemma rne_mono (A A' B : Z) : 0 < B -> A <= A' -> rne A B <= rne A' B.
Proof.
  intros HB HA.
  pose proof (Z.div_le_mono A A' B HB HA) as Hdiv.
  pose proof (rne_bounds A B) as H1. pose proof (rne_bounds A' B) as H2.
  destruct (Z.eq_dec (A / B) (A' / B)) as [E|NE]; [|lia].
  pose proof (Z.div_mod A B ltac:(lia)) as Ha.
  pose proof (Z.div_mod A' B ltac:(lia)) as Ha'.
  assert (Hr : A mod B <= A' mod B) by (rewrite E in Ha; lia).
  unfold rne. rewrite E.
  destruct (Z.ltb_spec (2 * (A mod B)) B), (Z.ltb_spec (2 * (A' mod B)) B); try lia.
  - destruct (B <? 2 * (A' mod B)); [lia|]. destruct (Z.even (A' / B)); lia.
  - destruct (Z.ltb_spec B (2 * (A mod B))), (Z.ltb_spec B (2 * (A' mod B))); try lia.
    destruct (Z.even (A' / B)); lia.
Qed.

(** The exponent of the binade grows with the numerator. *)
Lemma binade_mono (a a' b e e' : Z) :
  0 < b -> a <= a' -> -1074 <= e' ->
  den_at (e + 52) b <= num_at (e + 52) a ->
  num_at (e' + 53) a' < den_at (e' + 53) b ->
  e <= e'.
Proof.
  intros Hb Ha He' Hge Hlt.
  destruct (Z_le_gt_dec e e') as [|Hgt]; [done|exfalso].
  replace (e + 52) with (e + 52 + 1074 - 1074) in Hge by lia.
  apply (scaled_le a b 1074 (e + 52 + 1074)) in Hge; [|lia|lia].
  replace (e' + 53) with (e' + 53 + 1074 - 1074) in Hlt by lia.
  apply (scaled_lt a' b 1074 (e' + 53 + 1074)) in Hlt; [|lia|lia].
  assert (2 ^ (e' + 53 + 1074) <= 2 ^ (e + 52 + 1074)) by (apply Z.pow_le_mono_r; lia).
  pose proof (pow2_pos 1074 ltac:(lia)). nia.
Qed.

(** What [int] makes of the quotient of two positive ints, with either
    sign put on the numerator. *)
Lemma SFdiv_pos_to_int (s : bool) (a b : positive) :
  exists e1 m1,
    -1074 <= e1 /\
    num_at (e1 + 53) (Z.pos a) < den_at (e1 + 53) (Z.pos b) /\
    (e1 = -1074 \/
     (den_at (e1 + 52) (Z.pos b) <= num_at (e1 + 52) (Z.pos a) /\ 2 ^ 52 <= m1)) /\
    m1 = rne (num_at e1 (Z.pos a)) (den_at e1 (Z.pos b)) /\
    0 <= m1 <= 2 ^ 53 /\
    ((SFdiv PyFloat.prec PyFloat.emax (S754_finite s a 0) (S754_finite false b 0)
        = S754_infinity (xorb s false) /\ 971 <= e1) \/
     exists f,
       SFdiv PyFloat.prec PyFloat.emax (S754_finite s a 0) (S754_finite false b 0) = f /\
       (forall s', f <> S754_infinity s') /\
       PyFloat.to_int f
         = Ok (if s then - floor_scaled m1 e1 else floor_scaled m1 e1)).
Proof.
  destruct (SFdiv_pos_spec s a b) as (e1 & m1 & He1 & Hlt & Hge & Hm1 & Hb & ->).
  exists e1, m1. do 5 (split; [done|]).
  replace (xorb s false) with s by (by destruct s).
  destruct (Z.eqb_spec m1 (2 ^ 53)) as [E|NE].
  - change (2 ^ 52) with (Z.pos (2 ^ 52)).
    destruct (Z.leb_spec (e1 + 1) 971) as [Hle|Hgt]; [right|left; split; [done|lia]].
    eexists. split; [done|]. split; [done|].
    cbn [PyFloat.to_int]. fold (floor_scaled (Z.pos (2 ^ 52)) (e1 + 1)).
    change (Z.pos (2 ^ 52)) with (2 ^ 52). rewrite E.
    rewrite !floor_scaled_pow by lia.
    by replace (e1 + 1 + 52) with (e1 + 53) by lia.
  - destruct m1 as [|m|m]; [| |lia].
    + right. eexists. split; [done|]. split; [done|].
      cbn [PyFloat.to_int]. unfold floor_scaled. rewrite Z.mul_0_l, Z.div_0_l.
      * by destruct s, (0 <=? e1).
      * pose proof (pow2_pos (- e1)). destruct (Z.leb_spec 0 e1); lia.
    + destruct (Z.leb_spec e1 971) as [Hle|Hgt]; [right|left; split; [done|lia]].
      eexists. split; [done|]. split; [done|]. reflexivity.
Qed.


(** [int(n / d)] on ints. *)
Definition trunc_div (n d : Z) : result Z :=
  q ← PyFloat.int_true_div n d; PyFloat.to_int q.

Lemma SFdiv_neg_num (a b : positive) :
  SFdiv PyFloat.prec PyFloat.emax (S754_finite true a 0) (S754_finite false b 0)
  = SFopp (SFdiv PyFloat.prec PyFloat.emax (S754_finite false a 0) (S754_finite false b 0)).
Proof.
  unfold SFdiv.
  destruct (SFdiv_core_binary PyFloat.prec PyFloat.emax (Z.pos a) 0 (Z.pos b) 0)
    as [[mz ez] lz].
  cbn [xorb]. unfold binary_round_aux.
  destruct (shr_fexp PyFloat.prec PyFloat.emax mz ez lz) as [mrs' e'].
  destruct (shr_fexp PyFloat.prec PyFloat.emax _ e' loc_Exact) as [mrs'' e''].
  destruct (shr_m mrs''); [done| |done]. by destruct (e'' <=? _).
Qed.

Lemma trunc_div_neg_num (a b : positive) :
  trunc_div (Z.neg a) (Z.pos b) = (v ← trunc_div (Z.pos a) (Z.pos b); Ok (- v)).
Proof.
  unfold trunc_div, PyFloat.int_true_div.
  rewrite !decide_False by done. cbn [PyFloat.exact]. rewrite SFdiv_neg_num.
  destruct (SFdiv PyFloat.prec PyFloat.emax _ _) as [s| s| |s m e]; try done.
  cbn. by destruct s; rewrite ?Z.opp_involutive.
Qed.

Lemma trunc_div_zero_num (b : positive) : trunc_div 0 (Z.pos b) = Ok 0.
Proof. reflexivity. Qed.

(** The value of [int(a / b)] for positive ints. *)
Lemma trunc_div_pos_value (a b : positive) :
  exists e1 m1,
    -1074 <= e1 /\
    num_at (e1 + 53) (Z.pos a) < den_at (e1 + 53) (Z.pos b) /\
    (e1 = -1074 \/
     (den_at (e1 + 52) (Z.pos b) <= num_at (e1 + 52) (Z.pos a) /\ 2 ^ 52 <= m1)) /\
    m1 = rne (num_at e1 (Z.pos a)) (den_at e1 (Z.pos b)) /\
    0 <= m1 <= 2 ^ 53 /\
    ((trunc_div (Z.pos a) (Z.pos b) = Raise OverflowError /\ 971 <= e1) \/
     trunc_div (Z.pos a) (Z.pos b) = Ok (floor_scaled m1 e1)).
Proof.
  destruct (SFdiv_pos_to_int false a b)
    as (e1 & m1 & He1 & Hlt & Hge & Hm1 & Hb & [[Hinf Hbig]|(f & Hf & Hfin & Hint)]);
    exists e1, m1; do 5 (split; [done|]);
    unfold trunc_div, PyFloat.int_true_div; rewrite decide_False by done;
    cbn [PyFloat.exact]; rewrite ?Hinf, ?Hf.
  - by left.
  - right. destruct f as [s| s| |s m e]; first [done | by destruct (Hfin s)].
Qed.

Lemma trunc_div_pos_total (a b : positive) :
  Z.pos a < 2 ^ 1023 -> exists v, trunc_div (Z.pos a) (Z.pos b) = Ok v.
Proof.
  intros Ha.
  destruct (trunc_div_pos_value a b)
    as (e1 & m1 & He1 & _ & Hge & _ & _ & [[_ Hbig]|Hv]); [exfalso|by eexists].
  destruct Hge as [->|[Hge _]]; [lia|].
  unfold den_at, num_at in Hge.
  rewrite Z.max_r, Z.max_l in Hge by lia.
  assert (2 ^ 1023 <= 2 ^ (e1 + 52)) by (apply Z.pow_le_mono_r; lia).
  change (2 ^ 0) with 1 in Hge. nia.
Qed.

Lemma trunc_div_pos_mono (a a' b : positive) (v v' : Z) :
  Z.pos a <= Z.pos a' ->
  trunc_div (Z.pos a) (Z.pos b) = Ok v -> trunc_div (Z.pos a') (Z.pos b) = Ok v' ->
  0 <= v <= v'.
Proof.
  intros Ha Hv Hv'.
  destruct (trunc_div_pos_value a b)
    as (e & m & He & Hlt & Hge & Hm & Hb & [[Hr _]|Hval]); [congruence|].
  destruct (trunc_div_pos_value a' b)
    as (e' & m' & He' & Hlt' & Hge' & Hm' & Hb' & [[Hr' _]|Hval']); [congruence|].
  rewrite Hval in Hv. rewrite Hval' in Hv'. injection Hv as <-. injection Hv' as <-.
  split; [by destruct (floor_scaled_mono m m e ltac:(lia))|].
  assert (Hee : e <= e').
  { destruct Hge as [->|[Hge _]]; [done|].
    by apply (binade_mono (Z.pos a) (Z.pos a') (Z.pos b)). }
  destruct (Z.eq_dec e e') as [<-|Hne].
  - apply floor_scaled_mono. split; [lia|]. rewrite Hm, Hm'. apply rne_mono.
    + unfold den_at. pose proof (pow2_pos (Z.max 0 e) ltac:(lia)). nia.
    + unfold num_at. pose proof (pow2_pos (Z.max 0 (- e)) ltac:(lia)). nia.
  - destruct Hge' as [->|[_ Hm52]]; [lia|].
    transitivity (floor_scaled (2 ^ 53) e); [by apply floor_scaled_mono|].
    transitivity (floor_scaled (2 ^ 52) e'); [|apply floor_scaled_mono; lia].
    rewrite !floor_scaled_pow by lia. apply pow2_floor_mono. lia.
Qed.

Lemma trunc_div_pos_nonneg (a b : positive) (v : Z) :
  trunc_div (Z.pos a) (Z.pos b) = Ok v -> 0 <= v.
Proof. intros Hv. by destruct (trunc_div_pos_mono a a b v v ltac:(lia) Hv Hv). Qed.

Lemma trunc_div_neg_value (a b : positive) (v : Z) :
  trunc_div (Z.neg a) (Z.pos b) = Ok v -> trunc_div (Z.pos a) (Z.pos b) = Ok (- v).
Proof.
  rewrite trunc_div_neg_num.
  destruct (trunc_div (Z.pos a) (Z.pos b)) as [w|err]; cbn; [|done].
  intros [= <-]. by rewrite Z.opp_involutive.
Qed.

(** [int(n / d)] grows with [n], for a positive [d]. *)
Lemma trunc_div_mono (n n' d v v' : Z) :
  0 < d -> n <= n' -> trunc_div n d = Ok v -> trunc_div n' d = Ok v' -> v <= v'.
Proof.
  intros Hd Hn Hv Hv'. destruct d as [|b|b]; [lia| |lia].
  destruct n as [|a|a], n' as [|a'|a']; try lia;
    rewrite ?trunc_div_zero_num in Hv, Hv';
    try apply trunc_div_neg_value in Hv; try apply trunc_div_neg_value in Hv'.
  - congruence.
  - injection Hv as <-. by apply trunc_div_pos_nonneg in Hv'.
  - by destruct (trunc_div_pos_mono a a' b v v' Hn Hv Hv').
  - injection Hv' as <-. apply trunc_div_pos_nonneg in Hv. lia.
  - apply trunc_div_pos_nonneg in Hv, Hv'. lia.
  - destruct (trunc_div_pos_mono a' a b (- v') (- v) ltac:(lia) Hv' Hv). lia.
Qed.

(** [int(n / d)] returns unless the quotient is beyond the floats. *)
Lemma trunc_div_total (n d : Z) :
  0 < d -> Z.abs n < 2 ^ 1023 -> exists v, trunc_div n d = Ok v.
Proof.
  intros Hd Hn. destruct d as [|b|b]; [lia| |lia].
  destruct n as [|a|a].
  - by exists 0.
  - apply trunc_div_pos_total. lia.
  - rewrite trunc_div_neg_num.
    destruct (trunc_div_pos_total a b ltac:(lia)) as [v ->]. by eexists.
Qed.

End FloatFacts.

(** * Facts about the exception monad and loops *)

Section ForEach.
Context {A S : Type}.

Lemma bind_Ok {B C : Type} (c : result B) (k : B -> result C) (r : C) :
  (x ← c; k x) = Ok r -> exists x, c = Ok x /\ k x = Ok r.
Proof. destruct c as [x|e]; [eauto|discriminate]. Qed.

Lemma for_each_app (l1 l2 : list A) (body : A -> S -> result S) (s : S) :
  for_each (l1 ++ l2) body s = (s' ← for_each l1 body s; for_each l2 body s').
Proof.
  revert s. induction l1 as [|x l1 IH]; intros s; simpl; [done|].
  destruct (body x s) as [s'|e]; simpl; [apply IH|done].
Qed.

(** A loop whose body keeps an invariant and never raises under it
    finishes with the invariant. *)
Lemma for_each_inv (P : S -> Prop) (l : list A) (body : A -> S -> result S) (s : S) :
  P s ->
  (forall x s, x ∈ l -> P s -> exists s', body x s = Ok s' /\ P s') ->
  exists s', for_each l body s = Ok s' /\ P s'.
Proof.
  revert s. induction l as [|x l IH]; intros s Hs Hbody; simpl; [eauto|].
  destruct (Hbody x s ltac:(left) Hs) as (s' & -> & Hs'). simpl.
  apply IH; [done|]. intros y s0 Hy. apply Hbody. by right.
Qed.

End ForEach.

(** Settle a decidable closed proposition by evaluation. *)
Ltac by_compute :=
  match goal with
  | |- ?G => apply (bool_decide_unpack G); vm_compute; exact I
  end.

(** Reduce the binds of a computation whose head is known. *)
Ltac simpl_bind := cbn [mbind result_mbind result_bind mret result_mret].

Lemma getitem_Ok {A : Type} (l : list A) (i : nat) (x : A) :
  getitem l i = Ok x <-> l !! i = Some x.
Proof. unfold getitem. destruct (l !! i); split; congruence. Qed.

Lemma getitem_lt {A : Type} (l : list A) (i : nat) :
  (i < length l)%nat -> exists x, getitem l i = Ok x /\ l !! i = Some x.
Proof.
  intros Hi. destruct (lookup_lt_is_Some_2 l i Hi) as [x Hx].
  exists x. by rewrite getitem_Ok.
Qed.

Lemma setitem_lt {A : Type} (l : list A) (i : nat) (v : A) :
  (i < length l)%nat -> setitem l i v = Ok (<[i:=v]> l).
Proof. intros Hi. unfold setitem. by destruct (decide (i < length l)%nat). Qed.

(** * Properties of the pitch-to-lane mapping *)

Section MapToFretsFacts.
Import MapToFrets.

Lemma clamp_lane_range (l : Z) : 0 <= clamp_lane l <= 4.
Proof. unfold clamp_lane. lia. Qed.

Lemma scale_pitch_to_lane_ok (p lo hi : Z) :
  lo <= p <= hi -> exists l, scale_pitch_to_lane p lo hi = Ok l.
Proof.
  intros Hp. unfold scale_pitch_to_lane.
  destruct (decide (hi = lo)); [eauto|].
  destruct (round_ratio_ok (p - lo) (hi - lo) ltac:(lia) ltac:(lia)) as (f & l & -> & Hl).
  simpl_bind. rewrite Hl. simpl_bind. eauto.
Qed.

(** Every index a phrase holds is an index of [notes], and no phrase is
    empty. *)
Definition phrases_wf (n : nat) (phrases : list (list nat)) : Prop :=
  Forall (fun ph => ph <> [] /\ Forall (fun i => (i < n)%nat) ph) phrases.

Lemma segment_into_phrases_ok (notes : list NoteEvent) (tpb : Z) (sb : spec_float) (st : Z) :
  silence_threshold sb tpb = Ok st ->
  exists phrases, segment_into_phrases notes tpb sb = Ok phrases /\
    phrases_wf (length notes) phrases.
Proof.
  intros Hst. unfold segment_into_phrases.
  destruct notes as [|n0 notes'] eqn:Hn; [exists []; split; [done|constructor]|].
  rewrite <- Hn. rewrite Hst. simpl.
  set (P := fun st : list (list nat) * list nat =>
              phrases_wf (length notes) (st.1 ++ [st.2])).
  destruct (for_each_inv P (seq 1 (length notes - 1)) (segment_step notes st) ([], [0%nat]))
    as ([phrases cur] & -> & HP).
  - unfold P, phrases_wf. simpl. repeat constructor; [done|]. subst notes. simpl. lia.
  - intros i [phrases cur] Hi HP. apply elem_of_seq in Hi.
    unfold segment_step.
    destruct (getitem_lt notes (i - 1) ltac:(lia)) as (prev & -> & _).
    destruct (getitem_lt notes i ltac:(lia)) as (curr & -> & _). simpl.
    unfold P, phrases_wf in *. simpl in *.
    apply Forall_app in HP as [HP1 HP2]. apply Forall_singleton in HP2 as [HP2 HP3].
    destruct (decide (st <= start_tick curr - end_tick prev)); eexists; (split; [done|]); simpl.
    + apply Forall_app. split; [apply Forall_app; split; [done|by apply Forall_singleton]|].
      apply Forall_singleton. split; [done|]. apply Forall_singleton. lia.
    + apply Forall_app. split; [done|]. apply Forall_singleton. split.
      * by destruct cur.
      * apply Forall_app. split; [done|]. apply Forall_singleton. lia.
  - simpl. unfold P in HP. simpl in HP.
    destruct cur as [|c cur']; eexists; (split; [done|]); [|done].
    unfold phrases_wf in HP. apply Forall_app in HP as [_ HP].
    apply Forall_singleton in HP as [HP _]. done.
Qed.

Lemma pitches_loop_ok (notes : list NoteEvent) (ph : list nat) (acc : list Z) :
  Forall (fun i => (i < length notes)%nat) ph ->
  exists ps,
    for_each ph (fun i acc => n ← getitem notes i; Ok (acc ++ [pitch n])) acc
      = Ok (acc ++ ps) /\
    (ph <> [] -> ps <> []) /\
    forall i n, i ∈ ph -> notes !! i = Some n -> pitch n ∈ ps.
Proof.
  revert acc. induction ph as [|i ph IH]; intros acc Hph.
  - exists []. rewrite app_nil_r. split; [done|]. split; [done|].
    intros i n Hi. by apply elem_of_nil in Hi.
  - apply Forall_cons in Hph as [Hi Hph]. simpl.
    destruct (getitem_lt notes i Hi) as (n & -> & Hn). simpl_bind.
    destruct (IH (acc ++ [pitch n]) Hph) as (ps & -> & _ & Hps).
    exists (pitch n :: ps). rewrite <- app_assoc. split; [done|]. split; [done|].
    intros j m Hj Hm. apply elem_of_cons in Hj as [->|Hj].
    + rewrite Hn in Hm. injection Hm as <-. left.
    + right. by apply (Hps j).
Qed.

Lemma foldl_min_le (l : list Z) (x : Z) :
  foldl Z.min x l <= x /\ forall y, y ∈ l -> foldl Z.min x l <= y.
Proof.
  revert x. induction l as [|z l IH]; intros x; simpl.
  - split; [lia|]. intros y Hy. by apply elem_of_nil in Hy.
  - destruct (IH (Z.min x z)) as [H1 H2]. split; [lia|].
    intros y Hy. apply elem_of_cons in Hy as [->|Hy]; [lia|by apply H2].
Qed.

Lemma foldl_max_ge (l : list Z) (x : Z) :
  x <= foldl Z.max x l /\ forall y, y ∈ l -> y <= foldl Z.max x l.
Proof.
  revert x. induction l as [|z l IH]; intros x; simpl.
  - split; [lia|]. intros y Hy. by apply elem_of_nil in Hy.
  - destruct (IH (Z.max x z)) as [H1 H2]. split; [lia|].
    intros y Hy. apply elem_of_cons in Hy as [->|Hy]; [lia|by apply H2].
Qed.

Lemma py_min_max_ok (l : list Z) :
  l <> [] ->
  exists lo hi, py_min l = Ok lo /\ py_max l = Ok hi /\
    forall y, y ∈ l -> lo <= y <= hi.
Proof.
  destruct l as [|x l]; [done|]. intros _.
  exists (foldl Z.min x l), (foldl Z.max x l). split; [done|]. split; [done|].
  intros y Hy. destruct (foldl_min_le l x) as [H1 H2].
  destruct (foldl_max_ge l x) as [H3 H4].
  apply elem_of_cons in Hy as [->|Hy]; [lia|].
  specialize (H2 y Hy). specialize (H4 y Hy). lia.
Qed.

Lemma scale_phrase_ok (notes : list NoteEvent) (ph : list nat) (lanes : list Z) :
  ph <> [] -> Forall (fun i => (i < length notes)%nat) ph ->
  length lanes = length notes ->
  exists lanes', scale_phrase notes ph lanes = Ok lanes' /\
    length lanes' = length notes.
Proof.
  intros Hne Hph Hlen. unfold scale_phrase, pitches_at.
  destruct (pitches_loop_ok notes ph [] Hph) as (ps & -> & Hps & Hin).
  simpl_bind. rewrite app_nil_l.
  destruct (py_min_max_ok ps (Hps Hne)) as (lo & hi & -> & -> & Hb). simpl_bind.
  apply (for_each_inv (fun l : list Z => length l = length notes)); [done|].
  intros i l Hi Hl. rewrite Forall_forall in Hph. specialize (Hph i Hi).
  destruct (getitem_lt notes i Hph) as (n & -> & Hn). simpl_bind.
  destruct (scale_pitch_to_lane_ok (pitch n) lo hi) as (v & ->).
  { apply Hb. by apply (Hin i). }
  simpl_bind. rewrite setitem_lt by lia. eexists. split; [done|].
  by rewrite length_insert.
Qed.

Lemma clamp_jump_step_ok (max_jump : Z) (i : nat) (res : list Z) :
  (1 <= i < length res)%nat ->
  exists res', clamp_jump_step max_jump i res = Ok res' /\ length res' = length res.
Proof.
  intros Hi. unfold clamp_jump_step.
  destruct (getitem_lt res i ltac:(lia)) as (ri & -> & _).
  destruct (getitem_lt res (i - 1) ltac:(lia)) as (rp & -> & _). simpl_bind.
  destruct (decide (max_jump < Z.abs (ri - rp))); [|eauto].
  rewrite setitem_lt by lia. eexists. split; [done|]. by rewrite length_insert.
Qed.

Lemma smooth_lanes_ok (lanes : list Z) (max_jump passes : Z) :
  exists res, smooth_lanes lanes max_jump passes = Ok res /\ length res = length lanes.
Proof.
  unfold smooth_lanes. destruct (decide (length lanes <= 1)%nat); [eauto|].
  apply (for_each_inv (fun l : list Z => length l = length lanes)); [done|].
  intros _ res _ Hres.
  apply (for_each_inv (fun l : list Z => length l = length lanes)); [done|].
  intros i l Hi Hl. apply elem_of_seq in Hi.
  destruct (clamp_jump_step_ok max_jump i l ltac:(lia)) as (l' & -> & Hl').
  eexists. split; [done|]. lia.
Qed.

Lemma preserve_step_ok (pitches : list Z) (i : nat) (res : list Z) :
  (1 <= i < length res)%nat -> length pitches = length res ->
  exists res', preserve_step pitches i res = Ok res' /\ length res' = length res.
Proof.
  intros Hi Hlen. unfold preserve_step.
  destruct (getitem_lt pitches i ltac:(lia)) as (p1 & -> & _).
  destruct (getitem_lt pitches (i - 1) ltac:(lia)) as (p0 & -> & _).
  destruct (getitem_lt res i ltac:(lia)) as (ri & -> & _).
  destruct (getitem_lt res (i - 1) ltac:(lia)) as (rp & -> & _). simpl_bind.
  repeat case_decide; rewrite ?setitem_lt by lia; eexists;
    (split; [done|]); by rewrite ?length_insert.
Qed.

Lemma preserve_direction_ok (lanes pitches : list Z) :
  length pitches = length lanes ->
  exists res, preserve_direction lanes pitches = Ok res /\ length res = length lanes.
Proof.
  intros Hlen. unfold preserve_direction.
  destruct (decide (length lanes <= 1)%nat); [eauto|].
  apply (for_each_inv (fun l : list Z => length l = length lanes)); [done|].
  intros i l Hi Hl. apply elem_of_seq in Hi.
  destruct (preserve_step_ok pitches i l ltac:(lia) ltac:(lia)) as (l' & -> & Hl').
  eexists. split; [done|]. lia.
Qed.

(** C4: whatever the notes, the resolution and the tunables, every lane
    that [map_pitches_to_lanes] returns lies in [0,4]; and the function does
    return, one lane per note, as soon as the silence threshold
    [int(phrase_silence_beats * ticks_per_beat)] is computable (always for no
    notes at all). *)
Theorem map_pitches_to_lanes_in_range
    (notes : list NoteEvent) (ticks_per_beat : Z) (phrase_silence_beats : spec_float)
    (max_lane_jump smoothing_passes : Z) :
  (forall lanes,
     map_pitches_to_lanes notes ticks_per_beat phrase_silence_beats
       max_lane_jump smoothing_passes = Ok lanes ->
     Forall (fun lane => 0 <= lane <= 4) lanes) /\
  ((notes = [] \/
    exists st, silence_threshold phrase_silence_beats ticks_per_beat = Ok st) ->
   exists lanes,
     map_pitches_to_lanes notes ticks_per_beat phrase_silence_beats
       max_lane_jump smoothing_passes = Ok lanes /\
     length lanes = length notes).
Proof.
  split.
  - intros lanes H. unfold map_pitches_to_lanes in H.
    destruct notes as [|n notes'].
    { injection H as <-. constructor. }
    apply bind_Ok in H as (phrases & _ & H).
    apply bind_Ok in H as (l1 & _ & H).
    apply bind_Ok in H as (l2 & _ & H).
    apply bind_Ok in H as (l3 & _ & H).
    injection H as <-. apply Forall_map, Forall_forall. intros l _.
    apply clamp_lane_range.
  - intros H. unfold map_pitches_to_lanes.
    destruct notes as [|n notes'] eqn:Hn; [by exists []|].
    destruct H as [|[st Hst]]; [done|]. rewrite <- Hn.
    destruct (segment_into_phrases_ok notes ticks_per_beat phrase_silence_beats st Hst)
      as (phrases & -> & Hwf). simpl_bind.
    destruct (for_each_inv (fun l : list Z => length l = length notes)
                phrases (scale_phrase notes) (replicate (length notes) 0))
      as (l1 & -> & Hl1).
    { apply length_replicate. }
    { intros ph l Hph Hl. unfold phrases_wf in Hwf. rewrite Forall_forall in Hwf.
      destruct (Hwf ph Hph) as [Hne Hr]. by apply scale_phrase_ok. }
    simpl_bind.
    destruct (smooth_lanes_ok l1 max_lane_jump smoothing_passes) as (l2 & -> & Hl2).
    simpl_bind.
    destruct (preserve_direction_ok l2 (map pitch notes)) as (l3 & -> & Hl3).
    { rewrite length_map. lia. }
    simpl_bind. eexists. split; [done|]. rewrite length_map. lia.
Qed.

(** ** Quality checks *)

Lemma enumerate_snoc {A : Type} (l : list A) (x : A) :
  enumerate (l ++ [x]) = enumerate l ++ [(length l, x)].
Proof. unfold enumerate. rewrite imap_app. simpl. by rewrite Nat.add_0_r. Qed.

Lemma qa_opt_append (P : Prop) `{Decision P} (issues : list (list QAIssue)) (i : nat)
    (c : list QAIssue) (q : QAIssue) :
  issues !! i = Some c ->
  (if decide P then qa_append issues i q else Ok issues)
    = Ok (<[i := c ++ (if decide P then [q] else [])]> issues).
Proof.
  intros Hc. destruct (decide P).
  - unfold qa_append. rewrite (proj2 (getitem_Ok _ _ _) Hc). simpl_bind.
    apply setitem_lt. by eapply lookup_lt_Some.
  - rewrite app_nil_r. by rewrite list_insert_id.
Qed.

(** [(p, l)] was met among the first [k] note/lane pairs. *)
Definition seen_before (notes : list NoteEvent) (lanes : list Z) (k : nat) (p l : Z) : Prop :=
  exists j n, (j < k)%nat /\ notes !! j = Some n /\ pitch n = p /\ lanes !! j = Some l.

(** Pitch [p] was met among the first [k] note/lane pairs. *)
Definition pitch_before (notes : list NoteEvent) (lanes : list Z) (k : nat) (p : Z) : Prop :=
  exists l, seen_before notes lanes k p l.

Lemma qa_step_spec (notes : list NoteEvent) (lanes : list Z) (k : nat) (n : NoteEvent)
    (l : Z) (issues : list (list QAIssue)) (p2l : gmap Z (gset Z)) :
  notes !! k = Some n -> lanes !! k = Some l -> issues !! k = Some [] ->
  exists c,
    qa_step notes lanes (k, (n, l)) (issues, p2l)
      = Ok (<[k := c]> issues,
            <[pitch n := match p2l !! pitch n with
                         | Some seen => seen ∪ {[l]}
                         | None => {[l]}
                         end]> p2l) /\
    (DIFFERENT_FRET ∈ c <-> exists seen, p2l !! pitch n = Some seen /\ l ∉ seen).
Proof.
  intros Hn Hl Hc. unfold qa_step.
  assert (Hk : (k < length issues)%nat) by (by eapply lookup_lt_Some).
  set (x1 := match p2l !! pitch n with
             | Some seen => if decide (l ∉ seen) then [DIFFERENT_FRET] else []
             | None => []
             end).
  set (p2l' := <[pitch n := match p2l !! pitch n with
                            | Some seen => seen ∪ {[l]}
                            | None => {[l]}
                            end]> p2l).
  assert (H1 : match p2l !! pitch n with
               | Some seen =>
                   issues0 ← (if decide (l ∉ seen) then qa_append issues k DIFFERENT_FRET
                              else Ok issues);
                   Ok (issues0, <[pitch n := seen ∪ {[l]}]> p2l)
               | None => Ok (issues, <[pitch n := {[l]}]> p2l)
               end = Ok (<[k := x1]> issues, p2l')).
  { unfold x1, p2l'. destruct (p2l !! pitch n) as [seen|].
    - rewrite (qa_opt_append _ issues k [] DIFFERENT_FRET Hc). simpl_bind. done.
    - by rewrite list_insert_id. }
  rewrite H1. simpl_bind. clear H1.
  assert (Hx1 : DIFFERENT_FRET ∈ x1 <-> exists seen, p2l !! pitch n = Some seen /\ l ∉ seen).
  { unfold x1. destruct (p2l !! pitch n) as [seen|].
    - destruct (decide (l ∉ seen)).
      + split; [eauto|]. intros _. left.
      + split; [by intros ?%elem_of_nil|]. intros (s' & [= <-] & ?). done.
    - split; [by intros ?%elem_of_nil|]. intros (s' & ? & _). done. }
  destruct (decide (0 < k)%nat) as [Hpos|Hzero].
  - destruct (getitem_lt notes (k - 1)) as (prev & -> & _).
    { apply lookup_lt_Some in Hn. lia. }
    destruct (getitem_lt lanes (k - 1)) as (pl & -> & _).
    { apply lookup_lt_Some in Hl. lia. }
    simpl_bind.
    rewrite (qa_opt_append _ (<[k:=x1]> issues) k x1 TOO_LOW)
      by (by apply list_lookup_insert_eq).
    simpl_bind. rewrite list_insert_insert_eq.
    rewrite (qa_opt_append _ (<[k:=_]> issues) k _ TOO_HIGH)
      by (by apply list_lookup_insert_eq).
    simpl_bind. rewrite list_insert_insert_eq.
    eexists. split; [done|]. rewrite <- Hx1.
    rewrite !elem_of_app. split; [|tauto].
    intros [[?|H]|H]; [done| |]; exfalso; case_decide;
      try (by apply elem_of_nil in H); by apply list_elem_of_singleton in H.
  - exists x1. done.
Qed.

(** What holds after the first [k] pairs of [zip(notes, lanes)]. *)
Record qa_inv (notes : list NoteEvent) (lanes : list Z) (k : nat)
    (issues : list (list QAIssue)) (p2l : gmap Z (gset Z)) : Prop := {
  qa_inv_length : length issues = length notes;
  qa_inv_rest : forall j, (k <= j < length notes)%nat -> issues !! j = Some [];
  qa_inv_table : forall p,
    match p2l !! p with
    | Some seen =>
        pitch_before notes lanes k p /\
        forall l, l ∈ seen <-> seen_before notes lanes k p l
    | None => ~ pitch_before notes lanes k p
    end;
  qa_inv_flag : forall j n l, (j < k)%nat ->
    notes !! j = Some n -> lanes !! j = Some l ->
    exists c, issues !! j = Some c /\
      (DIFFERENT_FRET ∈ c <->
       pitch_before notes lanes j (pitch n) /\
       ~ seen_before notes lanes j (pitch n) l)
}.

Lemma seen_before_S (notes : list NoteEvent) (lanes : list Z) (k : nat) (p l : Z)
    (n : NoteEvent) (ln : Z) :
  notes !! k = Some n -> lanes !! k = Some ln ->
  seen_before notes lanes (S k) p l <->
  seen_before notes lanes k p l \/ (pitch n = p /\ ln = l).
Proof.
  intros Hn Hl. unfold seen_before. split.
  - intros (j & m & Hj & Hm & Hp & Hlj).
    destruct (decide (j = k)) as [->|].
    + right. rewrite Hn in Hm. rewrite Hl in Hlj. by simplify_eq.
    + left. exists j, m. repeat split; try done. lia.
  - intros [(j & m & Hj & Hm & Hp & Hlj)|[Hp <-]].
    + exists j, m. repeat split; try done. lia.
    + exists k, n. repeat split; try done. lia.
Qed.

Lemma qa_loop_inv (notes : list NoteEvent) (lanes : list Z) (k : nat) :
  (k <= length (zip notes lanes))%nat ->
  exists issues p2l,
    for_each (enumerate (take k (zip notes lanes))) (qa_step notes lanes)
      (replicate (length notes) [], ∅) = Ok (issues, p2l) /\
    qa_inv notes lanes k issues p2l.
Proof.
  induction k as [|k IH]; intros Hk.
  - exists (replicate (length notes) []), ∅. split; [done|]. split.
    + apply length_replicate.
    + intros j Hj. apply lookup_replicate_2. lia.
    + intros p. rewrite lookup_empty. intros (l & j & n & Hj & _). lia.
    + intros j n l Hj. lia.
  - destruct (IH ltac:(lia)) as (issues & p2l & Hrun & [Hlen Hrest Htab Hflag]).
    destruct (lookup_lt_is_Some_2 (zip notes lanes) k ltac:(lia)) as [[n l] Hz].
    pose proof Hz as Hz'.
    apply lookup_zip_with_Some in Hz' as (n' & l' & [= <- <-] & Hn & Hl).
    rewrite (take_S_r _ _ _ Hz), enumerate_snoc, for_each_app, Hrun. simpl_bind.
    rewrite length_take_le by lia. cbn [for_each].
    assert (Hkn : (k < length notes)%nat) by (by eapply lookup_lt_Some).
    destruct (qa_step_spec notes lanes k n l issues p2l Hn Hl (Hrest k ltac:(lia)))
      as (c & -> & Hc).
    simpl_bind. eexists _, _. split; [done|]. split.
    + by rewrite length_insert.
    + intros j Hj. rewrite list_lookup_insert_ne by lia. apply Hrest. lia.
    + intros p. destruct (decide (pitch n = p)) as [<-|Hne].
      * rewrite lookup_insert_eq. split.
        { exists l. apply (seen_before_S _ _ _ _ _ n l Hn Hl). by right. }
        intros l0. rewrite (seen_before_S _ _ _ _ _ n l Hn Hl).
        specialize (Htab (pitch n)). destruct (p2l !! pitch n) as [seen|].
        -- destruct Htab as [_ Hseen]. rewrite elem_of_union, elem_of_singleton, Hseen.
           intuition congruence.
        -- rewrite elem_of_singleton. split; [intros ->; by right|].
           intros [Hs|[_ ->]]; [|done]. exfalso. apply Htab. by exists l0.
      * rewrite lookup_insert_ne by done. specialize (Htab p).
        assert (Hiff : forall l0, seen_before notes lanes (S k) p l0
                                  <-> seen_before notes lanes k p l0).
        { intros l0. rewrite (seen_before_S _ _ _ _ _ n l Hn Hl). intuition. }
        destruct (p2l !! p) as [seen|].
        -- destruct Htab as [(l0 & Hb) Hseen]. split.
           ++ exists l0. by apply Hiff.
           ++ intros l1. by rewrite Hseen, Hiff.
        -- intros (l0 & Hb). apply Htab. exists l0. by apply Hiff.
    + intros j m lj Hj Hm Hlj. destruct (decide (j = k)) as [->|Hjk].
      * rewrite Hn in Hm. rewrite Hl in Hlj. simplify_eq.
        exists c. split; [by apply list_lookup_insert_eq; lia|].
        rewrite Hc. specialize (Htab (pitch m)).
        destruct (p2l !! pitch m) as [seen|].
        -- destruct Htab as [Hb Hseen]. split.
           ++ intros (s' & [= <-] & Hnot). split; [done|]. by rewrite <- Hseen.
           ++ intros [_ Hnot]. exists seen. split; [done|]. by rewrite Hseen.
        -- split; [intros (s' & [=] & _)|]. intros [Hb _]. done.
      * rewrite list_lookup_insert_ne by done. apply Hflag; [lia|done|done].
Qed.

(** [detect_qa_issues] never raises, returns one issue list per note, and
    flags with DIFFERENT_FRET exactly the paired notes whose pitch was met
    before, never on the lane they now have. *)
Lemma detect_qa_issues_spec (notes : list NoteEvent) (lanes : list Z) :
  exists issues,
    detect_qa_issues notes lanes = Ok issues /\
    length issues = length notes /\
    (forall j, (length lanes <= j < length notes)%nat -> issues !! j = Some []) /\
    (forall j n l, notes !! j = Some n -> lanes !! j = Some l ->
       exists c, issues !! j = Some c /\
         (DIFFERENT_FRET ∈ c <->
          pitch_before notes lanes j (pitch n) /\
          ~ seen_before notes lanes j (pitch n) l)).
Proof.
  unfold detect_qa_issues.
  destruct (qa_loop_inv notes lanes (length (zip notes lanes)) ltac:(lia))
    as (issues & p2l & Hrun & [Hlen Hrest Htab Hflag]).
  rewrite firstn_all in Hrun. rewrite Hrun. simpl_bind.
  exists issues. split; [done|]. split; [done|].
  rewrite length_zip_with in Hrest, Hflag. split.
  - intros j Hj. apply Hrest. lia.
  - intros j n l Hn Hl. apply Hflag; [|done|done].
    apply lookup_lt_Some in Hn, Hl. lia.
Qed.

(** C9: called with a [lanes] list of any length, in particular one
    shorter than [notes], [detect_qa_issues] raises nothing; it returns
    exactly [len(notes)] issue lists, and every note at an index at or past
    [len(lanes)] has the empty issue list. *)
Theorem detect_qa_issues_short_lanes (notes : list NoteEvent) (lanes : list Z) :
  exists issues,
    detect_qa_issues notes lanes = Ok issues /\
    length issues = length notes /\
    forall i, (length lanes <= i < length notes)%nat -> issues !! i = Some [].
Proof.
  destruct (detect_qa_issues_spec notes lanes) as (issues & H1 & H2 & H3 & _).
  eauto.
Qed.



(** C6: [create_mapped_notes] raises ValueError whenever [notes] and
    [lanes] differ in length, whatever [include_qa]; for lists of equal
    length it returns a list of exactly that length whose [i]-th element
    pairs the [i]-th note with the [i]-th lane. *)
Theorem create_mapped_notes_length_check
    (notes : list NoteEvent) (lanes : list Z) (include_qa : bool) :
  (length notes <> length lanes ->
   create_mapped_notes notes lanes include_qa = Raise ValueError) /\
  (length notes = length lanes ->
   exists mapped,
     create_mapped_notes notes lanes include_qa = Ok mapped /\
     length mapped = length notes /\
     forall i n l, notes !! i = Some n -> lanes !! i = Some l ->
       exists m, mapped !! i = Some m /\ note m = n /\ lane m = l).
Proof.
  unfold create_mapped_notes. split; intros Hlen.
  - by destruct (decide (length notes <> length lanes)).
  - destruct (decide (length notes <> length lanes)) as [|_]; [done|].
    destruct include_qa.
    + destruct (detect_qa_issues_spec notes lanes) as (issues & -> & Hil & _).
      simpl_bind. eexists. split; [done|]. split.
      * rewrite length_map, !length_zip_with. lia.
      * intros i n l Hn Hl.
        destruct (lookup_lt_is_Some_2 issues i) as [c Hc].
        { apply lookup_lt_Some in Hn. lia. }
        exists (mkMappedNote n l c). split; [|done].
        change (map ?f ?x) with (f <$> x). rewrite list_lookup_fmap.
        assert (Hz : zip (zip notes lanes) issues !! i = Some ((n, l), c)).
        { apply lookup_zip_with_Some. exists (n, l), c. split; [done|]. split; [|done].
          apply lookup_zip_with_Some. by exists n, l. }
        by rewrite Hz.
    + eexists. split; [done|]. split.
      * rewrite length_map, length_zip_with. lia.
      * intros i n l Hn Hl. exists (mkMappedNote n l []). split; [|done].
        change (map ?f ?x) with (f <$> x). rewrite list_lookup_fmap.
        assert (Hz : zip notes lanes !! i = Some (n, l)).
        { apply lookup_zip_with_Some. by exists n, l. }
        by rewrite Hz.
Qed.

End MapToFretsFacts.

(** * Facts about the string operations *)

Section PyStrFacts.
Import PyStr.

Lemma lstrip_by_app (p : ascii -> bool) (pre s : str) :
  Forall (fun c => p c = true) pre -> lstrip_by p (pre ++ s) = lstrip_by p s.
Proof.
  induction 1 as [|c pre Hc _ IH]; simpl; [done|]. by rewrite Hc.
Qed.

Lemma lstrip_by_tight (p : ascii -> bool) (c : ascii) (s : str) :
  p c = false -> lstrip_by p (c :: s) = c :: s.
Proof. intros Hc. simpl. by rewrite Hc. Qed.

Lemma rstrip_by_app (p : ascii -> bool) (s post : str) :
  Forall (fun c => p c = true) post -> rstrip_by p (s ++ post) = rstrip_by p s.
Proof.
  intros H. unfold rstrip_by. rewrite rev_app_distr, lstrip_by_app; [done|].
  apply Forall_forall. intros c Hc. rewrite Forall_forall in H. apply H.
  apply list_elem_of_In. apply list_elem_of_In, in_rev in Hc. done.
Qed.

Lemma rstrip_by_tight (p : ascii -> bool) (s : str) (c : ascii) :
  p c = false -> rstrip_by p (s ++ [c]) = s ++ [c].
Proof.
  intros Hc. unfold rstrip_by. rewrite rev_app_distr. simpl.
  rewrite Hc. simpl. by rewrite rev_involutive.
Qed.

Lemma rstrip_by_nil (p : ascii -> bool) : rstrip_by p [] = [].
Proof. done. Qed.

(** A string is tight when it neither starts nor ends with a character
    that [p] strips. *)
Definition tight (p : ascii -> bool) (s : str) : Prop :=
  s = [] \/ (exists c s', s = c :: s' /\ p c = false) /\ (exists s' c, s = s' ++ [c] /\ p c = false).

Lemma strip_by_tight (p : ascii -> bool) (s : str) : tight p s -> strip_by p s = s.
Proof.
  intros [->|[(c & s' & -> & Hc) (s'' & c' & Hs & Hc')]]; [done|].
  unfold strip_by. rewrite lstrip_by_tight by done. rewrite Hs.
  by apply rstrip_by_tight.
Qed.

Lemma strip_by_around (p : ascii -> bool) (pre s post : str) :
  Forall (fun c => p c = true) pre -> Forall (fun c => p c = true) post ->
  tight p s -> s <> [] ->
  strip_by p (pre ++ s ++ post) = s.
Proof.
  intros Hpre Hpost [->|[(c & s' & -> & Hc) (s'' & c' & Hs & Hc')]] Hne; [done|].
  unfold strip_by. rewrite lstrip_by_app by done.
  rewrite <- app_comm_cons, lstrip_by_tight by done.
  rewrite app_comm_cons, rstrip_by_app by done. rewrite Hs. by apply rstrip_by_tight.
Qed.

Lemma tight_ends (p : ascii -> bool) (c c' : ascii) (s : str) :
  p c = false -> p c' = false -> tight p (c :: s ++ [c']).
Proof.
  intros Hc Hc'. right. split; [by exists c, (s ++ [c'])|].
  exists (c :: s), c'. done.
Qed.

(** ** Decimal digits *)

Definition is_digit (c : ascii) : bool :=
  match char_digit c with Some _ => true | None => false end.

Lemma char_digit_digit_char (d : N) : (d < 10)%N -> char_digit (digit_char d) = Some d.
Proof.
  intros Hd. unfold char_digit, digit_char.
  rewrite N_ascii_embedding by lia.
  replace ((48 <=? 48 + d)%N && (48 + d <=? 57)%N) with true.
  - f_equal. lia.
  - symmetry. apply andb_true_iff. split; apply N.leb_le; lia.
Qed.

Lemma is_digit_digit_char (d : N) : (d < 10)%N -> is_digit (digit_char d) = true.
Proof. intros Hd. unfold is_digit. by rewrite char_digit_digit_char. Qed.

(** What the digits of [n] are to the int parser. *)
Definition digits_of (n : N) (ds : str) : Prop :=
  ds <> [] /\ Forall (fun c => is_digit c = true) ds /\
  forall a b rest, parse_digits a b (ds ++ rest)
                   = parse_digits (a * 10 ^ N.of_nat (length ds) + n)%N true rest.

Lemma digits_of_single (n : N) : (n < 10)%N -> digits_of n [digit_char n].
Proof.
  intros Hn. split; [done|]. split.
  - constructor; [by apply is_digit_digit_char|constructor].
  - intros a b rest. simpl. rewrite char_digit_digit_char by done.
    f_equal; lia.
Qed.

Lemma digits_go_S (f : nat) (n : N) (acc : str) :
  digits_go (S f) n acc =
    if (n / 10 =? 0)%N then digit_char (n mod 10) :: acc
    else digits_go f (n / 10)%N (digit_char (n mod 10) :: acc).
Proof. done. Qed.

Lemma digits_go_spec (f : nat) (n : N) (acc : str) :
  (n < 2 ^ N.of_nat (S f))%N ->
  exists ds, digits_go (S f) n acc = ds ++ acc /\ digits_of n ds.
Proof.
  revert n acc. induction f as [|f IH]; intros n acc Hn.
  - change (2 ^ N.of_nat 1)%N with 2%N in Hn. simpl.
    assert (Hdiv : (n / 10 = 0)%N) by (apply N.div_small; lia).
    rewrite Hdiv. simpl. exists [digit_char (n mod 10)]. split; [done|].
    rewrite N.mod_small by lia. apply digits_of_single. lia.
  - rewrite digits_go_S. destruct (N.eqb_spec (n / 10) 0) as [Hz|Hnz].
    + exists [digit_char (n mod 10)]. split; [done|].
      assert (n < 10)%N.
      { destruct (N.lt_ge_cases n 10) as [|Hge]; [done|].
        exfalso. assert (1 <= n / 10)%N by (apply N.div_le_lower_bound; lia). lia. }
      rewrite N.mod_small by lia. by apply digits_of_single.
    + destruct (IH (n / 10)%N (digit_char (n mod 10) :: acc)) as (ds & Hds & Hne & Hdig & Hparse).
      { apply N.Div0.div_lt_upper_bound.
        replace (N.of_nat (S (S f))) with (N.succ (N.of_nat (S f))) in Hn by lia.
        rewrite N.pow_succ_r' in Hn. lia. }
      exists (ds ++ [digit_char (n mod 10)]). split.
      { rewrite Hds. by rewrite <- app_assoc. }
      assert (Hm : (n mod 10 < 10)%N) by (apply N.mod_lt; lia).
      split; [by destruct ds|]. split.
      { apply Forall_app. split; [done|].
        constructor; [by apply is_digit_digit_char|constructor]. }
      intros a b rest. rewrite <- app_assoc. rewrite Hparse. simpl.
      rewrite char_digit_digit_char by done. f_equal.
      rewrite length_app. simpl length.
      replace (N.of_nat (length ds + 1)) with (N.succ (N.of_nat (length ds))) by lia.
      rewrite N.pow_succ_r'.
      pose proof (N.div_mod n 10 ltac:(lia)). lia.
Qed.

Lemma str_of_N_digits (n : N) : digits_of n (str_of_N n).
Proof.
  unfold str_of_N.
  destruct (digits_go_spec (N.to_nat (N.log2 n)) n []) as (ds & Hds & Hd).
  - destruct n as [|p]; [done|].
    pose proof (N.log2_spec (N.pos p) ltac:(lia)) as [_ H].
    replace (N.of_nat (S (N.to_nat (N.log2 (N.pos p))))) with (N.succ (N.log2 (N.pos p))) by lia.
    done.
  - rewrite Hds, app_nil_r. done.
Qed.

(** A character of the decimal text of an int. *)
Definition int_char (c : ascii) : bool := is_digit c || bool_decide (c = "-"%char).

(** Characters that can stand anywhere in a line without being taken for
    white space, a line break, an [=] or a quote. *)
Definition plain_char (c : ascii) : bool :=
  negb (isspace c) && negb (bool_decide (c = "="%char)) && negb (bool_decide (c = dq))
  && negb (bool_decide (c = "["%char)) && negb (bool_decide (c = "]"%char))
  && negb (bool_decide (c = "{"%char)) && negb (bool_decide (c = "}"%char)).

Lemma is_digit_cases (c : ascii) :
  is_digit c = true ->
  plain_char c = true /\ c <> "-"%char /\ c <> "+"%char /\ c <> "_"%char.
Proof.
  destruct c as [[] [] [] [] [] [] [] []]; vm_compute; intros H; try discriminate H;
    repeat split; discriminate.
Qed.

Lemma int_char_plain (c : ascii) : int_char c = true -> plain_char c = true.
Proof.
  destruct c as [[] [] [] [] [] [] [] []]; vm_compute; done.
Qed.

Lemma plain_char_not_space (c : ascii) : plain_char c = true -> isspace c = false.
Proof.
  destruct c as [[] [] [] [] [] [] [] []]; vm_compute; done.
Qed.

Lemma isspace_nl_cr (c : ascii) : c = nl \/ c = cr -> isspace c = true.
Proof. intros [->| ->]; done. Qed.

Lemma str_of_N_chars (n : N) : Forall (fun c => is_digit c = true) (str_of_N n).
Proof. apply str_of_N_digits. Qed.

Lemma str_of_int_chars (z : Z) : Forall (fun c => int_char c = true) (str_of_int z).
Proof.
  assert (H : forall n, Forall (fun c => int_char c = true) (str_of_N n)).
  { intros n. eapply Forall_impl; [apply str_of_N_chars|].
    intros c Hc. unfold int_char. by rewrite Hc. }
  destruct z; simpl; [by repeat constructor|apply H|constructor; [done|apply H]].
Qed.

Lemma str_of_int_nonempty (z : Z) : str_of_int z <> [].
Proof.
  destruct z; simpl; try done. apply str_of_N_digits.
Qed.

(** A non-empty string of characters that are not white space is tight. *)
Lemma tight_no_space (s : str) :
  Forall (fun c => isspace c = false) s -> tight isspace s.
Proof.
  intros H. destruct s as [|c s] using rev_ind; [by left|]. clear IHs.
  right. apply Forall_app in H as [H1 H2]. rewrite Forall_singleton in H2. split.
  - destruct s as [|c' s']; simpl.
    + exists c, []. by split.
    + exists c', (s' ++ [c]). split; [done|]. by apply Forall_cons in H1 as [? _].
  - exists s, c. by split.
Qed.

Lemma str_of_int_no_space (z : Z) : Forall (fun c => isspace c = false) (str_of_int z).
Proof.
  eapply Forall_impl; [apply str_of_int_chars|].
  intros c Hc. by apply plain_char_not_space, int_char_plain.
Qed.

Lemma strip_str_of_int (z : Z) : strip (str_of_int z) = str_of_int z.
Proof. apply strip_by_tight, tight_no_space, str_of_int_no_space. Qed.

Lemma parse_str_of_N (n : N) : parse_digits 0 false (str_of_N n) = Some n.
Proof.
  destruct (str_of_N_digits n) as (_ & _ & H).
  specialize (H 0%N false []). rewrite app_nil_r in H. rewrite H. simpl. f_equal; lia.
Qed.

(** [int(str(z)) == z] *)
Lemma py_int_str_of_int (z : Z) : py_int (str_of_int z) = Ok z.
Proof.
  unfold py_int. rewrite strip_str_of_int.
  destruct z as [|p|p]; [done| |].
  - simpl str_of_int.
    destruct (str_of_N_digits (N.pos p)) as (Hne & Hdig & _).
    destruct (str_of_N (N.pos p)) as [|c ds] eqn:E; [done|].
    apply Forall_cons in Hdig as [Hc _].
    destruct (is_digit_cases c Hc) as (_ & Hm & Hp & _).
    destruct (decide (c = "-"%char)); [done|]. destruct (decide (c = "+"%char)); [done|].
    cbv beta iota. rewrite <- E, parse_str_of_N. done.
  - simpl str_of_int. cbv beta iota.
    destruct (decide ("-"%char = "-"%char)); [|done].
    cbv beta iota. rewrite parse_str_of_N. done.
Qed.

End PyStrFacts.

(** * Properties of the chart writer of the converter *)

Section ChartWriterFacts.
Import PyStr ChartWriter.

(** C7 (as amended): for positive resolutions the conversion is monotonic
    wherever it returns, it returns whenever [tick * chart_resolution] is
    below [2^1023] in magnitude, and while that product and the input
    resolution stay below [2^53] it is the quotient
    [tick * chart_resolution / midi_ppq] truncated toward zero (the floor,
    for a tick that is not negative). *)
Theorem midi_ticks_to_chart_ticks_monotone (midi_ppq chart_resolution : Z) :
  0 < midi_ppq -> 0 < chart_resolution ->
  (forall a b ca cb,
     a <= b ->
     midi_ticks_to_chart_ticks a midi_ppq chart_resolution = Ok ca ->
     midi_ticks_to_chart_ticks b midi_ppq chart_resolution = Ok cb ->
     ca <= cb) /\
  (forall t,
     Z.abs (t * chart_resolution) < 2 ^ 1023 ->
     exists c, midi_ticks_to_chart_ticks t midi_ppq chart_resolution = Ok c) /\
  (forall t,
     midi_ppq < 2 ^ 53 -> Z.abs (t * chart_resolution) < 2 ^ 53 ->
     midi_ticks_to_chart_ticks t midi_ppq chart_resolution
       = Ok (Z.quot (t * chart_resolution) midi_ppq) /\
     (0 <= t ->
      midi_ticks_to_chart_ticks t midi_ppq chart_resolution
        = Ok (t * chart_resolution / midi_ppq))).
Proof.
  intros Hppq Hres. split; [|split].
  - intros a b ca cb Hab Ha Hb.
    apply (trunc_div_mono (a * chart_resolution) (b * chart_resolution) midi_ppq);
      [done|nia|exact Ha|exact Hb].
  - intros t Ht. by apply trunc_div_total.
  - intros t Hppq' Ht.
    assert (Hq : midi_ticks_to_chart_ticks t midi_ppq chart_resolution
                 = Ok (Z.quot (t * chart_resolution) midi_ppq)).
    { unfold midi_ticks_to_chart_ticks.
      destruct (int_true_div_to_int (t * chart_resolution) midi_ppq Ht ltac:(lia))
        as (f & -> & Hf).
      simpl_bind. exact Hf. }
    split; [exact Hq|].
    intros Ht0. rewrite Hq. f_equal. apply Z.quot_div_nonneg; nia.
Qed.

Lemma midi_ticks_to_chart_ticks_monotone_witness :
  (forall a b ca cb,
     a <= b ->
     midi_ticks_to_chart_ticks a 480 192 = Ok ca ->
     midi_ticks_to_chart_ticks b 480 192 = Ok cb ->
     ca <= cb) /\
  (forall t,
     Z.abs (t * 192) < 2 ^ 1023 ->
     exists c, midi_ticks_to_chart_ticks t 480 192 = Ok c) /\
  (forall t,
     480 < 2 ^ 53 -> Z.abs (t * 192) < 2 ^ 53 ->
     midi_ticks_to_chart_ticks t 480 192 = Ok (Z.quot (t * 192) 480) /\
     (0 <= t -> midi_ticks_to_chart_ticks t 480 192 = Ok (t * 192 / 480))).
Proof.
  apply (midi_ticks_to_chart_ticks_monotone 480 192); lia.
Defined.

(** C7, the claim as stated fails: a tick of [2^53 + 1] at equal
    resolutions is converted to [2^53], not to the floor of the exact
    quotient. *)
Example midi_ticks_to_chart_ticks_rounds :
  midi_ticks_to_chart_ticks (2 ^ 53 + 1) 1 1 = Ok (2 ^ 53) /\
  (2 ^ 53 + 1) * 1 / 1 = 2 ^ 53 + 1.
Proof. split; vm_compute; reflexivity. Qed.

(** C5: [format_sync_track] does not write [round(bpm * 1000)].  At 128.2
    BPM the float product [bpm * 1000] is just below 128200 and [int] cuts
    it to 128199, which the [B] line then holds, whatever the time signature
    and whatever [math.log2] returns for the denominator; [round] of the
    same product is 128200. *)
Theorem format_sync_track_does_not_round (math_log2 : Z -> spec_float)
    (time_sig_numerator time_sig_denominator : Z) :
  format_sync_track math_log2 (PyFloat.dec 1282 1) time_sig_numerator time_sig_denominator
    = (k ← (if decide (0 < time_sig_denominator)
            then PyFloat.to_int (math_log2 time_sig_denominator) else Ok 2);
       Ok (join [nl] [txt "[SyncTrack]"; txt "{";
                      txt "  0 = TS " ++ str_of_int time_sig_numerator ++ txt " "
                        ++ str_of_int k;
                      txt "  0 = B 128199"; txt "}"])) /\
  PyFloat.to_int (PyFloat.mul (PyFloat.dec 1282 1) (PyFloat.exact 1000)) = Ok 128199 /\
  PyFloat.round (PyFloat.mul (PyFloat.dec 1282 1) (PyFloat.exact 1000)) = Ok 128200.
Proof.
  assert (Hint : PyFloat.to_int (PyFloat.mul (PyFloat.dec 1282 1) (PyFloat.exact 1000))
                 = Ok 128199) by (vm_compute; reflexivity).
  split; [|split; [exact Hint|vm_compute; reflexivity]].
  unfold format_sync_track. rewrite Hint. simpl_bind.
  destruct (if decide (0 < time_sig_denominator)
            then PyFloat.to_int (math_log2 time_sig_denominator) else Ok 2) as [k|e];
    reflexivity.
Qed.

End ChartWriterFacts.

(** * Facts about sorting and dicts *)

Section SortFacts.
Context {A : Type} (le : A -> A -> bool).

Definition le_rel (x y : A) : Prop := le x y = true.

Lemma sort_insert_perm (x : A) (l : list A) : sort_insert le x l ≡ₚ x :: l.
Proof.
  induction l as [|y l IH]; simpl; [done|].
  destruct (le x y); [done|]. rewrite IH. apply Permutation_swap.
Qed.

Lemma py_sorted_perm (l : list A) : py_sorted le l ≡ₚ l.
Proof.
  induction l as [|x l IH]; simpl; [done|].
  rewrite sort_insert_perm. by rewrite IH.
Qed.

Lemma py_sorted_length (l : list A) : length (py_sorted le l) = length l.
Proof. apply Permutation_length, py_sorted_perm. Qed.

Hypothesis le_total : forall x y, le x y = true \/ le y x = true.
Hypothesis le_trans : forall x y z, le x y = true -> le y z = true -> le x z = true.

Lemma sort_insert_sorted (x : A) (l : list A) :
  Sorted le_rel l -> Sorted le_rel (sort_insert le x l).
Proof.
  induction 1 as [|y l Hl IH Hhd]; simpl; [by repeat constructor|].
  destruct (le x y) eqn:Hxy.
  - constructor; [by constructor|]. by constructor.
  - constructor; [done|].
    assert (Hyx : le y x = true) by (destruct (le_total x y); congruence).
    destruct l as [|z l]; simpl; [by constructor|].
    destruct (le x z); constructor; [done|]. by inversion Hhd.
Qed.

Lemma py_sorted_sorted (l : list A) : Sorted le_rel (py_sorted le l).
Proof.
  induction l as [|x l IH]; simpl; [constructor|]. by apply sort_insert_sorted.
Qed.

Lemma py_sorted_strongly_sorted (l : list A) : StronglySorted le_rel (py_sorted le l).
Proof.
  apply Sorted_StronglySorted; [|apply py_sorted_sorted].
  intros x y z. apply le_trans.
Qed.

(** Sorting a sorted list changes nothing. *)
Lemma py_sorted_id (l : list A) : Sorted le_rel l -> py_sorted le l = l.
Proof.
  induction 1 as [|x l Hl IH Hhd]; simpl; [done|].
  rewrite IH. destruct Hhd as [|y l Hxy]; simpl; [done|]. by rewrite Hxy.
Qed.

End SortFacts.

Section DictFacts.
Context {K V : Type} `{EqDecision K}.

Lemma dict_get_set_eq (k : K) (v : V) (d : list (K * V)) :
  dict_get k (dict_set k v d) = Some v.
Proof.
  induction d as [|[k' v'] d IH]; simpl.
  - by rewrite decide_True.
  - destruct (decide (k = k')) as [->|Hne]; simpl.
    + by rewrite decide_True.
    + by rewrite decide_False.
Qed.

Lemma dict_get_set_ne (k k' : K) (v : V) (d : list (K * V)) :
  k <> k' -> dict_get k (dict_set k' v d) = dict_get k d.
Proof.
  intros Hne. induction d as [|[k0 v0] d IH]; simpl.
  - by rewrite decide_False.
  - destruct (decide (k' = k0)) as [->|Hne']; simpl.
    + by rewrite !decide_False.
    + destruct (decide (k = k0)); [done|apply IH].
Qed.

Lemma dict_set_fresh (k : K) (v : V) (d : list (K * V)) :
  dict_get k d = None -> dict_set k v d = d ++ [(k, v)].
Proof.
  induction d as [|[k' v'] d IH]; simpl; [done|].
  destruct (decide (k = k')); [done|]. intros H'. by rewrite IH.
Qed.

Lemma dict_set_set (k : K) (v w : V) (d : list (K * V)) :
  dict_set k v (dict_set k w d) = dict_set k v d.
Proof.
  induction d as [|[k' v'] d IH]; simpl.
  - by rewrite decide_True.
  - destruct (decide (k = k')) as [->|Hne]; simpl.
    + by rewrite decide_True.
    + rewrite decide_False by done. by rewrite IH.
Qed.

Lemma dict_set_get_id (k : K) (v : V) (d : list (K * V)) :
  dict_get k d = Some v -> dict_set k v d = d.
Proof.
  induction d as [|[k' v'] d IH]; simpl; [done|].
  destruct (decide (k = k')) as [->|Hne]; [by intros [= ->]|].
  intros H'. by rewrite IH.
Qed.

Lemma dict_get_Some_elem (k : K) (v : V) (d : list (K * V)) :
  dict_get k d = Some v -> (k, v) ∈ d.
Proof.
  induction d as [|[k' v'] d IH]; simpl; [done|].
  destruct (decide (k = k')) as [->|Hne].
  - intros [= ->]. left.
  - intros H'. right. by apply IH.
Qed.

Lemma dict_get_None (k : K) (d : list (K * V)) :
  dict_get k d = None <-> k ∉ d.*1.
Proof.
  induction d as [|[k' v'] d IH]; simpl.
  - split; [intros _ ?%elem_of_nil; done|done].
  - rewrite not_elem_of_cons. destruct (decide (k = k')) as [->|Hne].
    + split; [done|]. intros [? _]. done.
    + rewrite IH. tauto.
Qed.

Lemma dict_get_elem (k : K) (v : V) (d : list (K * V)) :
  NoDup d.*1 -> (k, v) ∈ d <-> dict_get k d = Some v.
Proof.
  intros Hnd. split; [|apply dict_get_Some_elem].
  induction d as [|[k' v'] d IH]; simpl; [by intros ?%elem_of_nil|].
  simpl in Hnd. apply NoDup_cons in Hnd as [Hk' Hnd].
  intros [?|Hin]%elem_of_cons.
  - simplify_eq. by rewrite decide_True.
  - destruct (decide (k = k')) as [->|Hne]; [|by apply IH].
    exfalso. apply Hk'. apply list_elem_of_fmap. by exists (k', v).
Qed.

Lemma dict_set_keys (k : K) (v : V) (d : list (K * V)) :
  (dict_set k v d).*1 = match dict_get k d with
                        | Some _ => d.*1
                        | None => d.*1 ++ [k]
                        end.
Proof.
  induction d as [|[k' v'] d IH]; [done|]. cbn [dict_set dict_get].
  destruct (decide (k = k')) as [->|Hne]; [done|].
  rewrite !fmap_cons, IH. by destruct (dict_get k d).
Qed.

Lemma dict_set_NoDup (k : K) (v : V) (d : list (K * V)) :
  NoDup d.*1 -> NoDup (dict_set k v d).*1.
Proof.
  intros Hnd. rewrite dict_set_keys. destruct (dict_get k d) eqn:E; [done|].
  apply NoDup_app. split; [done|]. split.
  - intros x Hx ?%list_elem_of_singleton. subst. by apply dict_get_None in E.
  - apply NoDup_singleton.
Qed.

End DictFacts.

(** * Facts about the note buffer of the track parser *)

Abbreviation buffer := (list (Z * list (Z * ChartParser.Note))).

Section BufferFacts.
Import ChartParser.

(** [note_buffer[t][f]], when present. *)
Definition buf_lookup (buf : buffer) (t f : Z) : option Note :=
  match dict_get t buf with
  | Some inner => dict_get f inner
  | None => None
  end.

(** Keys are unique, and every note sits under its own tick and fret. *)
Definition buf_wf (buf : buffer) : Prop :=
  NoDup buf.*1 /\
  Forall (fun tv : Z * list (Z * Note) =>
            NoDup tv.2.*1 /\
            Forall (fun fm : Z * Note => tick fm.2 = tv.1 /\ fret fm.2 = fm.1) tv.2) buf.

Lemma buf_wf_nil : buf_wf [].
Proof. split; constructor. Qed.

Lemma buf_wf_inner (buf : buffer) (t : Z) (inner : list (Z * Note)) :
  buf_wf buf -> dict_get t buf = Some inner ->
  NoDup inner.*1 /\ Forall (fun fm : Z * Note => tick fm.2 = t /\ fret fm.2 = fm.1) inner.
Proof.
  intros [_ Hall] Hget. apply dict_get_Some_elem in Hget.
  rewrite Forall_forall in Hall. apply (Hall _ Hget).
Qed.

Lemma buf_wf_set (buf : buffer) (t : Z) (inner : list (Z * Note)) :
  buf_wf buf -> NoDup inner.*1 ->
  Forall (fun fm : Z * Note => tick fm.2 = t /\ fret fm.2 = fm.1) inner ->
  buf_wf (dict_set t inner buf).
Proof.
  intros [Hnd Hall] Hi1 Hi2. split; [by apply dict_set_NoDup|].
  clear Hnd. induction Hall as [|[t' inner'] buf H1 Hall IH]; simpl.
  - by repeat constructor.
  - destruct (decide (t = t')) as [->|Hne]; constructor; try done.
Qed.

Lemma buf_wf_put (buf : buffer) (n : Note) : buf_wf buf -> buf_wf (buffer_put buf n).
Proof.
  intros Hwf. unfold buffer_put. destruct (dict_get (tick n) buf) as [inner|] eqn:E.
  - destruct (buf_wf_inner _ _ _ Hwf E) as [Hnd Hall].
    apply buf_wf_set; [done|by apply dict_set_NoDup|].
    clear Hnd E. induction Hall as [|[f m] inner H1 Hall IH]; simpl.
    + by repeat constructor.
    + destruct (decide (fret n = f)) as [<-|Hne]; constructor; try done.
  - apply buf_wf_set; [done|simpl; apply NoDup_singleton|]. by repeat constructor.
Qed.

Lemma buf_wf_mark (g : Note -> Note) (buf : buffer) (t : Z) :
  (forall n, tick (g n) = tick n /\ fret (g n) = fret n) ->
  buf_wf buf -> buf_wf (buffer_mark g buf t).
Proof.
  intros Hg Hwf. unfold buffer_mark. destruct (dict_get t buf) as [inner|] eqn:E; [|done].
  destruct (buf_wf_inner _ _ _ Hwf E) as [Hnd Hall].
  apply buf_wf_set; [done| |].
  - change (map ?f ?l) with (f <$> l). rewrite <- list_fmap_compose.
    by replace (fst ∘ (fun kv : Z * Note => (kv.1, g kv.2))) with (@fst Z Note).
  - apply Forall_map. eapply Forall_impl; [exact Hall|].
    intros [f m] [H1 H2]. simpl in *. destruct (Hg m) as [-> ->]. done.
Qed.

Lemma buf_lookup_put (buf : buffer) (n : Note) (t f : Z) :
  buf_lookup (buffer_put buf n) t f
    = if decide (t = tick n /\ f = fret n) then Some n else buf_lookup buf t f.
Proof.
  unfold buf_lookup, buffer_put.
  destruct (decide (t = tick n)) as [->|Hne].
  - rewrite dict_get_set_eq. destruct (decide (f = fret n)) as [->|Hnf].
    + rewrite dict_get_set_eq. by rewrite decide_True.
    + rewrite dict_get_set_ne by done. rewrite decide_False by tauto.
      by destruct (dict_get (tick n) buf).
  - rewrite dict_get_set_ne by done. by rewrite decide_False by tauto.
Qed.

Lemma dict_get_map_values {A B : Type} (g : A -> B) (f : Z) (inner : list (Z * A)) :
  dict_get f (map (fun kv => (kv.1, g kv.2)) inner) = g <$> dict_get f inner.
Proof.
  induction inner as [|[f' m] inner IH]; simpl; [done|].
  destruct (decide (f = f')); [done|apply IH].
Qed.

Lemma buf_lookup_mark (g : Note -> Note) (buf : buffer) (tk t f : Z) :
  buf_lookup (buffer_mark g buf tk) t f
    = if decide (t = tk) then g <$> buf_lookup buf t f else buf_lookup buf t f.
Proof.
  unfold buf_lookup, buffer_mark.
  destruct (decide (t = tk)) as [->|Hne].
  - destruct (dict_get tk buf) as [inner|] eqn:E.
    + rewrite dict_get_set_eq. apply dict_get_map_values.
    + by rewrite E.
  - destruct (dict_get tk buf) as [inner|] eqn:E; [|done].
    by rewrite dict_get_set_ne.
Qed.

Lemma elem_of_concat {A : Type} (x : A) (ls : list (list A)) :
  x ∈ concat ls <-> exists l, x ∈ l /\ l ∈ ls.
Proof.
  rewrite list_elem_of_In, in_concat. split; intros (l & H1 & H2); exists l;
    by rewrite ?list_elem_of_In in *.
Qed.

(** The notes the flush visits are the notes the buffer holds. *)
Lemma elem_of_buffer_notes (buf : buffer) (m : Note) :
  buf_wf buf -> m ∈ buffer_notes buf <-> buf_lookup buf (tick m) (fret m) = Some m.
Proof.
  intros Hwf. unfold buffer_notes, buf_lookup. split.
  - intros Hin. apply elem_of_concat in Hin as (l & Hm & Hl).
    change (map ?f ?x) with (f <$> x) in Hl.
    apply list_elem_of_fmap in Hl as ([t inner] & -> & Htv). simpl in Hm.
    change (map ?f ?x) with (f <$> x) in Hm.
    apply list_elem_of_fmap in Hm as ([f m'] & -> & Hfm). simpl.
    pose proof Htv as Hget. apply dict_get_elem in Hget; [|apply Hwf].
    destruct (buf_wf_inner _ _ _ Hwf Hget) as [Hnd Hall].
    rewrite Forall_forall in Hall. destruct (Hall _ Hfm) as [Ht Hf]. simpl in *.
    rewrite Ht, Hget, Hf. by apply dict_get_elem.
  - destruct (dict_get (tick m) buf) as [inner|] eqn:E; [|done].
    intros Hget. apply dict_get_Some_elem in E, Hget.
    apply elem_of_concat. exists (map snd inner). split.
    + change (map ?f ?x) with (f <$> x). apply list_elem_of_fmap. by exists (fret m, m).
    + change (map ?f ?x) with (f <$> x). apply list_elem_of_fmap.
      by exists (tick m, inner).
Qed.

End BufferFacts.

(** * Properties of the chart document model *)

Section TrackFacts.
Import ChartParser.

(** Playback order: by tick, then by fret. *)
Definition note_order (x y : Note) : Prop :=
  tick x < tick y \/ (tick x = tick y /\ fret x <= fret y).

Lemma note_le_order (x y : Note) : note_le x y = true <-> note_order x y.
Proof.
  unfold note_le, key_le, note_key, note_order. simpl.
  rewrite orb_true_iff, andb_true_iff, Z.ltb_lt, Z.eqb_eq, Z.leb_le. done.
Qed.

Lemma note_le_total (x y : Note) : note_le x y = true \/ note_le y x = true.
Proof. rewrite !note_le_order. unfold note_order. lia. Qed.

Lemma note_le_trans (x y z : Note) :
  note_le x y = true -> note_le y z = true -> note_le x z = true.
Proof. rewrite !note_le_order. unfold note_order. lia. Qed.

Lemma py_sorted_notes_sorted (l : list Note) :
  StronglySorted note_order (py_sorted note_le l).
Proof.
  pose proof (py_sorted_strongly_sorted note_le note_le_total note_le_trans l) as H.
  induction H as [|x l' Hl IH Hall]; constructor; [done|].
  eapply Forall_impl; [exact Hall|]. intros y Hy. by apply note_le_order.
Qed.

(** C8: after every [add_note], whatever the track held before, the notes
    are in ascending (tick, fret) order; the call adds the note, loses none
    and leaves the rest of the track alone, so a track filled through
    [add_note] only is sorted after each call, with no further step. *)
Theorem add_note_keeps_sorted (t : Track) (n : Note) :
  StronglySorted note_order (notes (add_note t n)) /\
  notes (add_note t n) ≡ₚ notes t ++ [n] /\
  star_power (add_note t n) = star_power t /\
  track_events (add_note t n) = track_events t /\
  forall ns, StronglySorted note_order (notes (foldl add_note (add_note t n) ns)).
Proof.
  split; [apply py_sorted_notes_sorted|].
  split; [apply py_sorted_perm|]. split; [done|]. split; [done|].
  intros ns. induction ns as [|m ns IH] using rev_ind; simpl.
  - apply py_sorted_notes_sorted.
  - rewrite foldl_app. simpl. apply py_sorted_notes_sorted.
Qed.

End TrackFacts.

(** * Properties of the section splitter *)

Section SplitFacts.
Import PyStr ChartParser.

(** The lines of a section that the splitter keeps. *)
Definition kept_line (line : str) : bool :=
  bool_decide (line <> [] /\ line <> txt "{" /\ line <> txt "}").

Definition content_lines (body : list str) : list str :=
  filter (fun l => kept_line l = true) (map strip body).

Definition split_loop (st : list (str * str) * option str * list str) (lines : list str)
    : list (str * str) * option str * list str :=
  foldl (fun st line => split_step line st) st lines.

Lemma split_sections_unfold (content : str) :
  _split_sections content =
    let '(sections, current_section, current_content) :=
      split_loop ([], None, []) (split_on nl content) in
    save_section sections current_section current_content.
Proof. done. Qed.

Lemma split_step_header (h : str) (secs : list (str * str)) (cur : option str)
    (cont : list str) :
  is_header (strip h) = true ->
  split_step h (secs, cur, cont)
    = (save_section secs cur cont, Some (slice_1_m1 (strip h)), []).
Proof. intros Hh. unfold split_step. by rewrite Hh. Qed.

Lemma split_step_content (l : str) (secs : list (str * str)) (cur : option str)
    (cont : list str) :
  is_header (strip l) = false ->
  split_step l (secs, cur, cont)
    = if kept_line (strip l) then (secs, cur, cont ++ [strip l]) else (secs, cur, cont).
Proof. intros Hh. unfold split_step, kept_line. by rewrite Hh. Qed.

Lemma split_loop_cons (st : list (str * str) * option str * list str) (l : str)
    (lines : list str) :
  split_loop st (l :: lines) = split_loop (split_step l st) lines.
Proof. done. Qed.

Lemma split_loop_body (body : list str) (secs : list (str * str)) (cur : option str)
    (cont : list str) :
  Forall (fun l => is_header (strip l) = false) body ->
  split_loop (secs, cur, cont) body = (secs, cur, cont ++ content_lines body).
Proof.
  intros Hb. revert cont. induction Hb as [|l body Hl _ IH]; intros cont.
  - unfold content_lines. simpl. by rewrite app_nil_r.
  - rewrite split_loop_cons, split_step_content by done.
    unfold content_lines. simpl map. rewrite filter_cons.
    destruct (kept_line (strip l)) eqn:Hk.
    + rewrite decide_True by done. rewrite IH. unfold content_lines.
      by rewrite <- app_assoc.
    + rewrite decide_False by (by intros ?). apply IH.
Qed.

Lemma save_section_other (name : str) (secs : list (str * str)) (cur : option str)
    (cont : list str) :
  cur <> Some name ->
  dict_get name (save_section secs cur cont) = dict_get name secs.
Proof.
  intros Hne. unfold save_section. destruct cur as [[|c cs]|]; try done.
  apply dict_get_set_ne. congruence.
Qed.

(** Once a name is bound and is no longer the open section, only a later
    header of that name could change its binding. *)
Lemma split_loop_keeps (name : str) (v : str) (lines : list str)
    (secs : list (str * str)) (cur : option str) (cont : list str)
    (secs' : list (str * str)) (cur' : option str) (cont' : list str) :
  Forall (fun l => is_header (strip l) = true -> slice_1_m1 (strip l) <> name) lines ->
  dict_get name secs = Some v -> cur <> Some name ->
  split_loop (secs, cur, cont) lines = (secs', cur', cont') ->
  dict_get name (save_section secs' cur' cont') = Some v.
Proof.
  intros Hl. revert secs cur cont.
  induction Hl as [|l lines Hhd _ IH]; intros secs cur cont Hget Hcur Hrun.
  - injection Hrun as <- <- <-. by rewrite save_section_other.
  - rewrite split_loop_cons in Hrun.
    destruct (is_header (strip l)) eqn:Hh.
    + rewrite split_step_header in Hrun by done. eapply IH; [| |exact Hrun].
      * by rewrite save_section_other.
      * specialize (Hhd eq_refl). congruence.
    + rewrite split_step_content in Hrun by done.
      destruct (kept_line (strip l)); by eapply IH.
Qed.

Lemma save_section_empty_name (secs : list (str * str)) (cur : option str)
    (cont : list str) :
  dict_get [] (save_section secs cur cont) = dict_get [] secs.
Proof.
  unfold save_section. destruct cur as [[|c cs]|]; try done.
  by apply dict_get_set_ne.
Qed.

(** The empty name is never bound. *)
Lemma split_loop_empty_name_unbound (lines : list str) (secs : list (str * str))
    (cur : option str) (cont : list str) :
  dict_get [] secs = None ->
  dict_get [] (let '(secs', cur', cont') := split_loop (secs, cur, cont) lines in
               save_section secs' cur' cont') = None.
Proof.
  revert secs cur cont.
  induction lines as [|l lines IH]; intros secs cur cont Hget.
  - cbn. by rewrite save_section_empty_name.
  - rewrite split_loop_cons. destruct (is_header (strip l)) eqn:Hh.
    + rewrite split_step_header by done. apply IH. by rewrite save_section_empty_name.
    + rewrite split_step_content by done. destruct (kept_line (strip l)); by apply IH.
Qed.

(** While the open section has the empty name, the lines gathered so far
    play no part in the result. *)
Lemma split_loop_empty_name_content (lines : list str) (secs : list (str * str))
    (cont cont' : list str) :
  (let '(secs1, cur1, cont1) := split_loop (secs, Some [], cont) lines in
   save_section secs1 cur1 cont1)
  = (let '(secs2, cur2, cont2) := split_loop (secs, Some [], cont') lines in
     save_section secs2 cur2 cont2).
Proof.
  revert cont cont'. induction lines as [|l lines IH]; intros cont cont'; [done|].
  rewrite !split_loop_cons. destruct (is_header (strip l)) eqn:Hh.
  - by rewrite !split_step_header by done.
  - rewrite !split_step_content by done. destruct (kept_line (strip l)); apply IH.
Qed.

(** C10 (as amended): the name of a header line binds, in the result of
    [_split_sections], to the kept lines that follow the last header of
    that name, up to the next header or the end of the text, whatever came
    before, earlier sections of the same name included; this holds for
    every name that is not empty.  The empty name is bound in no result,
    and the lines that follow a header [[]] up to the next header are
    dropped: the result is the same as without them.  The splitter is a
    total function: it has no failure case. *)
Theorem split_sections_last_wins :
  (forall (content : str) (pre body rest : list str) (header : str),
     split_on nl content = pre ++ [header] ++ body ++ rest ->
     is_header (strip header) = true ->
     slice_1_m1 (strip header) <> [] ->
     Forall (fun l => is_header (strip l) = false) body ->
     (rest = [] \/ exists h rest', rest = h :: rest' /\ is_header (strip h) = true) ->
     Forall (fun l => is_header (strip l) = true ->
                      slice_1_m1 (strip l) <> slice_1_m1 (strip header)) rest ->
     dict_get (slice_1_m1 (strip header)) (_split_sections content)
       = Some (join [nl] (content_lines body))) /\
  (forall content : str, dict_get [] (_split_sections content) = None) /\
  (forall (content content' : str) (pre body rest : list str) (header : str),
     split_on nl content = pre ++ [header] ++ body ++ rest ->
     split_on nl content' = pre ++ [header] ++ rest ->
     is_header (strip header) = true ->
     slice_1_m1 (strip header) = [] ->
     Forall (fun l => is_header (strip l) = false) body ->
     _split_sections content = _split_sections content').
Proof.
  assert (Happ : forall st l1 l2, split_loop st (l1 ++ l2) = split_loop (split_loop st l1) l2).
  { intros st l1 l2. apply foldl_app. }
  split; [|split].
  - intros content pre body rest header Hsplit Hh Hname Hbody Hrest Hlast.
    rewrite split_sections_unfold, Hsplit.
    rewrite Happ.
    destruct (split_loop ([], None, []) pre) as [[secs0 cur0] cont0].
    rewrite Happ. rewrite (split_loop_cons _ header []).
    rewrite (split_step_header header _ _ _ Hh).
    change (split_loop ?st []) with st.
    set (name := slice_1_m1 (strip header)) in *.
    rewrite Happ, split_loop_body by done. rewrite app_nil_l.
    destruct Hrest as [->|(h & rest' & -> & Hh')].
    + simpl. unfold save_section. destruct name as [|c cs] eqn:En; [done|].
      apply dict_get_set_eq.
    + rewrite split_loop_cons, (split_step_header h _ _ _ Hh').
      apply Forall_cons in Hlast as [Hh1 Hlast].
      destruct (split_loop _ rest') as [[secs' cur'] cont'] eqn:Hrun.
      eapply (split_loop_keeps name); [exact Hlast| | |exact Hrun].
      * unfold save_section at 1. destruct name as [|c cs] eqn:En; [done|].
        apply dict_get_set_eq.
      * specialize (Hh1 Hh'). congruence.
  - intros content. rewrite split_sections_unfold.
    by apply split_loop_empty_name_unbound.
  - intros content content' pre body rest header Hsplit Hsplit' Hh Hname Hbody.
    rewrite !split_sections_unfold, Hsplit, Hsplit'.
    rewrite !Happ.
    destruct (split_loop ([], None, []) pre) as [[secs0 cur0] cont0].
    rewrite !(split_loop_cons _ header []).
    rewrite !(split_step_header header _ _ _ Hh).
    change (split_loop ?st []) with st.
    rewrite Hname, split_loop_body by done.
    apply split_loop_empty_name_content.
Qed.

Lemma split_sections_last_wins_witness :
  dict_get (slice_1_m1 (strip (txt "[A]")))
    (_split_sections (join [nl] [txt "[A]"; txt "x"; txt "[A]"; txt "{"; txt "  y"; txt "}";
                                 txt "[B]"; txt "z"]))
    = Some (join [nl] (content_lines [txt "{"; txt "  y"; txt "}"])).
Proof.
  apply (proj1 split_sections_last_wins _ [txt "[A]"; txt "x"]
           [txt "{"; txt "  y"; txt "}"] [txt "[B]"; txt "z"] (txt "[A]")).
  - vm_compute. reflexivity.
  - vm_compute. reflexivity.
  - vm_compute. discriminate.
  - repeat constructor.
  - right. exists (txt "[B]"), [txt "z"]. split; [reflexivity|vm_compute; reflexivity].
  - repeat constructor; vm_compute; intros; discriminate.
Defined.

(** C10, the claim as stated fails for the empty name: two sections
    headed [[]] leave the name unbound. *)
Example split_sections_empty_name_unbound :
  _split_sections (join [nl] [txt "[]"; txt "a"; txt "[]"; txt "b"]) = [].
Proof. vm_compute. reflexivity. Qed.

End SplitFacts.

(** * Properties of the track-section parser *)

Section TrackParseFacts.
Import PyStr ChartParser.

(** One iteration of a loop over the lines of a section. *)
Definition assignment_step {S : Type} (body : str -> str -> S -> result S)
    (line : str) (s : S) : result S :=
  let line := strip line in
  if negb (contains "="%char line) then Ok s
  else
    let parts := split_once "="%char line in
    left ← getitem parts 0;
    right ← getitem parts 1;
    body left right s.

Lemma for_each_assignment_unfold {S : Type} (content : str)
    (body : str -> str -> S -> result S) (s : S) :
  for_each_assignment content body s
    = for_each (split_on nl content) (assignment_step body) s.
Proof. done. Qed.

(** The line reads [t = tokens]: the text before the first [=] is the int
    [t], the text after it splits into [tokens]. *)
Definition line_fields (line : str) (t : Z) (tokens : list str) : Prop :=
  contains "="%char (strip line) = true /\
  exists l r,
    split_once "="%char (strip line) !! 0%nat = Some l /\
    split_once "="%char (strip line) !! 1%nat = Some r /\
    py_int (strip l) = Ok t /\
    split_ws (strip r) = tokens.

(** The line reads [t = N f s]. *)
Definition note_line (t f s : Z) (line : str) : Prop :=
  exists a1 a2 rest,
    line_fields line t (txt "N" :: a1 :: a2 :: rest) /\
    py_int a1 = Ok f /\ py_int a2 = Ok s.

(** What a line [t = N f s] does to the note buffer. *)
Definition note_effect (buf : buffer) (t f s : Z) : buffer :=
  if decide (f = FORCED) then buffer_mark set_forced buf t
  else if decide (f = TAP) then buffer_mark set_tap buf t
  else buffer_put buf (new_note t f s (bool_decide (f = OPEN))).

Lemma new_note_open (t f s : Z) :
  (if decide (f = OPEN) then new_note t f s true else new_note t f s false)
    = new_note t f s (bool_decide (f = OPEN)).
Proof. by destruct (decide (f = OPEN)); [rewrite bool_decide_true|rewrite bool_decide_false]. Qed.

Lemma track_step_note_line (line : str) (t f s : Z) (track : Track) (buf : buffer) :
  note_line t f s line ->
  assignment_step track_step line (track, buf) = Ok (track, note_effect buf t f s).
Proof.
  intros (a1 & a2 & rest & (Hc & l & r & Hl & Hr & Ht & Htok) & Hf & Hs).
  unfold assignment_step. rewrite Hc. cbn [negb].
  rewrite (proj2 (getitem_Ok _ _ _) Hl), (proj2 (getitem_Ok _ _ _) Hr). simpl_bind.
  unfold track_step. rewrite Ht, Htok. simpl_bind.
  change (getitem (txt "N" :: a1 :: a2 :: rest) 0) with (Ok (A:=str) (txt "N")).
  simpl_bind. rewrite decide_True by done.
  change (getitem (txt "N" :: a1 :: a2 :: rest) 1) with (Ok a1).
  change (getitem (txt "N" :: a1 :: a2 :: rest) 2) with (Ok a2).
  simpl_bind. rewrite Hf. simpl_bind. rewrite Hs. simpl_bind.
  unfold note_effect.
  destruct (decide (f = FORCED)); [done|]. destruct (decide (f = TAP)); [done|].
  by destruct (decide (f = OPEN)); [rewrite bool_decide_true|rewrite bool_decide_false].
Qed.

(** Whatever the line, a step that succeeds leaves the notes of the track
    alone and touches the buffer only as a line [t = N f s] does. *)
Lemma track_step_cases (line : str) (track track' : Track) (buf buf' : buffer) :
  assignment_step track_step line (track, buf) = Ok (track', buf') ->
  notes track' = notes track /\
  (buf' = buf \/ exists t f s, note_line t f s line /\ buf' = note_effect buf t f s).
Proof.
  unfold assignment_step.
  destruct (contains "="%char (strip line)) eqn:Hc; cbn [negb];
    [|intros [= <- <-]; auto].
  intros H.
  apply bind_Ok in H as (l & Hl%getitem_Ok & H).
  apply bind_Ok in H as (r & Hr%getitem_Ok & H).
  unfold track_step in H.
  apply bind_Ok in H as (t & Ht & H).
  apply bind_Ok in H as (ty & Hty%getitem_Ok & H).
  destruct (decide (ty = txt "N")) as [->|_].
  - apply bind_Ok in H as (a1 & Ha1%getitem_Ok & H).
    apply bind_Ok in H as (f & Hf & H).
    apply bind_Ok in H as (a2 & Ha2%getitem_Ok & H).
    apply bind_Ok in H as (s & Hs & H).
    assert (Hnote : note_line t f s line).
    { destruct (split_ws (strip r)) as [|x0 [|x1 [|x2 rest]]] eqn:Htok; try done.
      simpl in Hty, Ha1, Ha2. simplify_eq.
      exists a1, a2, rest. split; [|done]. split; [done|]. by exists l, r. }
    assert (Hres : Ok (track', buf') = Ok (track, note_effect buf t f s)).
    { rewrite <- H. unfold note_effect.
      destruct (decide (f = FORCED)); [done|]. destruct (decide (f = TAP)); [done|].
      by destruct (decide (f = OPEN)); [rewrite bool_decide_true|rewrite bool_decide_false]. }
    injection Hres as -> ->. split; [done|]. right. by exists t, f, s.
  - destruct (decide (ty = txt "S")) as [->|_].
    + apply bind_Ok in H as (a1 & _ & H).
      apply bind_Ok in H as (sp & _ & H).
      apply bind_Ok in H as (a2 & _ & H).
      apply bind_Ok in H as (len & _ & H).
      destruct (decide (sp = 2)); injection H as <- <-; auto.
    + destruct (decide (ty = txt "E")); injection H as <- <-; auto.
Qed.

Lemma for_each_Ok_inv {A S : Type} (P : S -> Prop) (l : list A)
    (body : A -> S -> result S) (s s' : S) :
  for_each l body s = Ok s' -> P s ->
  (forall x s1 s2, x ∈ l -> P s1 -> body x s1 = Ok s2 -> P s2) ->
  P s'.
Proof.
  revert s. induction l as [|x l IH]; intros s Hrun Hs Hstep; simpl in Hrun.
  - by injection Hrun as <-.
  - apply bind_Ok in Hrun as (s1 & Hx & Hrun).
    apply (IH s1 Hrun).
    + eapply Hstep; [left|exact Hs|exact Hx].
    + intros y s2 s3 Hy. apply Hstep. by right.
Qed.

Lemma set_forced_keys (n : Note) : tick (set_forced n) = tick n /\ fret (set_forced n) = fret n.
Proof. done. Qed.

Lemma set_tap_keys (n : Note) : tick (set_tap n) = tick n /\ fret (set_tap n) = fret n.
Proof. done. Qed.

Lemma note_effect_wf (buf : buffer) (t f s : Z) : buf_wf buf -> buf_wf (note_effect buf t f s).
Proof.
  intros Hwf. unfold note_effect.
  destruct (decide (f = FORCED)); [by apply buf_wf_mark; [apply set_forced_keys|]|].
  destruct (decide (f = TAP)); [by apply buf_wf_mark; [apply set_tap_keys|]|].
  by apply buf_wf_put.
Qed.

Lemma buf_lookup_wf (buf : buffer) (t f : Z) (n : Note) :
  buf_wf buf -> buf_lookup buf t f = Some n -> tick n = t /\ fret n = f.
Proof.
  intros Hwf. unfold buf_lookup. destruct (dict_get t buf) as [inner|] eqn:E; [|done].
  intros Hget. destruct (buf_wf_inner _ _ _ Hwf E) as [_ Hall].
  apply dict_get_Some_elem in Hget. rewrite Forall_forall in Hall.
  apply (Hall _ Hget).
Qed.

(** The loop keeps the buffer well formed and the track without notes. *)
Definition track_state_ok (st : Track * buffer) : Prop :=
  notes st.1 = [] /\ buf_wf st.2.

Lemma track_state_ok_step (line : str) (st st' : Track * buffer) :
  track_state_ok st -> assignment_step track_step line st = Ok st' -> track_state_ok st'.
Proof.
  destruct st as [track buf], st' as [track' buf']. intros [Hn Hwf] Hstep.
  apply track_step_cases in Hstep as [Hn' [->|(t & f & s & _ & ->)]]; split; simpl in *;
    try congruence; try done.
  by apply note_effect_wf.
Qed.

Lemma foldl_add_note_perm (track : Track) (l : list Note) :
  notes (foldl add_note track l) ≡ₚ notes track ++ l.
Proof.
  revert track. induction l as [|n l IH]; intros track; simpl.
  - by rewrite app_nil_r.
  - rewrite IH. simpl. rewrite py_sorted_perm. by rewrite <- app_assoc.
Qed.

(** The note at [(t, f)] carries the flag that [flag] stands for. *)
Definition flagged (flag : Z) (n : Note) : Prop :=
  (flag = FORCED -> is_forced n = true) /\ (flag = TAP -> is_tap n = true).

Lemma flagged_set_forced (flag : Z) (n : Note) : flagged flag n -> flagged flag (set_forced n).
Proof. intros [H1 H2]. split; [done|]. apply H2. Qed.

Lemma flagged_set_tap (flag : Z) (n : Note) : flagged flag n -> flagged flag (set_tap n).
Proof. intros [H1 H2]. split; [|done]. apply H1. Qed.

Lemma note_effect_lookup_some (buf : buffer) (t f t' f' s' : Z) :
  is_Some (buf_lookup buf t f) -> is_Some (buf_lookup (note_effect buf t' f' s') t f).
Proof.
  intros [n Hn]. unfold note_effect.
  destruct (decide (f' = FORCED)); [|destruct (decide (f' = TAP))].
  - rewrite buf_lookup_mark, Hn. by destruct (decide (t = t')).
  - rewrite buf_lookup_mark, Hn. by destruct (decide (t = t')).
  - rewrite buf_lookup_put, Hn. by destruct (decide _).
Qed.

Lemma note_effect_lookup_flagged (flag : Z) (buf : buffer) (t f t' f' s' : Z) :
  (t', f') <> (t, f) ->
  (exists n, buf_lookup buf t f = Some n /\ flagged flag n) ->
  exists n, buf_lookup (note_effect buf t' f' s') t f = Some n /\ flagged flag n.
Proof.
  intros Hne (n & Hn & Hfl). unfold note_effect.
  destruct (decide (f' = FORCED)); [|destruct (decide (f' = TAP))].
  - rewrite buf_lookup_mark, Hn. destruct (decide (t = t')); [|eauto].
    eexists. split; [done|]. by apply flagged_set_forced.
  - rewrite buf_lookup_mark, Hn. destruct (decide (t = t')); [|eauto].
    eexists. split; [done|]. by apply flagged_set_tap.
  - rewrite buf_lookup_put, Hn. rewrite decide_False; [eauto|].
    intros [-> ->]. done.
Qed.

(** The note at [(t, f)] does not carry the flag that [flag] stands for. *)
Definition unflagged (flag : Z) (n : Note) : Prop :=
  (flag = FORCED -> is_forced n = false) /\ (flag = TAP -> is_tap n = false).

(** A line that is no flag line of that kind at tick [t] leaves the note at
    [(t, f)] without the flag. *)
Lemma note_effect_lookup_unflagged (flag : Z) (buf : buffer) (t f t' f' s' : Z) :
  flag = FORCED \/ flag = TAP ->
  (t', f') <> (t, flag) ->
  (exists n, buf_lookup buf t f = Some n /\ unflagged flag n) ->
  exists n, buf_lookup (note_effect buf t' f' s') t f = Some n /\ unflagged flag n.
Proof.
  intros Hflag Hne (n & Hn & Hfl). unfold note_effect.
  destruct (decide (f' = FORCED)) as [->|Hf1]; [|destruct (decide (f' = TAP)) as [->|Hf2]].
  - rewrite buf_lookup_mark, Hn. destruct (decide (t = t')) as [->|]; [|by exists n].
    eexists. split; [done|]. destruct Hfl as [Hfl1 Hfl2]. split; [|done].
    intros ->. by destruct Hne.
  - rewrite buf_lookup_mark, Hn. destruct (decide (t = t')) as [->|]; [|by exists n].
    eexists. split; [done|]. destruct Hfl as [Hfl1 Hfl2]. split; [done|].
    intros ->. by destruct Hne.
  - rewrite buf_lookup_put, Hn.
    destruct (decide (t = tick (new_note t' f' s' (bool_decide (f' = OPEN))) /\
                      f = fret (new_note t' f' s' (bool_decide (f' = OPEN)))));
      [|by exists n].
    eexists. split; [done|]. by split.
Qed.

(** C2 (as amended): in a track section that parses, when a note line
    [t = N f s] with [f] in 0-4 is followed, later in the text, by a flag
    line [t = N 5 x] (or [t = N 6 x]) at the same tick, and no note line for
    the same tick and fret comes after that flag line, the parsed track has
    exactly one note at tick [t] with fret [f], and it has [is_forced]
    (respectively [is_tap]) set.  Flag lines that come before the note line
    do not mark it: when no flag line of that kind for tick [t] comes after
    a note line [t = N f s], the parsed track has exactly one note at tick
    [t] with fret [f], and its [is_forced] (respectively [is_tap]) is not
    set, whatever the lines before the note line are. *)
Theorem flag_line_after_note_marks :
  (forall (content : str) (pre mid post : list str)
          (note_l flag_l : str) (t f s x flag : Z) (track : Track),
     split_on nl content = pre ++ [note_l] ++ mid ++ [flag_l] ++ post ->
     note_line t f s note_l -> 0 <= f <= 4 ->
     flag = FORCED \/ flag = TAP -> note_line t flag x flag_l ->
     Forall (fun l => forall s', ~ note_line t f s' l) post ->
     parse_track_lines content = Ok track ->
     exists n,
       n ∈ notes track /\ tick n = t /\ fret n = f /\
       (flag = FORCED -> is_forced n = true) /\ (flag = TAP -> is_tap n = true) /\
       forall m, m ∈ notes track -> tick m = t -> fret m = f -> m = n) /\
  (forall (content : str) (pre post : list str) (note_l : str) (t f s flag : Z)
          (track : Track),
     split_on nl content = pre ++ [note_l] ++ post ->
     note_line t f s note_l -> 0 <= f <= 4 ->
     flag = FORCED \/ flag = TAP ->
     Forall (fun l => forall x, ~ note_line t flag x l) post ->
     parse_track_lines content = Ok track ->
     exists n,
       n ∈ notes track /\ tick n = t /\ fret n = f /\
       (flag = FORCED -> is_forced n = false) /\ (flag = TAP -> is_tap n = false) /\
       forall m, m ∈ notes track -> tick m = t -> fret m = f -> m = n).
Proof.
  split.
  - intros content pre mid post note_l flag_l t f s x flag track.
    intros Hsplit Hnote Hf Hflag Hfl Hpost Hrun.
    unfold parse_track_lines in Hrun. rewrite for_each_assignment_unfold, Hsplit in Hrun.
    apply bind_Ok in Hrun as ([track0 buf] & Hloop & Hfin). injection Hfin as <-.
    rewrite for_each_app in Hloop.
    apply bind_Ok in Hloop as (st1 & Hpre & Hloop).
    change ([note_l] ++ ?r) with (note_l :: r) in Hloop. cbn [for_each] in Hloop.
    apply bind_Ok in Hloop as (st2 & Hn & Hloop).
    rewrite for_each_app in Hloop.
    apply bind_Ok in Hloop as (st3 & Hmid & Hloop).
    change ([flag_l] ++ ?r) with (flag_l :: r) in Hloop. cbn [for_each] in Hloop.
    apply bind_Ok in Hloop as (st4 & Hfl4 & Hloop).
    (* before the note line *)
    assert (Hok1 : track_state_ok st1).
    { apply (for_each_Ok_inv track_state_ok _ _ _ _ Hpre); [split; [done|apply buf_wf_nil]|].
      intros l s1 s2 _. apply track_state_ok_step. }
    (* the note line *)
    destruct st1 as [tr1 b1].
    rewrite (track_step_note_line _ _ _ _ _ _ Hnote) in Hn. injection Hn as <-.
    assert (Hok2 : track_state_ok (tr1, note_effect b1 t f s)).
    { destruct Hok1. split; [done|]. by apply note_effect_wf. }
    assert (Hsome2 : is_Some (buf_lookup (note_effect b1 t f s) t f)).
    { unfold note_effect, FORCED, TAP.
      rewrite !decide_False by lia. rewrite buf_lookup_put. simpl.
      rewrite decide_True by done. done. }
    (* between the note line and the flag line *)
    assert (H3 : track_state_ok st3 /\ is_Some (buf_lookup st3.2 t f)).
    { apply (for_each_Ok_inv
               (fun st => track_state_ok st /\ is_Some (buf_lookup st.2 t f)) _ _ _ _ Hmid);
        [done|].
      intros l [tra ba] [trb bb] _ [Hoka Hsa] Hstep.
      split; [by eapply track_state_ok_step|]. simpl in *.
      apply track_step_cases in Hstep as [_ [->|(t' & f' & s' & _ & ->)]]; [done|].
      by apply note_effect_lookup_some. }
    destruct H3 as [Hok3 [n3 Hsome3]].
    (* the flag line *)
    destruct st3 as [tr3 b3]. simpl in Hsome3.
    rewrite (track_step_note_line _ _ _ _ _ _ Hfl) in Hfl4. injection Hfl4 as <-.
    assert (Hok4 : track_state_ok (tr3, note_effect b3 t flag x)).
    { destruct Hok3. split; [done|]. by apply note_effect_wf. }
    assert (Hfl5 : exists n, buf_lookup (note_effect b3 t flag x) t f = Some n /\ flagged flag n).
    { unfold note_effect. destruct Hflag as [->| ->].
      - rewrite decide_True by done. rewrite buf_lookup_mark, decide_True, Hsome3 by done.
        eexists. split; [done|]. split; [done|]. intros [=].
      - rewrite decide_False by done. rewrite decide_True by done.
        rewrite buf_lookup_mark, decide_True, Hsome3 by done.
        eexists. split; [done|]. split; [intros [=]|done]. }
    (* after the flag line *)
    assert (H5 : track_state_ok (track0, buf) /\
                 exists n, buf_lookup buf t f = Some n /\ flagged flag n).
    { apply (for_each_Ok_inv
               (fun st => track_state_ok st /\
                          exists n, buf_lookup st.2 t f = Some n /\ flagged flag n)
               _ _ _ _ Hloop); [done|].
      intros l [tra ba] [trb bb] Hl [Hoka Hfa] Hstep.
      split; [by eapply track_state_ok_step|]. simpl in *.
      apply track_step_cases in Hstep as [_ [->|(t' & f' & s' & Hnl & ->)]]; [done|].
      apply note_effect_lookup_flagged; [|done].
      intros [= -> ->]. rewrite Forall_forall in Hpost. by apply (Hpost l Hl s'). }
    destruct H5 as [[Hnotes Hwf] (n & Hn & [Hfl1 Hfl2])]. simpl in *.
    destruct (buf_lookup_wf _ _ _ _ Hwf Hn) as [Htn Hfn].
    assert (Hmem : forall m, m ∈ notes (foldl add_note track0 (buffer_notes buf))
                             <-> buf_lookup buf (tick m) (fret m) = Some m).
    { intros m. rewrite foldl_add_note_perm, Hnotes, app_nil_l.
      by apply elem_of_buffer_notes. }
    exists n. split; [apply Hmem; by rewrite Htn, Hfn|].
    repeat split; try done.
    intros m Hm Htm Hfm. apply Hmem in Hm. rewrite Htm, Hfm in Hm. congruence.
  - intros content pre post note_l t f s flag track Hsplit Hnote Hf Hflag Hpost Hrun.
    unfold parse_track_lines in Hrun. rewrite for_each_assignment_unfold, Hsplit in Hrun.
    apply bind_Ok in Hrun as ([track0 buf] & Hloop & Hfin). injection Hfin as <-.
    rewrite for_each_app in Hloop.
    apply bind_Ok in Hloop as (st1 & Hpre & Hloop).
    change ([note_l] ++ ?r) with (note_l :: r) in Hloop. cbn [for_each] in Hloop.
    apply bind_Ok in Hloop as (st2 & Hn & Hloop).
    assert (Hok1 : track_state_ok st1).
    { apply (for_each_Ok_inv track_state_ok _ _ _ _ Hpre); [split; [done|apply buf_wf_nil]|].
      intros l s1 s2 _. apply track_state_ok_step. }
    destruct st1 as [tr1 b1].
    rewrite (track_step_note_line _ _ _ _ _ _ Hnote) in Hn. injection Hn as <-.
    assert (Hok2 : track_state_ok (tr1, note_effect b1 t f s)).
    { destruct Hok1. split; [done|]. by apply note_effect_wf. }
    assert (Hnew : exists n, buf_lookup (note_effect b1 t f s) t f = Some n /\
                             unflagged flag n).
    { unfold note_effect, FORCED, TAP.
      rewrite !decide_False by lia. rewrite buf_lookup_put. simpl.
      rewrite decide_True by done. eexists. split; [done|]. by split. }
    assert (H5 : track_state_ok (track0, buf) /\
                 exists n, buf_lookup buf t f = Some n /\ unflagged flag n).
    { apply (for_each_Ok_inv
               (fun st => track_state_ok st /\
                          exists n, buf_lookup st.2 t f = Some n /\ unflagged flag n)
               _ _ _ _ Hloop); [done|].
      intros l [tra ba] [trb bb] Hl [Hoka Hfa] Hstep.
      split; [by eapply track_state_ok_step|]. simpl in *.
      apply track_step_cases in Hstep as [_ [->|(t' & f' & s' & Hnl & ->)]]; [done|].
      apply note_effect_lookup_unflagged; [done| |done].
      intros [= -> ->]. rewrite Forall_forall in Hpost. by apply (Hpost l Hl s'). }
    destruct H5 as [[Hnotes Hwf] (n & Hn & [Hfl1 Hfl2])]. simpl in *.
    destruct (buf_lookup_wf _ _ _ _ Hwf Hn) as [Htn Hfn].
    assert (Hmem : forall m, m ∈ notes (foldl add_note track0 (buffer_notes buf))
                             <-> buf_lookup buf (tick m) (fret m) = Some m).
    { intros m. rewrite foldl_add_note_perm, Hnotes, app_nil_l.
      by apply elem_of_buffer_notes. }
    exists n. split; [apply Hmem; by rewrite Htn, Hfn|].
    repeat split; try done.
    intros m Hm Htm Hfm. apply Hmem in Hm. rewrite Htm, Hfm in Hm. congruence.
Qed.

Lemma flag_line_after_note_marks_witness :
  exists n,
    n ∈ notes (mkTrack [mkNote 0 0 96 true false false 100] [] []) /\
    tick n = 0 /\ fret n = 0 /\
    (FORCED = FORCED -> is_forced n = true) /\ (FORCED = TAP -> is_tap n = true) /\
    forall m, m ∈ notes (mkTrack [mkNote 0 0 96 true false false 100] [] []) ->
              tick m = 0 -> fret m = 0 -> m = n.
Proof.
  apply (proj1 flag_line_after_note_marks
           (join [nl] [txt "  0 = N 0 96"; txt "  0 = N 5 0"])
           [] [] [] (txt "  0 = N 0 96") (txt "  0 = N 5 0") 0 0 96 0 FORCED).
  - vm_compute. reflexivity.
  - exists (txt "0"), (txt "96"), []. split; [|split; vm_compute; reflexivity].
    split; [vm_compute; reflexivity|].
    exists (txt "0 "), (txt " N 0 96"). repeat split; vm_compute; reflexivity.
  - lia.
  - by left.
  - exists (txt "5"), (txt "0"), []. split; [|split; vm_compute; reflexivity].
    split; [vm_compute; reflexivity|].
    exists (txt "0 "), (txt " N 5 0"). repeat split; vm_compute; reflexivity.
  - constructor.
  - vm_compute. reflexivity.
Defined.

(** C2, the claim as stated fails: with the flag line before the note
    line, the note is parsed without the flag. *)
Example flag_line_before_note_is_lost :
  parse_track_lines (join [nl] [txt "  0 = N 5 0"; txt "  0 = N 0 96"])
    = Ok (mkTrack [mkNote 0 0 96 false false false 100] [] []).
Proof. vm_compute. reflexivity. Qed.

End TrackParseFacts.

(** * The chart document model *)

Section ChartModelFacts.
Import ChartParser.

Lemma with_tracks_id (c : Chart) (i : Instrument) :
  with_tracks c i (fun tracks => tracks) = c.
Proof. destruct c. unfold with_tracks. cbn. by repeat case_decide. Qed.

(** X1: [set_track] followed by [get_track] returns the stored track for
    the seven instruments that have a table and leaves every other
    (instrument, difficulty) slot as it was; for the co-op instrument
    [set_track] changes nothing and [get_track] always returns [None], so a
    co-op track can be neither stored nor read back. *)
Theorem set_track_get_track (c : Chart) (i i' : Instrument) (d d' : Difficulty) (t : Track) :
  get_track (set_track c i d t) i' d'
    = (if decide (i = i' /\ d = d' /\ i <> COOP) then Some t else get_track c i' d') /\
  set_track c COOP d t = c /\
  get_track c COOP d = None.
Proof.
  split; [|split].
  - unfold get_track, set_track.
    destruct (decide (i = i' /\ d = d' /\ i <> COOP)) as [(<- & <- & Hi)|Hne].
    + destruct i; try done; cbn; apply lookup_insert_eq.
    + destruct (decide (i = i')) as [<-|Hii].
      * destruct i; try done; cbn; rewrite decide_True by done;
          (rewrite lookup_insert_ne; [done|]; intros <-; apply Hne; done).
      * destruct i, i'; try done.
  - destruct c. reflexivity.
  - reflexivity.
Qed.

(** X2: a note is a HOPO in game exactly when its forced flag differs from
    its natural state, and it is naturally a HOPO exactly when it has a
    previous note on another fret that lies at most a twelfth of a beat
    earlier, that is when twelve times the tick distance is at most the
    resolution.  Nothing asks for the previous note to come first: the
    distance may be zero (two notes of one chord) or negative. *)
Theorem final_hopo_state_spec (n : Note) (previous_note : option Note) (resolution : Z) :
  get_final_hopo_state n previous_note resolution
    = xorb (is_forced n)
        (match previous_note with
         | None => false
         | Some p => bool_decide (fret n <> fret p /\ 12 * (tick n - tick p) <= resolution)
         end).
Proof.
  unfold get_final_hopo_state, is_hopo.
  assert (Hx : forall b : bool, (if is_forced n then negb b else b) = xorb (is_forced n) b).
  { intros b. by destruct (is_forced n), b. }
  rewrite Hx. f_equal. destruct previous_note as [p|]; [|done].
  pose proof (Z.div_mod resolution 12 ltac:(lia)) as Hdm.
  pose proof (Z.mod_pos_bound resolution 12 ltac:(lia)) as Hmod.
  destruct (decide (tick n - tick p <= resolution / 12 /\ fret n <> fret p)) as [[H1 H2]|Hn].
  - symmetry. apply bool_decide_eq_true. split; [done|lia].
  - symmetry. apply bool_decide_eq_false. intros [H2 H1]. apply Hn. split; [lia|done].
Qed.

End ChartModelFacts.

(** * More on the pitch-to-lane mapping *)

Section PhraseFacts.
Import MapToFrets.

(** The silence between note [i - 1] and note [i]. *)
Definition gap_before (notes : list NoteEvent) (i : nat) : Z :=
  match notes !! (i - 1)%nat, notes !! i with
  | Some prev, Some curr => start_tick curr - end_tick prev
  | _, _ => 0
  end.

Lemma segment_loop_spec (notes : list NoteEvent) (st : Z) (k : nat) :
  (S k <= length notes)%nat ->
  exists phrases cur,
    for_each (seq 1 k) (segment_step notes st) ([], [0%nat]) = Ok (phrases, cur) /\
    cur <> [] /\ Forall (fun ph => ph <> []) phrases /\
    concat (phrases ++ [cur]) = seq 0 (S k) /\
    omap head (phrases ++ [cur])
      = 0%nat :: filter (fun i => st <= gap_before notes i) (seq 1 k).
Proof.
  induction k as [|k IH]; intros Hk.
  { exists [], [0%nat]. repeat split; done. }
  destruct IH as (phrases & cur & Hloop & Hcur & Hne & Hcat & Hheads); [lia|].
  rewrite seq_S, for_each_app, Hloop. simpl_bind. cbn [for_each]. simpl_bind.
  change (1 + k)%nat with (S k).
  unfold segment_step.
  destruct (getitem_lt notes (S k - 1)) as (prev & -> & Hprev); [lia|].
  destruct (getitem_lt notes (S k)) as (curr & -> & Hcurr); [lia|].
  simpl_bind.
  assert (Hgap : gap_before notes (S k) = start_tick curr - end_tick prev).
  { unfold gap_before. by rewrite Hprev, Hcurr. }
  rewrite filter_app, filter_cons, filter_nil, Hgap.
  destruct (decide (st <= start_tick curr - end_tick prev)) as [Hge|Hlt].
  - exists (phrases ++ [cur]), [S k]. split; [done|]. split; [done|]. split.
    { apply Forall_app. split; [done|]. by apply Forall_singleton. }
    split.
    + rewrite concat_app, Hcat. cbn [concat]. rewrite app_nil_r.
      by rewrite (seq_S (S k)).
    + rewrite omap_app, Hheads. done.
  - exists phrases, (cur ++ [S k]). split; [done|]. split.
    { by destruct cur. }
    split; [done|]. split.
    + rewrite concat_app in Hcat |- *. cbn [concat] in Hcat |- *.
      rewrite app_nil_r in Hcat |- *. rewrite app_assoc, Hcat.
      by rewrite (seq_S (S k)).
    + rewrite omap_app in Hheads |- *. rewrite app_nil_r, <- Hheads. f_equal.
      destruct cur; done.
Qed.

(** The phrases cover the indices, in order. *)
Lemma segment_into_phrases_cover
    (notes : list NoteEvent) (ticks_per_beat : Z) (silence_beats : spec_float)
    (phrases : list (list nat)) :
  segment_into_phrases notes ticks_per_beat silence_beats = Ok phrases ->
  concat phrases = seq 0 (length notes) /\ Forall (fun ph => ph <> []) phrases.
Proof.
  unfold segment_into_phrases.
  destruct notes as [|n0 notes'] eqn:Hnotes.
  { intros [= <-]. done. }
  rewrite <- Hnotes.
  destruct (silence_threshold silence_beats ticks_per_beat) as [st|e]; simpl_bind; [|done].
  destruct (segment_loop_spec notes st (length notes - 1))
    as (ps & cur & -> & Hcur & Hne & Hcat & _).
  { subst. cbn [length]. lia. }
  simpl_bind. destruct cur as [|c cur']; [done|]. intros [= <-]. split.
  - rewrite Hcat. f_equal. subst. cbn [length]. lia.
  - apply Forall_app. split; [done|]. by apply Forall_singleton.
Qed.

(** X3: [segment_into_phrases] cuts the note indices into consecutive
    runs: the phrases, one after the other, are exactly 0, 1, ..., n-1; no
    phrase is empty; and a new phrase starts at index [i > 0] exactly when
    the silence before note [i] is at least the threshold
    [int(silence_beats * ticks_per_beat)].  It returns [[]] for no notes
    without looking at the threshold, and otherwise fails only when the
    threshold cannot be computed. *)
Theorem segment_into_phrases_partition
    (notes : list NoteEvent) (ticks_per_beat : Z) (silence_beats : spec_float) :
  match segment_into_phrases notes ticks_per_beat silence_beats with
  | Ok phrases =>
      concat phrases = seq 0 (length notes) /\
      Forall (fun ph => ph <> []) phrases /\
      (notes = [] \/
       exists silence_ticks,
         silence_threshold silence_beats ticks_per_beat = Ok silence_ticks /\
         omap head phrases
           = 0%nat :: filter (fun i => silence_ticks <= gap_before notes i)
                        (seq 1 (length notes - 1)))
  | Raise e =>
      notes <> [] /\ silence_threshold silence_beats ticks_per_beat = Raise e
  end.
Proof.
  unfold segment_into_phrases.
  destruct notes as [|n0 notes'] eqn:Hnotes.
  { repeat split; auto. }
  rewrite <- Hnotes.
  destruct (silence_threshold silence_beats ticks_per_beat) as [st|e]; simpl_bind;
    [|by subst].
  destruct (segment_loop_spec notes st (length notes - 1))
    as (phrases & cur & -> & Hcur & Hne & Hcat & Hheads).
  { subst. cbn [length]. lia. }
  simpl_bind. destruct cur as [|c cur']; [done|].
  split.
  { rewrite Hcat. f_equal. subst. cbn [length]. lia. }
  split.
  { apply Forall_app. split; [done|]. by apply Forall_singleton. }
  right. exists st. split; [done|]. exact Hheads.
Qed.

End PhraseFacts.

Section SmoothFacts.
Import MapToFrets.

(** What one clamping pass makes of the lanes that follow a lane [p]. *)
Fixpoint smooth_tail (max_jump : Z) (p : Z) (rest : list Z) : list Z :=
  match rest with
  | [] => []
  | x :: r =>
      let x' := if decide (max_jump < Z.abs (x - p))
                then clamp_lane (if decide (0 < x - p) then p + max_jump else p - max_jump)
                else x in
      x' :: smooth_tail max_jump x' r
  end.

(** Consecutive lanes, from [p] on, are at most [max_jump] apart. *)
Fixpoint jumps_ok (max_jump : Z) (p : Z) (rest : list Z) : Prop :=
  match rest with
  | [] => True
  | x :: r => Z.abs (x - p) <= max_jump /\ jumps_ok max_jump x r
  end.

Lemma clamp_jump_step_at (max_jump : Z) (pre : list Z) (p x : Z) (r : list Z) :
  clamp_jump_step max_jump (S (length pre)) (pre ++ p :: x :: r)
    = Ok ((pre ++ [p])
            ++ (if decide (max_jump < Z.abs (x - p))
                then clamp_lane (if decide (0 < x - p) then p + max_jump else p - max_jump)
                else x) :: r).
Proof.
  unfold clamp_jump_step.
  assert (Hx : (pre ++ p :: x :: r) !! S (length pre) = Some x).
  { rewrite (lookup_app_r pre) by lia.
    by replace (S (length pre) - length pre)%nat with 1%nat by lia. }
  assert (Hp : (pre ++ p :: x :: r) !! (S (length pre) - 1)%nat = Some p).
  { replace (S (length pre) - 1)%nat with (length pre) by lia.
    by apply list_lookup_middle. }
  apply getitem_Ok in Hx, Hp. rewrite Hx, Hp. simpl_bind.
  destruct (decide (max_jump < Z.abs (x - p))) as [Hj|Hj].
  - rewrite setitem_lt by (rewrite length_app; cbn [length]; lia).
    f_equal. replace (S (length pre)) with (length pre + 1)%nat by lia.
    rewrite insert_app_r. by rewrite <- app_assoc.
  - by rewrite <- app_assoc.
Qed.

Lemma clamp_pass_spec (max_jump : Z) (pre : list Z) (p : Z) (rest : list Z) :
  for_each (seq (S (length pre)) (length rest)) (clamp_jump_step max_jump) (pre ++ p :: rest)
    = Ok (pre ++ p :: smooth_tail max_jump p rest).
Proof.
  revert pre p. induction rest as [|x r IH]; intros pre p; [done|].
  cbn [length seq for_each]. rewrite clamp_jump_step_at. simpl_bind.
  specialize (IH (pre ++ [p])). rewrite length_app in IH. cbn [length] in IH.
  replace (length pre + 1)%nat with (S (length pre)) in IH by lia.
  rewrite IH. cbn [smooth_tail]. by rewrite <- app_assoc.
Qed.

Lemma smooth_tail_length (max_jump p : Z) (rest : list Z) :
  length (smooth_tail max_jump p rest) = length rest.
Proof. revert p. induction rest as [|x r IH]; intros p; cbn; [done|]. by rewrite IH. Qed.

Lemma smooth_tail_ok (max_jump p : Z) (rest : list Z) :
  0 <= max_jump -> 0 <= p <= 4 -> Forall (fun l => 0 <= l <= 4) rest ->
  Forall (fun l => 0 <= l <= 4) (smooth_tail max_jump p rest) /\
  jumps_ok max_jump p (smooth_tail max_jump p rest).
Proof.
  intros Hmj. revert p. induction rest as [|x r IH]; intros p Hp Hrest; [done|].
  apply Forall_cons in Hrest as [Hx Hr]. cbn [smooth_tail jumps_ok].
  set (x' := if decide (max_jump < Z.abs (x - p))
             then clamp_lane (if decide (0 < x - p) then p + max_jump else p - max_jump)
             else x).
  assert (Hx' : 0 <= x' <= 4 /\ Z.abs (x' - p) <= max_jump).
  { unfold x', clamp_lane. repeat case_decide; lia. }
  destruct Hx' as [Hr' Hj']. destruct (IH x' Hr' Hr) as [IH1 IH2].
  split; [by constructor|done].
Qed.

Lemma smooth_tail_id (max_jump p : Z) (rest : list Z) :
  jumps_ok max_jump p rest -> smooth_tail max_jump p rest = rest.
Proof.
  revert p. induction rest as [|x r IH]; intros p; [done|].
  cbn [smooth_tail jumps_ok]. intros [Hj Hr].
  rewrite decide_False by lia. f_equal. by apply IH.
Qed.

Lemma jumps_ok_lookup (max_jump p : Z) (rest : list Z) (i : nat) (a b : Z) :
  jumps_ok max_jump p rest ->
  (p :: rest) !! i = Some a -> (p :: rest) !! S i = Some b -> Z.abs (b - a) <= max_jump.
Proof.
  revert p i. induction rest as [|x r IH]; intros p i Hj Ha Hb.
  { destruct i; done. }
  destruct Hj as [Hj Hr]. destruct i as [|i].
  - cbn in Ha, Hb. by simplify_eq.
  - cbn in Ha, Hb. by apply (IH x i).
Qed.

(** One pass over a list of at least two lanes. *)
Lemma smooth_pass_spec (max_jump p : Z) (rest : list Z) :
  for_each (seq 1 (length (p :: rest) - 1)) (clamp_jump_step max_jump) (p :: rest)
    = Ok (p :: smooth_tail max_jump p rest).
Proof.
  cbn [length]. replace (S (length rest) - 1)%nat with (length rest) by lia.
  apply (clamp_pass_spec max_jump [] p rest).
Qed.

Lemma smooth_passes_fixed (max_jump p : Z) (rest : list Z) (s k : nat) :
  jumps_ok max_jump p rest ->
  for_each (seq s k)
    (fun (_ : nat) res => for_each (seq 1 (length res - 1)) (clamp_jump_step max_jump) res)
    (p :: rest) = Ok (p :: rest).
Proof.
  intros Hj. revert s. induction k as [|k IH]; intros s; [done|].
  cbn [seq for_each]. cbv beta. rewrite smooth_pass_spec, smooth_tail_id by done.
  simpl_bind. apply IH.
Qed.

(** X4: on lanes that lie in [0,4], with a non-negative [max_jump] and at
    least one pass, [smooth_lanes] returns as many lanes, all in [0,4], keeps
    the first lane, and leaves no two consecutive lanes more than [max_jump]
    apart.  One pass already reaches this result: further passes, and
    smoothing the result again, change nothing. *)
Theorem smooth_lanes_limits_jumps (lanes : list Z) (max_jump passes : Z) :
  0 <= max_jump -> 1 <= passes -> Forall (fun l => 0 <= l <= 4) lanes ->
  exists res,
    smooth_lanes lanes max_jump passes = Ok res /\
    length res = length lanes /\
    head res = head lanes /\
    Forall (fun l => 0 <= l <= 4) res /\
    (forall i a b, res !! i = Some a -> res !! S i = Some b -> Z.abs (b - a) <= max_jump) /\
    smooth_lanes lanes max_jump 1 = Ok res /\
    smooth_lanes res max_jump passes = Ok res.
Proof.
  intros Hmj Hpasses Hrange. unfold smooth_lanes.
  destruct lanes as [|p rest].
  { exists []. cbn. repeat split; done. }
  destruct rest as [|x r].
  { exists [p]. cbn. repeat split; try done; intros [|i] a b Ha Hb; done. }
  apply Forall_cons in Hrange as [Hp Hrest].
  destruct (smooth_tail_ok max_jump p (x :: r) Hmj Hp Hrest) as [Hin Hj].
  exists (p :: smooth_tail max_jump p (x :: r)).
  assert (Hlen : length (p :: smooth_tail max_jump p (x :: r)) = length (p :: x :: r)).
  { cbn [length]. by rewrite smooth_tail_length. }
  rewrite Hlen.
  rewrite decide_False by (cbn [length]; lia).
  destruct (Z.to_nat passes) as [|k] eqn:Hk; [lia|].
  split.
  { cbn [seq for_each]. cbv beta. rewrite smooth_pass_spec. simpl_bind.
    by apply smooth_passes_fixed. }
  split; [done|]. split; [done|]. split; [by constructor|]. split.
  { intros i a b. by apply jumps_ok_lookup. }
  split.
  { change (Z.to_nat 1) with 1%nat. cbn [seq for_each]. cbv beta. rewrite smooth_pass_spec. done. }
  by apply smooth_passes_fixed.
Qed.

Lemma smooth_lanes_limits_jumps_witness :
  exists res,
    smooth_lanes [0; 4; 0; 1] 2 3 = Ok res /\
    length res = length [0; 4; 0; 1] /\
    head res = head [0; 4; 0; 1] /\
    Forall (fun l => 0 <= l <= 4) res /\
    (forall i a b, res !! i = Some a -> res !! S i = Some b -> Z.abs (b - a) <= 2) /\
    smooth_lanes [0; 4; 0; 1] 2 1 = Ok res /\
    smooth_lanes res 2 3 = Ok res.
Proof.
  apply (smooth_lanes_limits_jumps [0; 4; 0; 1] 2 3); [lia|lia|].
  repeat constructor; lia.
Defined.

End SmoothFacts.

Section DirectionFacts.
Import MapToFrets.

(** The lane [preserve_direction] gives a note whose lane is [x], after a
    note on lane [p], when the pitch moved by [pitch_diff]. *)
Definition nudge (pitch_diff p x : Z) : Z :=
  if decide (0 < pitch_diff /\ x - p <= 0) then
    if decide (x < 4) then Z.min 4 (p + 1) else x
  else if decide (pitch_diff < 0 /\ 0 <= x - p) then
    if decide (0 < x) then Z.max 0 (p - 1) else x
  else x.

Fixpoint direction_tail (pp p : Z) (rest pitches : list Z) : list Z :=
  match rest, pitches with
  | x :: r, q :: ps => let x' := nudge (q - pp) p x in x' :: direction_tail q x' r ps
  | _, _ => rest
  end.

Lemma preserve_step_at (ppre : list Z) (pp q : Z) (ps : list Z)
    (pre : list Z) (p x : Z) (r : list Z) :
  length ppre = length pre ->
  preserve_step (ppre ++ pp :: q :: ps) (S (length pre)) (pre ++ p :: x :: r)
    = Ok ((pre ++ [p]) ++ nudge (q - pp) p x :: r).
Proof.
  intros Hlen. unfold preserve_step.
  assert (Hq : (ppre ++ pp :: q :: ps) !! S (length pre) = Some q).
  { rewrite (lookup_app_r ppre) by lia.
    by replace (S (length pre) - length ppre)%nat with 1%nat by lia. }
  assert (Hpp : (ppre ++ pp :: q :: ps) !! (S (length pre) - 1)%nat = Some pp).
  { replace (S (length pre) - 1)%nat with (length ppre) by lia.
    by apply list_lookup_middle. }
  assert (Hx : (pre ++ p :: x :: r) !! S (length pre) = Some x).
  { rewrite (lookup_app_r pre) by lia.
    by replace (S (length pre) - length pre)%nat with 1%nat by lia. }
  assert (Hp : (pre ++ p :: x :: r) !! (S (length pre) - 1)%nat = Some p).
  { replace (S (length pre) - 1)%nat with (length pre) by lia.
    by apply list_lookup_middle. }
  apply getitem_Ok in Hq, Hpp, Hx, Hp. rewrite Hq, Hpp. simpl_bind.
  rewrite Hx, Hp. simpl_bind.
  assert (Hset : forall v, setitem (pre ++ p :: x :: r) (S (length pre)) v
                           = Ok ((pre ++ [p]) ++ v :: r)).
  { intros v. rewrite setitem_lt by (rewrite length_app; cbn [length]; lia).
    f_equal. replace (S (length pre)) with (length pre + 1)%nat by lia.
    rewrite insert_app_r. by rewrite <- app_assoc. }
  unfold nudge.
  repeat case_decide; rewrite ?Hset; try done; by rewrite <- app_assoc.
Qed.

Lemma direction_pass_spec (ppre : list Z) (pp : Z) (ptail : list Z)
    (pre : list Z) (p : Z) (rest rest2 : list Z) :
  length ppre = length pre -> (length rest <= length ptail)%nat ->
  for_each (seq (S (length pre)) (length rest)) (preserve_step (ppre ++ pp :: ptail))
    (pre ++ p :: rest ++ rest2)
    = Ok (pre ++ p :: direction_tail pp p rest ptail ++ rest2).
Proof.
  revert ppre pp ptail pre p.
  induction rest as [|x r IH]; intros ppre pp ptail pre p Hlen Hle; [done|].
  destruct ptail as [|q ps]; [cbn in Hle; lia|].
  cbn [length seq for_each]. rewrite <- app_comm_cons.
  rewrite preserve_step_at by done. simpl_bind.
  specialize (IH (ppre ++ [pp]) q ps (pre ++ [p]) (nudge (q - pp) p x)).
  rewrite !length_app in IH. cbn [length] in IH.
  replace (length pre + 1)%nat with (S (length pre)) in IH by lia.
  replace (ppre ++ pp :: q :: ps) with ((ppre ++ [pp]) ++ q :: ps)
    by (by rewrite <- app_assoc).
  rewrite IH by (cbn in Hle; lia). cbn [direction_tail]. by rewrite <- !app_assoc.
Qed.

Lemma direction_tail_length (pp p : Z) (rest pitches : list Z) :
  length (direction_tail pp p rest pitches) = length rest.
Proof.
  revert pp p pitches. induction rest as [|x r IH]; intros pp p [|q ps]; cbn; try done.
  by rewrite IH.
Qed.

Lemma direction_tail_lookup (pp p : Z) (rest ptail : list Z) (i : nat) (a b u v : Z) :
  (p :: direction_tail pp p rest ptail) !! i = Some a ->
  (p :: direction_tail pp p rest ptail) !! S i = Some b ->
  (pp :: ptail) !! i = Some u -> (pp :: ptail) !! S i = Some v ->
  (u < v -> a < b \/ 4 <= a) /\ (v < u -> b < a \/ a <= 0) /\
  (u = v -> (p :: rest) !! S i = Some b).
Proof.
  revert pp p ptail i. induction rest as [|x r IH]; intros pp p ptail i Ha Hb Hu Hv.
  { destruct i; done. }
  destruct ptail as [|q ps]; [by destruct i|].
  cbn [direction_tail] in Ha, Hb. destruct i as [|i].
  - cbn in Ha, Hb, Hu, Hv. simplify_eq. unfold nudge.
    repeat split; intros; repeat case_decide; cbn; try (f_equal; lia); lia.
  - cbn [lookup list_lookup] in Ha, Hb, Hu, Hv |- *.
    apply (IH q (nudge (q - pp) p x) ps i Ha Hb Hu Hv).
Qed.

(** X5: given at least as many pitches as lanes, [preserve_direction]
    returns as many lanes and keeps the first one; afterwards, wherever the
    pitch rises from one note to the next the lane rises too unless the
    earlier note already sits on lane 4 or above, wherever the pitch falls
    the lane falls too unless the earlier note sits on lane 0 or below, and
    a note that repeats the pitch of the note before it keeps its lane. *)
Theorem preserve_direction_follows_pitch (lanes pitches : list Z) :
  (length lanes <= length pitches)%nat ->
  exists res,
    preserve_direction lanes pitches = Ok res /\
    length res = length lanes /\
    head res = head lanes /\
    forall i a b u v,
      res !! i = Some a -> res !! S i = Some b ->
      pitches !! i = Some u -> pitches !! S i = Some v ->
      (u < v -> a < b \/ 4 <= a) /\ (v < u -> b < a \/ a <= 0) /\
      (u = v -> lanes !! S i = Some b).
Proof.
  intros Hlen. unfold preserve_direction.
  destruct lanes as [|p rest].
  { exists []. cbn. repeat split; done. }
  destruct rest as [|x r].
  { exists [p]. cbn. repeat split; try done; by destruct i. }
  rewrite decide_False by (cbn [length]; lia).
  destruct pitches as [|pp ptail]; [cbn in Hlen; lia|].
  pose proof (direction_pass_spec [] pp ptail [] p (x :: r) [] eq_refl) as Hpass.
  rewrite !app_nil_r in Hpass. cbn [app length] in Hpass |- *.
  replace (S (S (length r)) - 1)%nat with (S (length r)) by lia.
  rewrite Hpass by (cbn in Hlen; lia).
  eexists. split; [done|]. split.
  { cbn [length]. rewrite direction_tail_length. done. }
  split; [done|].
  intros i a b u v. apply direction_tail_lookup.
Qed.

Lemma preserve_direction_follows_pitch_witness :
  exists res,
    preserve_direction [2; 2; 0; 4] [60; 62; 64; 60] = Ok res /\
    length res = length [2; 2; 0; 4] /\
    head res = head [2; 2; 0; 4] /\
    forall i a b u v,
      res !! i = Some a -> res !! S i = Some b ->
      [60; 62; 64; 60] !! i = Some u -> [60; 62; 64; 60] !! S i = Some v ->
      (u < v -> a < b \/ 4 <= a) /\ (v < u -> b < a \/ a <= 0) /\
      (u = v -> [2; 2; 0; 4] !! S i = Some b).
Proof.
  apply (preserve_direction_follows_pitch [2; 2; 0; 4] [60; 62; 64; 60]).
  cbn [length]. lia.
Defined.

Lemma preserve_step_no_pitch (pitches : list Z) (i : nat) (res : list Z) :
  (length pitches <= i)%nat -> preserve_step pitches i res = Raise IndexError.
Proof.
  intros Hle.
  assert (H : getitem pitches i = Raise IndexError).
  { unfold getitem. by rewrite lookup_ge_None_2. }
  unfold preserve_step. by rewrite H.
Qed.

(** X6: with two or more lanes and fewer pitches than lanes,
    [preserve_direction] raises IndexError: the loop runs over the indices
    of [lanes] and reads [pitches] at each of them. *)
Theorem preserve_direction_short_pitches (lanes pitches : list Z) :
  (2 <= length lanes)%nat -> (length pitches < length lanes)%nat ->
  preserve_direction lanes pitches = Raise IndexError.
Proof.
  intros H2 Hlt. unfold preserve_direction.
  rewrite decide_False by lia.
  destruct lanes as [|p rest]; [cbn in H2; lia|].
  cbn [length] in *. replace (S (length rest) - 1)%nat with (length rest) by lia.
  destruct pitches as [|pp ptail].
  { destruct rest as [|x r]; [cbn in H2; lia|]. reflexivity. }
  cbn [length] in Hlt.
  rewrite <- (take_drop (length ptail) rest).
  assert (Hl1 : length (take (length ptail) rest) = length ptail)
    by (rewrite length_take; lia).
  destruct (drop (length ptail) rest) as [|y rest2] eqn:Hdrop.
  { apply (f_equal length) in Hdrop. rewrite length_drop in Hdrop. cbn in Hdrop. lia. }
  set (rest1 := take (length ptail) rest) in *.
  rewrite length_app. cbn [length].
  rewrite seq_app, for_each_app.
  pose proof (direction_pass_spec [] pp ptail [] p rest1 (y :: rest2) eq_refl) as Hpass.
  cbn [app length] in Hpass. rewrite Hpass by lia. simpl_bind.
  cbn [seq for_each].
  rewrite preserve_step_no_pitch by (cbn [length]; lia). reflexivity.
Qed.

Lemma preserve_direction_short_pitches_witness :
  preserve_direction [2; 2; 0] [60; 62] = Raise IndexError.
Proof.
  apply (preserve_direction_short_pitches [2; 2; 0] [60; 62]); cbn [length]; lia.
Defined.

End DirectionFacts.

Section QualityFacts.
Import MapToFrets.

(** The two direction checks of [detect_qa_issues] for the note at index
    [i], in the order the loop appends them. *)
Definition direction_issues (notes : list NoteEvent) (lanes : list Z) (i : nat)
    : list QAIssue :=
  match i with
  | O => []
  | S j =>
      match notes !! S j, lanes !! S j, notes !! j, lanes !! j with
      | Some n, Some l, Some prev, Some pl =>
          (if decide (2 < pitch n - pitch prev /\ l - pl < -1) then [TOO_LOW] else [])
          ++ (if decide (pitch n - pitch prev < -2 /\ 1 < l - pl) then [TOO_HIGH] else [])
      | _, _, _, _ => []
      end
  end.

Lemma qa_step_cell (notes : list NoteEvent) (lanes : list Z) (k : nat) (n : NoteEvent)
    (l : Z) (issues : list (list QAIssue)) (p2l : gmap Z (gset Z)) :
  notes !! k = Some n -> lanes !! k = Some l -> issues !! k = Some [] ->
  exists df p2l',
    qa_step notes lanes (k, (n, l)) (issues, p2l)
      = Ok (<[k := df ++ direction_issues notes lanes k]> issues, p2l') /\
    (df = [] \/ df = [DIFFERENT_FRET]).
Proof.
  intros Hn Hl Hc. unfold qa_step.
  set (x1 := match p2l !! pitch n with
             | Some seen => if decide (l ∉ seen) then [DIFFERENT_FRET] else []
             | None => []
             end).
  set (p2l' := <[pitch n := match p2l !! pitch n with
                            | Some seen => seen ∪ {[l]}
                            | None => {[l]}
                            end]> p2l).
  assert (H1 : match p2l !! pitch n with
               | Some seen =>
                   issues0 ← (if decide (l ∉ seen) then qa_append issues k DIFFERENT_FRET
                              else Ok issues);
                   Ok (issues0, <[pitch n := seen ∪ {[l]}]> p2l)
               | None => Ok (issues, <[pitch n := {[l]}]> p2l)
               end = Ok (<[k := x1]> issues, p2l')).
  { unfold x1, p2l'. destruct (p2l !! pitch n) as [seen|].
    - rewrite (qa_opt_append _ issues k [] DIFFERENT_FRET Hc). simpl_bind. done.
    - by rewrite list_insert_id. }
  rewrite H1. simpl_bind. clear H1.
  assert (Hx1 : x1 = [] \/ x1 = [DIFFERENT_FRET]).
  { unfold x1. destruct (p2l !! pitch n); [case_decide|]; auto. }
  exists x1, p2l'. split; [|done].
  assert (Hk : (k < length issues)%nat) by (by eapply lookup_lt_Some).
  destruct (decide (0 < k)%nat) as [Hpos|Hzero].
  - destruct k as [|j]; [lia|]. replace (S j - 1)%nat with j by lia.
    destruct (getitem_lt notes j) as (prev & -> & Hprev).
    { apply lookup_lt_Some in Hn. lia. }
    destruct (getitem_lt lanes j) as (pl & -> & Hpl).
    { apply lookup_lt_Some in Hl. lia. }
    simpl_bind.
    rewrite (qa_opt_append _ (<[S j:=x1]> issues) (S j) x1 TOO_LOW)
      by (by apply list_lookup_insert_eq).
    simpl_bind. rewrite list_insert_insert_eq.
    rewrite (qa_opt_append _ (<[S j:=_]> issues) (S j) _ TOO_HIGH)
      by (by apply list_lookup_insert_eq).
    simpl_bind. rewrite list_insert_insert_eq.
    unfold direction_issues. rewrite Hn, Hl, Hprev, Hpl. by rewrite <- app_assoc.
  - replace k with 0%nat by lia. cbn [direction_issues]. by rewrite app_nil_r.
Qed.

Lemma qa_loop_cells (notes : list NoteEvent) (lanes : list Z) (k : nat) :
  (k <= length (zip notes lanes))%nat ->
  exists issues p2l,
    for_each (enumerate (take k (zip notes lanes))) (qa_step notes lanes)
      (replicate (length notes) [], ∅) = Ok (issues, p2l) /\
    length issues = length notes /\
    (forall j, (k <= j < length notes)%nat -> issues !! j = Some []) /\
    (forall j, (j < k)%nat ->
       exists df, issues !! j = Some (df ++ direction_issues notes lanes j) /\
                  (df = [] \/ df = [DIFFERENT_FRET])).
Proof.
  induction k as [|k IH]; intros Hk.
  - exists (replicate (length notes) []), ∅. split; [done|]. split.
    { apply length_replicate. }
    split.
    + intros j Hj. apply lookup_replicate_2. lia.
    + intros j Hj. lia.
  - destruct (IH ltac:(lia)) as (issues & p2l & Hrun & Hlen & Hrest & Hcells).
    destruct (lookup_lt_is_Some_2 (zip notes lanes) k ltac:(lia)) as [[n l] Hz].
    pose proof Hz as Hz'.
    apply lookup_zip_with_Some in Hz' as (n' & l' & [= <- <-] & Hn & Hl).
    rewrite (take_S_r _ _ _ Hz), enumerate_snoc, for_each_app, Hrun. simpl_bind.
    rewrite length_take_le by lia. cbn [for_each].
    assert (Hkn : (k < length notes)%nat) by (by eapply lookup_lt_Some).
    destruct (qa_step_cell notes lanes k n l issues p2l Hn Hl (Hrest k ltac:(lia)))
      as (df & p2l' & -> & Hdf).
    simpl_bind. eexists _, _. split; [done|]. split.
    { by rewrite length_insert. }
    split.
    + intros j Hj. rewrite list_lookup_insert_ne by lia. apply Hrest. lia.
    + intros j Hj. destruct (decide (j = k)) as [->|Hjk].
      * exists df. split; [|done]. apply list_lookup_insert_eq. lia.
      * rewrite list_lookup_insert_ne by done. apply Hcells. lia.
Qed.

(** Membership in a list that is written out. *)
Ltac in_list := repeat first [apply list_elem_of_here | apply list_elem_of_further].
Ltac not_in_list H :=
  repeat (apply elem_of_cons in H as [H|H]; [discriminate H|]); by apply elem_of_nil in H.

(** X7: in the result of [detect_qa_issues], a note carries TOO_LOW
    exactly when it has a predecessor, its pitch is more than 2 above the
    predecessor's and its lane more than 1 below; it carries TOO_HIGH
    exactly when its pitch is more than 2 below and its lane more than 1
    above.  No note carries both; a note's list holds at most
    DIFFERENT_FRET followed by one of the two; and the first note carries
    neither. *)
Theorem detect_qa_issues_direction (notes : list NoteEvent) (lanes : list Z) :
  exists issues,
    detect_qa_issues notes lanes = Ok issues /\
    forall j n l c,
      notes !! j = Some n -> lanes !! j = Some l -> issues !! j = Some c ->
      (TOO_LOW ∈ c <->
         exists prev pl, (0 < j)%nat /\ notes !! (j - 1)%nat = Some prev /\
           lanes !! (j - 1)%nat = Some pl /\
           2 < pitch n - pitch prev /\ l - pl < -1) /\
      (TOO_HIGH ∈ c <->
         exists prev pl, (0 < j)%nat /\ notes !! (j - 1)%nat = Some prev /\
           lanes !! (j - 1)%nat = Some pl /\
           pitch n - pitch prev < -2 /\ 1 < l - pl) /\
      ~ (TOO_LOW ∈ c /\ TOO_HIGH ∈ c) /\
      c ∈ [[]; [TOO_LOW]; [TOO_HIGH]; [DIFFERENT_FRET];
           [DIFFERENT_FRET; TOO_LOW]; [DIFFERENT_FRET; TOO_HIGH]].
Proof.
  unfold detect_qa_issues.
  destruct (qa_loop_cells notes lanes (length (zip notes lanes)) ltac:(lia))
    as (issues & p2l & Hrun & Hlen & Hrest & Hcells).
  rewrite firstn_all in Hrun. rewrite Hrun. simpl_bind.
  exists issues. split; [done|].
  intros j n l c Hn Hl Hc.
  destruct (Hcells j) as (df & Hc' & Hdf).
  { rewrite length_zip_with. apply lookup_lt_Some in Hn, Hl. lia. }
  rewrite Hc in Hc'. injection Hc' as ->.
  destruct j as [|j].
  { cbn [direction_issues]. rewrite app_nil_r.
    destruct Hdf as [->| ->];
      (split; [|split; [|split]];
       [ split; [intros Hin; by not_in_list Hin | intros (? & ? & ? & _); lia]
       | split; [intros Hin; by not_in_list Hin | intros (? & ? & ? & _); lia]
       | intros [Hin _]; by not_in_list Hin
       | in_list ]). }
  replace (S j - 1)%nat with j by lia.
  destruct (lookup_lt_is_Some_2 notes j) as [prev Hprev].
  { apply lookup_lt_Some in Hn. lia. }
  destruct (lookup_lt_is_Some_2 lanes j) as [pl Hpl].
  { apply lookup_lt_Some in Hl. lia. }
  unfold direction_issues. rewrite Hn, Hl, Hprev, Hpl.
  destruct Hdf as [->| ->];
    destruct (decide (2 < pitch n - pitch prev /\ l - pl < -1)) as [Hlo|Hlo];
    destruct (decide (pitch n - pitch prev < -2 /\ 1 < l - pl)) as [Hhi|Hhi];
    try lia; cbn [app];
    (split; [|split; [|split]];
     [ split;
       [ intros Hin; first [by not_in_list Hin | exists prev, pl; repeat split; (done || lia)]
       | intros (prev' & pl' & _ & ? & ? & ?); simplify_eq; first [lia | in_list] ]
     | split;
       [ intros Hin; first [by not_in_list Hin | exists prev, pl; repeat split; (done || lia)]
       | intros (prev' & pl' & _ & ? & ? & ?); simplify_eq; first [lia | in_list] ]
     | intros [Hin1 Hin2]; first [by not_in_list Hin1 | by not_in_list Hin2]
     | in_list ]).
Qed.

(** *** The summary *)

Lemma issue_value_inj (q q' : QAIssue) : issue_value q = issue_value q' -> q = q'.
Proof. destruct q, q'; intros H; try done; by vm_compute in H. Qed.

(** One update of the summary. *)
Definition summary_step (summary : list (str * Z)) (issue : QAIssue) : list (str * Z) :=
  dict_set (issue_value issue)
    (match dict_get (issue_value issue) summary with Some c => c | None => 0 end + 1)
    summary.

Lemma summarize_unfold (mapped_notes : list MappedNote) :
  summarize_qa_issues mapped_notes
    = foldl summary_step [] (concat (map issues mapped_notes)).
Proof.
  unfold summarize_qa_issues. generalize (@nil (str * Z)).
  induction mapped_notes as [|mn l IH]; intros acc; [done|].
  cbn [foldl map concat]. rewrite foldl_app. apply IH.
Qed.

Lemma summary_count (q : QAIssue) (l : list QAIssue) (acc : list (str * Z)) :
  dict_get (issue_value q) (foldl summary_step acc l)
    = if decide (length (filter (fun x => x = q) l) = 0%nat)
      then dict_get (issue_value q) acc
      else Some (match dict_get (issue_value q) acc with Some c => c | None => 0 end
                 + Z.of_nat (length (filter (fun x => x = q) l))).
Proof.
  revert acc. induction l as [|x l IH]; intros acc; [done|].
  cbn [foldl]. rewrite IH, filter_cons. unfold summary_step.
  destruct (decide (x = q)) as [->|Hne].
  - rewrite dict_get_set_eq. cbn [length].
    rewrite (decide_False (P := S _ = 0%nat)) by lia.
    case_decide as Hz; [rewrite Hz|]; f_equal; lia.
  - rewrite dict_get_set_ne by (intros H; by apply issue_value_inj in H). done.
Qed.

Lemma summary_keys (k : str) (l : list QAIssue) (acc : list (str * Z)) :
  (forall q, k <> issue_value q) ->
  dict_get k (foldl summary_step acc l) = dict_get k acc.
Proof.
  intros Hk. revert acc. induction l as [|x l IH]; intros acc; [done|].
  cbn [foldl]. rewrite IH. unfold summary_step. by rewrite dict_get_set_ne.
Qed.

(** X8: the summary maps each issue's value to the number of times the
    issue occurs over all the notes; an issue that never occurs has no key,
    and no other key is ever present. *)
Theorem summarize_qa_issues_counts (mapped_notes : list MappedNote) :
  (forall q,
     dict_get (issue_value q) (summarize_qa_issues mapped_notes)
       = let occurrences :=
           length (filter (fun x => x = q) (concat (map issues mapped_notes))) in
         if decide (occurrences = 0%nat) then None else Some (Z.of_nat occurrences)) /\
  (forall k, (forall q, k <> issue_value q) ->
     dict_get k (summarize_qa_issues mapped_notes) = None).
Proof.
  rewrite summarize_unfold. split.
  - intros q. rewrite summary_count. cbn [dict_get]. by case_decide.
  - intros k Hk. by rewrite summary_keys.
Qed.

End QualityFacts.

Section PipelineFacts.
Import MapToFrets.

(** A loop whose body never raises and extends an invariant over the
    elements met so far. *)
Lemma for_each_inv_acc {A S : Type} (P : list A -> S -> Prop) (l : list A)
    (body : A -> S -> result S) (s : S) (seen : list A) :
  P seen s ->
  (forall pre x s, x ∈ l -> P pre s -> exists s', body x s = Ok s' /\ P (pre ++ [x]) s') ->
  exists s', for_each l body s = Ok s' /\ P (seen ++ l) s'.
Proof.
  revert s seen. induction l as [|x l IH]; intros s seen Hs Hbody.
  { exists s. by rewrite app_nil_r. }
  destruct (Hbody seen x s) as (s1 & Hx & Hs1); [left|done|].
  destruct (IH s1 (seen ++ [x]) Hs1) as (s' & Hrun & Hs').
  { intros pre y s0 Hy. apply Hbody. by right. }
  exists s'. cbn [for_each]. rewrite Hx. simpl_bind. split; [done|].
  by rewrite <- app_assoc in Hs'.
Qed.

Lemma map_pitches_to_lanes_Ok (notes : list NoteEvent) (ticks_per_beat : Z)
    (phrase_silence_beats : spec_float) (max_lane_jump smoothing_passes : Z) (lanes : list Z) :
  map_pitches_to_lanes notes ticks_per_beat phrase_silence_beats
    max_lane_jump smoothing_passes = Ok lanes ->
  length lanes = length notes /\ Forall (fun lane => 0 <= lane <= 4) lanes.
Proof.
  intros H. unfold map_pitches_to_lanes in H.
  destruct notes as [|n0 notes'] eqn:Hn.
  { injection H as <-. split; [done|constructor]. }
  rewrite <- Hn in *.
  apply bind_Ok in H as (phrases & Hseg & H).
  apply bind_Ok in H as (l1 & Hl1 & H).
  apply bind_Ok in H as (l2 & Hl2 & H).
  apply bind_Ok in H as (l3 & Hl3 & H).
  injection H as <-. split.
  - assert (Hst : exists st, silence_threshold phrase_silence_beats ticks_per_beat = Ok st).
    { unfold segment_into_phrases in Hseg. rewrite Hn in Hseg.
      destruct (silence_threshold phrase_silence_beats ticks_per_beat); [eauto|done]. }
    destruct Hst as [st Hst].
    destruct (segment_into_phrases_ok notes ticks_per_beat phrase_silence_beats st Hst)
      as (phrases' & Hseg' & Hwf).
    rewrite Hseg in Hseg'. injection Hseg' as <-.
    destruct (for_each_inv (fun l : list Z => length l = length notes)
                phrases (scale_phrase notes) (replicate (length notes) 0))
      as (l1' & Hl1' & Hlen1).
    { apply length_replicate. }
    { intros ph l Hph Hl. unfold phrases_wf in Hwf. rewrite Forall_forall in Hwf.
      destruct (Hwf ph Hph) as [Hne Hr]. by apply scale_phrase_ok. }
    rewrite Hl1 in Hl1'. injection Hl1' as <-.
    destruct (smooth_lanes_ok l1 max_lane_jump smoothing_passes) as (l2' & Hl2' & Hlen2).
    rewrite Hl2 in Hl2'. injection Hl2' as <-.
    destruct (preserve_direction_ok l2 (map pitch notes)) as (l3' & Hl3' & Hlen3).
    { rewrite length_map. lia. }
    rewrite Hl3 in Hl3'. injection Hl3' as <-.
    rewrite length_map. lia.
  - apply Forall_map, Forall_forall. intros l _. apply clamp_lane_range.
Qed.

Lemma map_zip3 {A B C D : Type} (f : A -> B -> C -> D) (a : list A) (b : list B)
    (c : list C) (g : D -> A) (h : D -> B) :
  (forall x y z, g (f x y z) = x) -> (forall x y z, h (f x y z) = y) ->
  length a = length b -> length a = length c ->
  map g (map (fun x : A * B * C => f x.1.1 x.1.2 x.2) (zip (zip a b) c)) = a /\
  map h (map (fun x : A * B * C => f x.1.1 x.1.2 x.2) (zip (zip a b) c)) = b.
Proof.
  intros Hg Hh. revert b c.
  induction a as [|x a IH]; intros [|y b] [|z c] Hb Hc; try done.
  cbn in Hb, Hc. destruct (IH b c) as [IH1 IH2]; [lia|lia|].
  cbn. rewrite Hg, Hh. split; f_equal; done.
Qed.

Lemma map_zip2 {A B D : Type} (f : A -> B -> D) (a : list A) (b : list B)
    (g : D -> A) (h : D -> B) :
  (forall x y, g (f x y) = x) -> (forall x y, h (f x y) = y) ->
  length a = length b ->
  map g (map (fun x : A * B => f x.1 x.2) (zip a b)) = a /\
  map h (map (fun x : A * B => f x.1 x.2) (zip a b)) = b.
Proof.
  intros Hg Hh. revert b.
  induction a as [|x a IH]; intros [|y b] Hb; try done.
  cbn in Hb. destruct (IH b) as [IH1 IH2]; [lia|].
  cbn. rewrite Hg, Hh. split; f_equal; done.
Qed.

(** X9: the lanes [map_pitches_to_lanes] returns always fit
    [create_mapped_notes]: whenever the mapping returns, pairing its lanes
    with the same notes never raises the length ValueError, with or without
    the quality checks, and gives back the notes and the lanes in order,
    every lane in [0,4]. *)
Theorem mapped_lanes_pair_with_notes (notes : list NoteEvent) (ticks_per_beat : Z)
    (phrase_silence_beats : spec_float) (max_lane_jump smoothing_passes : Z)
    (include_qa : bool) (lanes : list Z) :
  map_pitches_to_lanes notes ticks_per_beat phrase_silence_beats
    max_lane_jump smoothing_passes = Ok lanes ->
  exists mapped,
    create_mapped_notes notes lanes include_qa = Ok mapped /\
    map note mapped = notes /\ map lane mapped = lanes /\
    Forall (fun m => 0 <= lane m <= 4) mapped.
Proof.
  intros H. apply map_pitches_to_lanes_Ok in H as [Hlen Hrange].
  unfold create_mapped_notes. rewrite decide_False by lia.
  assert (Hmaps : forall mapped, map lane mapped = lanes ->
                                 Forall (fun m => 0 <= lane m <= 4) mapped).
  { intros mapped <-. by apply Forall_map in Hrange. }
  destruct include_qa.
  - destruct (detect_qa_issues_spec notes lanes) as (issues & -> & Hli & _).
    simpl_bind. eexists. split; [done|].
    destruct (map_zip3 mkMappedNote notes lanes issues note lane) as [H1 H2];
      try done; try lia.
    split; [exact H1|]. split; [exact H2|]. by apply Hmaps.
  - eexists. split; [done|].
    destruct (map_zip2 (fun n l => mkMappedNote n l []) notes lanes note lane) as [H1 H2];
      try done; try lia.
    split; [exact H1|]. split; [exact H2|]. by apply Hmaps.
Qed.

Lemma mapped_lanes_pair_with_notes_witness :
  exists mapped,
    create_mapped_notes
      [mkNoteEvent 0 480 60 100; mkNoteEvent 480 960 64 100; mkNoteEvent 960 1440 62 100]
      [0; 2; 1] true = Ok mapped /\
    map note mapped
      = [mkNoteEvent 0 480 60 100; mkNoteEvent 480 960 64 100; mkNoteEvent 960 1440 62 100] /\
    map lane mapped = [0; 2; 1] /\
    Forall (fun m => 0 <= lane m <= 4) mapped.
Proof.
  apply (mapped_lanes_pair_with_notes
           [mkNoteEvent 0 480 60 100; mkNoteEvent 480 960 64 100; mkNoteEvent 960 1440 62 100]
           480 (PyFloat.dec 10 1) 2 1 true [0; 2; 1]).
  vm_compute. reflexivity.
Defined.

End PipelineFacts.

Section FlatMelody.
Import MapToFrets.

Variable notes : list NoteEvent.
Variable p : Z.
Hypothesis flat : Forall (fun n => pitch n = p) notes.

Lemma pitches_at_flat (ph : list nat) (acc : list Z) :
  Forall (fun i => (i < length notes)%nat) ph ->
  for_each ph (fun i acc => n ← getitem notes i; Ok (acc ++ [pitch n])) acc
    = Ok (acc ++ replicate (length ph) p).
Proof.
  revert acc. induction ph as [|i ph IH]; intros acc Hph.
  { cbn. by rewrite app_nil_r. }
  apply Forall_cons in Hph as [Hi Hph]. cbn [for_each].
  destruct (getitem_lt notes i Hi) as (n & -> & Hn). simpl_bind.
  rewrite IH by done. rewrite <- app_assoc. cbn [length replicate app].
  rewrite Forall_forall in flat. rewrite (flat n); [done|].
  by eapply list_elem_of_lookup_2.
Qed.

Lemma foldl_min_flat (k : nat) : foldl Z.min p (replicate k p) = p.
Proof. induction k as [|k IH]; cbn; [done|]. by rewrite Z.min_id. Qed.

Lemma foldl_max_flat (k : nat) : foldl Z.max p (replicate k p) = p.
Proof. induction k as [|k IH]; cbn; [done|]. by rewrite Z.max_id. Qed.

Lemma scale_phrase_flat (ph : list nat) (lanes : list Z) :
  ph <> [] -> Forall (fun i => (i < length notes)%nat) ph ->
  length lanes = length notes ->
  exists lanes',
    scale_phrase notes ph lanes = Ok lanes' /\
    length lanes' = length notes /\
    forall i, i ∈ ph \/ lanes !! i = Some 2 -> lanes' !! i = Some 2.
Proof.
  intros Hne Hph Hlen. unfold scale_phrase, pitches_at.
  rewrite (pitches_at_flat ph [] Hph). simpl_bind. cbn [app].
  destruct ph as [|i0 ph']; [done|]. cbn [length replicate py_min py_max].
  rewrite foldl_min_flat, foldl_max_flat. simpl_bind.
  destruct (for_each_inv_acc
              (fun (pre : list nat) (l : list Z) =>
                 length l = length notes /\
                 forall i, i ∈ pre \/ lanes !! i = Some 2 -> l !! i = Some 2)
              (i0 :: ph')
              (fun idx lanes0 =>
                 n ← getitem notes idx;
                 l ← scale_pitch_to_lane (pitch n) p p;
                 setitem lanes0 idx l)
              lanes [])
    as (lanes' & Hrun & Hlen' & Hset).
  { split; [done|]. intros i [Hi|Hi]; [by apply elem_of_nil in Hi|done]. }
  { intros pre idx l Hidx [Hl Hpre].
    rewrite Forall_forall in Hph. specialize (Hph idx Hidx).
    destruct (getitem_lt notes idx Hph) as (n & -> & Hn). simpl_bind.
    unfold scale_pitch_to_lane. rewrite decide_True by done. simpl_bind.
    rewrite setitem_lt by lia. eexists. split; [done|]. split.
    - by rewrite length_insert.
    - intros i Hi. destruct (decide (i = idx)) as [->|Hne'].
      + apply list_lookup_insert_eq. lia.
      + rewrite list_lookup_insert_ne by done. apply Hpre.
        destruct Hi as [Hi|Hi]; [|by right]. left.
        apply elem_of_app in Hi as [Hi|Hi]; [done|].
        by apply list_elem_of_singleton in Hi. }
  exists lanes'. done.
Qed.

Lemma jumps_ok_flat (max_jump : Z) (k : nat) :
  0 <= max_jump -> jumps_ok max_jump 2 (replicate k 2).
Proof. intros H. induction k as [|k IH]; cbn; [done|]. split; [lia|done]. Qed.

Lemma direction_tail_flat (q : Z) (rest ptail : list Z) :
  Forall (fun x => x = p) ptail -> direction_tail p q rest ptail = rest.
Proof.
  revert q ptail. induction rest as [|x r IH]; intros q [|u ps] Hps; try done.
  apply Forall_cons in Hps as [-> Hps]. cbn [direction_tail].
  unfold nudge. rewrite !decide_False by lia. f_equal. by apply IH.
Qed.

(** X10: a melody that stays on one pitch is charted on the middle lane
    throughout: whatever the timing of the notes and the number of smoothing
    passes, with a non-negative [max_lane_jump] every note gets lane 2. *)
Theorem flat_melody_on_middle_lane (ticks_per_beat : Z) (phrase_silence_beats : spec_float)
    (max_lane_jump smoothing_passes silence_ticks : Z) :
  0 <= max_lane_jump ->
  silence_threshold phrase_silence_beats ticks_per_beat = Ok silence_ticks ->
  map_pitches_to_lanes notes ticks_per_beat phrase_silence_beats
    max_lane_jump smoothing_passes = Ok (replicate (length notes) 2).
Proof.
  intros Hmj Hst. unfold map_pitches_to_lanes.
  destruct (decide (notes = [])) as [Hnil|Hnotes]; [by rewrite Hnil|].
  assert (Hmatch : forall (A : Type) (a b : A),
            match notes with [] => a | _ :: _ => b end = b).
  { intros A a b. by destruct notes. }
  rewrite Hmatch.
  destruct (segment_into_phrases_ok notes ticks_per_beat phrase_silence_beats
              silence_ticks Hst) as (phrases & Hseg & _).
  rewrite Hseg. apply segment_into_phrases_cover in Hseg as [Hcat Hne]. simpl_bind.
  destruct (for_each_inv_acc
              (fun (pre : list (list nat)) (l : list Z) =>
                 length l = length notes /\
                 forall i, i ∈ concat pre -> l !! i = Some 2)
              phrases (scale_phrase notes) (replicate (length notes) 0) [])
    as (l1 & -> & Hlen1 & Hl1).
  { split; [apply length_replicate|]. intros i Hi. by apply elem_of_nil in Hi. }
  { intros pre ph l Hph [Hl Hpre].
    destruct (scale_phrase_flat ph l) as (l' & Hrun & Hlen' & Hset); [| |done|].
    - rewrite Forall_forall in Hne. by apply Hne.
    - apply Forall_forall. intros i Hi.
      assert (Hin : i ∈ concat phrases).
      { apply elem_of_concat. eauto. }
      rewrite Hcat in Hin. apply elem_of_seq in Hin. lia.
    - exists l'. split; [done|]. split; [done|].
      intros i Hi. apply Hset. rewrite concat_app in Hi. cbn [concat] in Hi.
      rewrite app_nil_r in Hi. apply elem_of_app in Hi as [Hi|Hi]; [right|by left].
      by apply Hpre. }
  cbn [app] in Hl1.
  assert (Hl1eq : l1 = replicate (length notes) 2).
  { apply list_eq. intros i. destruct (decide (i < length notes)%nat) as [Hi|Hi].
    - rewrite lookup_replicate_2 by done. apply Hl1. rewrite Hcat.
      apply elem_of_seq. lia.
    - rewrite !lookup_ge_None_2; [done| |]; [rewrite length_replicate|]; lia. }
  subst l1. simpl_bind.
  assert (Hsmooth : smooth_lanes (replicate (length notes) 2) max_lane_jump smoothing_passes
                    = Ok (replicate (length notes) 2)).
  { unfold smooth_lanes. case_decide as Hle; [done|].
    rewrite length_replicate in Hle.
    destruct (length notes) as [|k]; [lia|]. cbn [replicate].
    apply smooth_passes_fixed. by apply jumps_ok_flat. }
  rewrite Hsmooth. simpl_bind.
  assert (Hdir : preserve_direction (replicate (length notes) 2) (map pitch notes)
                 = Ok (replicate (length notes) 2)).
  { unfold preserve_direction. case_decide as Hle; [done|].
    rewrite length_replicate in Hle |- *.
    assert (Hp : map pitch notes = replicate (length notes) p).
    { clear -flat. induction flat as [|n l Hn Hl IH]; [done|]. cbn. by rewrite Hn, IH. }
    rewrite Hp. destruct (length notes) as [|k]; [lia|]. cbn [replicate].
    replace (S k - 1)%nat with (length (replicate k 2)) by (rewrite length_replicate; lia).
    pose proof (direction_pass_spec [] p (replicate k p) [] 2 (replicate k 2) [] eq_refl)
      as Hpass.
    rewrite !app_nil_r in Hpass. cbn [app length] in Hpass. rewrite Hpass.
    - rewrite direction_tail_flat; [done|]. apply Forall_forall.
      intros x Hx. by apply elem_of_replicate in Hx as [-> _].
    - rewrite !length_replicate. lia. }
  rewrite Hdir. simpl_bind. f_equal.
  clear. induction (length notes) as [|k IH]; [done|]. cbn. by rewrite IH.
Qed.

End FlatMelody.

Section FlatMelodyWitness.
Import MapToFrets.

Lemma flat_melody_on_middle_lane_witness :
  map_pitches_to_lanes
    [mkNoteEvent 0 100 60 100; mkNoteEvent 4000 4100 60 100; mkNoteEvent 4100 4200 60 100]
    480 (PyFloat.dec 10 1) 2 1
  = Ok (replicate
          (length [mkNoteEvent 0 100 60 100; mkNoteEvent 4000 4100 60 100;
                   mkNoteEvent 4100 4200 60 100]) 2).
Proof.
  apply (flat_melody_on_middle_lane
           [mkNoteEvent 0 100 60 100; mkNoteEvent 4000 4100 60 100;
            mkNoteEvent 4100 4200 60 100] 60
           ltac:(repeat constructor) 480 (PyFloat.dec 10 1) 2 1 480);
    [lia|vm_compute; reflexivity].
Defined.

End FlatMelodyWitness.

Section ScaleFacts.
Import MapToFrets.

(** A positive int divided by itself is the float 1.0. *)
Lemma int_true_div_self (d : positive) :
  PyFloat.int_true_div (Z.pos d) (Z.pos d) = Ok (S754_finite false 4503599627370496 (-52)).
Proof.
  unfold PyFloat.int_true_div. rewrite decide_False by lia.
  cbn [PyFloat.exact SFdiv]. rewrite SFdiv_core_int.
  rewrite Z.sub_diag.
  change (Z.min (SpecFloat.fexp PyFloat.prec PyFloat.emax 0) 0) with (-53).
  change (- -53) with 53.
  rewrite (Z.mul_comm (Z.pos d)), Z_div_mult_full, Z_mod_mult by lia.
  assert (Hloc : new_location (Z.pos d) 0 = loc_Exact).
  { unfold new_location, new_location_even, new_location_odd.
    by destruct (Z.even (Z.pos d)). }
  rewrite Hloc. vm_compute. reflexivity.
Qed.

(** X11: within a phrase, the lowest pitch is put on lane 0 and the
    highest on lane 4 whenever the two differ, and every pitch is put on lane
    2 when the phrase has a single pitch. *)
Theorem scale_pitch_to_lane_endpoints (min_pitch max_pitch : Z) :
  (min_pitch < max_pitch ->
   scale_pitch_to_lane min_pitch min_pitch max_pitch = Ok 0 /\
   scale_pitch_to_lane max_pitch min_pitch max_pitch = Ok 4) /\
  (forall pitch, scale_pitch_to_lane pitch min_pitch min_pitch = Ok 2).
Proof.
  split.
  - intros Hlt. unfold scale_pitch_to_lane. rewrite !decide_False by lia.
    rewrite Z.sub_diag.
    destruct (max_pitch - min_pitch) as [|d|d] eqn:Hd; try lia.
    split.
    + reflexivity.
    + rewrite int_true_div_self. reflexivity.
  - intros pitch. unfold scale_pitch_to_lane. by rewrite decide_True.
Qed.

End ScaleFacts.

(** * More on the parser *)

Section ParseFileFacts.
Import ChartParser PyStr.
Variable float_of_str : str -> result spec_float.

(** X12: a text none of whose lines is a [[...]] header has no sections:
    [parse_file] reads nothing from it and returns the default chart, without
    raising, whatever the lines hold. *)
Theorem parse_file_without_header (file_text : str) :
  Forall (fun l => is_header (strip l) = false)
    (split_on nl (universal_newlines file_text)) ->
  _split_sections (universal_newlines file_text) = [] /\
  parse_file float_of_str file_text = Ok new_chart.
Proof.
  intros Hlines.
  assert (Hs : _split_sections (universal_newlines file_text) = []).
  { rewrite split_sections_unfold, split_loop_body by done. done. }
  split; [done|]. unfold parse_file. by rewrite Hs.
Qed.

End ParseFileFacts.

Section ParseFileWitness.
Import ChartParser PyStr.

Lemma parse_file_without_header_witness :
  _split_sections (universal_newlines (txt "Name = x" ++ [cr; nl] ++ txt "0 = N 0")) = [] /\
  parse_file (fun _ => Raise ValueError) (txt "Name = x" ++ [cr; nl] ++ txt "0 = N 0")
    = Ok new_chart.
Proof.
  apply (parse_file_without_header (fun _ => Raise ValueError)
           (txt "Name = x" ++ [cr; nl] ++ txt "0 = N 0")).
  by_compute.
Defined.

End ParseFileWitness.

Section ParsedTrackFacts.
Import ChartParser PyStr.

Lemma foldl_add_note_sorted (l : list Note) (t : Track) :
  StronglySorted note_order (notes t) ->
  StronglySorted note_order (notes (foldl add_note t l)).
Proof.
  revert t. induction l as [|n l IH]; intros t Ht; [done|].
  cbn [foldl]. apply IH. apply py_sorted_notes_sorted.
Qed.

Lemma buffer_notes_cons (t : Z) (inner : list (Z * Note)) (buf : buffer) :
  buffer_notes ((t, inner) :: buf) = map snd inner ++ buffer_notes buf.
Proof. reflexivity. Qed.

Lemma buffer_notes_ticks (buf : buffer) (n : Note) :
  buf_wf buf -> n ∈ buffer_notes buf -> tick n ∈ buf.*1.
Proof.
  intros [_ Hwf]. induction buf as [|[t inner] buf IH]; [by intros ?%elem_of_nil|].
  apply Forall_cons in Hwf as [[_ Hin] Hwf]. rewrite buffer_notes_cons.
  intros [Hn|Hn]%elem_of_app.
  - change (map snd inner) with (snd <$> inner) in Hn.
    apply list_elem_of_fmap in Hn as ([f m] & -> & Hfm).
    rewrite Forall_forall in Hin. destruct (Hin _ Hfm) as [Ht _]. cbn in Ht |- *.
    rewrite Ht. left.
  - right. by apply IH.
Qed.

(** The notes of a well-formed buffer have pairwise different (tick, fret)
    keys. *)
Lemma buffer_notes_keys_NoDup (buf : buffer) :
  buf_wf buf -> NoDup (map note_key (buffer_notes buf)).
Proof.
  intros Hwf. induction buf as [|[t inner] buf IH]; [constructor|].
  pose proof Hwf as [Hkeys Hall].
  apply NoDup_cons in Hkeys as [Ht Hkeys].
  apply Forall_cons in Hall as [[Hnd Hin] Hall].
  assert (Hwf' : buf_wf buf) by done.
  rewrite buffer_notes_cons, map_app. apply NoDup_app. split; [|split].
  - assert (Hmap : map note_key (map snd inner) = map (fun fm : Z * Note => (t, fm.1)) inner).
    { rewrite map_map. apply map_ext_in. intros [f m] Hfm%list_elem_of_In.
      rewrite Forall_forall in Hin. destruct (Hin _ Hfm) as [H1 H2].
      unfold note_key. cbn in *. by rewrite H1, H2. }
    rewrite Hmap. clear -Hnd.
    change (map (fun fm : Z * Note => (t, fm.1)) inner)
      with ((fun fm : Z * Note => (t, fm.1)) <$> inner).
    replace ((fun fm : Z * Note => (t, fm.1)) <$> inner) with ((fun f => (t, f)) <$> inner.*1)
      by (by rewrite <- list_fmap_compose).
    apply NoDup_fmap_2; [|done]. by intros ?? [= ->].
  - intros k Hk1 Hk2.
    change (map note_key ?l) with (note_key <$> l) in Hk1, Hk2.
    apply list_elem_of_fmap in Hk1 as (n1 & -> & Hn1).
    apply list_elem_of_fmap in Hk2 as (n2 & Hk & Hn2).
    change (map snd inner) with (snd <$> inner) in Hn1.
    apply list_elem_of_fmap in Hn1 as ([f m] & -> & Hfm).
    rewrite Forall_forall in Hin. destruct (Hin _ Hfm) as [H1 _]. cbn in H1, Hk.
    apply (buffer_notes_ticks buf n2 Hwf') in Hn2.
    injection Hk as Hk _. rewrite <- Hk, H1 in Hn2. done.
  - by apply IH.
Qed.

(** What the parser stores for a note line: never a flag fret, open
    exactly on fret 7, the default velocity. *)
Definition note_canonical (n : Note) : Prop :=
  fret n <> FORCED /\ fret n <> TAP /\
  is_open n = bool_decide (fret n = OPEN) /\ note_velocity n = 100.

Definition buffer_canonical (buf : buffer) : Prop :=
  forall t f n, buf_lookup buf t f = Some n -> note_canonical n.

Lemma note_effect_canonical (buf : buffer) (t f s : Z) :
  buffer_canonical buf -> buffer_canonical (note_effect buf t f s).
Proof.
  intros Hbuf t' f' n. unfold note_effect.
  destruct (decide (f = FORCED)) as [Hf|Hf].
  { rewrite buf_lookup_mark. case_decide; [|apply Hbuf].
    destruct (buf_lookup buf t' f') as [m|] eqn:Hm; [|done].
    intros [= <-]. by apply Hbuf in Hm. }
  destruct (decide (f = TAP)) as [Hf'|Hf'].
  { rewrite buf_lookup_mark. case_decide; [|apply Hbuf].
    destruct (buf_lookup buf t' f') as [m|] eqn:Hm; [|done].
    intros [= <-]. by apply Hbuf in Hm. }
  rewrite buf_lookup_put. case_decide; [|apply Hbuf].
  intros [= <-]. done.
Qed.

(** X13: every track the parser builds from a section's text has its notes
    sorted by (tick, fret) with no two notes on the same tick and fret;
    none of its notes has fret 5 or 6 (those lines only set flags), a note
    is open exactly when its fret is 7, and every velocity is 100. *)
Theorem parsed_track_notes_canonical (content : str) (track : Track) :
  parse_track_lines content = Ok track ->
  StronglySorted note_order (notes track) /\
  NoDup (map note_key (notes track)) /\
  Forall (fun n => fret n <> FORCED /\ fret n <> TAP /\
                   is_open n = bool_decide (fret n = OPEN) /\ note_velocity n = 100)
    (notes track).
Proof.
  unfold parse_track_lines. rewrite for_each_assignment_unfold.
  intros H. apply bind_Ok in H as ([tr buf] & Hrun & H). injection H as <-.
  assert (Hinv : (notes tr = [] /\ buf_wf buf) /\ buffer_canonical buf).
  { apply (for_each_Ok_inv
             (fun st : Track * buffer => track_state_ok st /\ buffer_canonical st.2)
             _ _ _ _ Hrun).
    - split; [split; [done|apply buf_wf_nil]|]. intros t f n Hn. done.
    - intros line [tr1 b1] [tr2 b2] _ [Hok Hcan] Hstep. split.
      + by eapply track_state_ok_step.
      + apply track_step_cases in Hstep as [_ [->|(t & f & s & _ & ->)]]; [done|].
        by apply note_effect_canonical. }
  destruct Hinv as [[Hnil Hwf] Hcan].
  pose proof (foldl_add_note_perm tr (buffer_notes buf)) as Hperm.
  rewrite Hnil in Hperm. cbn [app] in Hperm.
  split; [|split].
  - apply foldl_add_note_sorted. rewrite Hnil. constructor.
  - change (map note_key ?l) with (note_key <$> l). rewrite Hperm.
    by apply buffer_notes_keys_NoDup.
  - apply Forall_forall. intros n Hn. rewrite Hperm in Hn.
    apply elem_of_buffer_notes in Hn; [|done]. by apply Hcan in Hn.
Qed.

Lemma parsed_track_notes_canonical_witness :
  StronglySorted note_order
    (notes (mkTrack [mkNote 0 0 96 false false false 100; mkNote 0 7 0 true false true 100]
              [] [])) /\
  NoDup (map note_key
           (notes (mkTrack [mkNote 0 0 96 false false false 100;
                            mkNote 0 7 0 true false true 100] [] []))) /\
  Forall (fun n => fret n <> FORCED /\ fret n <> TAP /\
                   is_open n = bool_decide (fret n = OPEN) /\ note_velocity n = 100)
    (notes (mkTrack [mkNote 0 0 96 false false false 100; mkNote 0 7 0 true false true 100]
              [] [])).
Proof.
  apply (parsed_track_notes_canonical
           (join [nl] [txt "  0 = N 7 0"; txt "  0 = N 0 96"; txt "  0 = N 5 0";
                       txt "  0 = N 0 96"])).
  vm_compute. reflexivity.
Defined.

End ParsedTrackFacts.

Section SkippedSections.
Import ChartParser PyStr.

(** X14: a co-op section ([EasyDoubleGuitar], ..., [ExpertDoubleGuitar])
    is read and then dropped: its lines are parsed, so a malformed line still
    raises, but the chart comes back unchanged.  A section whose name starts
    with none of the four difficulty names is skipped without being read. *)
Theorem skipped_track_sections (c : Chart) (content : str) :
  Forall (fun entry : str * Difficulty =>
            _parse_track_section c (entry.1 ++ txt "DoubleGuitar") content
              = match parse_track_lines content with
                | Ok _ => Ok c
                | Raise e => Raise e
                end)
    difficulty_map /\
  forall section_name,
    Forall (fun entry : str * Difficulty => startswith section_name entry.1 = false)
      difficulty_map ->
    _parse_track_section c section_name content = Ok c.
Proof.
  assert (Hcoop : forall d t, set_track c COOP d t = c) by (by destruct c).
  split.
  - unfold difficulty_map.
    repeat (apply Forall_cons; split); [| | | |constructor];
      (unfold _parse_track_section;
       match goal with
       | |- context [find_track ?n ?m] =>
           let r := eval vm_compute in (find_track n m) in
           change (find_track n m) with r
       end;
       cbv beta iota; destruct (parse_track_lines content); simpl_bind;
       [by rewrite Hcoop|done]).
  - intros section_name Hno. unfold _parse_track_section.
    assert (Hfind : find_track section_name difficulty_map = (None, None)).
    { induction Hno as [|[dn d] table Hd _ IH]; [done|].
      cbn [find_track]. cbn [fst] in Hd. by rewrite Hd. }
    by rewrite Hfind.
Qed.

Lemma split_on_chars (sep : ascii) (s l : str) (c : ascii) :
  l ∈ split_on sep s -> c ∈ l -> c ∈ s.
Proof.
  revert l. induction s as [|a s IH]; intros l Hl Hc.
  { cbn in Hl. apply list_elem_of_singleton in Hl as ->. done. }
  cbn [split_on] in Hl. destruct (decide (a = sep)) as [->|Hne].
  - apply elem_of_cons in Hl as [->|Hl]; [by apply elem_of_nil in Hc|].
    right. by eapply IH.
  - destruct (split_on sep s) as [|w ws] eqn:Hs.
    + apply list_elem_of_singleton in Hl as ->.
      apply list_elem_of_singleton in Hc as ->. left.
    + apply elem_of_cons in Hl as [->|Hl].
      * apply elem_of_cons in Hc as [->|Hc]; [left|]. right. apply (IH w); [left|done].
      * right. apply (IH l); [by right|done].
Qed.

Lemma lstrip_by_chars (p : ascii -> bool) (s : str) (c : ascii) :
  c ∈ lstrip_by p s -> c ∈ s.
Proof.
  induction s as [|a s IH]; [done|]. cbn [lstrip_by].
  destruct (p a); [|done]. intros H. right. by apply IH.
Qed.

Lemma strip_by_chars (p : ascii -> bool) (s : str) (c : ascii) :
  c ∈ strip_by p s -> c ∈ s.
Proof.
  unfold strip_by, rstrip_by. intros H.
  apply list_elem_of_In, (proj2 (in_rev _ _)), list_elem_of_In in H.
  apply lstrip_by_chars, list_elem_of_In, (proj2 (in_rev _ _)), list_elem_of_In in H.
  by apply lstrip_by_chars in H.
Qed.

Lemma for_each_assignment_no_eq {S : Type} (content : str)
    (body : str -> str -> S -> result S) (s : S) :
  "="%char ∉ content -> for_each_assignment content body s = Ok s.
Proof.
  intros Hno. unfold for_each_assignment.
  assert (Hlines : forall l, l ∈ split_on nl content -> contains "="%char (strip l) = false).
  { intros l Hl. apply bool_decide_eq_false. intros Hc.
    apply strip_by_chars in Hc. apply Hno. by eapply split_on_chars. }
  induction (split_on nl content) as [|l ls IH]; [done|].
  cbn [for_each]. rewrite Hlines by left. cbn [negb]. simpl_bind.
  apply IH. intros l' Hl'. apply Hlines. by right.
Qed.

End SkippedSections.

Section EmptySections.
Import ChartParser PyStr.
Variable float_of_str : str -> result spec_float.

(** X15: a section body without any [=] holds no assignment: the [Song],
    [SyncTrack] and [Events] parsers return the chart unchanged, and a track
    section yields the empty track, which [set_track] then stores over any
    track the chart had in that slot.  None of this raises, whatever else the
    lines hold. *)
Theorem section_without_assignment (c : Chart) (content : str) :
  "="%char ∉ content ->
  _parse_song_section float_of_str c content = Ok c /\
  _parse_sync_track c content = Ok c /\
  _parse_events c content = Ok c /\
  parse_track_lines content = Ok empty_track /\
  _parse_track_section c (txt "ExpertSingle") content
    = Ok (set_track c GUITAR EXPERT empty_track).
Proof.
  intros Hno.
  assert (Htrack : parse_track_lines content = Ok empty_track).
  { unfold parse_track_lines. by rewrite for_each_assignment_no_eq. }
  repeat split; try (by apply for_each_assignment_no_eq); [done|].
  unfold _parse_track_section.
  change (find_track (txt "ExpertSingle") difficulty_map) with (Some EXPERT, Some GUITAR).
  by rewrite Htrack.
Qed.

End EmptySections.

Section EmptySectionsWitness.
Import ChartParser PyStr.

Lemma section_without_assignment_witness :
  _parse_song_section (fun _ => Raise ValueError) new_chart (txt "0 N 1 2") = Ok new_chart /\
  _parse_sync_track new_chart (txt "0 N 1 2") = Ok new_chart /\
  _parse_events new_chart (txt "0 N 1 2") = Ok new_chart /\
  parse_track_lines (txt "0 N 1 2") = Ok empty_track /\
  _parse_track_section new_chart (txt "ExpertSingle") (txt "0 N 1 2")
    = Ok (set_track new_chart GUITAR EXPERT empty_track).
Proof.
  apply (section_without_assignment (fun _ => Raise ValueError) new_chart (txt "0 N 1 2")).
  by_compute.
Defined.

End EmptySectionsWitness.

(** * Reading back what the writer wrote *)

Section WrittenTextFacts.
Import PyStr.

Lemma split_on_nosep (sep : ascii) (a : str) :
  sep ∉ a -> split_on sep a = [a].
Proof.
  induction a as [|c a IH]; intros Hsep; [done|].
  apply not_elem_of_cons in Hsep as [Hc Ha]. cbn [split_on].
  rewrite decide_False by done. by rewrite IH.
Qed.

Lemma split_on_app_sep (sep : ascii) (a b : str) :
  sep ∉ a -> split_on sep (a ++ sep :: b) = a :: split_on sep b.
Proof.
  induction a as [|c a IH]; intros Hsep.
  { cbn [app split_on]. by rewrite decide_True. }
  apply not_elem_of_cons in Hsep as [Hc Ha]. cbn [app split_on].
  rewrite decide_False by done. by rewrite IH.
Qed.

Lemma join_cons (sep x y : str) (l : list str) :
  join sep (x :: y :: l) = x ++ sep ++ join sep (y :: l).
Proof. reflexivity. Qed.

(** Splitting what [join] put together gives the lines back. *)
Lemma split_on_join (sep : ascii) (lines : list str) :
  lines <> [] -> Forall (fun l => sep ∉ l) lines ->
  split_on sep (join [sep] lines) = lines.
Proof.
  intros Hne Hall. induction Hall as [|x l Hx Hl IH]; [done|].
  destruct l as [|y l].
  { cbn [join]. by apply split_on_nosep. }
  rewrite join_cons. cbn [app]. rewrite split_on_app_sep by done.
  f_equal. by apply IH.
Qed.

Lemma elem_of_join (c : ascii) (sep : str) (lines : list str) :
  c ∈ join sep lines -> c ∈ sep \/ exists l, l ∈ lines /\ c ∈ l.
Proof.
  induction lines as [|x l IH]; [by intros ?%elem_of_nil|].
  destruct l as [|y l].
  { cbn [join]. intros Hc. right. exists x. split; [left|done]. }
  rewrite join_cons. intros [Hc|[Hc|Hc]%elem_of_app]%elem_of_app.
  - right. exists x. split; [left|done].
  - by left.
  - destruct (IH Hc) as [?|(l' & Hl' & Hc')]; [by left|].
    right. exists l'. split; [by right|done].
Qed.

Lemma universal_newlines_id (s : str) :
  cr ∉ s -> ChartParser.universal_newlines s = s.
Proof.
  induction s as [|c s IH]; intros Hcr; [done|].
  apply not_elem_of_cons in Hcr as [Hc Hs]. cbn [ChartParser.universal_newlines].
  rewrite decide_False by done. by rewrite IH.
Qed.

(** Strings that begin and end with a character that is no whitespace. *)
Definition starts_solid (s : str) : Prop := exists c s', s = c :: s' /\ isspace c = false.
Definition ends_solid (s : str) : Prop := exists s' c, s = s' ++ [c] /\ isspace c = false.

Lemma starts_solid_app (a b : str) : starts_solid a -> starts_solid (a ++ b).
Proof. intros (c & a' & -> & Hc). exists c, (a' ++ b). done. Qed.

Lemma ends_solid_app (a b : str) : ends_solid b -> ends_solid (a ++ b).
Proof. intros (b' & c & -> & Hc). exists (a ++ b'), c. by rewrite app_assoc. Qed.

Lemma starts_solid_no_space (s : str) :
  s <> [] -> Forall (fun c => isspace c = false) s -> starts_solid s.
Proof.
  intros Hne Hall. destruct s as [|c s]; [done|].
  apply Forall_cons in Hall as [Hc _]. by exists c, s.
Qed.

Lemma ends_solid_no_space (s : str) :
  s <> [] -> Forall (fun c => isspace c = false) s -> ends_solid s.
Proof.
  intros Hne Hall. destruct (exists_last Hne) as (s' & c & ->).
  apply Forall_app in Hall as [_ Hc]. rewrite Forall_singleton in Hc. by exists s', c.
Qed.

Lemma solid_tight (s : str) : starts_solid s -> ends_solid s -> tight isspace s /\ s <> [].
Proof.
  intros Hs He. split; [right; split; [exact Hs|exact He]|].
  destruct Hs as (c & s' & -> & _). done.
Qed.

Lemma strip_solid (s : str) : starts_solid s -> ends_solid s -> strip s = s.
Proof. intros Hs He. apply strip_by_tight. by apply solid_tight. Qed.

Lemma strip_indented (pre s : str) :
  Forall (fun c => isspace c = true) pre -> starts_solid s -> ends_solid s ->
  strip (pre ++ s) = s.
Proof.
  intros Hpre Hs He. destruct (solid_tight s Hs He) as [Ht Hne].
  pose proof (strip_by_around isspace pre s [] Hpre ltac:(constructor) Ht Hne) as H.
  by rewrite app_nil_r in H.
Qed.

Lemma strip_trailing (s post : str) :
  Forall (fun c => isspace c = true) post -> starts_solid s -> ends_solid s ->
  strip (s ++ post) = s.
Proof.
  intros Hpost Hs He. destruct (solid_tight s Hs He) as [Ht Hne].
  apply (strip_by_around isspace [] s post ltac:(constructor) Hpost Ht Hne).
Qed.

Lemma plain_no_space (s : str) :
  Forall (fun c => plain_char c = true) s -> Forall (fun c => isspace c = false) s.
Proof. intros H. eapply Forall_impl; [exact H|]. intros c. apply plain_char_not_space. Qed.

Lemma plain_no_eq (s : str) :
  Forall (fun c => plain_char c = true) s -> "="%char ∉ s.
Proof.
  intros Hall Hin. rewrite Forall_forall in Hall. specialize (Hall _ Hin). done.
Qed.

Lemma split_once_at (sep : ascii) (a b : str) :
  sep ∉ a -> split_once sep (a ++ sep :: b) = [a; b].
Proof.
  induction a as [|c a IH]; intros Hsep.
  { cbn [app split_once]. by rewrite decide_True. }
  apply not_elem_of_cons in Hsep as [Hc Ha]. cbn [app split_once].
  rewrite decide_False by done. by rewrite IH.
Qed.

(** A line [key = value] as the section parsers take it apart. *)
Lemma assignment_step_canonical {S : Type} (body : str -> str -> S -> result S)
    (key value : str) (s : S) :
  key <> [] -> Forall (fun c => plain_char c = true) key -> ends_solid value ->
  assignment_step body (key ++ txt " = " ++ value) s
    = body (key ++ txt " ") (txt " " ++ value) s.
Proof.
  intros Hne Hkey Hval. unfold assignment_step.
  assert (Hk : starts_solid key) by (by apply starts_solid_no_space, plain_no_space).
  rewrite strip_solid; [|by apply starts_solid_app|by do 2 apply ends_solid_app].
  assert (Hc : contains "="%char (key ++ txt " = " ++ value) = true).
  { apply bool_decide_eq_true. apply elem_of_app. right. right. left. }
  rewrite Hc. cbn [negb].
  change (key ++ txt " = " ++ value) with (key ++ (txt " " ++ "="%char :: txt " " ++ value)).
  rewrite app_assoc, split_once_at.
  - reflexivity.
  - intros [H|H]%elem_of_app; [by apply plain_no_eq in H|].
    apply list_elem_of_singleton in H. done.
Qed.

Lemma strip_key (key : str) :
  key <> [] -> Forall (fun c => plain_char c = true) key -> strip (key ++ txt " ") = key.
Proof.
  intros Hne Hkey. apply strip_trailing.
  - by repeat constructor.
  - by apply starts_solid_no_space, plain_no_space.
  - by apply ends_solid_no_space, plain_no_space.
Qed.

Lemma strip_value (value : str) :
  starts_solid value -> ends_solid value -> strip (txt " " ++ value) = value.
Proof. intros Hs He. apply strip_indented; [by repeat constructor|done|done]. Qed.

(** Tokens. *)
Lemma split_ws_go_solid (cur tok rest : str) :
  Forall (fun c => isspace c = false) tok ->
  split_ws_go cur (tok ++ rest) = split_ws_go (cur ++ tok) rest.
Proof.
  intros Htok. revert cur. induction Htok as [|c tok Hc _ IH]; intros cur.
  { by rewrite app_nil_r. }
  cbn [app split_ws_go]. rewrite Hc, IH. by rewrite <- app_assoc.
Qed.

Lemma split_ws_token (tok rest : str) :
  tok <> [] -> Forall (fun c => isspace c = false) tok ->
  split_ws (tok ++ " "%char :: rest) = tok :: split_ws rest.
Proof.
  intros Hne Htok. unfold split_ws. rewrite split_ws_go_solid by done.
  cbn [app split_ws_go]. change (isspace " ") with true. cbv iota.
  by destruct tok.
Qed.

Lemma split_ws_last (tok : str) :
  tok <> [] -> Forall (fun c => isspace c = false) tok -> split_ws tok = [tok].
Proof.
  intros Hne Htok. unfold split_ws.
  rewrite <- (app_nil_r tok) at 1. rewrite split_ws_go_solid by done.
  cbn [app split_ws_go]. by destruct tok.
Qed.

Lemma str_of_int_plain (z : Z) : Forall (fun c => plain_char c = true) (str_of_int z).
Proof. eapply Forall_impl; [apply str_of_int_chars|]. apply int_char_plain. Qed.

Lemma str_of_int_starts (z : Z) : starts_solid (str_of_int z).
Proof. apply starts_solid_no_space; [apply str_of_int_nonempty|apply str_of_int_no_space]. Qed.

Lemma str_of_int_ends (z : Z) : ends_solid (str_of_int z).
Proof. apply ends_solid_no_space; [apply str_of_int_nonempty|apply str_of_int_no_space]. Qed.

End WrittenTextFacts.

Section WrittenLineFacts.
Import ChartParser PyStr.

(** The line [key = value], without its indentation. *)
Definition written_line (key value : str) : str := key ++ txt " = " ++ value.

Lemma strip_written_line (key value : str) :
  key <> [] -> Forall (fun c => plain_char c = true) key -> ends_solid value ->
  strip (txt "  " ++ written_line key value) = written_line key value.
Proof.
  intros Hne Hkey Hval. apply strip_indented.
  - by repeat constructor.
  - by apply starts_solid_app, starts_solid_no_space, plain_no_space.
  - by do 2 apply ends_solid_app.
Qed.

Lemma written_line_chars (key value : str) (c : ascii) :
  Forall (fun c => plain_char c = true) key -> isspace c = true ->
  c <> " "%char -> c ∉ value -> c ∉ written_line key value.
Proof.
  intros Hkey Hc Hsp Hval. unfold written_line.
  intros [H|[H|H]%elem_of_app]%elem_of_app; [| |done].
  - apply plain_no_space in Hkey. rewrite Forall_forall in Hkey.
    specialize (Hkey _ H). congruence.
  - apply elem_of_cons in H as [->|H]; [done|].
    apply elem_of_cons in H as [->|H]; [done|].
    apply list_elem_of_singleton in H as ->. done.
Qed.

Lemma written_line_not_header (key value : str) :
  key <> [] -> Forall (fun c => plain_char c = true) key ->
  is_header (written_line key value) = false /\ kept_line (written_line key value) = true.
Proof.
  intros Hne Hkey. destruct key as [|c key]; [done|].
  apply Forall_cons in Hkey as [Hc _]. unfold plain_char in Hc.
  repeat (apply andb_prop in Hc as [Hc ?]).
  repeat match goal with
         | H : negb (bool_decide _) = true |- _ =>
             apply negb_true_iff, bool_decide_eq_false in H
         end.
  split.
  - unfold is_header, written_line. cbn [app startswith txt list_ascii_of_string].
    rewrite bool_decide_false by congruence. done.
  - unfold kept_line, written_line. apply bool_decide_eq_true.
    cbn [app]. split; [done|]. split; intros [= -> _]; done.
Qed.

Lemma line_fields_canonical (t : Z) (value : str) :
  starts_solid value -> ends_solid value ->
  line_fields (written_line (str_of_int t) value) t (split_ws value).
Proof.
  intros Hs He. unfold line_fields.
  pose proof (str_of_int_nonempty t) as Hne.
  pose proof (str_of_int_plain t) as Hplain.
  assert (Hstrip : strip (written_line (str_of_int t) value)
                   = written_line (str_of_int t) value).
  { apply strip_solid; [apply starts_solid_app, str_of_int_starts|].
    by do 2 apply ends_solid_app. }
  rewrite Hstrip. split.
  { apply bool_decide_eq_true. apply elem_of_app. right. right. left. }
  exists (str_of_int t ++ txt " "), (txt " " ++ value).
  assert (Hsplit : split_once "="%char (written_line (str_of_int t) value)
                   = [str_of_int t ++ txt " "; txt " " ++ value]).
  { unfold written_line.
    change (str_of_int t ++ txt " = " ++ value)
      with (str_of_int t ++ (txt " " ++ "="%char :: txt " " ++ value)).
    rewrite app_assoc. apply split_once_at.
    intros [H|H]%elem_of_app; [by apply plain_no_eq in H|].
    apply list_elem_of_singleton in H. done. }
  rewrite Hsplit. split; [done|]. split; [done|].
  rewrite strip_key by done. rewrite strip_value by done.
  split; [apply py_int_str_of_int|done].
Qed.

(** *** Track lines *)

Definition note_text (f s : Z) : str :=
  txt "N " ++ str_of_int f ++ txt " " ++ str_of_int s.

Lemma note_text_solid (f s : Z) : starts_solid (note_text f s) /\ ends_solid (note_text f s).
Proof.
  split.
  - by exists "N"%char, (txt " " ++ str_of_int f ++ txt " " ++ str_of_int s).
  - unfold note_text. do 3 apply ends_solid_app. apply str_of_int_ends.
Qed.

Lemma note_text_tokens (f s : Z) :
  split_ws (note_text f s) = [txt "N"; str_of_int f; str_of_int s].
Proof.
  unfold note_text.
  change (txt "N " ++ ?x) with (txt "N" ++ " "%char :: x).
  rewrite split_ws_token by (by repeat constructor).
  change (str_of_int f ++ txt " " ++ str_of_int s)
    with (str_of_int f ++ " "%char :: str_of_int s).
  rewrite split_ws_token by (apply str_of_int_nonempty || apply str_of_int_no_space).
  rewrite split_ws_last by (apply str_of_int_nonempty || apply str_of_int_no_space).
  done.
Qed.

Lemma note_line_canonical (t f s : Z) :
  note_line t f s (written_line (str_of_int t) (note_text f s)).
Proof.
  destruct (note_text_solid f s) as [Hs He].
  exists (str_of_int f), (str_of_int s), [].
  split; [|split; apply py_int_str_of_int].
  rewrite <- note_text_tokens. by apply line_fields_canonical.
Qed.

Lemma track_step_written_note (t f s : Z) (track : Track) (buf : buffer) :
  assignment_step track_step (written_line (str_of_int t) (note_text f s)) (track, buf)
    = Ok (track, note_effect buf t f s).
Proof. apply track_step_note_line, note_line_canonical. Qed.

Lemma track_step_fields (line : str) (t : Z) (tokens : list str) (st : Track * buffer) :
  line_fields line t tokens ->
  assignment_step track_step line st
    = (let '(track, note_buffer) := st in
       event_type ← getitem tokens 0;
       if decide (event_type = txt "N") then
         a1 ← getitem tokens 1;
         fret ← py_int a1;
         a2 ← getitem tokens 2;
         sustain ← py_int a2;
         if decide (fret = FORCED) then Ok (track, buffer_mark set_forced note_buffer t)
         else if decide (fret = TAP) then Ok (track, buffer_mark set_tap note_buffer t)
         else if decide (fret = OPEN)
         then Ok (track, buffer_put note_buffer (new_note t fret sustain true))
         else Ok (track, buffer_put note_buffer (new_note t fret sustain false))
       else if decide (event_type = txt "S") then
         a1 ← getitem tokens 1;
         sp_type ← py_int a1;
         a2 ← getitem tokens 2;
         length ← py_int a2;
         if decide (sp_type = 2)
         then Ok (mkTrack (notes track) (star_power track ++ [mkStarPowerPhrase t length])
                    (track_events track), note_buffer)
         else Ok st
       else if decide (event_type = txt "E") then
         let event_text := strip_chars [dq] (join (txt " ") (drop 1 tokens)) in
         Ok (mkTrack (notes track) (star_power track)
               (track_events track ++ [mkEvent t event_text]), note_buffer)
       else Ok st).
Proof.
  intros (Hc & l & r & Hl & Hr & Ht & Htok). destruct st as [track buf].
  unfold assignment_step. rewrite Hc. cbn [negb].
  rewrite (proj2 (getitem_Ok _ _ _) Hl), (proj2 (getitem_Ok _ _ _) Hr). simpl_bind.
  unfold track_step. rewrite Ht, Htok. simpl_bind. reflexivity.
Qed.

Definition sp_text (len : Z) : str := txt "S 2 " ++ str_of_int len.

Lemma track_step_written_sp (t len : Z) (track : Track) (buf : buffer) :
  assignment_step track_step (written_line (str_of_int t) (sp_text len)) (track, buf)
    = Ok (mkTrack (notes track) (star_power track ++ [mkStarPowerPhrase t len])
            (track_events track), buf).
Proof.
  assert (Hs : starts_solid (sp_text len)) by (by exists "S"%char, (txt " 2 " ++ str_of_int len)).
  assert (He : ends_solid (sp_text len)) by (apply ends_solid_app, str_of_int_ends).
  rewrite (track_step_fields _ t _ _ (line_fields_canonical t _ Hs He)).
  assert (Htok : split_ws (sp_text len) = [txt "S"; txt "2"; str_of_int len]).
  { unfold sp_text. change (txt "S 2 " ++ ?x) with (txt "S" ++ " "%char :: txt "2" ++ " "%char :: x).
    rewrite split_ws_token by (by repeat constructor).
    rewrite split_ws_token by (by repeat constructor).
    by rewrite split_ws_last by (apply str_of_int_nonempty || apply str_of_int_no_space). }
  rewrite Htok. cbn [getitem lookup list_lookup]. simpl_bind.
  rewrite decide_False by done. rewrite decide_True by done.
  change (py_int (txt "2")) with (Ok 2). simpl_bind.
  rewrite py_int_str_of_int. simpl_bind. by rewrite decide_True.
Qed.

Definition event_text_line (text : str) : str := txt "E " ++ quoted text.

Lemma event_text_solid (text : str) :
  starts_solid (event_text_line text) /\ ends_solid (event_text_line text).
Proof.
  split.
  - by exists "E"%char, (txt " " ++ quoted text).
  - exists (txt "E " ++ [dq] ++ text), dq. split; [|done].
    unfold event_text_line, quoted. by rewrite <- !app_assoc.
Qed.

Lemma track_step_written_event (t : Z) (text : str) (track : Track) (buf : buffer) :
  exists text',
    assignment_step track_step (written_line (str_of_int t) (event_text_line text)) (track, buf)
      = Ok (mkTrack (notes track) (star_power track)
              (track_events track ++ [mkEvent t text']), buf).
Proof.
  destruct (event_text_solid text) as [Hs He].
  rewrite (track_step_fields _ t _ _ (line_fields_canonical t _ Hs He)).
  assert (Htok : split_ws (event_text_line text) = txt "E" :: split_ws (quoted text)).
  { unfold event_text_line. change (txt "E " ++ ?x) with (txt "E" ++ " "%char :: x).
    by rewrite split_ws_token by (by repeat constructor). }
  rewrite Htok. cbn [getitem lookup list_lookup]. simpl_bind.
  rewrite decide_False by done. rewrite decide_False by done. rewrite decide_True by done.
  eexists. reflexivity.
Qed.

End WrittenLineFacts.

Section WrittenNotesFacts.
Import ChartParser PyStr.

(** The lines of a note, without their indentation. *)
Definition canonical_note_lines (n : Note) : list str :=
  [written_line (str_of_int (tick n)) (note_text (fret n) (sustain n))]
  ++ (if is_forced n then [written_line (str_of_int (tick n)) (note_text FORCED 0)] else [])
  ++ (if is_tap n then [written_line (str_of_int (tick n)) (note_text TAP 0)] else []).

Lemma note_line_assoc (t f s : Z) :
  txt "  " ++ str_of_int t ++ txt " = N " ++ str_of_int f ++ txt " " ++ str_of_int s
    = txt "  " ++ written_line (str_of_int t) (note_text f s).
Proof. reflexivity. Qed.

Lemma flag_line_assoc (t f : Z) :
  txt "  " ++ str_of_int t ++ txt " = N " ++ str_of_int f ++ txt " 0"
    = txt "  " ++ written_line (str_of_int t) (note_text f 0).
Proof. reflexivity. Qed.

Lemma strip_note_line (t f s : Z) :
  strip (txt "  " ++ written_line (str_of_int t) (note_text f s))
    = written_line (str_of_int t) (note_text f s).
Proof.
  apply strip_written_line;
    [apply str_of_int_nonempty|apply str_of_int_plain|apply note_text_solid].
Qed.

Lemma strip_note_lines (n : Note) :
  map strip (note_lines n) = canonical_note_lines n.
Proof.
  unfold note_lines, canonical_note_lines.
  rewrite note_line_assoc, !flag_line_assoc.
  destruct (is_forced n), (is_tap n); cbn [app map]; by rewrite !strip_note_line.
Qed.

(** What the lines of one note do to the buffer. *)
Definition note_effects (buf : buffer) (n : Note) : buffer :=
  let b1 := note_effect buf (tick n) (fret n) (sustain n) in
  let b2 := if is_forced n then note_effect b1 (tick n) FORCED 0 else b1 in
  if is_tap n then note_effect b2 (tick n) TAP 0 else b2.

Lemma canonical_note_lines_effect (n : Note) (track : Track) (buf : buffer) :
  for_each (canonical_note_lines n) (assignment_step track_step) (track, buf)
    = Ok (track, note_effects buf n).
Proof.
  unfold canonical_note_lines, note_effects.
  destruct (is_forced n), (is_tap n); cbn [app for_each];
    rewrite ?track_step_written_note; simpl_bind;
    rewrite ?track_step_written_note; simpl_bind;
    rewrite ?track_step_written_note; simpl_bind; done.
Qed.

Lemma canonical_notes_effect (ns : list Note) (track : Track) (buf : buffer) :
  for_each (concat (map canonical_note_lines ns)) (assignment_step track_step) (track, buf)
    = Ok (track, foldl note_effects buf ns).
Proof.
  revert buf. induction ns as [|n ns IH]; intros buf; [done|].
  cbn [map concat foldl]. rewrite for_each_app, canonical_note_lines_effect.
  simpl_bind. apply IH.
Qed.

(** The flags a note comes back with: its own, and those of the notes of
    the same tick on its fret or a higher one. *)
Definition chord_flag (flag : Note -> bool) (ns : list Note) (n : Note) : bool :=
  existsb (fun m => (tick m =? tick n) && (fret n <=? fret m) && flag m) ns.

Definition read_back (ns : list Note) (n : Note) : Note :=
  mkNote (tick n) (fret n) (sustain n)
    (chord_flag is_forced ns n) (chord_flag is_tap ns n)
    (bool_decide (fret n = OPEN)) 100.

(** Strictly before, in the order of the keys. *)
Definition note_lt (x y : Note) : Prop :=
  tick x < tick y \/ (tick x = tick y /\ fret x < fret y).

Definition apply_flags (n x : Note) : Note :=
  let x1 := if is_forced n then set_forced x else x in
  if is_tap n then set_tap x1 else x1.

Lemma lookup_note_effects (buf : buffer) (n : Note) (t f : Z) :
  fret n <> FORCED -> fret n <> TAP ->
  buf_lookup (note_effects buf n) t f
    = (if decide (t = tick n) then fmap (apply_flags n) else id)
        (if decide (t = tick n /\ f = fret n)
         then Some (new_note (tick n) (fret n) (sustain n) (bool_decide (fret n = OPEN)))
         else buf_lookup buf t f).
Proof.
  intros H5 H6. unfold note_effects, apply_flags.
  assert (H1 : forall b, note_effect b (tick n) FORCED 0 = buffer_mark set_forced b (tick n)).
  { intros b. unfold note_effect. by rewrite decide_True. }
  assert (H2 : forall b, note_effect b (tick n) TAP 0 = buffer_mark set_tap b (tick n)).
  { intros b. unfold note_effect. rewrite decide_False by done. by rewrite decide_True. }
  assert (H3 : note_effect buf (tick n) (fret n) (sustain n)
               = buffer_put buf (new_note (tick n) (fret n) (sustain n)
                                   (bool_decide (fret n = OPEN)))).
  { unfold note_effect. by rewrite !decide_False. }
  rewrite H1, H2, H3.
  set (l1 := if decide (t = tick n /\ f = fret n)
             then Some (new_note (tick n) (fret n) (sustain n) (bool_decide (fret n = OPEN)))
             else buf_lookup buf t f).
  assert (Hl1 : buf_lookup (buffer_put buf (new_note (tick n) (fret n) (sustain n)
                                              (bool_decide (fret n = OPEN)))) t f = l1).
  { by rewrite buf_lookup_put. }
  destruct (is_forced n), (is_tap n); rewrite ?buf_lookup_mark, ?Hl1;
    destruct (decide (t = tick n)); try done; by destruct l1.
Qed.

Lemma chord_flag_snoc (flag : Note -> bool) (ns : list Note) (n m : Note) :
  chord_flag flag (ns ++ [n]) m
    = chord_flag flag ns m || ((tick n =? tick m) && (fret m <=? fret n) && flag n).
Proof. unfold chord_flag. rewrite existsb_app. cbn [existsb]. by rewrite orb_false_r. Qed.

Lemma chord_flag_before (flag : Note -> bool) (ns : list Note) (n : Note) :
  Forall (fun m => note_lt m n) ns -> chord_flag flag ns n = false.
Proof.
  intros Hall. unfold chord_flag. apply not_true_is_false.
  intros (m & Hm & Hc)%existsb_exists.
  rewrite Forall_forall in Hall. apply list_elem_of_In in Hm.
  specialize (Hall m Hm). unfold note_lt in Hall.
  apply andb_prop in Hc as [Hc _]. apply andb_prop in Hc as [H1 H2]. lia.
Qed.

Lemma read_back_snoc_same (ns : list Note) (n m : Note) :
  note_lt m n -> tick m = tick n ->
  read_back (ns ++ [n]) m = apply_flags n (read_back ns m).
Proof.
  intros Hlt Ht. unfold read_back, apply_flags. rewrite !chord_flag_snoc.
  assert (Hc : (tick n =? tick m) && (fret m <=? fret n) = true).
  { unfold note_lt in Hlt. apply andb_true_intro. split; lia. }
  rewrite Hc. cbn [andb].
  destruct (is_forced n), (is_tap n); cbn; rewrite ?orb_true_r, ?orb_false_r; done.
Qed.

Lemma read_back_snoc_other (ns : list Note) (n m : Note) :
  tick m <> tick n -> read_back (ns ++ [n]) m = read_back ns m.
Proof.
  intros Ht. unfold read_back. rewrite !chord_flag_snoc.
  assert (Hc : (tick n =? tick m) = false) by lia.
  rewrite Hc. cbn [andb]. by rewrite !orb_false_r.
Qed.

Lemma read_back_snoc_self (ns : list Note) (n : Note) :
  Forall (fun m => note_lt m n) ns ->
  read_back (ns ++ [n]) n
    = apply_flags n (new_note (tick n) (fret n) (sustain n) (bool_decide (fret n = OPEN))).
Proof.
  intros Hall. unfold read_back, apply_flags. rewrite !chord_flag_snoc.
  rewrite !chord_flag_before by done.
  rewrite Z.eqb_refl, Z.leb_refl. cbn [andb orb].
  by destruct (is_forced n), (is_tap n).
Qed.

(** The buffer after the lines of the notes [ns], written in ascending
    order of their keys. *)
Definition buffer_of (ns : list Note) (buf : buffer) : Prop :=
  buf_wf buf /\
  forall t f x, buf_lookup buf t f = Some x <->
                exists n, n ∈ ns /\ tick n = t /\ fret n = f /\ x = read_back ns n.

Lemma buffer_of_snoc (ns : list Note) (n : Note) (buf : buffer) :
  buffer_of ns buf -> Forall (fun m => note_lt m n) ns ->
  fret n <> FORCED -> fret n <> TAP ->
  buffer_of (ns ++ [n]) (note_effects buf n).
Proof.
  intros [Hwf Hbuf] Hlt H5 H6. split.
  { unfold note_effects.
    destruct (is_forced n), (is_tap n); repeat apply note_effect_wf; done. }
  intros t f x. rewrite lookup_note_effects by done.
  rewrite Forall_forall in Hlt.
  destruct (decide (t = tick n /\ f = fret n)) as [[-> ->]|Hkey].
  - rewrite decide_True by done. cbn [fmap option_fmap option_map]. split.
    + intros [= <-]. exists n. split; [apply elem_of_app; right; left|].
      split; [done|]. split; [done|]. symmetry. apply read_back_snoc_self.
      by apply Forall_forall.
    + intros (m & [Hm|Hm]%elem_of_app & Ht & Hf & ->).
      * specialize (Hlt m Hm). unfold note_lt in Hlt. lia.
      * apply list_elem_of_singleton in Hm as ->. f_equal. symmetry.
        apply read_back_snoc_self. by apply Forall_forall.
  - destruct (decide (t = tick n)) as [->|Ht].
    + split.
      * destruct (buf_lookup buf (tick n) f) as [x0|] eqn:Hx0; [|done].
        intros [= <-]. apply Hbuf in Hx0 as (m & Hm & Htm & Hfm & ->).
        exists m. split; [apply elem_of_app; by left|]. split; [done|]. split; [done|].
        symmetry. apply read_back_snoc_same; [by apply Hlt|done].
      * intros (m & [Hm|Hm]%elem_of_app & Htm & Hfm & ->).
        -- assert (Hx0 : buf_lookup buf (tick n) f = Some (read_back ns m)).
           { apply Hbuf. by exists m. }
           rewrite Hx0. cbn. f_equal. symmetry.
           apply read_back_snoc_same; [by apply Hlt|done].
        -- apply list_elem_of_singleton in Hm as ->. exfalso. by apply Hkey.
    + cbn [id]. rewrite Hbuf. split.
      * intros (m & Hm & Htm & Hfm & ->). exists m.
        split; [apply elem_of_app; by left|]. split; [done|]. split; [done|].
        symmetry. apply read_back_snoc_other. congruence.
      * intros (m & [Hm|Hm]%elem_of_app & Htm & Hfm & ->).
        -- exists m. split; [done|]. split; [done|]. split; [done|].
           apply read_back_snoc_other. congruence.
        -- apply list_elem_of_singleton in Hm as ->. done.
Qed.

Lemma buffer_of_sorted (ns : list Note) :
  StronglySorted note_lt ns ->
  Forall (fun n => fret n <> FORCED /\ fret n <> TAP) ns ->
  buffer_of ns (foldl note_effects [] ns).
Proof.
  intros Hsorted Hfrets.
  assert (Hgen : forall pre rest buf,
            ns = pre ++ rest -> buffer_of pre buf ->
            buffer_of ns (foldl note_effects buf rest)).
  { intros pre rest. revert pre. induction rest as [|n rest IH]; intros pre buf Heq Hbuf.
    { rewrite app_nil_r in Heq. by subst. }
    cbn [foldl]. apply (IH (pre ++ [n])).
    - by rewrite <- app_assoc.
    - rewrite Heq in Hsorted, Hfrets.
      apply Forall_app in Hfrets as [_ Hn]. apply Forall_cons in Hn as [[H5 H6] _].
      apply buffer_of_snoc; try done.
      apply Forall_forall. intros m Hm.
      apply (StronglySorted_app_1_elem_of _ _ _ m n) in Hsorted; [done|done|left]. }
  apply (Hgen [] ns []); [done|]. split; [apply buf_wf_nil|].
  intros t f x. split; [done|]. intros (n & Hn & _). by apply elem_of_nil in Hn.
Qed.

End WrittenNotesFacts.

Section BlockFacts.
Import ChartParser PyStr.

(** A section as the writer lays it out. *)
Definition block (name : str) (body : list str) : list str :=
  [txt "[" ++ name ++ txt "]"; txt "{"] ++ body ++ [txt "}"; []].

Lemma startswith_nil (s : str) : startswith s [] = true.
Proof. by destruct s. Qed.

Lemma header_line (name : str) :
  strip (txt "[" ++ name ++ txt "]") = txt "[" ++ name ++ txt "]" /\
  is_header (txt "[" ++ name ++ txt "]") = true /\
  slice_1_m1 (txt "[" ++ name ++ txt "]") = name.
Proof.
  split; [|split].
  - apply strip_solid.
    + by exists "["%char, (name ++ txt "]").
    + exists (txt "[" ++ name), "]"%char. split; [|done]. by rewrite <- app_assoc.
  - unfold is_header, endswith. cbn [app txt list_ascii_of_string startswith].
    rewrite bool_decide_true by done. rewrite startswith_nil. cbn [andb].
    change ("["%char :: name ++ ["]"%char]) with (("["%char :: name) ++ ["]"%char]).
    rewrite rev_unit. cbn [rev app startswith].
    rewrite bool_decide_true by done. by rewrite startswith_nil.
  - unfold slice_1_m1. cbn [app txt list_ascii_of_string tail].
    apply removelast_last.
Qed.

Lemma split_loop_app (st : list (str * str) * option str * list str) (l1 l2 : list str) :
  split_loop st (l1 ++ l2) = split_loop (split_loop st l1) l2.
Proof. apply foldl_app. Qed.

Lemma split_loop_block (name : str) (body : list str)
    (secs : list (str * str)) (cur : option str) (cont : list str) :
  Forall (fun l => is_header (strip l) = false /\ kept_line (strip l) = true) body ->
  split_loop (secs, cur, cont) (block name body)
    = (save_section secs cur cont, Some name, map strip body).
Proof.
  intros Hbody. unfold block. destruct (header_line name) as (Hs & Hh & Hn).
  cbn [app]. rewrite split_loop_cons, split_step_header by (by rewrite Hs).
  rewrite Hs, Hn. rewrite split_loop_cons.
  rewrite split_step_content by done.
  change (kept_line (strip (txt "{"))) with false. cbv iota.
  rewrite split_loop_app, split_loop_body.
  2:{ eapply Forall_impl; [exact Hbody|]. by intros l [? _]. }
  assert (Hkept : content_lines body = map strip body).
  { unfold content_lines. clear -Hbody.
    induction Hbody as [|l body [_ Hk] _ IH]; [done|].
    cbn [map]. rewrite filter_cons, decide_True by done. by rewrite IH. }
  rewrite Hkept. cbn [app]. reflexivity.
Qed.

Lemma block_lines (name : str) (body : list str) (c : ascii) :
  isspace c = true -> c ∉ name -> Forall (fun l => c ∉ l) body ->
  Forall (fun l => c ∉ l) (block name body).
Proof.
  intros Hc Hname Hbody. unfold block. apply Forall_app. split.
  - repeat constructor.
    + intros [H|[H|H]%elem_of_app]%elem_of_app; [|done|];
        apply list_elem_of_singleton in H; by subst.
    + intros H. apply list_elem_of_singleton in H. by subst.
  - apply Forall_app. split; [done|]. repeat constructor.
    + intros H. apply list_elem_of_singleton in H. by subst.
    + by intros ?%elem_of_nil.
Qed.

(** The sections of a text made of blocks. *)
Fixpoint run_blocks (secs : list (str * str)) (cur : option str) (cont : list str)
    (blocks : list (str * list str)) : list (str * str) :=
  match blocks with
  | [] => save_section secs cur cont
  | (name, body) :: rest => run_blocks (save_section secs cur cont) (Some name) (map strip body) rest
  end.

Definition block_ok (b : str * list str) : Prop :=
  Forall (fun l => is_header (strip l) = false /\ kept_line (strip l) = true) b.2.

Lemma split_loop_blocks (blocks : list (str * list str))
    (secs : list (str * str)) (cur : option str) (cont : list str) :
  Forall block_ok blocks ->
  (let '(secs', cur', cont') :=
     split_loop (secs, cur, cont) (concat (map (fun b => block b.1 b.2) blocks)) in
   save_section secs' cur' cont')
  = run_blocks secs cur cont blocks.
Proof.
  intros Hok. revert secs cur cont.
  induction Hok as [|[name body] rest Hb _ IH]; intros secs cur cont; [done|].
  cbn [map concat fst snd]. rewrite split_loop_app, split_loop_block by done.
  cbn [run_blocks]. apply IH.
Qed.

Lemma run_blocks_fresh (blocks : list (str * list str))
    (secs : list (str * str)) (name : str) (cont : list str) :
  name <> [] -> Forall (fun b : str * list str => b.1 <> []) blocks ->
  NoDup (secs.*1 ++ name :: blocks.*1) ->
  run_blocks secs (Some name) cont blocks
    = secs ++ (name, join [nl] cont)
           :: map (fun b : str * list str => (b.1, join [nl] (map strip b.2))) blocks.
Proof.
  intros Hname Hne Hnd. revert secs name cont Hname Hnd.
  induction Hne as [|[n body] rest Hn _ IH]; intros secs name cont Hname Hnd.
  - cbn [run_blocks map]. destruct name as [|c cs]; [done|]. cbn [save_section].
    apply dict_set_fresh. apply dict_get_None.
    apply NoDup_app in Hnd as (_ & Hd & _). intros Hin. apply (Hd _ Hin). left.
  - cbn [run_blocks map fst snd]. cbn [fst] in Hn.
    assert (Hsave : save_section secs (Some name) cont = secs ++ [(name, join [nl] cont)]).
    { destruct name as [|c cs]; [done|]. cbn [save_section].
      apply dict_set_fresh. apply dict_get_None.
      apply NoDup_app in Hnd as (_ & Hd & _). intros Hin. apply (Hd _ Hin). left. }
    rewrite Hsave. rewrite IH; [by rewrite <- app_assoc|done|].
    rewrite fmap_app. cbn [fmap list_fmap fst]. rewrite <- app_assoc. exact Hnd.
Qed.

End BlockFacts.

Section WrittenTrackFacts.
Import ChartParser PyStr.

(** Characters that break a line: whitespace other than the blank. *)
Definition line_break (c : ascii) : Prop := isspace c = true /\ c <> " "%char.

Lemma line_break_nl : line_break nl.
Proof. done. Qed.

Lemma line_break_cr : line_break cr.
Proof. done. Qed.

Lemma str_of_int_unbroken (c : ascii) (z : Z) : line_break c -> c ∉ str_of_int z.
Proof.
  intros [Hc _] Hin. pose proof (str_of_int_no_space z) as H.
  rewrite Forall_forall in H. specialize (H _ Hin). congruence.
Qed.

Lemma written_line_unbroken (c : ascii) (t : Z) (value : str) :
  line_break c -> c ∉ value -> c ∉ txt "  " ++ written_line (str_of_int t) value.
Proof.
  intros [Hc Hsp] Hval [H|H]%elem_of_app.
  - apply elem_of_cons in H as [->|H]; [done|].
    apply list_elem_of_singleton in H as ->. done.
  - revert H. by apply written_line_chars; [apply str_of_int_plain| | |].
Qed.

Lemma note_text_unbroken (c : ascii) (f s : Z) : line_break c -> c ∉ note_text f s.
Proof.
  intros Hc. unfold note_text.
  intros [H|[H|[H|H]%elem_of_app]%elem_of_app]%elem_of_app.
  - destruct Hc as [Hc Hsp].
    apply elem_of_cons in H as [->|H]; [done|].
    apply list_elem_of_singleton in H as ->. done.
  - by apply (str_of_int_unbroken c f).
  - destruct Hc as [Hc Hsp]. apply list_elem_of_singleton in H as ->. done.
  - by apply (str_of_int_unbroken c s).
Qed.

Lemma sp_text_unbroken (c : ascii) (len : Z) : line_break c -> c ∉ sp_text len.
Proof.
  intros Hc. unfold sp_text. intros [H|H]%elem_of_app.
  - destruct Hc as [Hc Hsp].
    repeat (apply elem_of_cons in H as [->|H]; [done|]). by apply elem_of_nil in H.
  - by apply (str_of_int_unbroken c len).
Qed.

Lemma event_text_unbroken (c : ascii) (text : str) :
  line_break c -> c ∉ text -> c ∉ event_text_line text.
Proof.
  intros [Hc Hsp] Htext. unfold event_text_line, quoted.
  intros [H|[H|[H|H]%elem_of_app]%elem_of_app]%elem_of_app; [| |done|].
  - repeat (apply elem_of_cons in H as [->|H]; [done|]). by apply elem_of_nil in H.
  - apply list_elem_of_singleton in H as ->. done.
  - apply list_elem_of_singleton in H as ->. done.
Qed.

(** The lines of a track between its braces. *)
Definition sp_le (x y : StarPowerPhrase) : bool := sp_tick x <=? sp_tick y.
Definition event_le (x y : Event) : bool := event_tick x <=? event_tick y.

Definition track_body (t : Track) : list str :=
  concat (map note_lines (py_sorted note_le (notes t)))
  ++ map (fun sp => txt "  " ++ written_line (str_of_int (sp_tick sp)) (sp_text (sp_length sp)))
       (py_sorted sp_le (star_power t))
  ++ map event_line (py_sorted event_le (track_events t)).

Lemma track_lines_block (name : str) (t : Track) :
  track_lines name t = block name (track_body t).
Proof. unfold track_lines, block, track_body. by rewrite <- !app_assoc. Qed.

Definition canonical_event_line (e : Event) : str :=
  written_line (str_of_int (event_tick e)) (event_text_line (event_text e)).

Definition canonical_track_body (t : Track) : list str :=
  concat (map canonical_note_lines (py_sorted note_le (notes t)))
  ++ map (fun sp => written_line (str_of_int (sp_tick sp)) (sp_text (sp_length sp)))
       (py_sorted sp_le (star_power t))
  ++ map canonical_event_line (py_sorted event_le (track_events t)).

Lemma strip_event_line (e : Event) : strip (event_line e) = canonical_event_line e.
Proof.
  change (event_line e) with (txt "  " ++ canonical_event_line e).
  apply strip_written_line;
    [apply str_of_int_nonempty|apply str_of_int_plain|apply event_text_solid].
Qed.

Lemma strip_track_body (t : Track) : map strip (track_body t) = canonical_track_body t.
Proof.
  unfold track_body, canonical_track_body. rewrite !map_app. f_equal; [|f_equal].
  - induction (py_sorted note_le (notes t)) as [|n l IH]; [done|].
    cbn [map concat]. by rewrite map_app, strip_note_lines, IH.
  - rewrite map_map. apply map_ext. intros sp.
    apply strip_written_line; [apply str_of_int_nonempty|apply str_of_int_plain|].
    apply ends_solid_app, str_of_int_ends.
  - rewrite map_map. apply map_ext. intros e. apply strip_event_line.
Qed.

(** Every line is a [tick = value] line. *)
Definition tick_line (l : str) : Prop := exists t value, l = written_line (str_of_int t) value.

Lemma canonical_note_lines_tick (n : Note) : Forall tick_line (canonical_note_lines n).
Proof.
  unfold canonical_note_lines.
  destruct (is_forced n), (is_tap n); repeat constructor; eexists _, _; reflexivity.
Qed.

Lemma canonical_track_body_tick (t : Track) : Forall tick_line (canonical_track_body t).
Proof.
  unfold canonical_track_body. repeat (apply Forall_app; split).
  - induction (py_sorted note_le (notes t)) as [|n l IH]; [constructor|].
    cbn [map concat]. apply Forall_app. split; [apply canonical_note_lines_tick|done].
  - apply Forall_forall. intros l Hl.
    change (map ?f ?x) with (f <$> x) in Hl.
    apply list_elem_of_fmap in Hl as (sp & -> & _). eexists _, _. reflexivity.
  - apply Forall_forall. intros l Hl.
    change (map ?f ?x) with (f <$> x) in Hl.
    apply list_elem_of_fmap in Hl as (e & -> & _). eexists _, _. reflexivity.
Qed.

Lemma track_body_ok (t : Track) :
  Forall (fun l => is_header (strip l) = false /\ kept_line (strip l) = true) (track_body t).
Proof.
  pose proof (canonical_track_body_tick t) as H. rewrite <- strip_track_body in H.
  change (map strip ?l) with (strip <$> l) in H. rewrite Forall_fmap in H.
  eapply Forall_impl; [exact H|]. intros l (tk & v & Hl). cbn in Hl. rewrite Hl.
  apply written_line_not_header; [apply str_of_int_nonempty|apply str_of_int_plain].
Qed.

Lemma note_lines_unbroken (c : ascii) (n : Note) :
  line_break c -> Forall (fun l => c ∉ l) (note_lines n).
Proof.
  intros Hc. unfold note_lines. rewrite note_line_assoc, !flag_line_assoc.
  destruct (is_forced n), (is_tap n); repeat constructor;
    by apply written_line_unbroken, note_text_unbroken.
Qed.

Lemma track_body_unbroken (c : ascii) (t : Track) :
  line_break c -> Forall (fun e => c ∉ event_text e) (track_events t) ->
  Forall (fun l => c ∉ l) (track_body t).
Proof.
  intros Hc Hev. unfold track_body. repeat (apply Forall_app; split).
  - induction (py_sorted note_le (notes t)) as [|n l IH]; [constructor|].
    cbn [map concat]. apply Forall_app. split; [by apply note_lines_unbroken|done].
  - apply Forall_forall. intros l Hl.
    change (map ?f ?x) with (f <$> x) in Hl.
    apply list_elem_of_fmap in Hl as (sp & -> & _).
    by apply written_line_unbroken, sp_text_unbroken.
  - apply Forall_forall. intros l Hl.
    change (map ?f ?x) with (f <$> x) in Hl.
    apply list_elem_of_fmap in Hl as (e & -> & He).
    change (event_line e) with (txt "  " ++ canonical_event_line e).
    apply written_line_unbroken; [done|]. apply event_text_unbroken; [done|].
    rewrite Forall_forall in Hev. apply Hev.
    by rewrite <- (py_sorted_perm event_le (track_events t)).
Qed.

Lemma strip_unbroken (c : ascii) (lines : list str) :
  Forall (fun l => c ∉ l) lines -> Forall (fun l => c ∉ l) (map strip lines).
Proof.
  intros H. change (map strip lines) with (strip <$> lines). rewrite Forall_fmap.
  eapply Forall_impl; [exact H|]. intros l Hl Hin. cbn in Hin.
  by apply strip_by_chars in Hin.
Qed.

(** A section body that is a list of lines. *)
Lemma for_each_assignment_join {S : Type} (lines : list str)
    (body : str -> str -> S -> result S) (s : S) :
  Forall (fun l => nl ∉ l) lines ->
  for_each_assignment (join [nl] lines) body s = for_each lines (assignment_step body) s.
Proof.
  intros Hlines. rewrite for_each_assignment_unfold.
  destruct lines as [|l lines]; [done|].
  by rewrite split_on_join.
Qed.

Lemma sp_lines_effect (sps : list StarPowerPhrase) (track : Track) (buf : buffer) :
  for_each
    (map (fun sp => written_line (str_of_int (sp_tick sp)) (sp_text (sp_length sp))) sps)
    (assignment_step track_step) (track, buf)
  = Ok (mkTrack (notes track) (star_power track ++ sps) (track_events track), buf).
Proof.
  revert track. induction sps as [|sp sps IH]; intros track.
  { cbn [map for_each]. rewrite app_nil_r. by destruct track. }
  cbn [map for_each]. rewrite track_step_written_sp. simpl_bind. rewrite IH.
  cbn [notes star_power track_events]. rewrite <- app_assoc. by destruct sp.
Qed.

Lemma event_lines_effect (evs : list Event) (track : Track) (buf : buffer) :
  exists evs',
    for_each (map canonical_event_line evs) (assignment_step track_step) (track, buf)
      = Ok (mkTrack (notes track) (star_power track) (track_events track ++ evs'), buf) /\
    map event_tick evs' = map event_tick evs.
Proof.
  revert track. induction evs as [|e evs IH]; intros track.
  { exists []. cbn [map for_each]. rewrite app_nil_r. by destruct track. }
  cbn [map for_each].
  destruct (track_step_written_event (event_tick e) (event_text e) track buf)
    as (text' & Hstep).
  change (written_line _ _) with (canonical_event_line e) in Hstep.
  rewrite Hstep. simpl_bind. destruct (IH (mkTrack (notes track) (star_power track)
                              (track_events track ++ [mkEvent (event_tick e) text'])))
    as (evs' & -> & Hticks).
  exists (mkEvent (event_tick e) text' :: evs'). cbn [notes star_power track_events].
  rewrite <- app_assoc. split; [done|]. cbn [map event_tick]. by rewrite Hticks.
Qed.

End WrittenTrackFacts.

Section WrittenTrackTheorem.
Import ChartParser PyStr.

Lemma sorted_keys_strict (l : list Note) :
  StronglySorted note_order l -> NoDup (map note_key l) -> StronglySorted note_lt l.
Proof.
  induction 1 as [|x l Hl IH Hx]; intros Hnd; constructor.
  - apply IH. cbn in Hnd. by apply NoDup_cons in Hnd as [_ ?].
  - cbn in Hnd. apply NoDup_cons in Hnd as [Hx' _].
    apply Forall_forall. intros y Hy. rewrite Forall_forall in Hx.
    specialize (Hx y Hy). unfold note_order in Hx. unfold note_lt.
    destruct (decide (fret x = fret y)) as [Hf|Hf]; [|lia].
    destruct (decide (tick x = tick y)) as [Ht|Ht]; [|lia].
    exfalso. apply Hx'. change (map note_key l) with (note_key <$> l).
    apply list_elem_of_fmap. exists y. split; [|done]. unfold note_key. by rewrite Ht, Hf.
Qed.

Lemma strictly_sorted_unique (l1 l2 : list Note) :
  StronglySorted note_lt l1 -> StronglySorted note_lt l2 ->
  (forall x, x ∈ l1 <-> x ∈ l2) -> l1 = l2.
Proof.
  intros H1. revert l2. induction H1 as [|x l1 Hl1 IH Hx]; intros l2 H2 Hiff.
  { destruct l2 as [|y l2]; [done|]. exfalso.
    assert (Hy : y ∈ []) by (apply Hiff; left). by apply elem_of_nil in Hy. }
  destruct H2 as [|y l2 Hl2 Hy].
  { exfalso. assert (Hin : x ∈ []) by (apply Hiff; left). by apply elem_of_nil in Hin. }
  rewrite Forall_forall in Hx, Hy.
  assert (Hxy : x = y).
  { assert (Hx2 : x ∈ y :: l2) by (apply Hiff; left).
    assert (Hy1 : y ∈ x :: l1) by (apply Hiff; left).
    apply elem_of_cons in Hx2 as [?|Hx2]; [done|].
    apply elem_of_cons in Hy1 as [?|Hy1]; [done|].
    specialize (Hx y Hy1). specialize (Hy x Hx2). unfold note_lt in *. lia. }
  subst y. f_equal. apply IH; [done|]. intros z. split; intros Hz.
  - assert (Hz' : z ∈ x :: l2) by (apply Hiff; by right).
    apply elem_of_cons in Hz' as [->|?]; [|done].
    specialize (Hx x Hz). unfold note_lt in Hx. lia.
  - assert (Hz' : z ∈ x :: l1) by (apply Hiff; by right).
    apply elem_of_cons in Hz' as [->|?]; [|done].
    specialize (Hy x Hz). unfold note_lt in Hy. lia.
Qed.

Lemma read_back_sorted (ns l : list Note) :
  StronglySorted note_lt l -> StronglySorted note_lt (map (read_back ns) l).
Proof.
  induction 1 as [|x l Hl IH Hx]; cbn [map]; constructor; [done|].
  change (map ?f ?k) with (f <$> k). rewrite Forall_fmap.
  eapply Forall_impl; [exact Hx|]. intros y Hy. exact Hy.
Qed.

Lemma py_sorted_strict (ns : list Note) :
  NoDup (map note_key ns) -> StronglySorted note_lt (py_sorted note_le ns).
Proof.
  intros Hnd. apply sorted_keys_strict; [apply py_sorted_notes_sorted|].
  change (map note_key ?l) with (note_key <$> l). by rewrite py_sorted_perm.
Qed.

Lemma foldl_add_note_rest (l : list Note) (track : Track) :
  star_power (foldl add_note track l) = star_power track /\
  track_events (foldl add_note track l) = track_events track.
Proof.
  revert track. induction l as [|n l IH]; intros track; [done|].
  cbn [foldl]. destruct (IH (add_note track n)) as [-> ->]. done.
Qed.

(** The track a written track reads back as. *)
Lemma read_canonical_track_body (t : Track) :
  NoDup (map note_key (notes t)) ->
  Forall (fun n => fret n <> FORCED /\ fret n <> TAP) (notes t) ->
  exists evs',
    for_each (canonical_track_body t) (assignment_step track_step) (empty_track, [])
      = Ok (mkTrack [] (py_sorted sp_le (star_power t)) evs',
            foldl note_effects [] (py_sorted note_le (notes t))) /\
    map event_tick evs' = map event_tick (py_sorted event_le (track_events t)).
Proof.
  intros Hnd Hfrets. unfold canonical_track_body.
  rewrite for_each_app, canonical_notes_effect. simpl_bind.
  rewrite for_each_app, sp_lines_effect. simpl_bind.
  destruct (event_lines_effect (py_sorted event_le (track_events t))
              (mkTrack (notes empty_track)
                 (star_power empty_track ++ py_sorted sp_le (star_power t))
                 (track_events empty_track))
              (foldl note_effects [] (py_sorted note_le (notes t))))
    as (evs' & -> & Hticks).
  exists evs'. done.
Qed.

Lemma flush_written_notes (ns : list Note) (track : Track) :
  notes track = [] ->
  StronglySorted note_lt ns ->
  Forall (fun n => fret n <> FORCED /\ fret n <> TAP) ns ->
  notes (foldl add_note track (buffer_notes (foldl note_effects [] ns)))
    = map (read_back ns) ns.
Proof.
  intros Hnil Hsorted Hfrets.
  destruct (buffer_of_sorted ns Hsorted Hfrets) as [Hwf Hbuf].
  set (buf := foldl note_effects [] ns) in *.
  pose proof (foldl_add_note_perm track (buffer_notes buf)) as Hperm.
  rewrite Hnil in Hperm. cbn [app] in Hperm.
  apply strictly_sorted_unique.
  - apply sorted_keys_strict.
    + apply foldl_add_note_sorted. rewrite Hnil. constructor.
    + change (map note_key ?l) with (note_key <$> l). rewrite Hperm.
      by apply buffer_notes_keys_NoDup.
  - by apply read_back_sorted.
  - intros x. rewrite Hperm, elem_of_buffer_notes by done. rewrite Hbuf.
    change (map ?f ?l) with (f <$> l). rewrite list_elem_of_fmap. split.
    + intros (n & Hn & _ & _ & ->). by exists n.
    + intros (n & -> & Hn). by exists n.
Qed.

(** X16: a track survives the file: [_split_sections] finds the section
    the writer laid out for it under its name, and the section parser reads
    from it a track with the same notes in (tick, fret) order, each with its
    tick, fret and sustain, velocity 100, [is_open] recomputed from the fret,
    and with the forced and tap flags of every note spread to the notes of
    the same tick on lower frets; the star power phrases come back in tick
    order.  This needs notes with pairwise different (tick, fret), none on
    fret 5 or 6, and no line break in the section name or in an event text.
    When the notes of each tick share their flags and are stored as the
    parser stores them, the notes read back are exactly the sorted notes. *)
Theorem written_track_reads_back (name : str) (t : Track) :
  name <> [] -> nl ∉ name ->
  NoDup (map note_key (notes t)) ->
  Forall (fun n => fret n <> FORCED /\ fret n <> TAP) (notes t) ->
  Forall (fun e => nl ∉ event_text e) (track_events t) ->
  exists content t',
    _split_sections (join [nl] (track_lines name t)) = [(name, content)] /\
    parse_track_lines content = Ok t' /\
    notes t' = map (read_back (py_sorted note_le (notes t))) (py_sorted note_le (notes t)) /\
    star_power t' = py_sorted (fun x y => sp_tick x <=? sp_tick y) (star_power t) /\
    map event_tick (track_events t')
      = map event_tick (py_sorted (fun x y => event_tick x <=? event_tick y) (track_events t)) /\
    ((forall n m, n ∈ notes t -> m ∈ notes t -> tick n = tick m ->
        is_forced n = is_forced m /\ is_tap n = is_tap m) ->
     Forall (fun n => is_open n = bool_decide (fret n = OPEN) /\ note_velocity n = 100)
       (notes t) ->
     notes t' = py_sorted note_le (notes t)).
Proof.
  intros Hname Hnl Hnd Hfrets Hev.
  set (S := py_sorted note_le (notes t)).
  assert (HS : StronglySorted note_lt S) by (by apply py_sorted_strict).
  assert (HSf : Forall (fun n => fret n <> FORCED /\ fret n <> TAP) S).
  { unfold S. by rewrite py_sorted_perm. }
  exists (join [nl] (canonical_track_body t)).
  destruct (read_canonical_track_body t Hnd Hfrets) as (evs' & Hrun & Hticks).
  eexists. split; [|split].
  - rewrite split_sections_unfold, track_lines_block.
    rewrite split_on_join.
    2:{ done. }
    2:{ apply block_lines; [done|done|]. by apply track_body_unbroken. }
    rewrite split_loop_block by apply track_body_ok.
    rewrite strip_track_body. destruct name as [|c cs]; [done|]. reflexivity.
  - unfold parse_track_lines. rewrite for_each_assignment_join.
    2:{ rewrite <- strip_track_body. apply strip_unbroken.
        by apply track_body_unbroken. }
    rewrite Hrun. simpl_bind. reflexivity.
  - fold S.
    assert (Hnotes : notes (foldl add_note (mkTrack [] (py_sorted sp_le (star_power t)) evs')
                              (buffer_notes (foldl note_effects [] S)))
                     = map (read_back S) S) by (by apply flush_written_notes).
    split; [exact Hnotes|]. split; [|split].
    + by rewrite (proj1 (foldl_add_note_rest _ _)).
    + rewrite (proj2 (foldl_add_note_rest _ _)). exact Hticks.
    + intros Hchord Hcanon. rewrite Hnotes.
      rewrite <- (map_id S) at 3. apply map_ext_in. intros n Hn%list_elem_of_In.
      assert (Hn' : n ∈ notes t) by (by rewrite <- (py_sorted_perm note_le (notes t))).
      rewrite Forall_forall in Hcanon. destruct (Hcanon n Hn') as [Hopen Hvel].
      assert (Hflag : forall flag : Note -> bool,
                (forall m, m ∈ notes t -> tick n = tick m -> flag n = flag m) ->
                chord_flag flag S n = flag n).
      { intros flag Hsame. unfold chord_flag. destruct (flag n) eqn:Hfn.
        - apply existsb_exists. exists n. split; [by apply list_elem_of_In|].
          rewrite Z.eqb_refl, Z.leb_refl. done.
        - apply not_true_is_false. intros (m & Hm%list_elem_of_In & Hc)%existsb_exists.
          apply andb_prop in Hc as [Hc Hfm]. apply andb_prop in Hc as [Ht _].
          assert (Hm' : m ∈ notes t) by (by rewrite <- (py_sorted_perm note_le (notes t))).
          rewrite <- (Hsame m Hm') in Hfm by lia. congruence. }
      unfold read_back.
      rewrite (Hflag is_forced) by (intros m Hm Ht; by apply Hchord).
      rewrite (Hflag is_tap) by (intros m Hm Ht; by apply Hchord).
      rewrite <- Hopen, <- Hvel. by destruct n.
Qed.

End WrittenTrackTheorem.

Section WrittenTrackWitness.
Import ChartParser PyStr.

(** The track of the parser's own self-test. *)
Definition test_track : Track :=
  mkTrack [mkNote 0 0 96 false false false 100; mkNote 192 1 0 false false false 100;
           mkNote 384 2 0 false true false 100; mkNote 576 3 0 true false false 100]
    [] [].

Lemma written_track_reads_back_witness :
  exists content t',
    _split_sections (join [nl] (track_lines (txt "ExpertSingle") test_track))
      = [(txt "ExpertSingle", content)] /\
    parse_track_lines content = Ok t' /\
    notes t' = map (read_back (py_sorted note_le (notes test_track)))
                 (py_sorted note_le (notes test_track)) /\
    star_power t' = py_sorted (fun x y => sp_tick x <=? sp_tick y) (star_power test_track) /\
    map event_tick (track_events t')
      = map event_tick (py_sorted (fun x y => event_tick x <=? event_tick y)
                          (track_events test_track)) /\
    ((forall n m, n ∈ notes test_track -> m ∈ notes test_track -> tick n = tick m ->
        is_forced n = is_forced m /\ is_tap n = is_tap m) ->
     Forall (fun n => is_open n = bool_decide (fret n = OPEN) /\ note_velocity n = 100)
       (notes test_track) ->
     notes t' = py_sorted note_le (notes test_track)).
Proof.
  apply (written_track_reads_back (txt "ExpertSingle") test_track).
  - done.
  - by_compute.
  - by_compute.
  - by_compute.
  - by_compute.
Defined.

End WrittenTrackWitness.

(** * The whole file, written and read back *)

(** Two string literals differ. *)
Ltac str_ne := let H := fresh in intros H; vm_compute in H; discriminate H.

Section WrittenSongFacts.
Import ChartParser PyStr.
Variable float_of_str : str -> result spec_float.

Lemma tight_free (p : ascii -> bool) (s : str) :
  Forall (fun c => p c = false) s -> tight p s.
Proof.
  intros H. destruct s as [|c s] using rev_ind; [by left|]. clear IHs.
  right. apply Forall_app in H as [H1 H2]. rewrite Forall_singleton in H2. split.
  - destruct s as [|c' s']; simpl.
    + exists c, []. by split.
    + exists c', (s' ++ [c]). split; [done|]. by apply Forall_cons in H1 as [? _].
  - exists s, c. by split.
Qed.

(** A string that neither begins nor ends with a double quote. *)
Definition unquoted (s : str) : Prop := tight (fun c => bool_decide (c ∈ [dq])) s.

Lemma strip_chars_quoted (s : str) : unquoted s -> strip_chars [dq] (quoted s) = s.
Proof.
  intros Hs. destruct (decide (s = [])) as [->|Hne]; [done|].
  unfold strip_chars, quoted. apply strip_by_around; try done; by repeat constructor.
Qed.

Lemma strip_chars_plain (s : str) :
  Forall (fun c => plain_char c = true) s -> strip_chars [dq] s = s.
Proof.
  intros Hs. unfold strip_chars. apply strip_by_tight, tight_free.
  eapply Forall_impl; [exact Hs|]. intros c Hc. apply bool_decide_eq_false.
  intros Hin%list_elem_of_singleton. subst c. done.
Qed.

Lemma quoted_solid (s : str) : starts_solid (quoted s) /\ ends_solid (quoted s).
Proof.
  split.
  - by exists dq, (s ++ [dq]).
  - exists ([dq] ++ s), dq. split; [|done]. unfold quoted. by rewrite <- app_assoc.
Qed.

Lemma plain_solid (s : str) :
  s <> [] -> Forall (fun c => plain_char c = true) s -> starts_solid s /\ ends_solid s.
Proof.
  intros Hne Hs. split.
  - by apply starts_solid_no_space, plain_no_space.
  - by apply ends_solid_no_space, plain_no_space.
Qed.

Ltac song_key :=
  unfold written_line;
  match goal with
  | |- assignment_step _ (?key ++ txt " = " ++ ?value) _ = _ =>
      rewrite (assignment_step_canonical _ key value)
        by (first [done | by repeat constructor | apply quoted_solid
                  | by apply plain_solid | apply str_of_int_ends]);
      unfold song_step;
      rewrite (strip_key key) by (first [done | by repeat constructor]);
      rewrite (strip_value value)
        by (first [apply quoted_solid | by apply plain_solid
                  | apply str_of_int_starts | apply str_of_int_ends])
  end;
  cbv zeta;
  repeat (rewrite decide_False by str_ne);
  rewrite decide_True by done.

Lemma song_name_line (v : str) (c : Chart) :
  unquoted v ->
  assignment_step (song_step float_of_str) (written_line (txt "Name") (quoted v)) c
    = Ok (with_song c v (artist c) (album c) (genre c) (year c) (charter c) (offset c)
            (resolution c) (difficulty c) (preview_start c) (preview_end c)).
Proof. intros Hv. song_key. by rewrite strip_chars_quoted. Qed.

Lemma song_artist_line (v : str) (c : Chart) :
  unquoted v ->
  assignment_step (song_step float_of_str) (written_line (txt "Artist") (quoted v)) c
    = Ok (with_song c (name c) v (album c) (genre c) (year c) (charter c) (offset c)
            (resolution c) (difficulty c) (preview_start c) (preview_end c)).
Proof. intros Hv. song_key. by rewrite strip_chars_quoted. Qed.

Lemma song_album_line (v : str) (c : Chart) :
  unquoted v ->
  assignment_step (song_step float_of_str) (written_line (txt "Album") (quoted v)) c
    = Ok (with_song c (name c) (artist c) v (genre c) (year c) (charter c) (offset c)
            (resolution c) (difficulty c) (preview_start c) (preview_end c)).
Proof. intros Hv. song_key. by rewrite strip_chars_quoted. Qed.

Lemma song_genre_line (v : str) (c : Chart) :
  unquoted v ->
  assignment_step (song_step float_of_str) (written_line (txt "Genre") (quoted v)) c
    = Ok (with_song c (name c) (artist c) (album c) v (year c) (charter c) (offset c)
            (resolution c) (difficulty c) (preview_start c) (preview_end c)).
Proof. intros Hv. song_key. by rewrite strip_chars_quoted. Qed.

Lemma song_year_line (v : str) (c : Chart) :
  unquoted v ->
  assignment_step (song_step float_of_str) (written_line (txt "Year") (quoted v)) c
    = Ok (with_song c (name c) (artist c) (album c) (genre c) v (charter c) (offset c)
            (resolution c) (difficulty c) (preview_start c) (preview_end c)).
Proof. intros Hv. song_key. by rewrite strip_chars_quoted. Qed.

Lemma song_charter_line (v : str) (c : Chart) :
  unquoted v ->
  assignment_step (song_step float_of_str) (written_line (txt "Charter") (quoted v)) c
    = Ok (with_song c (name c) (artist c) (album c) (genre c) (year c) v (offset c)
            (resolution c) (difficulty c) (preview_start c) (preview_end c)).
Proof. intros Hv. song_key. by rewrite strip_chars_quoted. Qed.

Lemma song_offset_line (v : str) (x : spec_float) (c : Chart) :
  v <> [] -> Forall (fun c => plain_char c = true) v -> float_of_str v = Ok x ->
  assignment_step (song_step float_of_str) (written_line (txt "Offset") v) c
    = Ok (with_song c (name c) (artist c) (album c) (genre c) (year c) (charter c) x
            (resolution c) (difficulty c) (preview_start c) (preview_end c)).
Proof. intros Hne Hv Hx. song_key. rewrite strip_chars_plain by done. by rewrite Hx. Qed.

Lemma song_preview_start_line (v : str) (x : spec_float) (c : Chart) :
  v <> [] -> Forall (fun c => plain_char c = true) v -> float_of_str v = Ok x ->
  assignment_step (song_step float_of_str) (written_line (txt "PreviewStart") v) c
    = Ok (with_song c (name c) (artist c) (album c) (genre c) (year c) (charter c) (offset c)
            (resolution c) (difficulty c) x (preview_end c)).
Proof. intros Hne Hv Hx. song_key. rewrite strip_chars_plain by done. by rewrite Hx. Qed.

Lemma song_preview_end_line (v : str) (x : spec_float) (c : Chart) :
  v <> [] -> Forall (fun c => plain_char c = true) v -> float_of_str v = Ok x ->
  assignment_step (song_step float_of_str) (written_line (txt "PreviewEnd") v) c
    = Ok (with_song c (name c) (artist c) (album c) (genre c) (year c) (charter c) (offset c)
            (resolution c) (difficulty c) (preview_start c) x).
Proof. intros Hne Hv Hx. song_key. rewrite strip_chars_plain by done. by rewrite Hx. Qed.

Lemma song_resolution_line (z : Z) (c : Chart) :
  assignment_step (song_step float_of_str) (written_line (txt "Resolution") (str_of_int z)) c
    = Ok (with_song c (name c) (artist c) (album c) (genre c) (year c) (charter c) (offset c)
            z (difficulty c) (preview_start c) (preview_end c)).
Proof.
  song_key. rewrite strip_chars_plain by apply str_of_int_plain.
  by rewrite py_int_str_of_int.
Qed.

Lemma song_difficulty_line (z : Z) (c : Chart) :
  assignment_step (song_step float_of_str) (written_line (txt "Difficulty") (str_of_int z)) c
    = Ok (with_song c (name c) (artist c) (album c) (genre c) (year c) (charter c) (offset c)
            (resolution c) z (preview_start c) (preview_end c)).
Proof.
  song_key. rewrite strip_chars_plain by apply str_of_int_plain.
  by rewrite py_int_str_of_int.
Qed.

End WrittenSongFacts.

Section WrittenSongSection.
Import ChartParser PyStr.
Variable float_of_str : str -> result spec_float.
Variable float_repr : spec_float -> str.

(** A float whose text reads back as the float. *)
Definition float_text_ok (x : spec_float) : Prop :=
  float_repr x <> [] /\ Forall (fun c => plain_char c = true) (float_repr x) /\
  float_of_str (float_repr x) = Ok x.

(** The lines of the [Song] section between its braces. *)
Definition song_body (c : Chart) : list str :=
  [txt "  " ++ written_line (txt "Name") (quoted (name c));
   txt "  " ++ written_line (txt "Artist") (quoted (artist c))]
  ++ (if decide (album c <> [])
      then [txt "  " ++ written_line (txt "Album") (quoted (album c))] else [])
  ++ (if decide (genre c <> [])
      then [txt "  " ++ written_line (txt "Genre") (quoted (genre c))] else [])
  ++ (if decide (year c <> [])
      then [txt "  " ++ written_line (txt "Year") (quoted (year c))] else [])
  ++ (if decide (charter c <> [])
      then [txt "  " ++ written_line (txt "Charter") (quoted (charter c))] else [])
  ++ [txt "  " ++ written_line (txt "Offset") (float_repr (offset c));
      txt "  " ++ written_line (txt "Resolution") (str_of_int (resolution c))]
  ++ (if decide (0 <= difficulty c)
      then [txt "  " ++ written_line (txt "Difficulty") (str_of_int (difficulty c))] else [])
  ++ (if PyFloat.gt0 (preview_start c)
      then [txt "  " ++ written_line (txt "PreviewStart") (float_repr (preview_start c))]
      else [])
  ++ (if PyFloat.gt0 (preview_end c)
      then [txt "  " ++ written_line (txt "PreviewEnd") (float_repr (preview_end c))]
      else []).

Lemma song_lines_block (c : Chart) : song_lines float_repr c = block (txt "Song") (song_body c).
Proof. unfold song_lines, block, song_body. rewrite <- !app_assoc. reflexivity. Qed.

(** The lines of a section body: indented [key = value] lines. *)
Definition body_line (l : str) : Prop :=
  exists key value,
    l = txt "  " ++ written_line key value /\
    key <> [] /\ Forall (fun c => plain_char c = true) key /\ ends_solid value.

Lemma body_line_ok (l : str) :
  body_line l -> is_header (strip l) = false /\ kept_line (strip l) = true.
Proof.
  intros (key & value & -> & Hne & Hkey & Hval).
  rewrite strip_written_line by done. by apply written_line_not_header.
Qed.

Lemma body_lines_ok (name : str) (body : list str) :
  Forall body_line body -> block_ok (name, body).
Proof.
  intros H. unfold block_ok. cbn [snd].
  eapply Forall_impl; [exact H|]. apply body_line_ok.
Qed.

Lemma body_line_unbroken (c : ascii) (key value : str) :
  line_break c -> Forall (fun c => plain_char c = true) key -> c ∉ value ->
  c ∉ txt "  " ++ written_line key value.
Proof.
  intros [Hc Hsp] Hkey Hval [H|H]%elem_of_app.
  - apply elem_of_cons in H as [->|H]; [done|].
    apply list_elem_of_singleton in H as ->. done.
  - revert H. by apply written_line_chars.
Qed.

Lemma quoted_unbroken (c : ascii) (s : str) : line_break c -> c ∉ s -> c ∉ quoted s.
Proof.
  intros [Hc _] Hs. unfold quoted.
  intros [H|[H|H]%elem_of_app]%elem_of_app; [|done|];
    apply list_elem_of_singleton in H; by subst.
Qed.

Lemma plain_unbroken (c : ascii) (s : str) :
  line_break c -> Forall (fun c => plain_char c = true) s -> c ∉ s.
Proof.
  intros [Hc _] Hs Hin. apply plain_no_space in Hs.
  rewrite Forall_forall in Hs. specialize (Hs _ Hin). congruence.
Qed.

(** What the writer needs of the metadata. *)
Definition text_ok (s : str) : Prop := (nl ∉ s) /\ (cr ∉ s) /\ unquoted s.

Definition song_ok (c : Chart) : Prop :=
  text_ok (name c) /\ text_ok (artist c) /\ text_ok (album c) /\ text_ok (genre c) /\
  text_ok (year c) /\ text_ok (charter c) /\
  float_text_ok (offset c) /\
  (PyFloat.gt0 (preview_start c) = true -> float_text_ok (preview_start c)) /\
  (PyFloat.gt0 (preview_end c) = true -> float_text_ok (preview_end c)).

Lemma Forall_if_sumbool {A : Type} {P Q : Prop} (R : A -> Prop) (b : {P} + {Q}) (l : list A) :
  (P -> Forall R l) -> Forall R (if b then l else []).
Proof. destruct b; [auto|constructor]. Qed.

Lemma Forall_if_bool {A : Type} (R : A -> Prop) (b : bool) (l : list A) :
  (b = true -> Forall R l) -> Forall R (if b then l else []).
Proof. destruct b; [auto|constructor]. Qed.

Lemma song_body_lines (c : Chart) : song_ok c -> Forall body_line (song_body c).
Proof.
  intros (Hn & Ha & Hal & Hg & Hy & Hch & Ho & Hps & Hpe). unfold song_body.
  assert (Hq : forall key v, key <> [] -> Forall (fun c => plain_char c = true) key ->
                 body_line (txt "  " ++ written_line key (quoted v))).
  { intros key v ? ?. exists key, (quoted v). repeat split; try done. apply quoted_solid. }
  assert (Hf : forall key x, key <> [] -> Forall (fun c => plain_char c = true) key ->
                 float_text_ok x ->
                 body_line (txt "  " ++ written_line key (float_repr x))).
  { intros key x ? ? (Hne & Hpl & _). exists key, (float_repr x).
    repeat split; try done. by apply plain_solid. }
  assert (Hi : forall key z, key <> [] -> Forall (fun c => plain_char c = true) key ->
                 body_line (txt "  " ++ written_line key (str_of_int z))).
  { intros key z ? ?. exists key, (str_of_int z). repeat split; try done.
    apply str_of_int_ends. }
  repeat (apply Forall_app; split);
    try (apply Forall_if_sumbool; intros _);
    try (apply Forall_if_bool; intros Hgt);
    repeat constructor;
    first [ apply Hq; [done|by repeat constructor]
          | apply Hi; [done|by repeat constructor]
          | apply Hf; [done|by repeat constructor|auto] ].
Qed.

Lemma song_body_unbroken (ch : ascii) (c : Chart) :
  ch = nl \/ ch = cr -> song_ok c -> Forall (fun l => ch ∉ l) (song_body c).
Proof.
  intros Hch (Hn & Ha & Hal & Hg & Hy & Hc & Ho & Hps & Hpe).
  assert (Hbr : line_break ch) by (destruct Hch; by subst).
  assert (Ht : forall s, text_ok s -> ch ∉ s).
  { intros s (? & ? & _). destruct Hch; by subst. }
  assert (Hfl : forall x, float_text_ok x -> ch ∉ float_repr x).
  { intros x (_ & Hpl & _). by apply plain_unbroken. }
  unfold song_body.
  repeat (apply Forall_app; split);
    try (apply Forall_if_sumbool; intros _);
    try (apply Forall_if_bool; intros Hgt);
    repeat constructor;
    (apply body_line_unbroken; [done|by repeat constructor|]);
    first [ apply quoted_unbroken; [done|by apply Ht]
          | by apply str_of_int_unbroken
          | apply Hfl; auto ].
Qed.

End WrittenSongSection.

Section ReadSongSection.
Import ChartParser PyStr.
Variable float_of_str : str -> result spec_float.
Variable float_repr : spec_float -> str.

Lemma map_if_sumbool {A B : Type} {P Q : Prop} (f : A -> B) (b : {P} + {Q}) (l : list A) :
  map f (if b then l else []) = if b then map f l else [].
Proof. by destruct b. Qed.

Lemma map_if_bool {A B : Type} (f : A -> B) (b : bool) (l : list A) :
  map f (if b then l else []) = if b then map f l else [].
Proof. by destruct b. Qed.

Lemma for_each_opt_sumbool {A S : Type} {P Q : Prop} (b : {P} + {Q}) (x : A)
    (f : A -> S -> result S) (s s' : S) :
  (P -> f x s = Ok s') -> (Q -> s' = s) ->
  for_each (if b then [x] else []) f s = Ok s'.
Proof.
  intros H1 H2. destruct b as [p|q].
  - cbn [for_each]. by rewrite H1.
  - cbn [for_each]. by rewrite H2.
Qed.

Lemma for_each_opt_bool {A S : Type} (b : bool) (x : A)
    (f : A -> S -> result S) (s s' : S) :
  (b = true -> f x s = Ok s') -> (b = false -> s' = s) ->
  for_each (if b then [x] else []) f s = Ok s'.
Proof.
  intros H1 H2. destruct b.
  - cbn [for_each]. by rewrite H1.
  - cbn [for_each]. by rewrite H2.
Qed.

(** The default chart with the fields of the [Song] section set. *)
Definition song_fields (n a al g y ch : str) (off : spec_float) (res diff : Z)
    (ps pe : spec_float) : Chart :=
  with_song new_chart n a al g y ch off res diff ps pe.

(** What the [Song] section of a written chart reads back as. *)
Definition song_chart (c : Chart) : Chart :=
  song_fields (name c) (artist c) (album c)
    (if decide (genre c <> []) then genre c else txt "rock")
    (year c) (charter c) (offset c) (resolution c)
    (if decide (0 <= difficulty c) then difficulty c else -1)
    (if PyFloat.gt0 (preview_start c) then preview_start c else S754_zero false)
    (if PyFloat.gt0 (preview_end c) then preview_end c else S754_zero false).

Lemma strip_song_body (c : Chart) :
  song_ok float_of_str float_repr c ->
  map strip (song_body float_repr c)
  = [written_line (txt "Name") (quoted (name c));
     written_line (txt "Artist") (quoted (artist c))]
    ++ (if decide (album c <> []) then [written_line (txt "Album") (quoted (album c))] else [])
    ++ (if decide (genre c <> []) then [written_line (txt "Genre") (quoted (genre c))] else [])
    ++ (if decide (year c <> []) then [written_line (txt "Year") (quoted (year c))] else [])
    ++ (if decide (charter c <> [])
        then [written_line (txt "Charter") (quoted (charter c))] else [])
    ++ [written_line (txt "Offset") (float_repr (offset c));
        written_line (txt "Resolution") (str_of_int (resolution c))]
    ++ (if decide (0 <= difficulty c)
        then [written_line (txt "Difficulty") (str_of_int (difficulty c))] else [])
    ++ (if PyFloat.gt0 (preview_start c)
        then [written_line (txt "PreviewStart") (float_repr (preview_start c))] else [])
    ++ (if PyFloat.gt0 (preview_end c)
        then [written_line (txt "PreviewEnd") (float_repr (preview_end c))] else []).
Proof.
  intros Hok. pose proof (song_body_lines _ _ c Hok) as Hlines.
  assert (Hstrip : forall key value,
            body_line (txt "  " ++ written_line key value) ->
            strip (txt "  " ++ written_line key value) = written_line key value).
  { intros key value (k & v & Heq & Hne & Hk & Hv).
    rewrite Heq. rewrite strip_written_line by done.
    by apply (app_inv_head (txt "  ")) in Heq. }
  unfold song_body in *.
  repeat (apply Forall_app in Hlines as [? Hlines]).
  rewrite !map_app, !map_if_sumbool, !map_if_bool. cbn [map].
  repeat match goal with
         | H : Forall body_line (if ?b then _ else _) |- _ => destruct b
         end;
    repeat match goal with
           | H : Forall body_line (_ :: _) |- _ => apply Forall_cons in H as [? H]
           end;
    rewrite ?Hstrip by done; reflexivity.
Qed.

Lemma read_song_body (c : Chart) :
  song_ok float_of_str float_repr c ->
  for_each (map strip (song_body float_repr c))
    (assignment_step (song_step float_of_str)) new_chart
  = Ok (song_chart c).
Proof.
  intros Hok. rewrite strip_song_body by done.
  destruct Hok as ((_ & _ & Hn) & (_ & _ & Ha) & (_ & _ & Hal) & (_ & _ & Hg) &
                   (_ & _ & Hy) & (_ & _ & Hch) & (Hone & Hopl & Hopar) & Hps & Hpe).
  set (z0 := S754_zero false).
  set (g' := if decide (genre c <> []) then genre c else txt "rock").
  set (d' := if decide (0 <= difficulty c) then difficulty c else -1).
  set (ps' := if PyFloat.gt0 (preview_start c) then preview_start c else z0).
  set (pe' := if PyFloat.gt0 (preview_end c) then preview_end c else z0).
  set (f := assignment_step (song_step float_of_str)).
  assert (H1 : for_each [written_line (txt "Name") (quoted (name c));
                         written_line (txt "Artist") (quoted (artist c))] f new_chart
               = Ok (song_fields (name c) (artist c) [] (txt "rock") [] [] z0 192 (-1) z0 z0)).
  { cbn [for_each]. unfold f. rewrite song_name_line by done. simpl_bind.
    rewrite song_artist_line by done. reflexivity. }
  assert (H2 : for_each (if decide (album c <> [])
                         then [written_line (txt "Album") (quoted (album c))] else []) f
                 (song_fields (name c) (artist c) [] (txt "rock") [] [] z0 192 (-1) z0 z0)
               = Ok (song_fields (name c) (artist c) (album c) (txt "rock") [] []
                       z0 192 (-1) z0 z0)).
  { apply for_each_opt_sumbool.
    - intros _. unfold f. rewrite song_album_line by done. reflexivity.
    - intros Hnil. apply dec_stable in Hnil. by rewrite Hnil. }
  assert (H3 : for_each (if decide (genre c <> [])
                         then [written_line (txt "Genre") (quoted (genre c))] else []) f
                 (song_fields (name c) (artist c) (album c) (txt "rock") [] []
                    z0 192 (-1) z0 z0)
               = Ok (song_fields (name c) (artist c) (album c) g' [] [] z0 192 (-1) z0 z0)).
  { unfold g'. destruct (decide (genre c <> [])); cbn [for_each]; [|done].
    unfold f. rewrite song_genre_line by done. reflexivity. }
  assert (H4 : for_each (if decide (year c <> [])
                         then [written_line (txt "Year") (quoted (year c))] else []) f
                 (song_fields (name c) (artist c) (album c) g' [] [] z0 192 (-1) z0 z0)
               = Ok (song_fields (name c) (artist c) (album c) g' (year c) []
                       z0 192 (-1) z0 z0)).
  { apply for_each_opt_sumbool.
    - intros _. unfold f. rewrite song_year_line by done. reflexivity.
    - intros Hnil. apply dec_stable in Hnil. by rewrite Hnil. }
  assert (H5 : for_each (if decide (charter c <> [])
                         then [written_line (txt "Charter") (quoted (charter c))] else []) f
                 (song_fields (name c) (artist c) (album c) g' (year c) []
                    z0 192 (-1) z0 z0)
               = Ok (song_fields (name c) (artist c) (album c) g' (year c) (charter c)
                       z0 192 (-1) z0 z0)).
  { apply for_each_opt_sumbool.
    - intros _. unfold f. rewrite song_charter_line by done. reflexivity.
    - intros Hnil. apply dec_stable in Hnil. by rewrite Hnil. }
  assert (H6 : for_each [written_line (txt "Offset") (float_repr (offset c));
                         written_line (txt "Resolution") (str_of_int (resolution c))] f
                 (song_fields (name c) (artist c) (album c) g' (year c) (charter c)
                    z0 192 (-1) z0 z0)
               = Ok (song_fields (name c) (artist c) (album c) g' (year c) (charter c)
                       (offset c) (resolution c) (-1) z0 z0)).
  { cbn [for_each]. unfold f.
    rewrite (song_offset_line _ _ (offset c)) by done. simpl_bind.
    rewrite song_resolution_line. reflexivity. }
  assert (H7 : for_each (if decide (0 <= difficulty c)
                         then [written_line (txt "Difficulty") (str_of_int (difficulty c))]
                         else []) f
                 (song_fields (name c) (artist c) (album c) g' (year c) (charter c)
                    (offset c) (resolution c) (-1) z0 z0)
               = Ok (song_fields (name c) (artist c) (album c) g' (year c) (charter c)
                       (offset c) (resolution c) d' z0 z0)).
  { unfold d'. destruct (decide (0 <= difficulty c)); cbn [for_each]; [|done].
    unfold f. rewrite song_difficulty_line. reflexivity. }
  assert (H8 : for_each (if PyFloat.gt0 (preview_start c)
                         then [written_line (txt "PreviewStart")
                                 (float_repr (preview_start c))]
                         else []) f
                 (song_fields (name c) (artist c) (album c) g' (year c) (charter c)
                    (offset c) (resolution c) d' z0 z0)
               = Ok (song_fields (name c) (artist c) (album c) g' (year c) (charter c)
                       (offset c) (resolution c) d' ps' z0)).
  { unfold ps'. destruct (PyFloat.gt0 (preview_start c)); cbn [for_each]; [|done].
    destruct (Hps eq_refl) as (? & ? & ?).
    unfold f. rewrite (song_preview_start_line _ _ (preview_start c)) by done.
    reflexivity. }
  assert (H9 : for_each (if PyFloat.gt0 (preview_end c)
                         then [written_line (txt "PreviewEnd") (float_repr (preview_end c))]
                         else []) f
                 (song_fields (name c) (artist c) (album c) g' (year c) (charter c)
                    (offset c) (resolution c) d' ps' z0)
               = Ok (song_fields (name c) (artist c) (album c) g' (year c) (charter c)
                       (offset c) (resolution c) d' ps' pe')).
  { unfold pe'. destruct (PyFloat.gt0 (preview_end c)); cbn [for_each]; [|done].
    destruct (Hpe eq_refl) as (? & ? & ?).
    unfold f. rewrite (song_preview_end_line _ _ (preview_end c)) by done.
    reflexivity. }
  rewrite for_each_app, H1. simpl_bind.
  rewrite for_each_app, H2. simpl_bind.
  rewrite for_each_app, H3. simpl_bind.
  rewrite for_each_app, H4. simpl_bind.
  rewrite for_each_app, H5. simpl_bind.
  rewrite for_each_app, H6. simpl_bind.
  rewrite for_each_app, H7. simpl_bind.
  rewrite for_each_app, H8. simpl_bind.
  rewrite H9. reflexivity.
Qed.

End ReadSongSection.

Section WrittenSyncSection.
Import ChartParser PyStr.

Definition ts_le (x y : TimeSignature) : bool := ts_tick x <=? ts_tick y.
Definition bpm_le (x y : BPMChange) : bool := bpm_tick x <=? bpm_tick y.

Definition ts_text (num : Z) : str := txt "TS " ++ str_of_int num.
Definition bpm_text (m : Z) : str := txt "B " ++ str_of_int m.

(** The milli-BPM the writer prints for a tempo change. *)
Definition milli_of (b : BPMChange) : Z :=
  match milli_bpm b with Ok m => m | Raise _ => 0 end.

(** The tempo change the parser reads from the line written for [b]:
    [int(bpm * 1000) / 1000.0]. *)
Definition read_back_bpm (b : BPMChange) : result BPMChange :=
  m ← milli_bpm b;
  f ← PyFloat.of_int m;
  x ← PyFloat.div f (PyFloat.exact 1000);
  Ok (mkBPMChange (bpm_tick b) x).

Definition bpm_back (b : BPMChange) : BPMChange :=
  match read_back_bpm b with Ok b' => b' | Raise _ => b end.

(** The writer drops the denominator and the parser then takes 2. *)
Definition ts_back (ts : TimeSignature) : TimeSignature :=
  mkTimeSignature (ts_tick ts) (numerator ts) 2.

Definition sync_body (c : Chart) : list str :=
  map (fun ts => txt "  " ++ written_line (str_of_int (ts_tick ts)) (ts_text (numerator ts)))
    (py_sorted ts_le (time_signatures c))
  ++ map (fun b => txt "  " ++ written_line (str_of_int (bpm_tick b)) (bpm_text (milli_of b)))
       (py_sorted bpm_le (bpm_changes c)).

Lemma bpm_lines_loop (l : list BPMChange) (acc : list str) :
  Forall (fun b => exists b', read_back_bpm b = Ok b') l ->
  for_each l
    (fun b acc =>
       m ← milli_bpm b;
       Ok (acc ++ [txt "  " ++ str_of_int (bpm_tick b) ++ txt " = B " ++ str_of_int m]))
    acc
  = Ok (acc ++ map (fun b => txt "  " ++ written_line (str_of_int (bpm_tick b))
                                 (bpm_text (milli_of b))) l).
Proof.
  intros Hl. revert acc. induction Hl as [|b l [b' Hb] _ IH]; intros acc.
  { cbn. by rewrite app_nil_r. }
  cbn [for_each map]. unfold read_back_bpm in Hb.
  apply bind_Ok in Hb as (m & Hm & _). unfold milli_of at 1. rewrite Hm. simpl_bind.
  rewrite IH. by rewrite <- app_assoc.
Qed.

Lemma sync_lines_block (c : Chart) :
  Forall (fun b => exists b', read_back_bpm b = Ok b') (bpm_changes c) ->
  sync_lines c = Ok (block (txt "SyncTrack") (sync_body c)).
Proof.
  intros Hb. unfold sync_lines.
  change (fun x y : BPMChange => bpm_tick x <=? bpm_tick y) with bpm_le.
  rewrite bpm_lines_loop by (by rewrite py_sorted_perm). simpl_bind.
  unfold block, sync_body. cbn [app]. by rewrite <- !app_assoc.
Qed.

Lemma ts_text_solid (num : Z) : starts_solid (ts_text num) /\ ends_solid (ts_text num).
Proof.
  split.
  - by exists "T"%char, (txt "S " ++ str_of_int num).
  - apply ends_solid_app, str_of_int_ends.
Qed.

Lemma bpm_text_solid (m : Z) : starts_solid (bpm_text m) /\ ends_solid (bpm_text m).
Proof.
  split.
  - by exists "B"%char, (txt " " ++ str_of_int m).
  - apply ends_solid_app, str_of_int_ends.
Qed.

Lemma sync_step_fields (t : Z) (value : str) (c : Chart) :
  starts_solid value -> ends_solid value ->
  assignment_step sync_step (written_line (str_of_int t) value) c
    = (event_type ← getitem (split_ws value) 0;
       if decide (event_type = txt "B") then
         arg ← getitem (split_ws value) 1;
         milli ← py_int arg;
         m ← PyFloat.of_int milli;
         b ← PyFloat.div m (PyFloat.exact 1000);
         Ok (with_sync c (bpm_changes c ++ [mkBPMChange t b]) (time_signatures c))
       else if decide (event_type = txt "TS") then
         arg ← getitem (split_ws value) 1;
         num ← py_int arg;
         den ← (if decide (2 < length (split_ws value))%nat
                then arg2 ← getitem (split_ws value) 2; py_int arg2
                else Ok 2);
         Ok (with_sync c (bpm_changes c) (time_signatures c ++ [mkTimeSignature t num den]))
       else Ok c).
Proof.
  intros Hs He. unfold written_line.
  rewrite assignment_step_canonical
    by (first [apply str_of_int_nonempty | apply str_of_int_plain | done]).
  unfold sync_step.
  rewrite strip_key by (apply str_of_int_nonempty || apply str_of_int_plain).
  rewrite py_int_str_of_int. simpl_bind. by rewrite strip_value.
Qed.

Lemma read_ts_line (ts : TimeSignature) (c : Chart) :
  assignment_step sync_step
    (written_line (str_of_int (ts_tick ts)) (ts_text (numerator ts))) c
  = Ok (with_sync c (bpm_changes c) (time_signatures c ++ [ts_back ts])).
Proof.
  rewrite sync_step_fields by apply ts_text_solid.
  assert (Htok : split_ws (ts_text (numerator ts)) = [txt "TS"; str_of_int (numerator ts)]).
  { unfold ts_text. change (txt "TS " ++ ?x) with (txt "TS" ++ " "%char :: x).
    rewrite split_ws_token by (by repeat constructor).
    by rewrite split_ws_last by (apply str_of_int_nonempty || apply str_of_int_no_space). }
  rewrite Htok. cbn [getitem lookup list_lookup length]. simpl_bind.
  rewrite decide_False by str_ne. rewrite decide_True by done.
  rewrite py_int_str_of_int. simpl_bind.
  rewrite decide_False by lia. reflexivity.
Qed.

Lemma read_bpm_line (b b' : BPMChange) (c : Chart) :
  read_back_bpm b = Ok b' ->
  assignment_step sync_step
    (written_line (str_of_int (bpm_tick b)) (bpm_text (milli_of b))) c
  = Ok (with_sync c (bpm_changes c ++ [b']) (time_signatures c)).
Proof.
  intros Hb. rewrite sync_step_fields by apply bpm_text_solid.
  assert (Htok : split_ws (bpm_text (milli_of b)) = [txt "B"; str_of_int (milli_of b)]).
  { unfold bpm_text. change (txt "B " ++ ?x) with (txt "B" ++ " "%char :: x).
    rewrite split_ws_token by (by repeat constructor).
    by rewrite split_ws_last by (apply str_of_int_nonempty || apply str_of_int_no_space). }
  rewrite Htok. cbn [getitem lookup list_lookup]. simpl_bind.
  rewrite decide_True by done. rewrite py_int_str_of_int. simpl_bind.
  unfold read_back_bpm in Hb.
  apply bind_Ok in Hb as (m & Hm & Hb). unfold milli_of. rewrite Hm.
  apply bind_Ok in Hb as (f & -> & Hb). simpl_bind.
  apply bind_Ok in Hb as (x & -> & Hb). simpl_bind. by injection Hb as <-.
Qed.

Lemma read_ts_lines (l : list TimeSignature) (c : Chart)
    (bp : list BPMChange) (tss : list TimeSignature) :
  for_each
    (map (fun ts => written_line (str_of_int (ts_tick ts)) (ts_text (numerator ts))) l)
    (assignment_step sync_step) (with_sync c bp tss)
  = Ok (with_sync c bp (tss ++ map ts_back l)).
Proof.
  revert tss. induction l as [|ts l IH]; intros tss.
  { cbn. by rewrite app_nil_r. }
  cbn [map for_each]. rewrite read_ts_line. simpl_bind.
  change (with_sync (with_sync c bp tss) (bpm_changes (with_sync c bp tss))
            (time_signatures (with_sync c bp tss) ++ [ts_back ts]))
    with (with_sync c bp (tss ++ [ts_back ts])).
  rewrite IH. by rewrite <- app_assoc.
Qed.

Lemma read_bpm_lines (l : list BPMChange) (c : Chart)
    (bp : list BPMChange) (tss : list TimeSignature) :
  Forall (fun b => exists b', read_back_bpm b = Ok b') l ->
  for_each
    (map (fun b => written_line (str_of_int (bpm_tick b)) (bpm_text (milli_of b))) l)
    (assignment_step sync_step) (with_sync c bp tss)
  = Ok (with_sync c (bp ++ map bpm_back l) tss).
Proof.
  intros Hl. revert bp. induction Hl as [|b l [b' Hb] _ IH]; intros bp.
  { cbn. by rewrite app_nil_r. }
  cbn [map for_each]. rewrite (read_bpm_line b b') by done. simpl_bind.
  change (with_sync (with_sync c bp tss) (bpm_changes (with_sync c bp tss) ++ [b'])
            (time_signatures (with_sync c bp tss)))
    with (with_sync c (bp ++ [b']) tss).
  rewrite IH. unfold bpm_back at 2. rewrite Hb. by rewrite <- app_assoc.
Qed.

Lemma strip_sync_body (c : Chart) :
  map strip (sync_body c)
  = map (fun ts => written_line (str_of_int (ts_tick ts)) (ts_text (numerator ts)))
      (py_sorted ts_le (time_signatures c))
    ++ map (fun b => written_line (str_of_int (bpm_tick b)) (bpm_text (milli_of b)))
         (py_sorted bpm_le (bpm_changes c)).
Proof.
  unfold sync_body. rewrite map_app, !map_map. f_equal; apply map_ext; intros x;
    (apply strip_written_line; [apply str_of_int_nonempty|apply str_of_int_plain|]).
  - apply ts_text_solid.
  - apply bpm_text_solid.
Qed.

Lemma read_sync_body (c c0 : Chart) :
  Forall (fun b => exists b', read_back_bpm b = Ok b') (bpm_changes c) ->
  for_each (map strip (sync_body c)) (assignment_step sync_step) (with_sync c0 [] [])
  = Ok (with_sync c0 (map bpm_back (py_sorted bpm_le (bpm_changes c)))
          (map ts_back (py_sorted ts_le (time_signatures c)))).
Proof.
  intros Hb. rewrite strip_sync_body, for_each_app, read_ts_lines. simpl_bind.
  rewrite read_bpm_lines by (by rewrite py_sorted_perm). reflexivity.
Qed.

Lemma sync_body_lines (c : Chart) : Forall body_line (sync_body c).
Proof.
  unfold sync_body. apply Forall_app. split; apply Forall_forall; intros l Hl;
    change (map ?f ?x) with (f <$> x) in Hl;
    apply list_elem_of_fmap in Hl as (x & -> & _); eexists _, _;
    (split; [reflexivity|]);
    (split; [apply str_of_int_nonempty|]); (split; [apply str_of_int_plain|]).
  - apply ts_text_solid.
  - apply bpm_text_solid.
Qed.

Lemma sync_body_unbroken (ch : ascii) (c : Chart) :
  line_break ch -> Forall (fun l => ch ∉ l) (sync_body c).
Proof.
  intros Hch. unfold sync_body. apply Forall_app. split; apply Forall_forall; intros l Hl;
    change (map ?f ?x) with (f <$> x) in Hl;
    apply list_elem_of_fmap in Hl as (x & -> & _);
    (apply body_line_unbroken; [done|apply str_of_int_plain|]).
  - unfold ts_text. intros [H|H]%elem_of_app; [|by apply str_of_int_unbroken in H].
    destruct Hch as [Hc Hsp].
    repeat (apply elem_of_cons in H as [->|H]; [done|]). by apply elem_of_nil in H.
  - unfold bpm_text. intros [H|H]%elem_of_app; [|by apply str_of_int_unbroken in H].
    destruct Hch as [Hc Hsp].
    repeat (apply elem_of_cons in H as [->|H]; [done|]). by apply elem_of_nil in H.
Qed.

End WrittenSyncSection.

Section WrittenEventsSection.
Import ChartParser PyStr.

Lemma startswith_app (p s : str) : startswith (p ++ s) p = true.
Proof.
  induction p as [|a p IH]; [apply startswith_nil|].
  cbn [app startswith]. by rewrite bool_decide_true, IH.
Qed.

Lemma startswith_prefix_app (p s q : str) :
  startswith (p ++ s) (p ++ q) = startswith s q.
Proof.
  induction p as [|a p IH]; [done|].
  cbn [app startswith]. by rewrite bool_decide_true, IH.
Qed.

Lemma startswith_snoc (s p : str) (c : ascii) :
  c ∉ p -> startswith (s ++ [c]) p = startswith s p.
Proof.
  revert s. induction p as [|a p IH]; intros s Hc; [by rewrite !startswith_nil|].
  apply not_elem_of_cons in Hc as [Hca Hcp].
  destruct s as [|b s]; cbn [app startswith].
  - by rewrite bool_decide_false by congruence.
  - by rewrite IH.
Qed.

Lemma remove_all_go_fuel (old : str) (f1 f2 : nat) (s : str) :
  old <> [] -> (length s < f1)%nat -> (length s < f2)%nat ->
  remove_all_go f1 old s = remove_all_go f2 old s.
Proof.
  intros Hold. revert f2 s. induction f1 as [|f1 IH]; intros f2 s H1 H2; [lia|].
  destruct f2 as [|f2]; [lia|]. cbn [remove_all_go].
  destruct (startswith s old) eqn:Hstart.
  - assert (Hs : s <> []).
    { intros ->. destruct old; [done|discriminate Hstart]. }
    assert (Hlen : (0 < length old)%nat) by (destruct old; [done|cbn; lia]).
    assert (Hlen' : (0 < length s)%nat) by (destruct s; [done|cbn; lia]).
    apply IH; rewrite length_drop; lia.
  - destruct s as [|c s]; [done|]. f_equal. cbn [length] in H1, H2. apply IH; lia.
Qed.

(** [(old + s).replace(old, "")] is [s.replace(old, "")]. *)
Lemma remove_all_prefix (old s : str) :
  old <> [] -> remove_all old (old ++ s) = remove_all old s.
Proof.
  intros Hold. unfold remove_all.
  transitivity (remove_all_go (length (old ++ s)) old s).
  - cbn [remove_all_go]. by rewrite startswith_app, drop_app_length.
  - apply remove_all_go_fuel; [done| |lia].
    rewrite length_app. destruct old; [done|cbn; lia].
Qed.

Definition sec_le (x y : ChartSection) : bool := section_tick x <=? section_tick y.

Definition section_text (sec : ChartSection) : str :=
  event_text_line (txt "section " ++ section_name sec).

Definition section_line (sec : ChartSection) : str :=
  written_line (str_of_int (section_tick sec)) (section_text sec).

Definition events_body (c : Chart) : list str :=
  map (fun sec => txt "  " ++ section_line sec) (py_sorted sec_le (sections c))
  ++ map event_line (py_sorted event_le (events c)).

Lemma events_lines_block (c : Chart) :
  events_lines c = block (txt "Events") (events_body c).
Proof. unfold events_lines, block, events_body. rewrite <- !app_assoc. reflexivity. Qed.

(** The section the parser reads from the line written for [sec]. *)
Definition section_back (sec : ChartSection) : ChartSection :=
  mkChartSection (section_tick sec) (remove_all (txt "section ") (section_name sec)).

Lemma events_step_fields (t : Z) (value : str) (c : Chart) :
  starts_solid value -> ends_solid value ->
  assignment_step events_step (written_line (str_of_int t) value) c
    = (if startswith value (txt "E " ++ [dq] ++ txt "section") then
         quoted ← getitem (split_on dq value) 1;
         Ok (with_events c
               (sections c ++ [mkChartSection t (remove_all (txt "section ") quoted)])
               (events c))
       else
         Ok (with_events c (sections c)
               (events c ++ [mkEvent t (strip_chars [dq] (strip_chars (txt "E ") value))]))).
Proof.
  intros Hs He. unfold written_line.
  rewrite assignment_step_canonical
    by (first [apply str_of_int_nonempty | apply str_of_int_plain | done]).
  unfold events_step.
  rewrite strip_key by (apply str_of_int_nonempty || apply str_of_int_plain).
  rewrite py_int_str_of_int. simpl_bind. by rewrite strip_value.
Qed.

Lemma read_section_line (sec : ChartSection) (c : Chart) :
  dq ∉ section_name sec ->
  assignment_step events_step (section_line sec) c
  = Ok (with_events c (sections c ++ [section_back sec]) (events c)).
Proof.
  intros Hdq. unfold section_line.
  rewrite events_step_fields by apply event_text_solid.
  assert (Hpre : section_text sec
                 = (txt "E " ++ [dq] ++ txt "section")
                     ++ (txt " " ++ section_name sec ++ [dq])) by reflexivity.
  rewrite Hpre at 1. rewrite startswith_app.
  assert (Hsplit : section_text sec
                   = txt "E " ++ dq :: (txt "section " ++ section_name sec) ++ dq :: [])
    by reflexivity.
  rewrite Hsplit. rewrite split_on_app_sep by by_compute.
  rewrite split_on_app_sep.
  2:{ intros [H|H]%elem_of_app; [|done]. revert H. by_compute. }
  cbn [getitem lookup list_lookup]. simpl_bind.
  rewrite remove_all_prefix by done. reflexivity.
Qed.

Lemma read_event_line (e : Event) (c : Chart) :
  unquoted (event_text e) -> startswith (event_text e) (txt "section") = false ->
  assignment_step events_step (canonical_event_line e) c
  = Ok (with_events c (sections c) (events c ++ [e])).
Proof.
  intros Hunq Hns. unfold canonical_event_line.
  rewrite events_step_fields by apply event_text_solid.
  assert (Hpre : startswith (event_text_line (event_text e))
                   (txt "E " ++ [dq] ++ txt "section") = false).
  { change (event_text_line (event_text e))
      with ((txt "E " ++ [dq]) ++ (event_text e ++ [dq])).
    change (txt "E " ++ [dq] ++ txt "section") with ((txt "E " ++ [dq]) ++ txt "section").
    rewrite startswith_prefix_app, startswith_snoc by by_compute. exact Hns. }
  rewrite Hpre.
  assert (Hstrip : strip_chars (txt "E ") (event_text_line (event_text e))
                   = quoted (event_text e)).
  { unfold strip_chars, event_text_line.
    rewrite <- (app_nil_r (quoted (event_text e))) at 1.
    apply strip_by_around.
    - by repeat constructor.
    - constructor.
    - by apply tight_ends.
    - done. }
  rewrite Hstrip, strip_chars_quoted by done. by destruct e.
Qed.

Lemma read_section_lines (l : list ChartSection) (c : Chart)
    (secs : list ChartSection) (evs : list Event) :
  Forall (fun sec => dq ∉ section_name sec) l ->
  for_each (map section_line l) (assignment_step events_step) (with_events c secs evs)
  = Ok (with_events c (secs ++ map section_back l) evs).
Proof.
  intros Hl. revert secs. induction Hl as [|sec l Hsec _ IH]; intros secs.
  { cbn. by rewrite app_nil_r. }
  cbn [map for_each]. rewrite read_section_line by done. simpl_bind.
  change (with_events (with_events c secs evs)
            (sections (with_events c secs evs) ++ [section_back sec])
            (events (with_events c secs evs)))
    with (with_events c (secs ++ [section_back sec]) evs).
  rewrite IH. by rewrite <- app_assoc.
Qed.

Lemma read_event_lines (l : list Event) (c : Chart)
    (secs : list ChartSection) (evs : list Event) :
  Forall (fun e => unquoted (event_text e) /\
                   startswith (event_text e) (txt "section") = false) l ->
  for_each (map canonical_event_line l) (assignment_step events_step)
    (with_events c secs evs)
  = Ok (with_events c secs (evs ++ l)).
Proof.
  intros Hl. revert evs. induction Hl as [|e l [He1 He2] _ IH]; intros evs.
  { cbn. by rewrite app_nil_r. }
  cbn [map for_each]. rewrite read_event_line by done. simpl_bind.
  change (with_events (with_events c secs evs) (sections (with_events c secs evs))
            (events (with_events c secs evs) ++ [e]))
    with (with_events c secs (evs ++ [e])).
  rewrite IH. by rewrite <- app_assoc.
Qed.

(** What the writer needs of the section markers and the global events. *)
Definition marker_ok (sec : ChartSection) : Prop :=
  (nl ∉ section_name sec) /\ (cr ∉ section_name sec) /\ (dq ∉ section_name sec).

Definition global_event_ok (e : Event) : Prop :=
  (nl ∉ event_text e) /\ (cr ∉ event_text e) /\ unquoted (event_text e) /\
  startswith (event_text e) (txt "section") = false.

Lemma strip_events_body (c : Chart) :
  map strip (events_body c)
  = map section_line (py_sorted sec_le (sections c))
    ++ map canonical_event_line (py_sorted event_le (events c)).
Proof.
  unfold events_body. rewrite map_app, !map_map. f_equal; apply map_ext; intros x.
  - apply strip_written_line;
      [apply str_of_int_nonempty|apply str_of_int_plain|apply event_text_solid].
  - apply strip_event_line.
Qed.

Lemma read_events_body (c c0 : Chart) :
  Forall marker_ok (sections c) -> Forall global_event_ok (events c) ->
  for_each (map strip (events_body c)) (assignment_step events_step)
    (with_events c0 [] [])
  = Ok (with_events c0 (map section_back (py_sorted sec_le (sections c)))
          (py_sorted event_le (events c))).
Proof.
  intros Hsecs Hevs. rewrite strip_events_body, for_each_app.
  rewrite read_section_lines.
  2:{ rewrite py_sorted_perm. eapply Forall_impl; [exact Hsecs|]. by intros sec (_ & _ & ?). }
  simpl_bind. rewrite read_event_lines.
  2:{ rewrite py_sorted_perm. eapply Forall_impl; [exact Hevs|].
      by intros e (_ & _ & ? & ?). }
  reflexivity.
Qed.

Lemma events_body_lines (c : Chart) : Forall body_line (events_body c).
Proof.
  unfold events_body. apply Forall_app. split; apply Forall_forall; intros l Hl;
    change (map ?f ?x) with (f <$> x) in Hl;
    apply list_elem_of_fmap in Hl as (x & -> & _).
  - exists (str_of_int (section_tick x)), (section_text x).
    split; [reflexivity|]. split; [apply str_of_int_nonempty|].
    split; [apply str_of_int_plain|apply event_text_solid].
  - exists (str_of_int (event_tick x)), (event_text_line (event_text x)).
    split; [reflexivity|]. split; [apply str_of_int_nonempty|].
    split; [apply str_of_int_plain|apply event_text_solid].
Qed.

Lemma events_body_unbroken (ch : ascii) (c : Chart) :
  ch = nl \/ ch = cr ->
  Forall marker_ok (sections c) -> Forall global_event_ok (events c) ->
  Forall (fun l => ch ∉ l) (events_body c).
Proof.
  intros Hch Hsecs Hevs.
  assert (Hbr : line_break ch) by (destruct Hch; by subst).
  unfold events_body. apply Forall_app. split; apply Forall_forall; intros l Hl;
    change (map ?f ?x) with (f <$> x) in Hl;
    apply list_elem_of_fmap in Hl as (x & -> & Hx).
  - rewrite py_sorted_perm in Hx. rewrite Forall_forall in Hsecs.
    destruct (Hsecs x Hx) as (Hnl & Hcr & _).
    apply written_line_unbroken; [done|]. apply event_text_unbroken; [done|].
    intros [H|H]%elem_of_app.
    + destruct Hbr as [Hc Hsp].
      repeat (apply elem_of_cons in H as [->|H]; [done|]). by apply elem_of_nil in H.
    + destruct Hch; by subst.
  - rewrite py_sorted_perm in Hx. rewrite Forall_forall in Hevs.
    destruct (Hevs x Hx) as (Hnl & Hcr & _).
    change (event_line x) with (txt "  " ++ canonical_event_line x).
    apply written_line_unbroken; [done|]. apply event_text_unbroken; [done|].
    destruct Hch; by subst.
Qed.





(** The lines of the section are whole lines as soon as no marker name and
    no event text holds a line break. *)
Lemma events_body_no_break (ch : ascii) (c : Chart) :
  ch = nl \/ ch = cr ->
  Forall (fun sec => ch ∉ section_name sec) (sections c) ->
  Forall (fun e => ch ∉ event_text e) (events c) ->
  Forall (fun l => ch ∉ l) (events_body c).
Proof.
  intros Hch Hsecs Hevs.
  assert (Hbr : line_break ch) by (destruct Hch; by subst).
  unfold events_body. apply Forall_app. split; apply Forall_forall; intros l Hl;
    change (map ?f ?x) with (f <$> x) in Hl;
    apply list_elem_of_fmap in Hl as (x & -> & Hx).
  - rewrite py_sorted_perm in Hx. rewrite Forall_forall in Hsecs.
    apply written_line_unbroken; [done|]. apply event_text_unbroken; [done|].
    intros [H|H]%elem_of_app; [|by apply (Hsecs x Hx)].
    destruct Hbr as [Hc Hsp].
    repeat (apply elem_of_cons in H as [->|H]; [done|]). by apply elem_of_nil in H.
  - rewrite py_sorted_perm in Hx. rewrite Forall_forall in Hevs.
    change (event_line x) with (txt "  " ++ canonical_event_line x).
    apply written_line_unbroken; [done|]. apply event_text_unbroken; [done|].
    by apply Hevs.
Qed.

End WrittenEventsSection.

Section WrittenTracksSection.
Import ChartParser PyStr.

(** The slots of [_write_tracks] in the order it visits them, each with
    the section name it writes. *)
Definition track_slots : list (Instrument * Difficulty * str) :=
  concat (map (fun ik : Instrument * str =>
    map (fun dk : Difficulty * str => (ik.1, dk.1, dk.2 ++ ik.2)) written_difficulties)
    written_instruments).

Definition slot_block (c : Chart) (s : Instrument * Difficulty * str)
    : list (str * list str) :=
  match get_track c s.1.1 s.1.2 with
  | Some t => [(s.2, track_body t)]
  | None => []
  end.

Definition track_blocks (c : Chart) : list (str * list str) :=
  concat (map (slot_block c) track_slots).

Lemma slot_lines_blocks (c : Chart) (slots : list (Instrument * Difficulty * str)) :
  concat (map (fun s : Instrument * Difficulty * str =>
                 match get_track c s.1.1 s.1.2 with
                 | Some t => track_lines s.2 t
                 | None => []
                 end) slots)
  = concat (map (fun b : str * list str => block b.1 b.2)
              (concat (map (slot_block c) slots))).
Proof.
  induction slots as [|s slots IH]; [done|].
  cbn [map concat]. rewrite map_app, concat_app, IH. f_equal.
  unfold slot_block. destruct (get_track c s.1.1 s.1.2) as [t|]; [|done].
  cbn [map concat fst snd]. by rewrite app_nil_r, track_lines_block.
Qed.

Lemma write_tracks_slots (c : Chart) :
  _write_tracks c
  = concat (map (fun s : Instrument * Difficulty * str =>
                   match get_track c s.1.1 s.1.2 with
                   | Some t => track_lines s.2 t
                   | None => []
                   end) track_slots).
Proof.
  unfold _write_tracks, track_slots, written_instruments, written_difficulties.
  cbn [map concat app fst snd]. rewrite ?app_nil_r, <- ?app_assoc. reflexivity.
Qed.

(** What the two tables of the parser make of the names the writer uses. *)
Definition slot_ok (s : Instrument * Difficulty * str) : Prop :=
  s.2 <> [] /\ (nl ∉ s.2) /\ (cr ∉ s.2) /\
  s.2 <> txt "Song" /\ s.2 <> txt "SyncTrack" /\ s.2 <> txt "Events" /\
  find_track s.2 difficulty_map = (Some s.1.2, Some s.1.1) /\ s.1.1 <> COOP.

Lemma track_slots_ok : Forall slot_ok track_slots.
Proof. unfold slot_ok. by_compute. Qed.

Lemma track_slots_names :
  NoDup (txt "Song" :: txt "SyncTrack" :: txt "Events" :: map snd track_slots).
Proof. by_compute. Qed.

Lemma track_slots_keys : NoDup (map fst track_slots).
Proof. by_compute. Qed.

Lemma track_slots_all (i : Instrument) (d : Difficulty) :
  i <> COOP -> (i, d) ∈ map fst track_slots.
Proof. intros Hi. destruct i, d; try done; by_compute. Qed.

Lemma slot_blocks_Forall (P : str * list str -> Prop) (c : Chart)
    (slots : list (Instrument * Difficulty * str)) :
  (forall s t, s ∈ slots -> get_track c s.1.1 s.1.2 = Some t -> P (s.2, track_body t)) ->
  Forall P (concat (map (slot_block c) slots)).
Proof.
  induction slots as [|s slots IH]; intros H; [constructor|].
  cbn [map concat]. apply Forall_app. split.
  - unfold slot_block. destruct (get_track c s.1.1 s.1.2) as [t|] eqn:Ht; [|constructor].
    repeat constructor. apply H; [left|done].
  - apply IH. intros s' t Hs'. apply H. by right.
Qed.

Lemma slot_blocks_names (c : Chart) (slots : list (Instrument * Difficulty * str)) :
  (concat (map (slot_block c) slots)).*1 `sublist_of` map snd slots.
Proof.
  induction slots as [|s slots IH]; [constructor|].
  cbn [map concat]. rewrite fmap_app. unfold slot_block at 1.
  destruct (get_track c s.1.1 s.1.2) as [t|].
  - cbn [fmap list_fmap app fst]. by apply sublist_skip.
  - cbn [fmap list_fmap app]. by apply sublist_cons.
Qed.

(** What the writer needs of a track. *)
Definition track_ok (t : Track) : Prop :=
  NoDup (map note_key (notes t)) /\
  Forall (fun n => fret n <> FORCED /\ fret n <> TAP) (notes t) /\
  Forall (fun e => (nl ∉ event_text e) /\ (cr ∉ event_text e)) (track_events t).

(** The track read from the lines written for [t]. *)
Definition parsed_track (t : Track) : Track :=
  match parse_track_lines (join [nl] (map strip (track_body t))) with
  | Ok t' => t'
  | Raise _ => empty_track
  end.

Lemma track_body_reads_back (t : Track) :
  track_ok t ->
  parse_track_lines (join [nl] (map strip (track_body t))) = Ok (parsed_track t) /\
  notes (parsed_track t)
    = map (read_back (py_sorted note_le (notes t))) (py_sorted note_le (notes t)) /\
  star_power (parsed_track t) = py_sorted sp_le (star_power t) /\
  map event_tick (track_events (parsed_track t))
    = map event_tick (py_sorted event_le (track_events t)).
Proof.
  intros (Hnd & Hfrets & Hev).
  destruct (read_canonical_track_body t Hnd Hfrets) as (evs' & Hrun & Hticks).
  assert (Hparse : parse_track_lines (join [nl] (map strip (track_body t)))
                   = Ok (foldl add_note (mkTrack [] (py_sorted sp_le (star_power t)) evs')
                           (buffer_notes (foldl note_effects []
                                            (py_sorted note_le (notes t)))))).
  { unfold parse_track_lines. rewrite for_each_assignment_join.
    2:{ apply strip_unbroken. apply track_body_unbroken; [apply line_break_nl|].
        eapply Forall_impl; [exact Hev|]. by intros e [? _]. }
    rewrite strip_track_body, Hrun. simpl_bind. reflexivity. }
  unfold parsed_track. rewrite Hparse. split; [done|]. split; [|split].
  - apply flush_written_notes; [done|by apply py_sorted_strict|by rewrite py_sorted_perm].
  - by rewrite (proj1 (foldl_add_note_rest _ _)).
  - rewrite (proj2 (foldl_add_note_rest _ _)). exact Hticks.
Qed.

(** [set_track] and [get_track] on the instruments that have a table. *)
Lemma get_set_track (c : Chart) (i i' : Instrument) (d d' : Difficulty) (t : Track) :
  i <> COOP ->
  get_track (set_track c i d t) i' d'
    = if decide ((i, d) = (i', d')) then Some t else get_track c i' d'.
Proof.
  intros Hi. unfold get_track, set_track.
  destruct (decide ((i, d) = (i', d'))) as [[= <- <-]|Hne].
  - destruct i; try done; cbn; apply lookup_insert_eq.
  - destruct (decide (i = i')) as [<-|Hii].
    + destruct i; try done; cbn; rewrite decide_True by done;
        (rewrite lookup_insert_ne; [done|]; intros <-; by apply Hne).
    + destruct i, i'; try done.
Qed.

(** Two charts with the same fields apart from the tracks. *)
Definition same_meta (a b : Chart) : Prop :=
  name a = name b /\ artist a = artist b /\ album a = album b /\ genre a = genre b /\
  year a = year b /\ charter a = charter b /\ offset a = offset b /\
  resolution a = resolution b /\ difficulty a = difficulty b /\
  preview_start a = preview_start b /\ preview_end a = preview_end b /\
  bpm_changes a = bpm_changes b /\ time_signatures a = time_signatures b /\
  sections a = sections b /\ events a = events b.

Definition store_slot (c : Chart) (acc : Chart) (s : Instrument * Difficulty * str) : Chart :=
  match get_track c s.1.1 s.1.2 with
  | Some t => set_track acc s.1.1 s.1.2 (parsed_track t)
  | None => acc
  end.

Lemma meta_stored (c base : Chart) (slots : list (Instrument * Difficulty * str)) :
  same_meta (foldl (store_slot c) base slots) base.
Proof.
  revert base. induction slots as [|s slots IH]; intros base; [by repeat split|].
  cbn [foldl]. specialize (IH (store_slot c base s)).
  assert (Hs : same_meta (store_slot c base s) base).
  { unfold store_slot. destruct (get_track c s.1.1 s.1.2); by repeat split. }
  unfold same_meta in *.
  destruct IH as (? & ? & ? & ? & ? & ? & ? & ? & ? & ? & ? & ? & ? & ? & ?).
  destruct Hs as (? & ? & ? & ? & ? & ? & ? & ? & ? & ? & ? & ? & ? & ? & ?).
  repeat split; congruence.
Qed.

Lemma get_track_stored (c base : Chart) (slots : list (Instrument * Difficulty * str))
    (i : Instrument) (d : Difficulty) :
  NoDup (map fst slots) -> Forall slot_ok slots ->
  get_track (foldl (store_slot c) base slots) i d
    = if decide ((i, d) ∈ map fst slots)
      then match get_track c i d with
           | Some t => Some (parsed_track t)
           | None => get_track base i d
           end
      else get_track base i d.
Proof.
  intros Hnd Hok. revert base Hnd.
  induction Hok as [|[[i0 d0] n0] slots Hs _ IH]; intros base Hnd.
  { cbn [foldl map]. by rewrite decide_False by apply not_elem_of_nil. }
  cbn [map fst] in Hnd. apply NoDup_cons in Hnd as [Hfresh Hnd].
  assert (Hi0 : i0 <> COOP) by apply Hs.
  cbn [foldl map fst]. rewrite IH by done.
  assert (Hother : (i0, d0) <> (i, d) ->
                   get_track (store_slot c base (i0, d0, n0)) i d = get_track base i d).
  { intros Hne. unfold store_slot. cbn [fst snd].
    destruct (get_track c i0 d0); [|done].
    by rewrite get_set_track, decide_False. }
  destruct (decide ((i, d) ∈ map fst slots)) as [Hin|Hnin].
  - rewrite decide_True by (by right).
    rewrite Hother by (intros [= -> ->]; done). done.
  - destruct (decide ((i0, d0) = (i, d))) as [[= -> ->]|Hne].
    + rewrite decide_True by left. unfold store_slot. cbn [fst snd].
      destruct (get_track c i d); [|done].
      by rewrite get_set_track, decide_True.
    + rewrite decide_False.
      2:{ intros [?|?]%elem_of_cons; [by apply Hne|done]. }
      by apply Hother.
Qed.

End WrittenTracksSection.

Section WrittenFile.
Import ChartParser PyStr.
Variable float_of_str : str -> result spec_float.
Variable float_repr : spec_float -> str.

(** The body of the loop of [parse_file]. *)
Definition parse_section (kv : str * str) (chart : Chart) : result Chart :=
  let '(section_name, section_content) := kv in
  if decide (section_name = txt "Song")
  then _parse_song_section float_of_str chart section_content
  else if decide (section_name = txt "SyncTrack") then _parse_sync_track chart section_content
  else if decide (section_name = txt "Events") then _parse_events chart section_content
  else _parse_track_section chart section_name section_content.

(** A section of the file as the splitter hands it over. *)
Definition sect (b : str * list str) : str * str := (b.1, join [nl] (map strip b.2)).

(** What [write_file] needs of a chart for the file to read back. *)
Definition chart_writable (c : Chart) : Prop :=
  song_ok float_of_str float_repr c /\
  Forall (fun b => exists b', read_back_bpm b = Ok b') (bpm_changes c) /\
  Forall marker_ok (sections c) /\
  Forall global_event_ok (events c) /\
  (forall i d t, get_track c i d = Some t -> track_ok t).

Lemma blocks_unbroken (ch : ascii) (blocks : list (str * list str)) :
  isspace ch = true ->
  Forall (fun b : str * list str => (ch ∉ b.1) /\ Forall (fun l => ch ∉ l) b.2) blocks ->
  Forall (fun l => ch ∉ l) (concat (map (fun b : str * list str => block b.1 b.2) blocks)).
Proof.
  intros Hch. induction 1 as [|b blocks [Hname Hbody] _ IH]; [constructor|].
  cbn [map concat]. apply Forall_app. split; [by apply block_lines|done].
Qed.

Lemma read_track_blocks (c base : Chart) (slots : list (Instrument * Difficulty * str)) :
  Forall slot_ok slots ->
  (forall i d t, get_track c i d = Some t -> track_ok t) ->
  for_each (map sect (concat (map (slot_block c) slots))) parse_section base
  = Ok (foldl (store_slot c) base slots).
Proof.
  intros Hok Htracks. revert base.
  induction Hok as [|s slots Hs _ IH]; intros base; [done|].
  cbn [map concat foldl]. rewrite map_app, for_each_app.
  assert (Hstep : for_each (map sect (slot_block c s)) parse_section base
                  = Ok (store_slot c base s)).
  { unfold slot_block, store_slot.
    destruct (get_track c s.1.1 s.1.2) as [t|] eqn:Ht; [|done].
    destruct Hs as (_ & _ & _ & Hsong & Hsync & Hevents & Hfind & _).
    cbn [map for_each]. unfold sect, parse_section. cbn [fst snd].
    rewrite !decide_False by done.
    unfold _parse_track_section. rewrite Hfind.
    destruct (track_body_reads_back t (Htracks _ _ _ Ht)) as [-> _].
    reflexivity. }
  rewrite Hstep. simpl_bind. apply IH.
Qed.

Lemma bpm_back_reads (l : list BPMChange) :
  Forall (fun b => exists b', read_back_bpm b = Ok b') l ->
  Forall2 (fun b b' => read_back_bpm b = Ok b') l (map bpm_back l).
Proof.
  induction 1 as [|b l [b' Hb] _ IH]; cbn [map]; constructor; [|done].
  unfold bpm_back. by rewrite Hb.
Qed.

(** What [write_file] needs of a chart for [parse_file] to return on the
    file: as [chart_writable], but of the marker names and the texts of the
    global events only that they hold no line break. *)
Definition chart_printable (c : Chart) : Prop :=
  song_ok float_of_str float_repr c /\
  Forall (fun b => exists b', read_back_bpm b = Ok b') (bpm_changes c) /\
  Forall (fun sec => (nl ∉ section_name sec) /\ (cr ∉ section_name sec)) (sections c) /\
  Forall (fun e => (nl ∉ event_text e) /\ (cr ∉ event_text e)) (events c) /\
  (forall i d t, get_track c i d = Some t -> track_ok t).

Lemma chart_writable_printable (c : Chart) : chart_writable c -> chart_printable c.
Proof.
  intros (Hsong & Hbpm & Hsecs & Hevs & Htracks).
  split; [done|]. split; [done|]. split; [|split; [|done]].
  - eapply Forall_impl; [exact Hsecs|]. by intros sec (? & ? & _).
  - eapply Forall_impl; [exact Hevs|]. by intros e (? & ? & _).
Qed.

(** The chart after the [Song] and [SyncTrack] sections of the written file
    have been read. *)
Definition synced_chart (c : Chart) : Chart :=
  with_sync (song_chart c)
    (map bpm_back (py_sorted bpm_le (bpm_changes c)))
    (map ts_back (py_sorted ts_le (time_signatures c))).

(** The file written for [c] is read section by section: [Song],
    [SyncTrack], [Events], then the tracks in the order of the writer. *)
Lemma written_chart_parses (c : Chart) (secs : list ChartSection) (evs : list Event) :
  chart_printable c ->
  for_each (map strip (events_body c)) (assignment_step events_step) (synced_chart c)
    = Ok (with_events (synced_chart c) secs evs) ->
  exists text,
    write_file float_repr c = Ok text /\
    parse_file float_of_str text
      = Ok (foldl (store_slot c) (with_events (synced_chart c) secs evs) track_slots).
Proof.
  intros (Hsong & Hbpm & Hsecs & Hevs & Htracks) Hread.
  set (blocks := (txt "SyncTrack", sync_body c) :: (txt "Events", events_body c)
                   :: track_blocks c).
  set (lines := concat (map (fun b : str * list str => block b.1 b.2)
                          ((txt "Song", song_body float_repr c) :: blocks))).
  set (base := with_events (synced_chart c) secs evs).
  assert (Hwrite : write_file float_repr c = Ok (join [nl] lines)).
  { unfold write_file. rewrite sync_lines_block by done. simpl_bind.
    rewrite song_lines_block, events_lines_block, write_tracks_slots, slot_lines_blocks.
    reflexivity. }
  assert (Hok : Forall block_ok ((txt "Song", song_body float_repr c) :: blocks)).
  { constructor; [by eapply body_lines_ok, song_body_lines|].
    constructor; [apply body_lines_ok, sync_body_lines|].
    constructor; [apply body_lines_ok, events_body_lines|].
    apply slot_blocks_Forall. intros s t _ _. apply track_body_ok. }
  assert (Hevents_unbroken : forall ch, ch = nl \/ ch = cr ->
            Forall (fun l => ch ∉ l) (events_body c)).
  { intros ch Hch. apply events_body_no_break; [done| |].
    - eapply Forall_impl; [exact Hsecs|]. intros sec [? ?]. destruct Hch; by subst.
    - eapply Forall_impl; [exact Hevs|]. intros e [? ?]. destruct Hch; by subst. }
  assert (Hunbroken : forall ch, ch = nl \/ ch = cr -> Forall (fun l => ch ∉ l) lines).
  { intros ch Hch.
    assert (Hbr : line_break ch) by (destruct Hch; by subst).
    apply blocks_unbroken; [apply Hbr|].
    constructor; [split; [cbn [fst]; destruct Hch; subst; by_compute
                         |by eapply song_body_unbroken]|].
    constructor; [split; [cbn [fst]; destruct Hch; subst; by_compute
                         |by apply sync_body_unbroken]|].
    constructor; [split; [cbn [fst]; destruct Hch; subst; by_compute
                         |by apply Hevents_unbroken]|].
    apply slot_blocks_Forall. intros s t Hs Ht. cbn [fst snd].
    pose proof track_slots_ok as Hslots. rewrite Forall_forall in Hslots.
    destruct (Hslots s Hs) as (_ & Hnl & Hcr & _).
    destruct (Htracks _ _ _ Ht) as (_ & _ & Hev).
    split; [destruct Hch; by subst|].
    apply track_body_unbroken; [done|].
    eapply Forall_impl; [exact Hev|]. intros e [? ?]. destruct Hch; by subst. }
  assert (Hsplit : _split_sections (join [nl] lines)
                   = sect (txt "Song", song_body float_repr c) :: map sect blocks).
  { rewrite split_sections_unfold, split_on_join; [|done|apply Hunbroken; by left].
    unfold lines. rewrite split_loop_blocks by done.
    cbn [run_blocks save_section].
    apply (run_blocks_fresh blocks [] (txt "Song") _ ltac:(done)).
    - constructor; [done|]. constructor; [done|].
      apply slot_blocks_Forall. intros s t Hs _. cbn [fst].
      pose proof track_slots_ok as Hslots. rewrite Forall_forall in Hslots.
      apply (Hslots s Hs).
    - cbn [fmap list_fmap app fst blocks].
      eapply sublist_NoDup; [apply track_slots_names|].
      do 3 apply sublist_skip. apply slot_blocks_names. }
  assert (Hsong_step : parse_section (sect (txt "Song", song_body float_repr c)) new_chart
                       = Ok (song_chart c)).
  { unfold sect, parse_section. cbn [fst snd]. rewrite decide_True by done.
    unfold _parse_song_section. rewrite for_each_assignment_join.
    - by apply read_song_body.
    - apply strip_unbroken. eapply song_body_unbroken; [by left|done]. }
  assert (Hsync_step : parse_section (sect (txt "SyncTrack", sync_body c)) (song_chart c)
                       = Ok (synced_chart c)).
  { unfold sect, parse_section. cbn [fst snd].
    rewrite decide_False by str_ne. rewrite decide_True by done.
    unfold _parse_sync_track. rewrite for_each_assignment_join.
    - exact (read_sync_body c (song_chart c) Hbpm).
    - apply strip_unbroken, sync_body_unbroken, line_break_nl. }
  assert (Hevents_step :
            parse_section (sect (txt "Events", events_body c)) (synced_chart c) = Ok base).
  { unfold sect, parse_section. cbn [fst snd].
    rewrite decide_False by str_ne. rewrite decide_False by str_ne.
    rewrite decide_True by done.
    unfold _parse_events. rewrite for_each_assignment_join.
    - exact Hread.
    - apply strip_unbroken. apply Hevents_unbroken. by left. }
  exists (join [nl] lines). split; [done|].
  change (parse_file float_of_str (join [nl] lines))
    with (for_each (_split_sections (universal_newlines (join [nl] lines)))
            parse_section new_chart).
  rewrite universal_newlines_id.
  2:{ intros [Hin|(l & Hl & Hin)]%elem_of_join.
      - apply list_elem_of_singleton in Hin. done.
      - pose proof (Hunbroken cr (or_intror eq_refl)) as Hcr.
        rewrite Forall_forall in Hcr. by apply (Hcr l). }
  rewrite Hsplit. unfold blocks. cbn [map for_each].
  rewrite Hsong_step. simpl_bind. rewrite Hsync_step. simpl_bind.
  rewrite Hevents_step. simpl_bind.
  apply read_track_blocks; [apply track_slots_ok|done].
Qed.

(** The fields of the chart that [parse_file] returns on the written file. *)
Lemma stored_chart_fields (c : Chart) (secs : list ChartSection) (evs : list Event) :
  (forall i d t, get_track c i d = Some t -> track_ok t) ->
  let c' := foldl (store_slot c) (with_events (synced_chart c) secs evs) track_slots in
  (name c' = name c /\ artist c' = artist c /\ album c' = album c /\
   genre c' = (if decide (genre c <> []) then genre c else txt "rock") /\
   year c' = year c /\ charter c' = charter c /\
   offset c' = offset c /\ resolution c' = resolution c /\
   difficulty c' = (if decide (0 <= difficulty c) then difficulty c else -1) /\
   preview_start c'
     = (if PyFloat.gt0 (preview_start c) then preview_start c else S754_zero false) /\
   preview_end c'
     = (if PyFloat.gt0 (preview_end c) then preview_end c else S754_zero false)) /\
  bpm_changes c' = map bpm_back (py_sorted bpm_le (bpm_changes c)) /\
  time_signatures c' = map ts_back (py_sorted ts_le (time_signatures c)) /\
  sections c' = secs /\ events c' = evs /\
  (forall i d,
     match get_track c i d with
     | None => get_track c' i d = None
     | Some t =>
         exists t',
           get_track c' i d = Some t' /\
           notes t' = map (read_back (py_sorted note_le (notes t)))
                        (py_sorted note_le (notes t)) /\
           star_power t' = py_sorted sp_le (star_power t) /\
           map event_tick (track_events t')
             = map event_tick (py_sorted event_le (track_events t))
     end).
Proof.
  intros Htracks c'. unfold c'.
  set (base := with_events (synced_chart c) secs evs).
  destruct (meta_stored c base track_slots)
    as (Hname & Hartist & Halbum & Hgenre & Hyear & Hcharter & Hoffset & Hres & Hdiff &
        Hps & Hpe & Hbpms & Htss & Hsections & Hevents).
  split.
  { rewrite Hname, Hartist, Halbum, Hgenre, Hyear, Hcharter, Hoffset, Hres, Hdiff,
      Hps, Hpe. repeat split; reflexivity. }
  rewrite Hbpms, Htss, Hsections, Hevents.
  do 4 (split; [reflexivity|]).
  intros i d.
  rewrite (get_track_stored c base track_slots i d track_slots_keys track_slots_ok).
  destruct (get_track c i d) as [t|] eqn:Ht.
  - assert (Hi : i <> COOP) by (intros ->; discriminate Ht).
    rewrite decide_True by (by apply track_slots_all).
    destruct (track_body_reads_back t (Htracks _ _ _ Ht)) as (_ & Hn & Hsp & Het).
    exists (parsed_track t). done.
  - assert (Hbase : get_track base i d = None).
    { destruct i; first [exact (lookup_empty d) | reflexivity]. }
    rewrite Hbase. by destruct (decide ((i, d) ∈ map fst track_slots)).
Qed.

(** X17: a chart written by [write_file] and read by [parse_file] comes
    back: the writer does not raise, the parser does not raise on the text,
    and the chart it returns has the name, artist, album, year, charter,
    offset and resolution of the original; an empty genre comes back as
    "rock", a negative difficulty as -1 and a preview time that is not
    positive as 0.0, since the writer leaves those lines out.  Tempo changes
    come back in tick order with the BPM [int(bpm * 1000) / 1000.0], time
    signatures in tick order with denominator 2, section markers in tick
    order with every "section " removed from the name, global events in tick
    order and unchanged.  Each track of the seven written instruments comes
    back in its slot, read as a track section reads it, and every slot
    that was empty stays empty.  This needs metadata, marker names and event
    texts without line breaks, metadata and event texts that neither begin
    nor end with a double quote, marker names without one, no global event
    whose text begins with "section", float texts that read back, tempos
    that convert, and in every track notes with pairwise different
    (tick, fret), none of them on fret 5 or 6. *)
Theorem written_chart_reads_back (c : Chart) :
  chart_writable c ->
  exists text c',
    write_file float_repr c = Ok text /\
    parse_file float_of_str text = Ok c' /\
    (name c' = name c /\ artist c' = artist c /\ album c' = album c /\
     genre c' = (if decide (genre c <> []) then genre c else txt "rock") /\
     year c' = year c /\ charter c' = charter c /\
     offset c' = offset c /\ resolution c' = resolution c /\
     difficulty c' = (if decide (0 <= difficulty c) then difficulty c else -1) /\
     preview_start c'
       = (if PyFloat.gt0 (preview_start c) then preview_start c else S754_zero false) /\
     preview_end c'
       = (if PyFloat.gt0 (preview_end c) then preview_end c else S754_zero false)) /\
    Forall2 (fun b b' => read_back_bpm b = Ok b')
      (py_sorted bpm_le (bpm_changes c)) (bpm_changes c') /\
    time_signatures c' = map ts_back (py_sorted ts_le (time_signatures c)) /\
    sections c' = map section_back (py_sorted sec_le (sections c)) /\
    events c' = py_sorted event_le (events c) /\
    (forall i d,
       match get_track c i d with
       | None => get_track c' i d = None
       | Some t =>
           exists t',
             get_track c' i d = Some t' /\
             notes t' = map (read_back (py_sorted note_le (notes t)))
                          (py_sorted note_le (notes t)) /\
             star_power t' = py_sorted sp_le (star_power t) /\
             map event_tick (track_events t')
               = map event_tick (py_sorted event_le (track_events t))
       end).
Proof.
  intros Hw. pose proof (chart_writable_printable c Hw) as Hp.
  destruct Hw as (Hsong & Hbpm & Hsecs & Hevs & Htracks).
  destruct (written_chart_parses c _ _ Hp (read_events_body c (synced_chart c) Hsecs Hevs))
    as (text & Hwrite & Hparse).
  destruct (stored_chart_fields c (map section_back (py_sorted sec_le (sections c)))
              (py_sorted event_le (events c)) Htracks)
    as (Hmeta & Hbpms & Htss & Hsections & Hevents & Htrk).
  exists text. eexists. split; [exact Hwrite|]. split; [exact Hparse|].
  split; [exact Hmeta|].
  split; [rewrite Hbpms; apply bpm_back_reads; by rewrite py_sorted_perm|].
  split; [exact Htss|]. split; [exact Hsections|]. split; [exact Hevents|exact Htrk].
Qed.



End WrittenFile.

Section WrittenFileWitness.
Import ChartParser PyStr.

(** The chart of the parser's own self-test: a name, an artist, one tempo
    of 120 BPM, one 4/4 time signature and an expert guitar track.  Its only
    float written as a float is the offset 0.0, whose text is "0.0". *)
Definition test_chart : Chart :=
  set_track
    (with_sync
       (with_song new_chart (txt "Test Song") (txt "Test Artist") [] (txt "rock") [] []
          (S754_zero false) 192 (-1) (S754_zero false) (S754_zero false))
       [mkBPMChange 0 (PyFloat.dec 1200 1)] [mkTimeSignature 0 4 2])
    GUITAR EXPERT test_track.

Definition zero_text (x : spec_float) : str := txt "0.0".

Definition read_zero (s : str) : result spec_float :=
  if decide (s = txt "0.0") then Ok (S754_zero false) else Raise ValueError.

Lemma written_chart_reads_back_witness :
  exists text c',
    write_file zero_text test_chart = Ok text /\
    parse_file read_zero text = Ok c' /\
    (name c' = name test_chart /\ artist c' = artist test_chart /\
     album c' = album test_chart /\
     genre c' = (if decide (genre test_chart <> []) then genre test_chart else txt "rock") /\
     year c' = year test_chart /\ charter c' = charter test_chart /\
     offset c' = offset test_chart /\ resolution c' = resolution test_chart /\
     difficulty c'
       = (if decide (0 <= difficulty test_chart) then difficulty test_chart else -1) /\
     preview_start c'
       = (if PyFloat.gt0 (preview_start test_chart) then preview_start test_chart
          else S754_zero false) /\
     preview_end c'
       = (if PyFloat.gt0 (preview_end test_chart) then preview_end test_chart
          else S754_zero false)) /\
    Forall2 (fun b b' => read_back_bpm b = Ok b')
      (py_sorted bpm_le (bpm_changes test_chart)) (bpm_changes c') /\
    time_signatures c' = map ts_back (py_sorted ts_le (time_signatures test_chart)) /\
    sections c' = map section_back (py_sorted sec_le (sections test_chart)) /\
    events c' = py_sorted event_le (events test_chart) /\
    (forall i d,
       match get_track test_chart i d with
       | None => get_track c' i d = None
       | Some t =>
           exists t',
             get_track c' i d = Some t' /\
             notes t' = map (read_back (py_sorted note_le (notes t)))
                          (py_sorted note_le (notes t)) /\
             star_power t' = py_sorted sp_le (star_power t) /\
             map event_tick (track_events t')
               = map event_tick (py_sorted event_le (track_events t))
       end).
Proof.
  apply (written_chart_reads_back read_zero zero_text test_chart).
  assert (Htext : forall s, Forall (fun c => bool_decide (c ∈ [dq]) = false) s ->
                    (nl ∉ s) -> (cr ∉ s) -> text_ok s).
  { intros s Hs Hnl Hcr. split; [done|]. split; [done|]. by apply tight_free. }
  split; [|split; [|split; [|split]]].
  - split; [apply Htext; by_compute|].
    split; [apply Htext; by_compute|].
    split; [apply Htext; by_compute|].
    split; [apply Htext; by_compute|].
    split; [apply Htext; by_compute|].
    split; [apply Htext; by_compute|].
    split; [|split; intros H; discriminate H].
    split; [by_compute|]. split; [by_compute|reflexivity].
  - constructor; [|constructor]. eexists. vm_compute. reflexivity.
  - constructor.
  - constructor.
  - intros i d t Ht.
    destruct i, d; vm_compute in Ht; try discriminate Ht.
    injection Ht as <-. split; [by_compute|]. split; by_compute.
Defined.





End WrittenFileWitness.
